(** * The ZenML pipeline compiler (zenml/config/compiler.py)

    A shallow embedding of [Compiler] and of the collaborators it calls,
    followed by the properties of the compiler that the specification
    states.

    Python objects that the compiler mutates (pipelines and steps) live in
    an explicit store addressed by locations; dictionaries are association
    lists in insertion order; sets of step names are [gset string];
    exceptions are values of an error monad that also threads the store
    and the log. *)

From Equations Require Import Equations.
From Stdlib Require Import String Ascii.
From stdpp Require Import gmap strings list sorting.

(** ** Dictionaries

    A Python [dict] keeps its keys in insertion order and the compiler's
    loops, log and first error depend on that order. *)

Module Dict.

Definition t (V : Type) : Type := list (string * V).

Definition keys {V} (d : t V) : list string := d.*1.

Definition values {V} (d : t V) : list V := d.*2.

Fixpoint get {V} (d : t V) (k : string) : option V :=
  match d with
  | [] => None
  | (k', v) :: d' => if decide (k' = k) then Some v else get d' k
  end.

Definition mem {V} (k : string) (d : t V) : bool :=
  bool_decide (k ∈ keys d).

(** [d[k] = v]: an existing key keeps its position. *)
Fixpoint set {V} (d : t V) (k : string) (v : V) : t V :=
  match d with
  | [] => [(k, v)]
  | (k', v') :: d' =>
      if decide (k' = k) then (k, v) :: d' else (k', v') :: set d' k v
  end.

(** [{k: v for k, v in items}]: later items overwrite earlier ones. *)
Definition of_items {V} (items : list (string * V)) : t V :=
  foldl (λ d kv, set d kv.1 kv.2) [] items.

(** A key-wise merge: keys of [upd] are written into [d], combining with
    [f] the values of keys present on both sides. *)
Definition merge_with {V} (f : V → V → V) (d upd : t V) : t V :=
  foldl (λ acc kv,
           match get acc kv.1 with
           | Some old => set acc kv.1 (f old kv.2)
           | None => set acc kv.1 kv.2
           end) d upd.

Lemma get_Some_elem {V} (d : t V) k v : get d k = Some v → (k, v) ∈ d.
Proof.
  induction d as [|[k' v'] d IH]; simpl; [done|].
  case_decide as Hk; intros Hv.
  - injection Hv as <-. subst k'. apply list_elem_of_here.
  - apply list_elem_of_further. auto.
Qed.

Lemma get_None {V} (d : t V) k : get d k = None ↔ k ∉ keys d.
Proof.
  unfold keys. induction d as [|[k' v'] d IH]; simpl.
  - split; [intros _; apply not_elem_of_nil | done].
  - rewrite not_elem_of_cons. case_decide as Hk; [|rewrite IH]; naive_solver.
Qed.

Lemma get_is_Some {V} (d : t V) k : is_Some (get d k) ↔ k ∈ keys d.
Proof.
  rewrite <- not_eq_None_Some, get_None.
  split; [apply dec_stable | auto].
Qed.

Lemma elem_get {V} (d : t V) k v :
  NoDup (keys d) → (k, v) ∈ d → get d k = Some v.
Proof.
  unfold keys. induction d as [|[k' v'] d IH]; simpl.
  - intros _ H. by apply elem_of_nil in H.
  - rewrite NoDup_cons. intros [Hk Hd] [H|H]%elem_of_cons.
    + simplify_eq. by rewrite decide_True.
    + rewrite decide_False; [auto|].
      intros ->. apply Hk. apply list_elem_of_fmap. by exists (k, v).
Qed.

Lemma keys_set {V} (d : t V) k v :
  keys (set d k v) = if mem k d then keys d else keys d ++ [k].
Proof.
  unfold mem, keys. induction d as [|[k' v'] d IH]; [done|].
  cbn [set]. destruct (decide (k' = k)) as [->|Hne]; rewrite !fmap_cons.
  - rewrite bool_decide_true; [done | apply list_elem_of_here].
  - rewrite IH. cbn [fst]. destruct (bool_decide_reflect (k ∈ d.*1)).
    + rewrite bool_decide_true; [done | by apply list_elem_of_further].
    + rewrite bool_decide_false; [done|].
      rewrite not_elem_of_cons. naive_solver.
Qed.

Lemma elem_keys_set {V} (d : t V) k v x :
  x ∈ keys (set d k v) ↔ x = k ∨ x ∈ keys d.
Proof.
  rewrite keys_set. unfold mem. case_bool_decide.
  - naive_solver.
  - rewrite elem_of_app, list_elem_of_singleton. naive_solver.
Qed.

Lemma NoDup_keys_set {V} (d : t V) k v :
  NoDup (keys d) → NoDup (keys (set d k v)).
Proof.
  intros Hd. rewrite keys_set. unfold mem. case_bool_decide; [done|].
  apply NoDup_app. split_and!; [done | | apply NoDup_singleton].
  intros x Hx ->%list_elem_of_singleton. done.
Qed.

Lemma get_set {V} (d : t V) k v k' :
  get (set d k v) k' = if decide (k = k') then Some v else get d k'.
Proof.
  induction d as [|[k0 v0] d IH]; simpl.
  - by case_decide.
  - destruct (decide (k0 = k)) as [->|Hne]; simpl.
    + by case_decide.
    + rewrite IH. repeat case_decide; by simplify_eq.
Qed.

Lemma elem_of_set {V} (d : t V) k v x :
  x ∈ set d k v → x ∈ d ∨ x = (k, v).
Proof.
  induction d as [|[k' v'] d IH]; cbn [set].
  - intros ->%list_elem_of_singleton. by right.
  - destruct (decide (k' = k)) as [->|Hne].
    + intros [->|Hx]%elem_of_cons; [by right|].
      left. by apply list_elem_of_further.
    + intros [->|Hx]%elem_of_cons; [left; apply list_elem_of_here|].
      destruct (IH Hx) as [?|?]; [|by right].
      left. by apply list_elem_of_further.
Qed.

Lemma set_fresh {V} (d : t V) k v :
  k ∉ keys d → set d k v = d ++ [(k, v)].
Proof.
  unfold keys. induction d as [|[k' v'] d IH]; simpl; [done|].
  rewrite not_elem_of_cons. intros [? ?].
  rewrite decide_False by done. by rewrite IH.
Qed.

Lemma of_items_NoDup {V} (items : list (string * V)) :
  NoDup items.*1 → of_items items = items.
Proof.
  unfold of_items.
  enough (∀ acc, NoDup (acc ++ items).*1 →
            foldl (λ d kv, set d kv.1 kv.2) acc items = acc ++ items) as H
    by (intros Hn; apply (H [] Hn)).
  induction items as [|[k v] items IH]; intros acc Hn; simpl.
  - by rewrite app_nil_r.
  - rewrite set_fresh.
    + rewrite IH; rewrite <- app_assoc; done.
    + rewrite fmap_app in Hn. apply NoDup_app in Hn as (_ & Hn & _).
      intros Hk. apply (Hn k Hk). apply list_elem_of_here.
Qed.

Lemma elem_keys_merge_with {V} (f : V → V → V) (d upd : t V) x :
  x ∈ keys (merge_with f d upd) ↔ x ∈ keys d ∨ x ∈ keys upd.
Proof.
  unfold merge_with. revert d.
  induction upd as [|[k v] upd IH]; intros d.
  - cbn. split; [auto | intros [?|H]; [done | by apply elem_of_nil in H]].
  - cbn [foldl]. rewrite IH. cbn [fst snd].
    replace (keys ((k, v) :: upd)) with (k :: keys upd) by done.
    rewrite elem_of_cons.
    destruct (get d k); rewrite elem_keys_set; naive_solver.
Qed.

Lemma elem_of_of_items {V} (items : list (string * V)) x :
  x ∈ of_items items → x ∈ items.
Proof.
  unfold of_items.
  enough (∀ acc, x ∈ foldl (λ d kv, set d kv.1 kv.2) acc items →
            x ∈ acc ∨ x ∈ items) as H.
  { intros Hx. destruct (H [] Hx) as [Hnil|?]; [|done].
    by apply elem_of_nil in Hnil. }
  induction items as [|[k v] items IH]; intros acc; simpl; [by left|].
  intros [Hacc|Hin]%IH.
  - apply elem_of_set in Hacc as [? | ->]; [by left|].
    right. apply list_elem_of_here.
  - right. by apply list_elem_of_further.
Qed.

End Dict.

(** ** Dependency graphs

    A graph is given by the function that lists the parents (upstream
    nodes) of a node. *)

Module Graph.

Definition edge (parents : string → list string) : relation string :=
  λ n p, p ∈ parents n.

(** No node reaches itself along one or more edges. *)
Definition acyclic (parents : string → list string) : Prop :=
  ∀ n, ¬ tc (edge parents) n n.

Definition has_cycle (parents : string → list string) : Prop :=
  ∃ n, tc (edge parents) n n.

(** Every parent of a node of [l] stands in [l] strictly before each
    occurrence of that node. *)
Definition topological (parents : string → list string)
    (l : list string) : Prop :=
  ∀ l1 n l2, l = l1 ++ n :: l2 → ∀ p, p ∈ parents n → p ∈ l1.

Fixpoint index_of (x : string) (l : list string) : nat :=
  match l with
  | [] => 0
  | y :: l' => if decide (y = x) then 0 else S (index_of x l')
  end.

Lemma index_of_app_fresh x l1 l2 :
  x ∉ l1 → index_of x (l1 ++ x :: l2) = length l1.
Proof.
  induction l1 as [|y l1 IH]; simpl.
  - intros _. by rewrite decide_True.
  - rewrite not_elem_of_cons. intros [? ?].
    rewrite decide_False by done. by rewrite IH.
Qed.

Lemma index_of_lt x l : x ∈ l → index_of x l < length l.
Proof.
  induction l as [|y l IH]; simpl.
  - intros H. by apply elem_of_nil in H.
  - intros H. destruct (decide (y = x)); [lia|].
    apply elem_of_cons in H as [?|?]; [done|].
    specialize (IH ltac:(done)). lia.
Qed.

Lemma index_of_app_l x l1 l2 :
  x ∈ l1 → index_of x (l1 ++ l2) = index_of x l1.
Proof.
  induction l1 as [|y l1 IH]; simpl.
  - intros H. by apply elem_of_nil in H.
  - intros H. destruct (decide (y = x)); [done|].
    apply elem_of_cons in H as [?|?]; [done|]. by rewrite IH.
Qed.

(** A list in topological order that contains every node with parents
    ranks the nodes: edges go to strictly smaller indices. *)
Lemma topological_edge_index parents l n p :
  topological parents l → n ∈ l → edge parents n p →
  index_of p l < index_of n l.
Proof.
  intros Htop Hn Hp.
  apply list_elem_of_split_l in Hn as (l1 & l2 & -> & Hfresh).
  rewrite (index_of_app_fresh n l1 l2 Hfresh).
  pose proof (Htop l1 n l2 eq_refl p Hp) as Hin.
  rewrite index_of_app_l by done. by apply index_of_lt.
Qed.

Lemma topological_acyclic parents l :
  topological parents l →
  (∀ n, parents n ≠ [] → n ∈ l) →
  acyclic parents.
Proof.
  intros Htop Hall.
  assert (∀ a b, tc (edge parents) a b → index_of b l < index_of a l) as Hlt.
  { induction 1 as [a b Hab | a b c Hab _ IH].
    - apply (topological_edge_index parents); [done | | done].
      apply Hall. intros Hnil. unfold edge in Hab. rewrite Hnil in Hab.
      by apply elem_of_nil in Hab.
    - etrans; [exact IH|].
      apply (topological_edge_index parents); [done | | done].
      apply Hall. intros Hnil. unfold edge in Hab. rewrite Hnil in Hab.
      by apply elem_of_nil in Hab. }
  intros n Hn. specialize (Hlt n n Hn). lia.
Qed.

(** In a finite non-empty set of nodes each of which has a successor in
    the set, some node lies on a cycle. *)
Lemma successors_cycle (l : list string) :
  ∀ R : relation string,
    l ≠ [] → (∀ x, x ∈ l → ∃ y, y ∈ l ∧ R x y) → ∃ x, x ∈ l ∧ tc R x x.
Proof.
  remember (length l) as k eqn:Hk. revert l Hk.
  induction k as [k IH] using lt_wf_ind. intros l -> R Hne Hsucc.
  destruct l as [|x l']; [done|].
  destruct (Hsucc x) as (y & Hy & Hxy); [apply list_elem_of_here|].
  destruct (decide (y = x)) as [->|Hyx].
  { exists x. split; [apply list_elem_of_here | by apply tc_once]. }
  set (l'' := filter (λ z, z ≠ x) l').
  set (R' := λ a b, R a b ∨ (R a x ∧ R x b)).
  assert (∀ z, z ∈ l'' ↔ z ∈ x :: l' ∧ z ≠ x) as Hl''.
  { intros z. unfold l''. rewrite list_elem_of_filter, elem_of_cons.
    naive_solver. }
  assert (y ∈ l'') as Hy'' by (by apply Hl'').
  destruct (IH (length l'')) with (l := l'') (R := R') as (z & Hz & Hzz).
  - unfold l''. pose proof (length_filter (λ z, z ≠ x) l'). simpl. lia.
  - done.
  - intros ->. by apply elem_of_nil in Hy''.
  - intros a [Ha Hax]%Hl''.
    destruct (Hsucc a Ha) as (b & Hb & Hab).
    destruct (decide (b = x)) as [->|Hbx].
    + exists y. split; [done|]. by right.
    + exists b. split; [by apply Hl'' | by left].
  - exists z. split; [by apply Hl'' in Hz as [? _]|].
    revert Hzz. generalize z at 1 3. generalize z. subst R'.
    intros a b Hzz. induction Hzz as [a b Hab | a b c Hab _ IH'].
    + destruct Hab as [Hab|[Hax Hxb]]; [by apply tc_once|].
      eapply tc_l; [exact Hax|]. by apply tc_once.
    + destruct Hab as [Hab|[Hax Hxb]].
      * by eapply tc_l.
      * eapply tc_l; [exact Hax|]. by eapply tc_l.
Qed.

End Graph.

(** ** Data model

    One module per Python class, so that attributes keep their names. *)

(** Objects that are mutated in place are referred to by location. *)
Definition loc : Type := positive.

(** A resolved source: the serialisable reference to the code of a step or
    a pipeline that [resolve()] returns. *)
Definition Source : Type := string.

(** zenml.config.base_settings.ConfigurationLevel *)
Inductive ConfigurationLevel : Type := STEP | PIPELINE.

#[global] Instance ConfigurationLevel_eq_dec : EqDecision ConfigurationLevel.
Proof. solve_decision. Defined.

Definition level_name (level : ConfigurationLevel) : string :=
  match level with STEP => "STEP" | PIPELINE => "PIPELINE" end.

Module BaseSettings.
(** A settings object: the levels its class may be configured on
    ([LEVEL]) and the values of its fields. *)
Record t : Type := mk {
  LEVEL : list ConfigurationLevel;
  values : Dict.t string
}.
End BaseSettings.

Module StepConfiguration.
Record t : Type := mk {
  enable_cache : option bool;
  enable_artifact_metadata : option bool;
  enable_artifact_visualization : option bool;
  step_operator : option string;
  experiment_tracker : option string;
  settings : Dict.t BaseSettings.t;
  extra : Dict.t string;
  failure_hook_source : option Source;
  success_hook_source : option Source
}.
End StepConfiguration.

Module StepConfigurationUpdate.
(** The keyword arguments of [BaseStep.configure] and the per-step
    entries of a run configuration: [None] leaves a field as it is. *)
Record t : Type := mk {
  enable_cache : option bool;
  enable_artifact_metadata : option bool;
  enable_artifact_visualization : option bool;
  step_operator : option string;
  experiment_tracker : option string;
  settings : option (Dict.t BaseSettings.t);
  extra : option (Dict.t string);
  failure_hook_source : option Source;
  success_hook_source : option Source
}.

Definition empty : t :=
  mk None None None None None None None None None.
End StepConfigurationUpdate.

Module PipelineConfiguration.
Record t : Type := mk {
  enable_cache : option bool;
  enable_artifact_metadata : option bool;
  enable_artifact_visualization : option bool;
  settings : Dict.t BaseSettings.t;
  extra : Dict.t string;
  failure_hook_source : option Source;
  success_hook_source : option Source
}.
End PipelineConfiguration.

Module PipelineConfigurationUpdate.
Record t : Type := mk {
  enable_cache : option bool;
  enable_artifact_metadata : option bool;
  enable_artifact_visualization : option bool;
  settings : option (Dict.t BaseSettings.t);
  extra : option (Dict.t string)
}.
End PipelineConfigurationUpdate.

Module BaseStep.
(** A step object; [source] is what [resolve()] returns. *)
Record t : Type := mk {
  source : Source;
  configuration : StepConfiguration.t
}.
End BaseStep.

Module StepArtifact.
Record t : Type := mk {
  invocation_id : string;
  output_name : string
}.
End StepArtifact.

Module StepInvocation.
(** The compiler never assigns to an attribute of an invocation; what it
    mutates is the step object that the invocation refers to, and two
    invocations may refer to the same step object. *)
Record t : Type := mk {
  id : string;
  step : loc;
  upstream_steps : gset string;
  input_artifacts : Dict.t StepArtifact.t
}.
End StepInvocation.

Module Pipeline.
(** [is_base_pipeline] is [isinstance(pipeline, BasePipeline)] and
    [source] is what [resolve()] returns. *)
Record t : Type := mk {
  name : string;
  configuration : PipelineConfiguration.t;
  invocations : Dict.t StepInvocation.t;
  is_base_pipeline : bool;
  source : Source;
  _parameters : Dict.t string
}.
End Pipeline.

Module PipelineRunConfiguration.
Record t : Type := mk {
  run_name : option string;
  enable_cache : option bool;
  enable_artifact_metadata : option bool;
  enable_artifact_visualization : option bool;
  steps : Dict.t StepConfigurationUpdate.t;
  settings : Dict.t BaseSettings.t;
  extra : Dict.t string
}.
End PipelineRunConfiguration.

Module SettingsClass.
(** A settings class of a stack component: the names of its fields
    ([__fields__]) and its [LEVEL]. *)
Record t : Type := mk {
  __fields__ : list string;
  LEVEL : list ConfigurationLevel
}.
End SettingsClass.

Module StackComponentConfig.
(** A pydantic model: its field values, the fields that were set
    explicitly, and the defaults of its class. *)
Record t : Type := mk {
  values : Dict.t string;
  fields_set : list string;
  defaults : Dict.t string
}.
End StackComponentConfig.

Module StackComponent.
Record t : Type := mk {
  name : string;
  type : string;
  flavor : string;
  settings_class : option SettingsClass.t;
  config : StackComponentConfig.t
}.
End StackComponent.

Module Stack.
Record t : Type := mk {
  name : string;
  components : Dict.t StackComponent.t;
  step_operator : option StackComponent.t;
  experiment_tracker : option StackComponent.t
}.
End Stack.

Module InputSpec.
Record t : Type := mk {
  step_name : string;
  output_name : string
}.
End InputSpec.

Module StepSpec.
Record t : Type := mk {
  source : Source;
  upstream_steps : list string;
  inputs : Dict.t InputSpec.t;
  pipeline_parameter_name : string
}.
End StepSpec.

Module Step.
Record t : Type := mk {
  spec : StepSpec.t;
  config : StepConfiguration.t
}.
End Step.

Module PipelineSpec.
(** [version], [source] and [parameters] are keyword arguments that
    [_compute_pipeline_spec] passes or leaves out. *)
Record t : Type := mk {
  version : option string;
  source : option Source;
  parameters : option (Dict.t string);
  steps : list StepSpec.t
}.
End PipelineSpec.

Module PipelineDeploymentBaseModel.
Record t : Type := mk {
  run_name_template : string;
  pipeline_configuration : PipelineConfiguration.t;
  step_configurations : Dict.t Step.t;
  client_environment : Dict.t string
}.
End PipelineDeploymentBaseModel.

(** ** Exceptions *)

Inductive exn_class : Type :=
  | KeyError
  | RuntimeError
  | TypeError
  | ValueError
  | StackValidationError
  | SystemError.

#[global] Instance exn_class_eq_dec : EqDecision exn_class.
Proof. solve_decision. Defined.

(** What the message of an exception is built from. *)
Inductive exn_args : Type :=
  | NoStepWithName (step_name : string)
  | InvalidUpstreamSteps (invalid available : gset string)
  | CycleDetected
  | InvalidRunName (run_name : string) (valid_placeholder_names : gset string)
  | InvalidFormatString (reason : string)
  | UnsupportedLevel (settings_instance : BaseSettings.t)
      (configuration_level : ConfigurationLevel)
  | MissingStepOperator (step_name step_operator stack_name : string)
      (available : gset string)
  | MissingExperimentTracker (step_name experiment_tracker stack_name : string)
      (available : gset string)
  | UnresolvedSettingsKey (key : string)
  | DanglingReference (l : loc).

Record exn : Type := Exn { exn_cls : exn_class; exn_payload : exn_args }.

Inductive res (A : Type) : Type :=
  | Ok (a : A)
  | Raise (e : exn).
Arguments Ok {A} a.
Arguments Raise {A} e.

Definition is_Ok {A} (r : res A) : Prop :=
  match r with Ok _ => True | Raise _ => False end.

(** ** Topological layering *)

Module topsort.

Section layers.
Context (get_parent_nodes get_child_nodes : string → list string).

(** The nodes of [rest] that are children of a node of [layer] and whose
    parents have all been placed, in the order of [rest]. *)
Definition next_layer (visited layer rest : list string) : list string :=
  filter (λ node,
            Exists (λ n, node ∈ get_child_nodes n) layer
            ∧ Forall (λ p, p ∈ visited ++ layer) (get_parent_nodes node))
         rest.

(** The measure of the loop: an iteration either places a node of
    [rest] or produces the empty layer that ends the loop. *)
Definition pending (layer rest : list string) : nat :=
  length rest + match layer with [] => 0 | _ :: _ => 1 end.

Lemma next_layer_decreases visited layer rest :
  pending (next_layer visited layer rest)
    (filter (λ node, node ∉ next_layer visited layer rest) rest)
  ≤ length rest.
Proof.
  unfold pending.
  destruct (next_layer visited layer rest) as [|x next] eqn:Hnext.
  - pose proof (length_filter (λ node, node ∉ []) rest) as Hle. lia.
  - assert (x ∈ rest) as Hx.
    { assert (x ∈ next_layer visited layer rest) as Hx
        by (rewrite Hnext; apply list_elem_of_here).
      unfold next_layer in Hx. by apply list_elem_of_filter in Hx as [_ ?]. }
    apply list_elem_of_split in Hx as (r1 & r2 & ->).
    rewrite filter_app, filter_cons, decide_False.
    + rewrite !length_app. cbn [length].
      pose proof (length_filter (λ node, node ∉ x :: next) r1).
      pose proof (length_filter (λ node, node ∉ x :: next) r2). lia.
    + intros Hn. apply Hn. apply list_elem_of_here.
Qed.

(** The loop of the layering: [layer] is the layer to emit, [visited]
    the nodes of the layers before it, [rest] the nodes not yet
    placed. It stops at the first empty layer. *)
Equations? layering (visited layer rest : list string) :
    list (list string) by wf (pending layer rest) lt :=
  layering visited [] rest := [];
  layering visited (n :: layer) rest :=
    (n :: layer) ::
      layering (visited ++ n :: layer)
        (next_layer visited (n :: layer) rest)
        (filter (λ node, node ∉ next_layer visited (n :: layer) rest) rest).
Proof.
  pose proof (next_layer_decreases visited (n :: layer) rest).
  unfold pending in *. lia.
Qed.

(** Modelled from the spec: zenml.orchestrators.topsort.topsorted_layers,
    which is imported by the compiler and is not part of the sources.
    Section 4.1: the first layer holds the nodes without parents; a node
    is placed in the earliest layer that comes after the layers of all
    its parents; inside a layer the nodes stand in the insertion order
    of [nodes]; nodes that are left over once layering has stopped lie
    on a cycle and are reported as an error. The compiler passes the
    identity as [get_node_id_fn], so nodes are their identifiers. *)
Definition topsorted_layers (nodes : list string) :
    res (list (list string)) :=
  let first := filter (λ node, get_parent_nodes node = []) nodes in
  let layers :=
    layering [] first (filter (λ node, node ∉ first) nodes) in
  if decide (length (concat layers) < length nodes)
  then Raise (Exn RuntimeError CycleDetected)
  else Ok layers.

(** *** What the layering guarantees *)

(** Each node of [l] comes after all its parents, which stand in
    [visited] or earlier in [l]. *)
Fixpoint ordered (visited l : list string) : Prop :=
  match l with
  | [] => True
  | n :: l' =>
      (∀ p, p ∈ get_parent_nodes n → p ∈ visited)
      ∧ ordered (visited ++ [n]) l'
  end.

Lemma ordered_mono visited visited' l :
  (∀ x, x ∈ visited → x ∈ visited') →
  ordered visited l → ordered visited' l.
Proof.
  revert visited visited'.
  induction l as [|n l IH]; intros visited visited' Hsub; simpl; [done|].
  intros [Hn Hl]. split; [auto|].
  eapply IH; [|exact Hl].
  intros x. rewrite !elem_of_app. naive_solver.
Qed.

Lemma ordered_app visited l k :
  ordered visited (l ++ k) ↔ ordered visited l ∧ ordered (visited ++ l) k.
Proof.
  revert visited. induction l as [|n l IH]; intros visited; simpl.
  - rewrite app_nil_r. naive_solver.
  - rewrite IH, <- app_assoc. simpl. naive_solver.
Qed.

Lemma ordered_layer visited l :
  Forall (λ n, ∀ p, p ∈ get_parent_nodes n → p ∈ visited) l →
  ordered visited l.
Proof.
  revert visited. induction l as [|n l IH]; intros visited; simpl; [done|].
  intros [Hn Hl]%Forall_cons. split; [done|].
  apply IH. eapply Forall_impl; [exact Hl|].
  intros m Hm q Hq. apply elem_of_app. left. auto.
Qed.

Lemma ordered_topological l :
  ordered [] l → Graph.topological get_parent_nodes l.
Proof.
  intros Hord l1 n l2 -> q Hq.
  apply ordered_app in Hord as [_ Hord]. simpl in Hord.
  destruct Hord as [Hn _]. auto.
Qed.

Lemma next_layer_ready visited layer rest :
  Forall (λ n, ∀ p, p ∈ get_parent_nodes n → p ∈ visited ++ layer)
    (next_layer visited layer rest).
Proof.
  apply Forall_forall. intros n Hn.
  unfold next_layer in Hn. apply list_elem_of_filter in Hn as [[_ Hn] _].
  intros q Hq. rewrite Forall_forall in Hn. auto.
Qed.

Lemma layering_ordered visited layer rest :
  Forall (λ n, ∀ p, p ∈ get_parent_nodes n → p ∈ visited) layer →
  ordered visited (concat (layering visited layer rest)).
Proof.
  funelim (layering visited layer rest); simp layering; [done|].
  intros Hlayer. cbn [concat]. apply ordered_app. split.
  - by apply ordered_layer.
  - apply H. apply next_layer_ready.
Qed.

Lemma layering_elem visited layer rest x :
  x ∈ concat (layering visited layer rest) → x ∈ layer ∨ x ∈ rest.
Proof.
  funelim (layering visited layer rest); simp layering.
  - intros Hx. by apply elem_of_nil in Hx.
  - cbn [concat]. rewrite elem_of_app. intros [Hx|Hx]; [by left|].
    apply H in Hx. right. destruct Hx as [Hx|Hx].
    + unfold next_layer in Hx. by apply list_elem_of_filter in Hx as [_ ?].
    + by apply list_elem_of_filter in Hx as [_ ?].
Qed.

Lemma layering_layer visited layer rest x :
  x ∈ layer → x ∈ concat (layering visited layer rest).
Proof.
  destruct layer as [|n layer]; simp layering.
  - intros Hx. by apply elem_of_nil in Hx.
  - intros Hx. cbn [concat]. apply elem_of_app. by left.
Qed.

Lemma layering_NoDup visited layer rest :
  NoDup (layer ++ rest) → NoDup (concat (layering visited layer rest)).
Proof.
  funelim (layering visited layer rest); simp layering.
  - intros _. apply NoDup_nil_2.
  - intros [Hl [Hdisj Hr]]%NoDup_app. cbn [concat].
    apply NoDup_app. split_and!; [done| |].
    + intros x Hx Hx'. apply layering_elem in Hx'.
      apply (Hdisj x Hx). destruct Hx' as [Hx'|Hx'].
      * unfold next_layer in Hx'.
        by apply list_elem_of_filter in Hx' as [_ ?].
      * by apply list_elem_of_filter in Hx' as [_ ?].
    + apply H. apply NoDup_app. split_and!.
      * unfold next_layer. by apply NoDup_filter.
      * intros x Hx Hx'. by apply list_elem_of_filter in Hx' as [? _].
      * by apply NoDup_filter.
Qed.

(** A node that is never placed has a parent that is never placed. *)
Lemma layering_residual visited layer rest r :
  (∀ x, x ∈ rest → ∀ n, n ∈ get_parent_nodes x → x ∈ get_child_nodes n) →
  (∀ x, x ∈ rest → ∃ p, p ∈ get_parent_nodes x ∧ p ∉ visited) →
  r ∈ rest → r ∉ concat (layering visited layer rest) →
  ∃ p, p ∈ get_parent_nodes r
       ∧ p ∉ visited ++ concat (layering visited layer rest).
Proof.
  funelim (layering visited layer rest); simp layering.
  - intros _ Hinv Hr _. rewrite app_nil_r. auto.
  - intros Hchild Hinv Hr Hout. cbn [concat] in *.
    rewrite app_assoc.
    set (next := next_layer visited (n :: layer) rest) in *.
    assert (r ∉ next) as Hnext.
    { intros Hin. apply Hout. apply elem_of_app. right.
      by apply layering_layer. }
    apply H.
    + intros x [_ Hx]%list_elem_of_filter. auto.
    + intros x [Hxn Hx]%list_elem_of_filter.
      destruct (Hinv x Hx) as (q & Hq & Hqv).
      destruct (decide (Forall (λ p, p ∈ visited ++ n :: layer)
                          (get_parent_nodes x))) as [Hall|Hnall].
      * exists q. split; [done|]. rewrite elem_of_app.
        intros [?|Hql]; [done|]. apply Hxn.
        unfold next, next_layer. apply list_elem_of_filter.
        split; [|done]. split; [|done].
        apply Exists_exists. exists q. split; [done|]. by apply Hchild.
      * apply not_Forall_Exists in Hnall; [|apply _].
        apply Exists_exists in Hnall as (q' & Hq' & Hq'v). by exists q'.
    + by apply list_elem_of_filter.
    + intros Hin. apply Hout. apply elem_of_app. by right.
Qed.

Lemma first_layer_NoDup nodes :
  NoDup nodes →
  NoDup (filter (λ node, get_parent_nodes node = []) nodes
         ++ filter (λ node,
              node ∉ filter (λ node, get_parent_nodes node = []) nodes)
              nodes).
Proof.
  intros Hnodes. apply NoDup_app. split_and!.
  - by apply NoDup_filter.
  - intros x Hx Hx'. by apply list_elem_of_filter in Hx' as [? _].
  - by apply NoDup_filter.
Qed.

Lemma topsorted_layers_elem nodes layers x :
  topsorted_layers nodes = Ok layers → x ∈ concat layers → x ∈ nodes.
Proof.
  unfold topsorted_layers. case_decide; [done|].
  intros [= <-] Hx. apply layering_elem in Hx as [Hx|Hx];
    by apply list_elem_of_filter in Hx as [_ ?].
Qed.

(** Whatever the graph, layers that are returned hold every node once
    and their concatenation is a topological order. *)
Lemma topsorted_layers_Ok nodes layers :
  NoDup nodes →
  topsorted_layers nodes = Ok layers →
  concat layers ≡ₚ nodes
  ∧ Graph.topological get_parent_nodes (concat layers).
Proof.
  intros Hnodes Hok. split.
  - apply submseteq_length_Permutation.
    + apply NoDup_submseteq.
      * revert Hok. unfold topsorted_layers. case_decide; [done|].
        intros [= <-]. apply layering_NoDup. by apply first_layer_NoDup.
      * intros x. by apply topsorted_layers_elem.
    + revert Hok. unfold topsorted_layers. case_decide; [done|].
      intros [= <-]. lia.
  - revert Hok. unfold topsorted_layers. case_decide; [done|].
    intros [= <-]. apply ordered_topological, layering_ordered.
    apply Forall_forall. intros n [Hn _]%list_elem_of_filter q Hq.
    rewrite Hn in Hq. by apply elem_of_nil in Hq.
Qed.

(** A cycle is always reported. *)
Lemma topsorted_layers_cycle nodes :
  NoDup nodes →
  (∀ n, get_parent_nodes n ≠ [] → n ∈ nodes) →
  Graph.has_cycle get_parent_nodes →
  topsorted_layers nodes = Raise (Exn RuntimeError CycleDetected).
Proof.
  intros Hnodes Hdom [n Hn].
  destruct (topsorted_layers nodes) as [layers|e] eqn:Hres.
  - apply topsorted_layers_Ok in Hres as [Hperm Htop]; [|done].
    exfalso. apply (Graph.topological_acyclic _ _ Htop) with (n := n);
      [|done].
    intros m Hm. rewrite Hperm. auto.
  - revert Hres. unfold topsorted_layers. case_decide; [|done].
    by intros [= <-].
Qed.

(** With edges that stay inside [nodes] and the child function that
    reverses the parent function, an error means that some node lies on a
    cycle: the nodes that are left over have a parent among them. *)
Lemma topsorted_layers_Raise nodes e :
  NoDup nodes →
  (∀ n p, n ∈ nodes → p ∈ get_parent_nodes n → p ∈ nodes) →
  (∀ n p, n ∈ nodes → p ∈ get_parent_nodes n → n ∈ get_child_nodes p) →
  topsorted_layers nodes = Raise e →
  e = Exn RuntimeError CycleDetected ∧ Graph.has_cycle get_parent_nodes.
Proof.
  intros Hnodes Hclosed Hchild.
  unfold topsorted_layers.
  set (first := filter (λ node, get_parent_nodes node = []) nodes).
  set (rest := filter (λ node, node ∉ first) nodes).
  set (layers := layering [] first rest).
  case_decide as Hlen; [|done]. intros [= <-]. split; [done|].
  set (residual := filter (λ node, node ∉ concat layers) nodes).
  assert (∀ r, r ∈ residual →
            ∃ q, q ∈ residual ∧ Graph.edge get_parent_nodes r q) as Hsucc.
  { intros r [Hout Hr]%list_elem_of_filter.
    assert (r ∈ rest) as Hrest.
    { apply list_elem_of_filter. split; [|done].
      intros Hfirst. apply Hout. by apply layering_layer. }
    destruct (layering_residual [] first rest r) as (q & Hq & Hqout).
    - intros x [_ Hx]%list_elem_of_filter m Hm. by apply Hchild.
    - intros x [Hx Hxn]%list_elem_of_filter.
      destruct (get_parent_nodes x) as [|q qs] eqn:Hpx.
      + exfalso. apply Hx. by apply list_elem_of_filter.
      + exists q. split; [apply list_elem_of_here | apply not_elem_of_nil].
    - done.
    - done.
    - exists q. split; [|done]. apply list_elem_of_filter.
      split; [done | by eapply Hclosed]. }
  destruct (decide (residual = [])) as [Hnil|Hne].
  - exfalso. assert (nodes ⊆+ concat layers) as Hsub.
    { apply NoDup_submseteq; [done|]. intros x Hx.
      destruct (decide (x ∈ concat layers)) as [|Hout]; [done|].
      assert (x ∈ residual) as Hres by (by apply list_elem_of_filter).
      rewrite Hnil in Hres. by apply elem_of_nil in Hres. }
    apply submseteq_length in Hsub. lia.
  - destruct (Graph.successors_cycle residual
                (Graph.edge get_parent_nodes) Hne Hsucc) as (x & _ & Hx).
    by exists x.
Qed.

Lemma topsorted_layers_acyclic nodes :
  NoDup nodes →
  (∀ n p, n ∈ nodes → p ∈ get_parent_nodes n → p ∈ nodes) →
  (∀ n p, n ∈ nodes → p ∈ get_parent_nodes n → n ∈ get_child_nodes p) →
  Graph.acyclic get_parent_nodes →
  is_Ok (topsorted_layers nodes).
Proof.
  intros Hnodes Hclosed Hchild Hacyc.
  destruct (topsorted_layers nodes) as [layers|e] eqn:Hres; [done|].
  apply topsorted_layers_Raise in Hres as [_ [n Hn]]; try done.
  by apply (Hacyc n).
Qed.

(** A test for [ordered], to check a given order by computation. *)
Fixpoint is_ordered (visited l : list string) : bool :=
  match l with
  | [] => true
  | n :: l' =>
      forallb (λ p, bool_decide (p ∈ visited)) (get_parent_nodes n)
      && is_ordered (visited ++ [n]) l'
  end.

Lemma is_ordered_sound visited l :
  is_ordered visited l = true → ordered visited l.
Proof.
  revert visited. induction l as [|n l IH]; intros visited; simpl; [done|].
  intros [Hn Hl]%andb_true_iff. split; [|by apply IH].
  intros q Hq. rewrite forallb_forall in Hn.
  apply list_elem_of_In in Hq. specialize (Hn _ Hq).
  by apply bool_decide_eq_true in Hn.
Qed.

(** A graph is acyclic when some list that holds every node with parents
    passes the test. *)
Lemma acyclic_by_order (nodes order : list string) :
  (∀ n, get_parent_nodes n ≠ [] → n ∈ nodes) →
  forallb (λ n, bool_decide (n ∈ order)) nodes = true →
  is_ordered [] order = true →
  Graph.acyclic get_parent_nodes.
Proof.
  intros Hdom Hall Hord.
  apply (Graph.topological_acyclic _ order).
  - by apply ordered_topological, is_ordered_sound.
  - intros n Hn. rewrite forallb_forall in Hall.
    apply Hdom, list_elem_of_In, Hall in Hn.
    by apply bool_decide_eq_true in Hn.
Qed.

End layers.

End topsort.

(** ** Python's format-string parser

    [string.Formatter().parse] splits a format string into items, each a
    literal text followed by at most one replacement field. The compiler
    looks at the field names only, so format specification and conversion
    are scanned and not kept. The parser is CPython's: [{{] and [}}] are
    escapes, a field name ends at [}], [:] or [!] outside square brackets,
    the braces of a format specification nest, and anything else is a
    [ValueError]. *)

Module Formatter.

Inductive mode : Type :=
  | Literal (literal : string)
  | SawOpen (literal : string)
  | SawClose (literal : string)
  | FieldName (literal name : string) (in_index : bool)
  | Conversion (literal name : string)
  | AfterConversion (literal name : string)
  | FormatSpec (literal name : string) (depth : nat).

Definition item : Type := (string * option string)%type.

Definition snoc (s : string) (c : ascii) : string := s +:+ String c "".

Definition error (reason : string) : res (list item) :=
  Raise (Exn ValueError (InvalidFormatString reason)).

Definition emit (i : item) (r : res (list item)) : res (list item) :=
  match r with Ok items => Ok (i :: items) | Raise e => Raise e end.

Definition open_brace : ascii := "{"%char.
Definition close_brace : ascii := "}"%char.

Fixpoint scan (m : mode) (s : string) : res (list item) :=
  match s with
  | "" =>
      match m with
      | Literal "" => Ok []
      | Literal literal => Ok [(literal, None)]
      | SawOpen _ => error "Single '{' encountered in format string"
      | SawClose _ => error "Single '}' encountered in format string"
      | FieldName _ _ _ => error "expected '}' before end of string"
      | Conversion _ _ =>
          error "end of string while looking for conversion specifier"
      | AfterConversion _ _ => error "unmatched '{' in format spec"
      | FormatSpec _ _ _ => error "unmatched '{' in format spec"
      end
  | String c s' =>
      match m with
      | Literal literal =>
          if decide (c = open_brace) then scan (SawOpen literal) s'
          else if decide (c = close_brace) then scan (SawClose literal) s'
          else scan (Literal (snoc literal c)) s'
      | SawOpen literal =>
          if decide (c = open_brace)
          then emit (snoc literal c, None) (scan (Literal "") s')
          else if decide (c = close_brace)
          then emit (literal, Some "") (scan (Literal "") s')
          else if decide (c = ":"%char)
          then scan (FormatSpec literal "" 1) s'
          else if decide (c = "!"%char)
          then scan (Conversion literal "") s'
          else scan (FieldName literal (String c "")
                       (bool_decide (c = "["%char))) s'
      | SawClose literal =>
          if decide (c = close_brace)
          then emit (snoc literal c, None) (scan (Literal "") s')
          else error "Single '}' encountered in format string"
      | FieldName literal name true =>
          scan (FieldName literal (snoc name c)
                  (negb (bool_decide (c = "]"%char)))) s'
      | FieldName literal name false =>
          if decide (c = open_brace)
          then error "unexpected '{' in field name"
          else if decide (c = close_brace)
          then emit (literal, Some name) (scan (Literal "") s')
          else if decide (c = ":"%char)
          then scan (FormatSpec literal name 1) s'
          else if decide (c = "!"%char)
          then scan (Conversion literal name) s'
          else scan (FieldName literal (snoc name c)
                       (bool_decide (c = "["%char))) s'
      | Conversion literal name => scan (AfterConversion literal name) s'
      | AfterConversion literal name =>
          if decide (c = close_brace)
          then emit (literal, Some name) (scan (Literal "") s')
          else if decide (c = ":"%char)
          then scan (FormatSpec literal name 1) s'
          else error "expected ':' after conversion specifier"
      | FormatSpec literal name depth =>
          if decide (c = open_brace)
          then scan (FormatSpec literal name (S depth)) s'
          else if decide (c = close_brace)
          then match depth with
               | 0 | 1 => emit (literal, Some name) (scan (Literal "") s')
               | S depth' => scan (FormatSpec literal name depth') s'
               end
          else scan (FormatSpec literal name depth) s'
      end
  end.

(** [string.Formatter().parse(format_string)], field names only. *)
Definition parse (format_string : string) : res (list item) :=
  scan (Literal "") format_string.

Lemma emit_Raise i r e : emit i r = Raise e → r = Raise e.
Proof. destruct r; simpl; congruence. Qed.

(** The parser raises ValueError and nothing else. *)
Lemma scan_Raise s :
  ∀ m e, scan m s = Raise e →
         ∃ reason, e = Exn ValueError (InvalidFormatString reason).
Proof.
  induction s as [|c s IH]; intros m e; simpl.
  - destruct m as [[|]| | | | | |]; try done; intros [= <-]; by eexists.
  - destruct m as [| | |? ? []| | |? ? [|[|]]];
      repeat case_decide;
      first [ apply IH
            | intros Hscan%emit_Raise; by apply IH in Hscan
            | intros [= <-]; by eexists ].
Qed.

Lemma parse_Raise format_string e :
  parse format_string = Raise e →
  ∃ reason, e = Exn ValueError (InvalidFormatString reason).
Proof. apply scan_Raise. Qed.

End Formatter.

(** ** The store and the monad of compiler actions *)

(** What the compiler writes to its logger. *)
Inductive log_record : Type :=
  | Debug_compiling_pipeline (pipeline_name : string)
  | Debug_compiling_pipeline_spec (pipeline_name : string)
  | Info_not_including_settings (key : string)
  | Debug_compiled_deployment (deployment : PipelineDeploymentBaseModel.t)
  | Debug_compiled_spec (pipeline_spec : PipelineSpec.t).

Record State : Type := mkState {
  pipelines : gmap loc Pipeline.t;
  steps : gmap loc BaseStep.t;
  log : list log_record
}.

(** An action runs on a store and leaves a store, also when it raises. *)
Definition M (A : Type) : Type := State → State * res A.

Definition ret {A} (a : A) : M A := λ s, (s, Ok a).

Definition raise {A} (e : exn) : M A := λ s, (s, Raise e).

Definition bind {A B} (m : M A) (k : A → M B) : M B :=
  λ s, match m s with
       | (s', Ok a) => k a s'
       | (s', Raise e) => (s', Raise e)
       end.

Notation "'let!' x ':=' m 'in' k" := (bind m (λ x, k))
  (at level 10, x pattern, m at level 200, k at level 200,
   format "'[v' 'let!'  x  ':='  m  'in' '/' k ']'").

Definition lift {A} (r : res A) : M A := λ s, (s, r).

Fixpoint mapM {A B} (f : A → M B) (l : list A) : M (list B) :=
  match l with
  | [] => ret []
  | x :: l' =>
      let! y := f x in
      let! ys := mapM f l' in
      ret (y :: ys)
  end.

Fixpoint forM {A} (l : list A) (f : A → M unit) : M unit :=
  match l with
  | [] => ret tt
  | x :: l' => let! _ := f x in forM l' f
  end.

Fixpoint foldM {A B} (f : B → A → M B) (acc : B) (l : list A) : M B :=
  match l with
  | [] => ret acc
  | x :: l' => let! acc' := f acc x in foldM f acc' l'
  end.

Definition dangling {A} (l : loc) : M A :=
  raise (Exn SystemError (DanglingReference l)).

Definition read_pipeline (l : loc) : M Pipeline.t :=
  λ s, match pipelines s !! l with
       | Some p => (s, Ok p)
       | None => dangling l s
       end.

Definition write_pipeline (l : loc) (p : Pipeline.t) : M unit :=
  λ s, (mkState (<[l := p]> (pipelines s)) (steps s) (log s), Ok tt).

Definition alloc_pipeline (p : Pipeline.t) : M loc :=
  λ s, let l := fresh (dom (pipelines s)) in
       (mkState (<[l := p]> (pipelines s)) (steps s) (log s), Ok l).

Definition read_step (l : loc) : M BaseStep.t :=
  λ s, match steps s !! l with
       | Some b => (s, Ok b)
       | None => dangling l s
       end.

Definition write_step (l : loc) (b : BaseStep.t) : M unit :=
  λ s, (mkState (pipelines s) (<[l := b]> (steps s)) (log s), Ok tt).

Definition alloc_step (b : BaseStep.t) : M loc :=
  λ s, let l := fresh (dom (steps s)) in
       (mkState (pipelines s) (<[l := b]> (steps s)) (log s), Ok l).

Definition logger (r : log_record) : M unit :=
  λ s, (mkState (pipelines s) (steps s) (log s ++ [r]), Ok tt).

(** [d[k]] *)
Definition subscript {V} (d : Dict.t V) (k : string) : res V :=
  match Dict.get d k with
  | Some v => Ok v
  | None => Raise (Exn KeyError (NoStepWithName k))
  end.

(** Truth value of an optional string: [None] and [""] are false. *)
Definition truthy (o : option string) : bool :=
  match o with
  | Some s => negb (bool_decide (s = ""))
  | None => false
  end.

(** ** [copy.deepcopy]

    A deep copy allocates a new object for every object it reaches. The
    memo maps objects that were copied already to their copies, so that
    objects shared in the original are shared in the copy. *)

Definition set_step (invocation : StepInvocation.t) (l : loc) :
    StepInvocation.t :=
  StepInvocation.mk (StepInvocation.id invocation) l
    (StepInvocation.upstream_steps invocation)
    (StepInvocation.input_artifacts invocation).

Definition deepcopy_step (memo : gmap loc loc) (l : loc) :
    M (gmap loc loc * loc) :=
  match memo !! l with
  | Some l' => ret (memo, l')
  | None =>
      let! b := read_step l in
      let! l' := alloc_step b in
      ret (<[l := l']> memo, l')
  end.

Definition deepcopy_invocation (memo : gmap loc loc)
    (invocation : StepInvocation.t) : M (gmap loc loc * StepInvocation.t) :=
  let! (memo', l') := deepcopy_step memo (StepInvocation.step invocation) in
  ret (memo', set_step invocation l').

Fixpoint deepcopy_invocations (memo : gmap loc loc)
    (invocations : Dict.t StepInvocation.t) :
    M (gmap loc loc * Dict.t StepInvocation.t) :=
  match invocations with
  | [] => ret (memo, [])
  | (name, invocation) :: rest =>
      let! (memo', invocation') := deepcopy_invocation memo invocation in
      let! (memo'', rest') := deepcopy_invocations memo' rest in
      ret (memo'', (name, invocation') :: rest')
  end.

Definition set_invocations (p : Pipeline.t)
    (invocations : Dict.t StepInvocation.t) : Pipeline.t :=
  Pipeline.mk (Pipeline.name p) (Pipeline.configuration p) invocations
    (Pipeline.is_base_pipeline p) (Pipeline.source p) (Pipeline._parameters p).

Definition deepcopy_pipeline (pipeline : loc) : M loc :=
  let! p := read_pipeline pipeline in
  let! (_, invocations') := deepcopy_invocations ∅ (Pipeline.invocations p) in
  alloc_pipeline (set_invocations p invocations').

(** ** [sorted] on strings *)

Definition str_le (a b : string) : Prop := String.leb a b = true.

#[global] Instance str_le_dec : RelDecision str_le.
Proof. intros a b. unfold str_le. apply _. Defined.

Lemma ascii_compare_Lt_trans (a b c : ascii) :
  Ascii.compare a b = Lt → Ascii.compare b c = Lt → Ascii.compare a c = Lt.
Proof.
  unfold Ascii.compare. rewrite !N.compare_lt_iff. apply N.lt_trans.
Qed.

Lemma string_compare_Lt_trans (a b c : string) :
  String.compare a b = Lt → String.compare b c = Lt → String.compare a c = Lt.
Proof.
  revert b c. induction a as [|x a IH]; intros [|y b] [|z c]; simpl; try done.
  destruct (Ascii.compare x y) eqn:Hxy; try done;
    destruct (Ascii.compare y z) eqn:Hyz; try done.
  - apply Ascii.compare_eq_iff in Hxy as ->.
    apply Ascii.compare_eq_iff in Hyz as ->.
    replace (Ascii.compare z z) with Eq; [apply IH|].
    symmetry. unfold Ascii.compare. apply N.compare_refl.
  - apply Ascii.compare_eq_iff in Hxy as ->. by rewrite Hyz.
  - apply Ascii.compare_eq_iff in Hyz as ->. by rewrite Hxy.
  - by rewrite (ascii_compare_Lt_trans x y z).
Qed.

Lemma str_le_alt (a b : string) : str_le a b ↔ String.compare a b = Lt ∨ a = b.
Proof.
  unfold str_le, String.leb. split.
  - destruct (String.compare a b) eqn:Hab; try done.
    + right. by apply String.compare_eq_iff.
    + by left.
  - intros [->| ->]; [done|].
    replace (String.compare b b) with Eq; [done|].
    induction b as [|x b IH]; simpl; [done|].
    unfold Ascii.compare. by rewrite N.compare_refl.
Qed.

#[global] Instance str_le_total : Total str_le.
Proof. intros a b. apply String.leb_total. Qed.

#[global] Instance str_le_antisymm : AntiSymm (=) str_le.
Proof. intros a b. apply String.leb_antisym. Qed.

#[global] Instance str_le_trans : Transitive str_le.
Proof.
  intros a b c. rewrite !str_le_alt.
  intros [Hab| ->] [Hbc| ->]; eauto using string_compare_Lt_trans.
Qed.

(** [sorted(iterable)] for an iterable of strings. *)
Definition sorted (l : list string) : list string := merge_sort str_le l.

Lemma sorted_Sorted (l : list string) : Sorted str_le (sorted l).
Proof. apply Sorted_merge_sort, _. Qed.

Lemma sorted_Permutation (l : list string) : sorted l ≡ₚ l.
Proof. apply merge_sort_Permutation. Qed.

(** Sorting forgets the order in which the elements were enumerated. *)
Lemma sorted_unique (l k : list string) : l ≡ₚ k → sorted l = sorted k.
Proof.
  intros Hlk. apply (Sorted_unique str_le); try apply sorted_Sorted.
  by rewrite !sorted_Permutation.
Qed.

(** ** Collaborators of the compiler that are not part of the sources *)

Definition or_else {A} (update old : option A) : option A :=
  match update with Some v => Some v | None => old end.

(** Modelled from the spec: zenml.utils.pydantic_utils.update_model applied
    to two settings objects. Section 4.3, the combine merge: the right-hand
    operand wins field by field and fields it does not set keep the value of
    the left-hand operand; the result is an object of the left-hand class. *)
Definition update_model (original update : BaseSettings.t) : BaseSettings.t :=
  BaseSettings.mk (BaseSettings.LEVEL original)
    (Dict.merge_with (λ _ new, new)
       (BaseSettings.values original) (BaseSettings.values update)).

(** The two merge operators of section 4.3 on a dictionary-valued field:
    replace ([merge = false]) puts the incoming value in the place of the
    field, combine ([merge = true]) merges key by key. *)
Definition merge_settings (merge : bool)
    (old : Dict.t BaseSettings.t) (update : option (Dict.t BaseSettings.t)) :
    Dict.t BaseSettings.t :=
  match update with
  | None => old
  | Some new => if merge then Dict.merge_with update_model old new else new
  end.

Definition merge_extra (merge : bool)
    (old : Dict.t string) (update : option (Dict.t string)) : Dict.t string :=
  match update with
  | None => old
  | Some new => if merge then Dict.merge_with (λ _ v, v) old new else new
  end.

Definition update_step_configuration (merge : bool)
    (c : StepConfiguration.t) (u : StepConfigurationUpdate.t) :
    StepConfiguration.t :=
  StepConfiguration.mk
    (or_else (StepConfigurationUpdate.enable_cache u)
       (StepConfiguration.enable_cache c))
    (or_else (StepConfigurationUpdate.enable_artifact_metadata u)
       (StepConfiguration.enable_artifact_metadata c))
    (or_else (StepConfigurationUpdate.enable_artifact_visualization u)
       (StepConfiguration.enable_artifact_visualization c))
    (or_else (StepConfigurationUpdate.step_operator u)
       (StepConfiguration.step_operator c))
    (or_else (StepConfigurationUpdate.experiment_tracker u)
       (StepConfiguration.experiment_tracker c))
    (merge_settings merge (StepConfiguration.settings c)
       (StepConfigurationUpdate.settings u))
    (merge_extra merge (StepConfiguration.extra c)
       (StepConfigurationUpdate.extra u))
    (or_else (StepConfigurationUpdate.failure_hook_source u)
       (StepConfiguration.failure_hook_source c))
    (or_else (StepConfigurationUpdate.success_hook_source u)
       (StepConfiguration.success_hook_source c)).

Definition update_pipeline_configuration (merge : bool)
    (c : PipelineConfiguration.t) (u : PipelineConfigurationUpdate.t) :
    PipelineConfiguration.t :=
  PipelineConfiguration.mk
    (or_else (PipelineConfigurationUpdate.enable_cache u)
       (PipelineConfiguration.enable_cache c))
    (or_else (PipelineConfigurationUpdate.enable_artifact_metadata u)
       (PipelineConfiguration.enable_artifact_metadata c))
    (or_else (PipelineConfigurationUpdate.enable_artifact_visualization u)
       (PipelineConfiguration.enable_artifact_visualization c))
    (merge_settings merge (PipelineConfiguration.settings c)
       (PipelineConfigurationUpdate.settings u))
    (merge_extra merge (PipelineConfiguration.extra c)
       (PipelineConfigurationUpdate.extra u))
    (PipelineConfiguration.failure_hook_source c)
    (PipelineConfiguration.success_hook_source c).

Definition set_pipeline_configuration (p : Pipeline.t)
    (c : PipelineConfiguration.t) : Pipeline.t :=
  Pipeline.mk (Pipeline.name p) c (Pipeline.invocations p)
    (Pipeline.is_base_pipeline p) (Pipeline.source p) (Pipeline._parameters p).

(** Modelled from the spec: Pipeline.configure, defined with the pipeline
    class outside the sources. Sections 3 and 4.3: the pipeline definition
    is mutated through explicit configuration calls; an argument that is
    [None] leaves its field alone, any other value is merged into the
    pipeline configuration with the replace or the combine operator. *)
Definition Pipeline_configure (pipeline : loc)
    (update : PipelineConfigurationUpdate.t) (merge : bool) : M unit :=
  let! p := read_pipeline pipeline in
  write_pipeline pipeline
    (set_pipeline_configuration p
       (update_pipeline_configuration merge (Pipeline.configuration p) update)).

(** Modelled from the spec: BaseStep.configure and
    BaseStep._apply_configuration, defined with the step class outside the
    sources; as [Pipeline_configure], on the configuration of a step. *)
Definition BaseStep_configure (step : loc)
    (update : StepConfigurationUpdate.t) (merge : bool) : M unit :=
  let! b := read_step step in
  write_step step
    (BaseStep.mk (BaseStep.source b)
       (update_step_configuration merge (BaseStep.configuration b) update)).

(** Modelled from the spec: StepInvocation.finalize, defined with the
    invocation class outside the sources. Section 3: the deployment maps a
    step name to the fully merged step configuration. *)
Definition StepInvocation_finalize (invocation : StepInvocation.t) :
    M StepConfiguration.t :=
  let! b := read_step (StepInvocation.step invocation) in
  ret (BaseStep.configuration b).

(** Modelled from the spec:
    zenml.utils.settings_utils.get_stack_component_setting_key. Section 3:
    the settings of a stack component are keyed by
    ["<component_type>.<component_flavor>"]. *)
Definition get_stack_component_setting_key (component : StackComponent.t) :
    string :=
  StackComponent.type component +:+ "." +:+ StackComponent.flavor component.

(** Modelled from the spec: zenml.orchestrators.dag_runner.reverse_dag.
    Section 9: the adjacency structure node -> child set that goes with
    node -> parent set; the children of a node are the nodes that name it as
    a parent, in the order of the dictionary. *)
Definition reverse_dag (dag : Dict.t (list string)) : Dict.t (list string) :=
  (λ node, (node, (filter (λ kv, node ∈ kv.2) dag).*1)) <$> Dict.keys dag.

(** [config.dict(include=..., exclude_unset=True, exclude_defaults=True)] *)
Definition config_dict (config : StackComponentConfig.t)
    (include : list string) : Dict.t string :=
  filter (λ kv, kv.1 ∈ include
                ∧ kv.1 ∈ StackComponentConfig.fields_set config
                ∧ Dict.get (StackComponentConfig.defaults config) kv.1
                  ≠ Some kv.2)
         (StackComponentConfig.values config).

(** ** The compiler *)

Module Compiler.

Section Compiler.

(** Modelled from the spec: the key matching of
    zenml.config.settings_resolver.SettingsResolver, which is not part
    of the sources. [key_resolves stack key] says whether [key] can be
    resolved against the components of [stack]. *)
Context (key_resolves : Stack.t → string → bool).

(** The default of the [merge] argument of [configure] and
    [_apply_configuration], which is declared outside the sources. *)
Context (default_merge : bool).

(** The order in which Python iterates over a set of strings is not
    specified: [list_of_set X] is some enumeration of [X]. *)
Context (list_of_set : gset string → list string).
Context (list_of_set_perm : ∀ X, list_of_set X ≡ₚ elements X).

(** The snapshot that zenml.environment.get_run_environment_dict
    returns. *)
Context (get_run_environment_dict : Dict.t string).

(** Modelled from the spec: SettingsResolver(key, settings).resolve.
    Section 4.2: returns the settings instance un-modified, or raises if
    the key cannot be resolved against any current stack component. *)
Definition resolve (key : string) (settings : BaseSettings.t)
    (stack : Stack.t) : res BaseSettings.t :=
  if key_resolves stack key then Ok settings
  else Raise (Exn KeyError (UnresolvedSettingsKey key)).

Definition _verify_run_name (run_name : string) : res unit :=
  let valid_placeholder_names : gset string := {[ "date"; "time" ]} in
  match Formatter.parse run_name with
  | Raise e => Raise e
  | Ok items =>
      let placeholders : gset string :=
        list_to_set
          (omap (λ v : Formatter.item, if truthy v.2 then v.2 else None)
                items) in
      if decide (placeholders ⊆ valid_placeholder_names) then Ok tt
      else Raise (Exn ValueError
                    (InvalidRunName run_name valid_placeholder_names))
  end.

Definition _verify_upstream_steps (invocation : StepInvocation.t)
    (pipeline : loc) : M unit :=
  let! p := read_pipeline pipeline in
  let available_steps : gset string :=
    list_to_set (Dict.keys (Pipeline.invocations p)) in
  let invalid_upstream_steps :=
    StepInvocation.upstream_steps invocation ∖ available_steps in
  if decide (invalid_upstream_steps = ∅) then ret tt
  else raise (Exn RuntimeError
                (InvalidUpstreamSteps invalid_upstream_steps
                   available_steps)).

Definition _apply_run_configuration (pipeline : loc)
    (config : PipelineRunConfiguration.t) : M unit :=
  let! _ :=
    Pipeline_configure pipeline
      (PipelineConfigurationUpdate.mk
         (PipelineRunConfiguration.enable_cache config)
         (PipelineRunConfiguration.enable_artifact_metadata config)
         (PipelineRunConfiguration.enable_artifact_visualization config)
         (Some (PipelineRunConfiguration.settings config))
         (Some (PipelineRunConfiguration.extra config)))
      default_merge in
  let! _ :=
    forM (PipelineRunConfiguration.steps config) (λ '(step_name, step_config),
      let! p := read_pipeline pipeline in
      if negb (Dict.mem step_name (Pipeline.invocations p))
      then raise (Exn KeyError (NoStepWithName step_name))
      else
        let! invocation :=
          lift (subscript (Pipeline.invocations p) step_name) in
        BaseStep_configure (StepInvocation.step invocation) step_config
          default_merge) in
  (* Override [enable_cache] of all steps if set at run level *)
  let! _ :=
    match PipelineRunConfiguration.enable_cache config with
    | Some enable_cache =>
        let! p := read_pipeline pipeline in
        forM (Dict.values (Pipeline.invocations p)) (λ invocation,
          BaseStep_configure (StepInvocation.step invocation)
            (StepConfigurationUpdate.mk (Some enable_cache)
               None None None None None None None None)
            default_merge)
    | None => ret tt
    end in
  (* Override [enable_artifact_metadata] of all steps if set at run level *)
  let! _ :=
    match PipelineRunConfiguration.enable_artifact_metadata config with
    | Some enable_artifact_metadata =>
        let! p := read_pipeline pipeline in
        forM (Dict.values (Pipeline.invocations p)) (λ invocation,
          BaseStep_configure (StepInvocation.step invocation)
            (StepConfigurationUpdate.mk None
               (Some enable_artifact_metadata)
               None None None None None None None)
            default_merge)
    | None => ret tt
    end in
  (* Override [enable_artifact_visualization] if set at run level *)
  match PipelineRunConfiguration.enable_artifact_visualization config with
  | Some enable_artifact_visualization =>
      let! p := read_pipeline pipeline in
      forM (Dict.values (Pipeline.invocations p)) (λ invocation,
        BaseStep_configure (StepInvocation.step invocation)
          (StepConfigurationUpdate.mk None None
             (Some enable_artifact_visualization)
             None None None None None None)
          default_merge)
  | None => ret tt
  end.

(** [settings_class] is [stack_component.settings_class], which the
    method asserts to be set and its only caller has checked. *)
Definition _get_default_settings (stack_component : StackComponent.t)
    (settings_class : SettingsClass.t) : BaseSettings.t :=
  (* Exclude additional config attributes that aren't part of the
     settings *)
  let field_names := SettingsClass.__fields__ settings_class in
  BaseSettings.mk (SettingsClass.LEVEL settings_class)
    (config_dict (StackComponent.config stack_component) field_names).

Definition _apply_stack_default_settings (pipeline : loc)
    (stack : Stack.t) : M unit :=
  let! p := read_pipeline pipeline in
  let pipeline_settings :=
    PipelineConfiguration.settings (Pipeline.configuration p) in
  let pipeline_settings :=
    foldl (λ pipeline_settings component,
             match StackComponent.settings_class component with
             | None => pipeline_settings
             | Some settings_class =>
                 let settings_key :=
                   get_stack_component_setting_key component in
                 let default_settings :=
                   _get_default_settings component settings_class in
                 match Dict.get pipeline_settings settings_key with
                 | Some existing =>
                     Dict.set pipeline_settings settings_key
                       (update_model default_settings existing)
                 | None =>
                     Dict.set pipeline_settings settings_key
                       default_settings
                 end
             end)
          pipeline_settings (Dict.values (Stack.components stack)) in
  Pipeline_configure pipeline
    (PipelineConfigurationUpdate.mk None None None
       (Some pipeline_settings) None)
    false.

Fixpoint _filter_and_validate_settings_loop
    (validated_settings : Dict.t BaseSettings.t)
    (items : list (string * BaseSettings.t))
    (configuration_level : ConfigurationLevel) (stack : Stack.t) :
    M (Dict.t BaseSettings.t) :=
  match items with
  | [] => ret validated_settings
  | (key, settings_instance) :: items' =>
      match resolve key settings_instance stack with
      | Raise e =>
          if decide (exn_cls e = KeyError) then
            let! _ := logger (Info_not_including_settings key) in
            _filter_and_validate_settings_loop validated_settings items'
              configuration_level stack
          else raise e
      | Ok settings_instance =>
          if decide (configuration_level
                       ∈ BaseSettings.LEVEL settings_instance)
          then
            _filter_and_validate_settings_loop
              (Dict.set validated_settings key settings_instance) items'
              configuration_level stack
          else
            raise (Exn TypeError
                     (UnsupportedLevel settings_instance
                        configuration_level))
      end
  end.

Definition _filter_and_validate_settings
    (settings : Dict.t BaseSettings.t)
    (configuration_level : ConfigurationLevel) (stack : Stack.t) :
    M (Dict.t BaseSettings.t) :=
  _filter_and_validate_settings_loop [] settings configuration_level stack.

Definition _get_step_spec (invocation : StepInvocation.t) : M StepSpec.t :=
  let inputs :=
    Dict.of_items
      ((λ '(key, artifact),
          (key, InputSpec.mk (StepArtifact.invocation_id artifact)
                  (StepArtifact.output_name artifact)))
         <$> StepInvocation.input_artifacts invocation) in
  let! b := read_step (StepInvocation.step invocation) in
  ret (StepSpec.mk (BaseStep.source b)
         (sorted (list_of_set (StepInvocation.upstream_steps invocation)))
         inputs
         (StepInvocation.id invocation)).

Definition _compile_step_invocation (invocation : StepInvocation.t)
    (pipeline_settings : Dict.t BaseSettings.t)
    (pipeline_extra : Dict.t string) (stack : Stack.t)
    (pipeline_failure_hook_source pipeline_success_hook_source :
       option Source) : M Step.t :=
  (* Copy the invocation (including its referenced step) before we apply
     the step configuration which is exclusive to this invocation. *)
  let! (_, invocation) := deepcopy_invocation ∅ invocation in
  let step := StepInvocation.step invocation in
  let! step_spec := _get_step_spec invocation in
  let! b := read_step step in
  let! step_settings :=
    _filter_and_validate_settings
      (StepConfiguration.settings (BaseStep.configuration b)) STEP stack in
  let step_extra := StepConfiguration.extra (BaseStep.configuration b) in
  let step_on_failure_hook_source :=
    StepConfiguration.failure_hook_source (BaseStep.configuration b) in
  let step_on_success_hook_source :=
    StepConfiguration.success_hook_source (BaseStep.configuration b) in
  let! _ :=
    BaseStep_configure step
      (StepConfigurationUpdate.mk None None None None None
         (Some pipeline_settings) (Some pipeline_extra)
         pipeline_failure_hook_source pipeline_success_hook_source)
      false in
  let! _ :=
    BaseStep_configure step
      (StepConfigurationUpdate.mk None None None None None
         (Some step_settings) (Some step_extra)
         step_on_failure_hook_source step_on_success_hook_source)
      true in
  let! complete_step_configuration :=
    StepInvocation_finalize invocation in
  ret (Step.mk step_spec complete_step_configuration).

Definition _get_default_run_name (pipeline_name : string) : string :=
  pipeline_name +:+ "-{date}-{time}".

Definition _get_sorted_invocations (pipeline : loc) :
    M (list (string * StepInvocation.t)) :=
  (* Sort step names using topological sort *)
  let! p := read_pipeline pipeline in
  let! dag :=
    foldM (λ (dag : Dict.t (list string)) '(name, step),
             let! _ := _verify_upstream_steps step pipeline in
             ret (Dict.set dag name
                    (list_of_set (StepInvocation.upstream_steps step))))
          [] (Pipeline.invocations p) in
  let reversed_dag := reverse_dag dag in
  let! layers :=
    lift (topsort.topsorted_layers
            (λ node, default [] (Dict.get dag node))
            (λ node, default [] (Dict.get reversed_dag node))
            (Dict.keys dag)) in
  let sorted_step_names := concat layers in
  mapM (λ name_in_pipeline,
          let! p := read_pipeline pipeline in
          let! invocation :=
            lift (subscript (Pipeline.invocations p) name_in_pipeline) in
          ret (name_in_pipeline, invocation))
       sorted_step_names.

Definition _ensure_required_stack_components_exist (stack : Stack.t)
    (steps : Dict.t Step.t) : res unit :=
  let available_step_operators : gset string :=
    match Stack.step_operator stack with
    | Some component => {[ StackComponent.name component ]}
    | None => ∅
    end in
  let available_experiment_trackers : gset string :=
    match Stack.experiment_tracker stack with
    | Some component => {[ StackComponent.name component ]}
    | None => ∅
    end in
  foldl (λ (r : res unit) '(name, step),
           match r with
           | Raise e => Raise e
           | Ok _ =>
               let step_operator :=
                 StepConfiguration.step_operator (Step.config step) in
               if truthy step_operator
                  && negb (bool_decide (default "" step_operator
                                          ∈ available_step_operators))
               then Raise (Exn StackValidationError
                             (MissingStepOperator name
                                (default "" step_operator)
                                (Stack.name stack)
                                available_step_operators))
               else
                 let experiment_tracker :=
                   StepConfiguration.experiment_tracker
                     (Step.config step) in
                 if truthy experiment_tracker
                    && negb (bool_decide
                               (default "" experiment_tracker
                                  ∈ available_experiment_trackers))
                 then Raise (Exn StackValidationError
                               (MissingExperimentTracker name
                                  (default "" experiment_tracker)
                                  (Stack.name stack)
                                  available_experiment_trackers))
                 else Ok tt
           end)
        (Ok tt) steps.

Definition _compute_pipeline_spec (pipeline : loc)
    (step_specs : list StepSpec.t) : M PipelineSpec.t :=
  let! p := read_pipeline pipeline in
  if Pipeline.is_base_pipeline p then
    (* use older spec version for legacy pipelines *)
    ret (PipelineSpec.mk (Some "0.3") None None step_specs)
  else
    ret (PipelineSpec.mk None (Some (Pipeline.source p))
           (Some (Pipeline._parameters p)) step_specs).

Definition compile (pipeline : loc) (stack : Stack.t)
    (run_configuration : PipelineRunConfiguration.t) :
    M (PipelineDeploymentBaseModel.t * PipelineSpec.t) :=
  let! p := read_pipeline pipeline in
  let! _ := logger (Debug_compiling_pipeline (Pipeline.name p)) in
  (* Copy the pipeline before we apply any run-level configurations so
     we don't mess with the pipeline object/step objects in any way *)
  let! pipeline := deepcopy_pipeline pipeline in
  let! _ := _apply_run_configuration pipeline run_configuration in
  let! _ := _apply_stack_default_settings pipeline stack in
  let! _ :=
    if truthy (PipelineRunConfiguration.run_name run_configuration)
    then lift (_verify_run_name
                 (default ""
                    (PipelineRunConfiguration.run_name run_configuration)))
    else ret tt in
  let! p := read_pipeline pipeline in
  let! pipeline_settings :=
    _filter_and_validate_settings
      (PipelineConfiguration.settings (Pipeline.configuration p))
      PIPELINE stack in
  let! _ :=
    Pipeline_configure pipeline
      (PipelineConfigurationUpdate.mk None None None
         (Some pipeline_settings) None)
      false in
  let settings_to_passdown :=
    filter (λ kv, STEP ∈ BaseSettings.LEVEL kv.2) pipeline_settings in
  let! sorted_invocations := _get_sorted_invocations pipeline in
  let! steps :=
    mapM (λ '(name, step),
            let! p := read_pipeline pipeline in
            let! compiled :=
              _compile_step_invocation step settings_to_passdown
                (PipelineConfiguration.extra (Pipeline.configuration p))
                stack
                (PipelineConfiguration.failure_hook_source
                   (Pipeline.configuration p))
                (PipelineConfiguration.success_hook_source
                   (Pipeline.configuration p)) in
            ret (name, compiled))
         sorted_invocations in
  let steps := Dict.of_items steps in
  let! _ := lift (_ensure_required_stack_components_exist stack steps) in
  let! p := read_pipeline pipeline in
  let run_name :=
    if truthy (PipelineRunConfiguration.run_name run_configuration)
    then default "" (PipelineRunConfiguration.run_name run_configuration)
    else _get_default_run_name (Pipeline.name p) in
  let deployment :=
    PipelineDeploymentBaseModel.mk run_name (Pipeline.configuration p)
      steps get_run_environment_dict in
  let step_specs := Step.spec <$> Dict.values steps in
  let! pipeline_spec := _compute_pipeline_spec pipeline step_specs in
  let! _ := logger (Debug_compiled_deployment deployment) in
  let! _ := logger (Debug_compiled_spec pipeline_spec) in
  ret (deployment, pipeline_spec).

Definition compile_spec (pipeline : loc) : M PipelineSpec.t :=
  let! p := read_pipeline pipeline in
  let! _ := logger (Debug_compiling_pipeline_spec (Pipeline.name p)) in
  (* Copy the pipeline before we connect the steps so we don't mess with
     the pipeline object/step objects in any way *)
  let! pipeline := deepcopy_pipeline pipeline in
  let! sorted_invocations := _get_sorted_invocations pipeline in
  let! invocations :=
    mapM (λ '(_, invocation), _get_step_spec invocation)
         sorted_invocations in
  let! pipeline_spec := _compute_pipeline_spec pipeline invocations in
  let! _ := logger (Debug_compiled_spec pipeline_spec) in
  ret pipeline_spec.

End Compiler.

End Compiler.

(** * Reasoning about compiler actions

    A triple [hoare P m Q E]: from a store that satisfies [P], the action
    [m] either returns [a] in a store that satisfies [Q a], or raises [e]
    in a store that satisfies [E e]. Actions are total functions, so a
    triple also says that the action terminates. *)

Definition hoare {A} (P : State → Prop) (m : M A)
    (Q : A → State → Prop) (E : exn → State → Prop) : Prop :=
  ∀ s, P s →
    match m s with
    | (s', Ok a) => Q a s'
    | (s', Raise e) => E e s'
    end.

Lemma bind_Ok {A B} (m : M A) (k : A → M B) s s' a :
  m s = (s', Ok a) → bind m k s = k a s'.
Proof. intros H. unfold bind. by rewrite H. Qed.

Lemma bind_Raise {A B} (m : M A) (k : A → M B) s s' e :
  m s = (s', Raise e) → bind m k s = (s', Raise e).
Proof. intros H. unfold bind. by rewrite H. Qed.

Lemma bind_Ok_inv {A B} (m : M A) (k : A → M B) s s' b :
  bind m k s = (s', Ok b) → ∃ s1 a, m s = (s1, Ok a) ∧ k a s1 = (s', Ok b).
Proof.
  unfold bind. destruct (m s) as [s1 [a|e]]; [|done]. intros H.
  by exists s1, a.
Qed.

Lemma bind_logger {B} (r : log_record) (k : unit → M B) s :
  bind (logger r) k s
  = k tt (mkState (pipelines s) (steps s) (log s ++ [r])).
Proof. done. Qed.

Lemma bind_lift {A B} (r : res A) (k : A → M B) s :
  bind (lift r) k s
  = match r with Ok a => k a s | Raise e => (s, Raise e) end.
Proof. unfold bind, lift. by destruct r. Qed.

Lemma read_pipeline_Some l p s :
  pipelines s !! l = Some p → read_pipeline l s = (s, Ok p).
Proof. intros H. unfold read_pipeline. by rewrite H. Qed.

Lemma read_step_Some l b s :
  steps s !! l = Some b → read_step l s = (s, Ok b).
Proof. intros H. unfold read_step. by rewrite H. Qed.

Lemma hoare_conseq {A} (P P' : State → Prop) (m : M A)
    (Q Q' : A → State → Prop) (E E' : exn → State → Prop) :
  hoare P m Q E →
  (∀ s, P' s → P s) → (∀ a s, Q a s → Q' a s) → (∀ e s, E e s → E' e s) →
  hoare P' m Q' E'.
Proof.
  intros H HP HQ HE s Hs. specialize (H s (HP s Hs)).
  destruct (m s) as [s' [a|e]]; auto.
Qed.

Lemma hoare_pre {A} (P P' : State → Prop) (m : M A) Q E :
  hoare P m Q E → (∀ s, P' s → P s) → hoare P' m Q E.
Proof. intros H HP. eapply hoare_conseq; eauto. Qed.

Lemma hoare_conj {A} (P : State → Prop) (m : M A) Q1 Q2 E1 E2 :
  hoare P m Q1 E1 → hoare P m Q2 E2 →
  hoare P m (λ a s, Q1 a s ∧ Q2 a s) (λ e s, E1 e s ∧ E2 e s).
Proof.
  intros H1 H2 s Hs. specialize (H1 s Hs). specialize (H2 s Hs).
  destruct (m s) as [s' [a|e]]; auto.
Qed.

Lemma hoare_ret {A} (a : A) (Q : A → State → Prop) E :
  hoare (Q a) (ret a) Q E.
Proof. intros s Hs. exact Hs. Qed.

Lemma hoare_raise {A} (e : exn) (Q : A → State → Prop) E :
  hoare (E e) (raise e) Q E.
Proof. intros s Hs. exact Hs. Qed.

Lemma hoare_lift {A} (r : res A) (P : State → Prop) (Q : A → State → Prop) E :
  (∀ s, P s → match r with Ok a => Q a s | Raise e => E e s end) →
  hoare P (lift r) Q E.
Proof. intros H s Hs. specialize (H s Hs). unfold lift. by destruct r. Qed.

Lemma hoare_bind {A B} (P : State → Prop) (m : M A) (k : A → M B)
    (R : A → State → Prop) (Q : B → State → Prop) E :
  hoare P m R E → (∀ a, hoare (R a) (k a) Q E) → hoare P (bind m k) Q E.
Proof.
  intros Hm Hk s Hs. unfold bind. specialize (Hm s Hs).
  destruct (m s) as [s' [a|e]]; [|done]. by apply Hk.
Qed.

Lemma hoare_forM {A} (I : State → Prop) (l : list A) (f : A → M unit) E :
  (∀ x, x ∈ l → hoare I (f x) (λ _, I) E) →
  hoare I (forM l f) (λ _, I) E.
Proof.
  induction l as [|x l IH]; intros Hf; simpl.
  - intros s Hs. exact Hs.
  - eapply hoare_bind.
    + apply Hf, list_elem_of_here.
    + intros []. apply IH. intros y Hy. by apply Hf, list_elem_of_further.
Qed.

Lemma hoare_mapM {A B} (I : State → Prop) (R : A → B → Prop)
    (f : A → M B) (l : list A) E :
  (∀ x, x ∈ l → hoare I (f x) (λ y s, I s ∧ R x y) E) →
  hoare I (mapM f l) (λ ys s, I s ∧ Forall2 R l ys) E.
Proof.
  induction l as [|x l IH]; intros Hf s Hs; simpl.
  - split; [done | constructor].
  - unfold bind. pose proof (Hf x (list_elem_of_here _ _) s Hs) as Hx.
    destruct (f x s) as [s1 [y|e]]; [|done]. destruct Hx as [HI Hxy].
    assert (∀ z, z ∈ l → hoare I (f z) (λ y s, I s ∧ R z y) E) as Hl
      by (intros z Hz; by apply Hf, list_elem_of_further).
    pose proof (IH Hl s1 HI) as Hys.
    destruct (mapM f l s1) as [s2 [ys|e]]; [|done]. simpl.
    destruct Hys as [HI2 Hys]. split; [done | by constructor].
Qed.

Lemma hoare_foldM {A B} (I : B → list A → State → Prop)
    (f : B → A → M B) (l : list A) (acc : B) E :
  (∀ acc x done, x ∈ l →
     hoare (I acc done) (f acc x) (λ acc' s, I acc' (done ++ [x]) s) E) →
  ∀ done, hoare (I acc done) (foldM f acc l)
            (λ acc' s, I acc' (done ++ l) s) E.
Proof.
  revert acc. induction l as [|x l IH]; intros acc Hf done s Hs; simpl.
  - by rewrite app_nil_r.
  - unfold bind.
    pose proof (Hf acc x done (list_elem_of_here _ _) s Hs) as Hx.
    destruct (f acc x s) as [s1 [acc'|e]]; [|done].
    assert (∀ acc x done, x ∈ l →
              hoare (I acc done) (f acc x)
                (λ acc' s, I acc' (done ++ [x]) s) E) as Hl
      by (intros ? z ? Hz; by apply Hf, list_elem_of_further).
    pose proof (IH acc' Hl (done ++ [x]) s1 Hx) as Hrest.
    by rewrite <- app_assoc in Hrest.
Qed.

(** ** The working copy of a pipeline *)

(** The store [s0] of the caller is part of the store [s]: every object of
    [s0] is in [s] and is as it was. *)
Definition frame (s0 s : State) : Prop :=
  pipelines s0 ⊆ pipelines s ∧ steps s0 ⊆ steps s.

Lemma frame_refl s : frame s s.
Proof. by split. Qed.

(** [copy] is an entry of a deep copy whose original is the entry
    [original] of a pipeline of [s0]: the step of the copy is an object
    that [s0] does not have, with the source of the original step. *)
Definition copy_of (s0 s : State)
    (original copy : string * StepInvocation.t) : Prop :=
  copy.1 = original.1
  ∧ copy.2 = set_step original.2 (StepInvocation.step copy.2)
  ∧ (StepInvocation.step copy.2 ∉ dom (steps s0))
  ∧ ∃ b, steps s !! StepInvocation.step copy.2 = Some b
         ∧ ∀ b0, steps s0 !! StepInvocation.step original.2 = Some b0 →
                 BaseStep.source b = BaseStep.source b0.

(** [pipeline] holds a working copy of the pipeline [p0] of [s0]: a new
    object that differs from [p0] in its configuration [c] and in the
    steps that its invocations refer to, which are new objects as well. *)
Definition working (s0 : State) (p0 : Pipeline.t) (pipeline : loc)
    (invocations : Dict.t StepInvocation.t) (c : PipelineConfiguration.t)
    (s : State) : Prop :=
  frame s0 s
  ∧ (pipeline ∉ dom (pipelines s0))
  ∧ pipelines s !! pipeline
    = Some (set_pipeline_configuration (set_invocations p0 invocations) c)
  ∧ Forall2 (copy_of s0 s) (Pipeline.invocations p0) invocations.

Definition with_steps (s : State) (m : gmap loc BaseStep.t) : State :=
  mkState (pipelines s) m (log s).

Definition with_pipelines (s : State) (m : gmap loc Pipeline.t) : State :=
  mkState m (steps s) (log s).

Definition with_log (s : State) (l : list log_record) : State :=
  mkState (pipelines s) (steps s) l.

Lemma frame_write_step s0 s l b :
  frame s0 s → l ∉ dom (steps s0) → frame s0 (with_steps s (<[l := b]> (steps s))).
Proof.
  intros [Hp Hs] Hl. split; [done|]. simpl.
  apply insert_subseteq_r; [by apply not_elem_of_dom | done].
Qed.

Lemma frame_write_pipeline s0 s l p :
  frame s0 s → l ∉ dom (pipelines s0) →
  frame s0 (with_pipelines s (<[l := p]> (pipelines s))).
Proof.
  intros [Hp Hs] Hl. split; [|done]. simpl.
  apply insert_subseteq_r; [by apply not_elem_of_dom | done].
Qed.

Lemma frame_fresh_step s0 s : frame s0 s → fresh (dom (steps s)) ∉ dom (steps s0).
Proof.
  intros [_ Hs] Hin. apply (is_fresh (dom (steps s))).
  by apply (subseteq_dom _ _ Hs).
Qed.

Lemma frame_fresh_pipeline s0 s :
  frame s0 s → fresh (dom (pipelines s)) ∉ dom (pipelines s0).
Proof.
  intros [Hp _] Hin. apply (is_fresh (dom (pipelines s))).
  by apply (subseteq_dom _ _ Hp).
Qed.

Lemma copy_of_write_step s0 s l b original copy :
  copy_of s0 s original copy →
  (∀ b', steps s !! l = Some b' → BaseStep.source b = BaseStep.source b') →
  copy_of s0 (with_steps s (<[l := b]> (steps s))) original copy.
Proof.
  intros (Hn & Hc & Hnew & b1 & Hb1 & Hsrc) Hb.
  split_and!; try done. simpl.
  destruct (decide (l = StepInvocation.step copy.2)) as [->|Hne].
  - exists b. rewrite lookup_insert_eq. split; [done|].
    intros b0 Hb0. rewrite (Hb b1 Hb1). auto.
  - exists b1. by rewrite lookup_insert_ne.
Qed.

Lemma working_write_step s0 p0 pipeline invocations c s l b :
  working s0 p0 pipeline invocations c s →
  l ∉ dom (steps s0) →
  (∀ b', steps s !! l = Some b' → BaseStep.source b = BaseStep.source b') →
  working s0 p0 pipeline invocations c (with_steps s (<[l := b]> (steps s))).
Proof.
  intros (Hf & Hnew & Hp & Hinv) Hl Hb. split_and!; try done.
  - by apply frame_write_step.
  - eapply Forall2_impl; [exact Hinv|]. intros o k Hoc.
    by apply copy_of_write_step.
Qed.

Lemma working_write_pipeline s0 p0 pipeline invocations c s c' :
  working s0 p0 pipeline invocations c s →
  working s0 p0 pipeline invocations c'
    (with_pipelines s
       (<[pipeline :=
            set_pipeline_configuration (set_invocations p0 invocations) c']>
          (pipelines s))).
Proof.
  intros (Hf & Hnew & Hp & Hinv). split_and!; try done.
  - by apply frame_write_pipeline.
  - simpl. by rewrite lookup_insert_eq.
Qed.

Lemma working_log s0 p0 pipeline invocations c s l :
  working s0 p0 pipeline invocations c s →
  working s0 p0 pipeline invocations c (with_log s l).
Proof. done. Qed.

Lemma working_step_new s0 p0 pipeline invocations c s name invocation :
  working s0 p0 pipeline invocations c s →
  (name, invocation) ∈ invocations →
  (StepInvocation.step invocation ∉ dom (steps s0))
  ∧ is_Some (steps s !! StepInvocation.step invocation).
Proof.
  intros (_ & _ & _ & Hinv) Hin.
  apply list_elem_of_lookup in Hin as [i Hi].
  destruct (Forall2_lookup_r _ _ _ _ _ Hinv Hi)
    as (o & _ & _ & _ & Hnew & b & Hb & _).
  split; [done | by exists b].
Qed.

(** ** Deep copies *)

(** Every copy recorded in the memo is a new object that holds what its
    original holds. *)
Definition memo_ok (s0 s : State) (memo : gmap loc loc) : Prop :=
  ∀ l l', memo !! l = Some l' →
    (l' ∉ dom (steps s0))
    ∧ ∃ b, steps s !! l' = Some b ∧ ∀ b0, steps s0 !! l = Some b0 → b = b0.

Lemma deepcopy_step_spec s0 memo l :
  hoare (λ s, frame s0 s ∧ memo_ok s0 s memo)
    (deepcopy_step memo l)
    (λ r s, frame s0 s ∧ memo_ok s0 s r.1 ∧ memo ⊆ r.1
            ∧ r.1 !! l = Some r.2)
    (λ e s, frame s0 s).
Proof.
  intros s [Hf Hm]. unfold deepcopy_step.
  destruct (memo !! l) as [l'|] eqn:Hl; simpl; [done|].
  unfold bind, read_step. destruct (steps s !! l) as [b|] eqn:Hb; simpl; [|done].
  pose proof (frame_fresh_step s0 s Hf) as Hnew.
  pose proof (is_fresh (dom (steps s))) as Hfresh.
  split_and!.
  - by apply (frame_write_step s0 s).
  - intros k k'. rewrite lookup_insert.
    case_decide as Hk.
    + intros [= <-]. subst k. split; [done|]. exists b. simpl.
      rewrite lookup_insert_eq. split; [done|]. intros b0 Hb0.
      destruct Hf as [_ Hs]. pose proof (lookup_weaken _ _ _ _ Hb0 Hs).
      congruence.
    + intros Hkk. destruct (Hm k k' Hkk) as (Hk' & b' & Hb' & Hsame).
      split; [done|]. exists b'. split; [|done]. simpl.
      rewrite lookup_insert_ne; [done|]. intros <-.
      apply Hfresh. by eapply elem_of_dom_2.
  - by apply insert_subseteq.
  - by rewrite lookup_insert_eq.
Qed.

Definition copied_entry (memo : gmap loc loc)
    (original copy : string * StepInvocation.t) : Prop :=
  copy.1 = original.1
  ∧ copy.2 = set_step original.2 (StepInvocation.step copy.2)
  ∧ memo !! StepInvocation.step original.2 = Some (StepInvocation.step copy.2).

Lemma deepcopy_invocations_spec s0 invocations :
  ∀ memo,
    hoare (λ s, frame s0 s ∧ memo_ok s0 s memo)
      (deepcopy_invocations memo invocations)
      (λ r s, frame s0 s ∧ memo_ok s0 s r.1 ∧ memo ⊆ r.1
              ∧ Forall2 (copied_entry r.1) invocations r.2)
      (λ e s, frame s0 s).
Proof.
  induction invocations as [|[name invocation] rest IH]; intros memo; simpl.
  - intros s [Hf Hm]. simpl. split_and!; done.
  - unfold deepcopy_invocation.
    intros s Hs. unfold bind at 1 2.
    pose proof (deepcopy_step_spec s0 memo (StepInvocation.step invocation)
                  s Hs) as H1.
    destruct (deepcopy_step memo (StepInvocation.step invocation) s)
      as [s1 [[memo1 l1]|e]]; [|done]. simpl in H1.
    destruct H1 as (Hf1 & Hm1 & Hsub1 & Hl1). simpl. unfold bind.
    pose proof (IH memo1 s1 (conj Hf1 Hm1)) as H2.
    destruct (deepcopy_invocations memo1 rest s1)
      as [s2 [[memo2 rest']|e]]; [|done]. simpl in *.
    destruct H2 as (Hf2 & Hm2 & Hsub2 & Hrest).
    split_and!; try done; [by etrans|].
    constructor; [|done]. split_and!; try done. simpl.
    by apply (lookup_weaken _ _ _ _ Hl1).
Qed.

Lemma copied_entry_copy_of s0 s memo original copy :
  memo_ok s0 s memo → copied_entry memo original copy →
  copy_of s0 s original copy.
Proof.
  intros Hm (Hn & Hc & Hl).
  destruct (Hm _ _ Hl) as (Hnew & b & Hb & Hsame).
  split_and!; try done. exists b. split; [done|].
  intros b0 Hb0. by rewrite (Hsame b0 Hb0).
Qed.

(** Copying fails on an invocation whose step does not exist. *)
Lemma deepcopy_invocations_dangling s0 invocations :
  ∀ memo s,
    frame s0 s →
    match deepcopy_invocations memo invocations s with
    | (_, Ok _) => True
    | (_, Raise _) =>
        ¬ ∀ name invocation, (name, invocation) ∈ invocations →
            is_Some (steps s0 !! StepInvocation.step invocation)
    end.
Proof.
  induction invocations as [|[n i] rest IH]; intros memo s Hf; simpl; [done|].
  unfold bind at 1, deepcopy_invocation, bind at 1, deepcopy_step.
  destruct (memo !! StepInvocation.step i) as [l'|] eqn:Hmemo; simpl.
  - unfold bind. specialize (IH memo s Hf).
    destruct (deepcopy_invocations memo rest s) as [s' [[??]|?]]; [done|].
    intros Hall. apply IH. intros name inv Hin.
    apply (Hall name). by apply list_elem_of_further.
  - unfold bind at 1, read_step.
    destruct (steps s !! StepInvocation.step i) as [b|] eqn:Hb; simpl.
    + unfold bind.
      match goal with |- context [deepcopy_invocations ?m rest ?s'] =>
        assert (frame s0 s') as Hf';
          [|specialize (IH m s' Hf');
            destruct (deepcopy_invocations m rest s') as [s'' [[??]|?]]]
      end.
      * apply (frame_write_step s0 s); [done | by apply frame_fresh_step].
      * done.
      * intros Hall. apply IH. intros name inv Hin.
        apply (Hall name). by apply list_elem_of_further.
    + intros Hall. destruct (Hall n i (list_elem_of_here _ _)) as [b0 Hb0].
      destruct Hf as [_ Hs]. pose proof (lookup_weaken _ _ _ _ Hb0 Hs).
      congruence.
Qed.

Lemma deepcopy_invocations_log invocations :
  ∀ memo s, log (deepcopy_invocations memo invocations s).1 = log s.
Proof.
  induction invocations as [|[n i] rest IH]; intros memo s; simpl; [done|].
  unfold bind, deepcopy_invocation, bind, deepcopy_step.
  destruct (memo !! StepInvocation.step i); simpl.
  - specialize (IH memo s).
    by destruct (deepcopy_invocations memo rest s) as [s' [[??]|?]].
  - unfold bind, read_step.
    destruct (steps s !! StepInvocation.step i); simpl; [|done].
    match goal with |- context [deepcopy_invocations ?m rest ?s'] =>
      specialize (IH m s');
      by destruct (deepcopy_invocations m rest s') as [s'' [[??]|?]]
    end.
Qed.

(** A deep copy of a pipeline is a working copy of it with the
    configuration of the original; the action fails only on a dangling
    reference, and never touches the caller's store. *)
Lemma deepcopy_pipeline_spec s0 pipeline :
  hoare (λ s, pipelines s = pipelines s0 ∧ steps s = steps s0)
    (deepcopy_pipeline pipeline)
    (λ pipeline' s, ∃ p0 invocations,
       pipelines s0 !! pipeline = Some p0
       ∧ working s0 p0 pipeline' invocations (Pipeline.configuration p0) s)
    (λ e s, frame s0 s
            ∧ ¬ ∃ p0, pipelines s0 !! pipeline = Some p0
                      ∧ ∀ name invocation,
                          (name, invocation) ∈ Pipeline.invocations p0 →
                          is_Some (steps s0 !! StepInvocation.step invocation)).
Proof.
  intros s [Hps Hss]. unfold deepcopy_pipeline, bind at 1, read_pipeline.
  rewrite Hps.
  destruct (pipelines s0 !! pipeline) as [p0|] eqn:Hp0; simpl.
  2: { split; [split; [by rewrite Hps | by rewrite Hss]|].
       by intros (p0 & ? & _). }
  unfold bind.
  assert (frame s0 s ∧ memo_ok s0 s ∅) as Hpre.
  { split; [split; [by rewrite Hps | by rewrite Hss]|].
    intros l l' Hl. by rewrite lookup_empty in Hl. }
  pose proof (deepcopy_invocations_spec s0 (Pipeline.invocations p0) ∅ s Hpre)
    as Hcopy.
  pose proof (deepcopy_invocations_dangling s0 (Pipeline.invocations p0) ∅ s
                (proj1 Hpre)) as Hdangling.
  destruct (deepcopy_invocations ∅ (Pipeline.invocations p0) s)
    as [s1 [[memo invocations]|e]]; simpl in *.
  - destruct Hcopy as (Hf & Hm & _ & Hentries).
    exists p0, invocations. split; [done|]. split_and!.
    + apply (frame_write_pipeline s0 s1); [done | by apply frame_fresh_pipeline].
    + by apply frame_fresh_pipeline.
    + simpl. rewrite lookup_insert_eq. by destruct p0.
    + eapply Forall2_impl; [exact Hentries|]. intros o c Hoc.
      by apply (copied_entry_copy_of s0 s1 memo).
  - split; [done|]. intros (p0' & Hp0' & Hall). simplify_eq. eauto.
Qed.

(** * Sorting the invocations *)

(** The dependency graph of a pipeline: the parents of an invocation are
    its upstream steps. *)
Definition upstream_of (invocations : Dict.t StepInvocation.t)
    (name : string) : list string :=
  match Dict.get invocations name with
  | Some invocation => elements (StepInvocation.upstream_steps invocation)
  | None => []
  end.

(** Every upstream step of every invocation is an invocation. *)
Definition upstream_closed (invocations : Dict.t StepInvocation.t) : Prop :=
  ∀ name invocation, (name, invocation) ∈ invocations →
    StepInvocation.upstream_steps invocation
      ⊆ list_to_set (Dict.keys invocations).

(** The outcome of verifying the upstream steps of the invocations in
    turn: the error of the first invocation that names a missing step. *)
Fixpoint verify_all (available_steps : gset string)
    (items : Dict.t StepInvocation.t) : res unit :=
  match items with
  | [] => Ok tt
  | (_, invocation) :: rest =>
      let invalid_upstream_steps :=
        StepInvocation.upstream_steps invocation ∖ available_steps in
      if decide (invalid_upstream_steps = ∅)
      then verify_all available_steps rest
      else Raise (Exn RuntimeError
                    (InvalidUpstreamSteps invalid_upstream_steps
                       available_steps))
  end.

Lemma verify_all_Ok available_steps items :
  verify_all available_steps items = Ok tt ↔
  ∀ name invocation, (name, invocation) ∈ items →
    StepInvocation.upstream_steps invocation ⊆ available_steps.
Proof.
  induction items as [|[n i] rest IH]; simpl.
  - split; [|done]. intros _ ?? H. by apply elem_of_nil in H.
  - case_decide as Hd.
    + rewrite IH. split.
      * intros H name inv [Heq|Hin]%elem_of_cons; [|eauto].
        injection Heq as -> ->. set_solver.
      * intros H name inv Hin. apply (H name). by apply list_elem_of_further.
    + split; [done|]. intros H. exfalso. apply Hd.
      specialize (H n i (list_elem_of_here _ _)). set_solver.
Qed.

Lemma verify_all_Raise available_steps items e :
  verify_all available_steps items = Raise e →
  ∃ name invocation,
    (name, invocation) ∈ items
    ∧ StepInvocation.upstream_steps invocation ∖ available_steps ≠ ∅
    ∧ e = Exn RuntimeError
            (InvalidUpstreamSteps
               (StepInvocation.upstream_steps invocation ∖ available_steps)
               available_steps).
Proof.
  induction items as [|[n i] rest IH]; simpl; [done|].
  case_decide as Hd.
  - intros (name & inv & Hin & H)%IH. exists name, inv.
    split; [by apply list_elem_of_further | done].
  - intros [= <-]. exists n, i. split; [apply list_elem_of_here | done].
Qed.

Section sorting.

Context (list_of_set : gset string → list string).
Context (list_of_set_perm : ∀ X, list_of_set X ≡ₚ elements X).

Lemma elem_of_list_of_set (X : gset string) x : x ∈ list_of_set X ↔ x ∈ X.
Proof. by rewrite list_of_set_perm, elem_of_elements. Qed.

(** The dictionary [dag] that [_get_sorted_invocations] builds. *)
Definition dag_of (invocations : Dict.t StepInvocation.t) :
    Dict.t (list string) :=
  (λ ni, (ni.1, list_of_set (StepInvocation.upstream_steps ni.2)))
    <$> invocations.

Lemma keys_dag_of invocations :
  Dict.keys (dag_of invocations) = Dict.keys invocations.
Proof.
  unfold Dict.keys, dag_of. rewrite <- list_fmap_compose.
  by apply list_fmap_ext.
Qed.

Lemma get_dag_of invocations name :
  Dict.get (dag_of invocations) name
  = (λ i, list_of_set (StepInvocation.upstream_steps i))
      <$> Dict.get invocations name.
Proof.
  induction invocations as [|[n i] rest IH]; simpl; [done|].
  by case_decide.
Qed.

Lemma build_dag_spec pipeline p s :
  pipelines s !! pipeline = Some p →
  ∀ items acc,
    NoDup (Dict.keys acc ++ Dict.keys items) →
    foldM (λ (dag : Dict.t (list string)) '(name, step),
             let! _ := Compiler._verify_upstream_steps step pipeline in
             ret (Dict.set dag name
                    (list_of_set (StepInvocation.upstream_steps step))))
          acc items s
    = (s, match verify_all (list_to_set (Dict.keys (Pipeline.invocations p)))
                  items with
          | Ok _ => Ok (acc ++ dag_of items)
          | Raise e => Raise e
          end).
Proof.
  intros Hp. induction items as [|[n i] rest IH]; intros acc Hnd; simpl.
  - by rewrite app_nil_r.
  - unfold bind at 1. unfold bind at 1.
    unfold Compiler._verify_upstream_steps, bind, read_pipeline.
    rewrite Hp. simpl. case_decide as Hd; simpl; [|done].
    rewrite IH.
    + rewrite Dict.set_fresh.
      * by rewrite <- app_assoc.
      * apply NoDup_app in Hnd as (_ & Hnd & _). intros Hin.
        apply (Hnd n Hin). apply list_elem_of_here.
    + rewrite Dict.keys_set. unfold Dict.mem.
      rewrite bool_decide_false.
      * rewrite <- app_assoc. done.
      * apply NoDup_app in Hnd as (_ & Hnd & _). intros Hin.
        apply (Hnd n Hin). apply list_elem_of_here.
Qed.

Lemma lookup_invocations_spec pipeline p s names :
  pipelines s !! pipeline = Some p →
  (∀ name, name ∈ names → name ∈ Dict.keys (Pipeline.invocations p)) →
  ∃ sorted,
    mapM (λ name_in_pipeline,
            let! p := read_pipeline pipeline in
            let! invocation :=
              lift (subscript (Pipeline.invocations p) name_in_pipeline) in
            ret (name_in_pipeline, invocation))
         names s
    = (s, Ok sorted)
    ∧ sorted.*1 = names
    ∧ Forall (λ ni, Dict.get (Pipeline.invocations p) ni.1 = Some ni.2)
        sorted.
Proof.
  intros Hp. induction names as [|n names IH]; intros Hin; simpl.
  - exists []. split_and!; [done | done | constructor].
  - destruct IH as (sorted & Hrun & Hnames & Hget).
    { intros m Hm. by apply Hin, list_elem_of_further. }
    assert (is_Some (Dict.get (Pipeline.invocations p) n)) as [i Hi].
    { apply Dict.get_is_Some, Hin, list_elem_of_here. }
    exists ((n, i) :: sorted).
    split_and!; [| by rewrite fmap_cons, Hnames | by constructor].
    erewrite bind_Ok; [|erewrite bind_Ok;
                         [|by apply read_pipeline_Some]; simpl;
                        erewrite bind_Ok; [done|];
                        unfold lift, subscript; by rewrite Hi].
    by erewrite bind_Ok.
Qed.

(** The closures that the compiler hands to [topsorted_layers]. *)
Definition get_parent_nodes (invocations : Dict.t StepInvocation.t)
    (node : string) : list string :=
  default [] (Dict.get (dag_of invocations) node).

Definition get_child_nodes (invocations : Dict.t StepInvocation.t)
    (node : string) : list string :=
  default [] (Dict.get (reverse_dag (dag_of invocations)) node).

Lemma elem_of_get_parent_nodes invocations n q :
  q ∈ get_parent_nodes invocations n ↔ q ∈ upstream_of invocations n.
Proof.
  unfold get_parent_nodes, upstream_of. rewrite get_dag_of.
  destruct (Dict.get invocations n); simpl; [|done].
  by rewrite elem_of_list_of_set, elem_of_elements.
Qed.

Lemma get_parent_nodes_domain invocations n :
  get_parent_nodes invocations n ≠ [] → n ∈ Dict.keys invocations.
Proof.
  unfold get_parent_nodes. rewrite get_dag_of. intros Hne.
  apply Dict.get_is_Some. by destruct (Dict.get invocations n).
Qed.

Lemma get_reverse_dag (dag : Dict.t (list string)) node :
  node ∈ Dict.keys dag →
  Dict.get (reverse_dag dag) node
  = Some (filter (λ kv, node ∈ kv.2) dag).*1.
Proof.
  unfold reverse_dag. generalize (Dict.keys dag) as ks.
  induction ks as [|k ks IH]; simpl.
  - intros H. by apply elem_of_nil in H.
  - intros H. case_decide as Hk; [by subst|].
    apply elem_of_cons in H as [?|?]; [by subst | auto].
Qed.

Lemma get_child_nodes_reverses invocations n q :
  upstream_closed invocations →
  n ∈ Dict.keys invocations → q ∈ get_parent_nodes invocations n →
  n ∈ get_child_nodes invocations q.
Proof.
  intros Hclosed Hn Hq. unfold get_child_nodes.
  apply Dict.get_is_Some in Hn as [i Hi].
  assert (q ∈ StepInvocation.upstream_steps i) as Hqi.
  { unfold get_parent_nodes in Hq. rewrite get_dag_of, Hi in Hq.
    simpl in Hq. by apply elem_of_list_of_set in Hq. }
  pose proof (Dict.get_Some_elem _ _ _ Hi) as Hin.
  rewrite get_reverse_dag.
  - simpl. apply list_elem_of_fmap.
    exists (n, list_of_set (StepInvocation.upstream_steps i)).
    split; [done|]. apply list_elem_of_filter. split.
    + simpl. by apply elem_of_list_of_set.
    + unfold dag_of. apply list_elem_of_fmap. by exists (n, i).
  - rewrite keys_dag_of. apply (elem_of_list_to_set (C := gset string)).
    by apply (Hclosed n i Hin).
Qed.

Lemma tc_get_parent_nodes invocations a b :
  tc (Graph.edge (get_parent_nodes invocations)) a b
  ↔ tc (Graph.edge (upstream_of invocations)) a b.
Proof.
  split; induction 1 as [x y Hxy | x y z Hxy _ IH].
  - apply tc_once. by apply elem_of_get_parent_nodes.
  - eapply tc_l; [|exact IH]. by apply elem_of_get_parent_nodes.
  - apply tc_once. by apply elem_of_get_parent_nodes.
  - eapply tc_l; [|exact IH]. by apply elem_of_get_parent_nodes.
Qed.

(** What [_get_sorted_invocations] computes: it leaves the store as it is
    and returns the first upstream error, the error of the layering, or
    the invocations in the order of the concatenated layers. *)
Lemma get_sorted_invocations_run pipeline p s :
  pipelines s !! pipeline = Some p →
  NoDup (Dict.keys (Pipeline.invocations p)) →
  ∃ r, Compiler._get_sorted_invocations list_of_set pipeline s = (s, r)
    ∧ match verify_all (list_to_set (Dict.keys (Pipeline.invocations p)))
              (Pipeline.invocations p) with
      | Raise e => r = Raise e
      | Ok _ =>
          match topsort.topsorted_layers
                  (get_parent_nodes (Pipeline.invocations p))
                  (get_child_nodes (Pipeline.invocations p))
                  (Dict.keys (Pipeline.invocations p)) with
          | Raise e => r = Raise e
          | Ok layers =>
              ∃ sorted, r = Ok sorted
                ∧ sorted.*1 = concat layers
                ∧ Forall (λ ni, Dict.get (Pipeline.invocations p) ni.1
                                = Some ni.2) sorted
          end
      end.
Proof.
  intros Hp Hnd. unfold Compiler._get_sorted_invocations.
  erewrite bind_Ok; [|by apply read_pipeline_Some].
  pose proof (build_dag_spec pipeline p s Hp (Pipeline.invocations p) [] Hnd)
    as Hdag.
  destruct (verify_all _ (Pipeline.invocations p)) as [[]|e] eqn:Hv.
  - erewrite bind_Ok; [|exact Hdag]. simpl.
    rewrite keys_dag_of.
    fold (get_parent_nodes (Pipeline.invocations p)).
    fold (get_child_nodes (Pipeline.invocations p)).
    destruct (topsort.topsorted_layers _ _ _) as [layers|e] eqn:Hl.
    + erewrite bind_Ok; [|done].
      destruct (lookup_invocations_spec pipeline p s (concat layers) Hp)
        as (sorted & Hrun & Hnames & Hget).
      { intros name Hname.
        by eapply topsort.topsorted_layers_elem. }
      exists (Ok sorted). split; [exact Hrun|]. by exists sorted.
    + exists (Raise e). split; [|done]. by erewrite bind_Raise.
  - exists (Raise e). split; [|done]. by erewrite bind_Raise.
Qed.

Lemma sorted_pairs_Permutation {V} (d sorted : Dict.t V) :
  NoDup (Dict.keys d) → sorted.*1 ≡ₚ Dict.keys d →
  Forall (λ kv, Dict.get d kv.1 = Some kv.2) sorted →
  sorted ≡ₚ d.
Proof.
  intros Hnd Hperm Hget. rewrite Forall_forall in Hget.
  apply NoDup_Permutation.
  - apply (NoDup_fmap_1 fst). by rewrite Hperm.
  - by apply (NoDup_fmap_1 fst).
  - intros [k v]. split.
    + intros Hin. apply Dict.get_Some_elem. by apply (Hget (k, v)).
    + intros Hin.
      assert (k ∈ sorted.*1) as Hk.
      { rewrite Hperm. apply list_elem_of_fmap. by exists (k, v). }
      apply list_elem_of_fmap in Hk as ([k' v'] & -> & Hin').
      pose proof (Hget _ Hin') as Hv'. simpl in *.
      rewrite (Dict.elem_get d k' v Hnd Hin) in Hv'. by injection Hv' as <-.
Qed.

Lemma upstream_closed_parents invocations :
  upstream_closed invocations →
  ∀ n q, n ∈ Dict.keys invocations → q ∈ get_parent_nodes invocations n →
         q ∈ Dict.keys invocations.
Proof.
  intros Hclosed n q Hn Hq.
  apply elem_of_get_parent_nodes in Hq. unfold upstream_of in Hq.
  destruct (Dict.get invocations n) as [i|] eqn:Hi;
    [|by apply elem_of_nil in Hq].
  apply elem_of_elements in Hq.
  apply (elem_of_list_to_set (C := gset string)).
  by apply (Hclosed n i (Dict.get_Some_elem _ _ _ Hi)).
Qed.

(** The result of [_get_sorted_invocations] on a pipeline whose upstream
    steps all exist: a cycle error if the graph has a cycle, and
    otherwise the invocations, each once, every one after its upstream
    steps. *)
Lemma get_sorted_invocations_closed pipeline p s :
  pipelines s !! pipeline = Some p →
  NoDup (Dict.keys (Pipeline.invocations p)) →
  upstream_closed (Pipeline.invocations p) →
  (Graph.has_cycle (upstream_of (Pipeline.invocations p))
   ∧ Compiler._get_sorted_invocations list_of_set pipeline s
     = (s, Raise (Exn RuntimeError CycleDetected)))
  ∨ (Graph.acyclic (upstream_of (Pipeline.invocations p))
     ∧ ∃ sorted,
         Compiler._get_sorted_invocations list_of_set pipeline s
         = (s, Ok sorted)
         ∧ sorted ≡ₚ Pipeline.invocations p
         ∧ Graph.topological (upstream_of (Pipeline.invocations p))
             sorted.*1).
Proof.
  intros Hp Hnd Hclosed.
  destruct (get_sorted_invocations_run pipeline p s Hp Hnd) as (r & Hrun & Hr).
  assert (verify_all (list_to_set (Dict.keys (Pipeline.invocations p)))
            (Pipeline.invocations p) = Ok tt) as Hv
    by (by apply verify_all_Ok).
  rewrite Hv in Hr.
  destruct (topsort.topsorted_layers _ _ _) as [layers|e] eqn:Hl.
  - right. destruct Hr as (sorted & -> & Hnames & Hget).
    apply topsort.topsorted_layers_Ok in Hl as [Hperm Htop]; [|done].
    assert (Graph.topological (upstream_of (Pipeline.invocations p))
              sorted.*1) as Htop'.
    { rewrite Hnames. intros l1 n l2 Heq q Hq.
      apply (Htop l1 n l2 Heq). by apply elem_of_get_parent_nodes. }
    split.
    + apply (Graph.topological_acyclic _ sorted.*1 Htop').
      intros n Hn. rewrite Hnames, Hperm.
      unfold upstream_of in Hn. apply Dict.get_is_Some.
      by destruct (Dict.get (Pipeline.invocations p) n).
    + exists sorted. split_and!; [done | | done].
      apply sorted_pairs_Permutation; [done | by rewrite Hnames | done].
  - left. subst r.
    apply topsort.topsorted_layers_Raise in Hl as [-> [n Hn]]; try done.
    + split; [|done]. exists n. by apply tc_get_parent_nodes.
    + intros n q. by apply upstream_closed_parents.
    + intros n q. by apply get_child_nodes_reverses.
Qed.

End sorting.

(** * Filtering and validating settings *)

Section settings.

Context (key_resolves : Stack.t → string → bool).

(** The loop of [_filter_and_validate_settings] without the store: the
    records it logs and its outcome. *)
Fixpoint validate (configuration_level : ConfigurationLevel) (stack : Stack.t)
    (validated_settings : Dict.t BaseSettings.t)
    (items : list (string * BaseSettings.t)) :
    list log_record * res (Dict.t BaseSettings.t) :=
  match items with
  | [] => ([], Ok validated_settings)
  | (key, settings_instance) :: items' =>
      if key_resolves stack key then
        if decide (configuration_level ∈ BaseSettings.LEVEL settings_instance)
        then validate configuration_level stack
               (Dict.set validated_settings key settings_instance) items'
        else ([], Raise (Exn TypeError
                           (UnsupportedLevel settings_instance
                              configuration_level)))
      else
        let (records, r) :=
          validate configuration_level stack validated_settings items' in
        (Info_not_including_settings key :: records, r)
  end.

Lemma filter_and_validate_settings_loop_run level stack items :
  ∀ validated s,
    Compiler._filter_and_validate_settings_loop key_resolves validated items
      level stack s
    = (with_log s (log s ++ (validate level stack validated items).1),
       (validate level stack validated items).2).
Proof.
  induction items as [|[key inst] items IH]; intros validated s; simpl.
  - unfold ret, with_log. rewrite app_nil_r. by destruct s.
  - unfold Compiler.resolve. destruct (key_resolves stack key); simpl.
    + case_decide; [apply IH | done || (unfold raise, with_log;
        rewrite app_nil_r; by destruct s)].
    + unfold bind, logger. rewrite IH. simpl.
      destruct (validate level stack validated items) as [records r]. simpl.
      unfold with_log. simpl. by rewrite <- app_assoc.
Qed.

Lemma bind_filter {B} settings level stack (k : _ → M B) s :
  bind (Compiler._filter_and_validate_settings key_resolves settings level
          stack) k s
  = match (validate level stack [] settings).2 with
    | Ok validated =>
        k validated
          (with_log s (log s ++ (validate level stack [] settings).1))
    | Raise e =>
        (with_log s (log s ++ (validate level stack [] settings).1), Raise e)
    end.
Proof.
  unfold bind, Compiler._filter_and_validate_settings.
  rewrite filter_and_validate_settings_loop_run.
  by destruct (validate level stack [] settings).2.
Qed.

Lemma filter_and_validate_settings_run settings level stack s :
  Compiler._filter_and_validate_settings key_resolves settings level stack s
  = (with_log s (log s ++ (validate level stack [] settings).1),
     (validate level stack [] settings).2).
Proof. apply filter_and_validate_settings_loop_run. Qed.

(** An entry whose key does not resolve has no part in the outcome. *)
Lemma validate_unresolved level stack key inst before after :
  key_resolves stack key = false →
  ∀ validated,
    (validate level stack validated (before ++ (key, inst) :: after)).2
    = (validate level stack validated (before ++ after)).2.
Proof.
  intros Hkey. induction before as [|[k i] before IH]; intros validated; simpl.
  - rewrite Hkey. by destruct (validate level stack validated after).
  - destruct (key_resolves stack k).
    + case_decide; [apply IH | done].
    + specialize (IH validated).
      destruct (validate level stack validated (before ++ (key, inst) :: after)).
      by destruct (validate level stack validated (before ++ after)).
Qed.

(** When the loop gets as far as an entry whose key does not resolve, it
    logs the notice for that key. *)
Lemma validate_unresolved_logged level stack key inst before after :
  key_resolves stack key = false →
  ∀ validated,
    is_Ok (validate level stack validated before).2 →
    Info_not_including_settings key
      ∈ (validate level stack validated (before ++ (key, inst) :: after)).1.
Proof.
  intros Hkey. induction before as [|[k i] before IH]; intros validated; simpl.
  - intros _. rewrite Hkey.
    destruct (validate level stack validated after). apply list_elem_of_here.
  - destruct (key_resolves stack k).
    + case_decide; [apply IH | done].
    + specialize (IH validated).
      destruct (validate level stack validated before) as [? r]. simpl.
      intros Hr. specialize (IH Hr).
      destruct (validate level stack validated (before ++ (key, inst) :: after)).
      by apply list_elem_of_further.
Qed.

(** The only failure is the level mismatch of an entry whose key
    resolves. *)
Lemma validate_Raise level stack items e :
  ∀ validated,
    (validate level stack validated items).2 = Raise e →
    ∃ key inst,
      (key, inst) ∈ items
      ∧ key_resolves stack key = true
      ∧ (level ∉ BaseSettings.LEVEL inst)
      ∧ e = Exn TypeError (UnsupportedLevel inst level).
Proof.
  induction items as [|[k i] items IH]; intros validated; simpl; [done|].
  destruct (key_resolves stack k) eqn:Hk.
  - case_decide as Hl.
    + intros (key & inst & Hin & H)%IH. exists key, inst.
      split; [by apply list_elem_of_further | done].
    + intros [= <-]. exists k, i. split; [apply list_elem_of_here | done].
  - specialize (IH validated).
    destruct (validate level stack validated items) as [? r]. simpl.
    intros (key & inst & Hin & H)%IH. exists key, inst.
    split; [by apply list_elem_of_further | done].
Qed.

(** What is validated has a key that resolves and allows the level. *)
Lemma validate_Ok level stack items :
  ∀ validated validated',
    (validate level stack validated items).2 = Ok validated' →
    ∀ key inst, (key, inst) ∈ validated' →
      (key, inst) ∈ validated
      ∨ ((key, inst) ∈ items ∧ key_resolves stack key = true
         ∧ level ∈ BaseSettings.LEVEL inst).
Proof.
  induction items as [|[k i] items IH]; intros validated validated'; simpl.
  - intros [= <-]. auto.
  - destruct (key_resolves stack k) eqn:Hk.
    + case_decide as Hl; [|done].
      intros Hv key inst Hin.
      destruct (IH _ _ Hv key inst Hin) as [Hold|(Hnew & ? & ?)].
      * apply Dict.elem_of_set in Hold as [Hold|[= -> ->]]; [by left|].
        right. split; [apply list_elem_of_here | done].
      * right. split; [by apply list_elem_of_further | done].
    + specialize (IH validated validated').
      destruct (validate level stack validated items) as [? r]. simpl.
      intros Hv key inst Hin.
      destruct (IH Hv key inst Hin) as [Hold|(Hnew & ? & ?)]; [by left|].
      right. split; [by apply list_elem_of_further | done].
Qed.

End settings.

(** * The phases of a compilation *)

Lemma filter_none {A} (P : A → Prop) `{∀ x, Decision (P x)} (l : list A) :
  Forall (λ x, ¬ P x) l → filter P l = [].
Proof.
  induction 1 as [|x l Hx _ IH]; [done|].
  by rewrite filter_cons, decide_False.
Qed.

Lemma hoare_forM_prefix {A} (I : list A → State → Prop)
    (E : exn → State → Prop) (f : A → M unit) :
  ∀ l done,
    (∀ d x r, l = d ++ x :: r →
       hoare (I (done ++ d)) (f x) (λ _, I (done ++ d ++ [x])) E) →
    hoare (I done) (forM l f) (λ _, I (done ++ l)) E.
Proof.
  induction l as [|x l IH]; intros done Hf s Hs; simpl.
  - by rewrite app_nil_r.
  - unfold bind.
    pose proof (Hf [] x l eq_refl s) as Hx. rewrite app_nil_r in Hx.
    specialize (Hx Hs).
    destruct (f x s) as [s1 [[]|e]]; [|done]. simpl in Hx.
    assert (∀ d y r, l = d ++ y :: r →
              hoare (I ((done ++ [x]) ++ d)) (f y)
                (λ _, I ((done ++ [x]) ++ d ++ [y])) E) as Hl.
    { intros d y r ->. rewrite <- !app_assoc. simpl.
      apply (Hf (x :: d) y r eq_refl). }
    pose proof (IH (done ++ [x]) Hl s1 Hx) as Hrest.
    by rewrite <- app_assoc in Hrest.
Qed.

Lemma Pipeline_configure_run pipeline update merge p s :
  pipelines s !! pipeline = Some p →
  Pipeline_configure pipeline update merge s
  = (with_pipelines s
       (<[pipeline :=
            set_pipeline_configuration p
              (update_pipeline_configuration merge (Pipeline.configuration p)
                 update)]>
          (pipelines s)),
     Ok tt).
Proof.
  intros Hp. unfold Pipeline_configure.
  by erewrite bind_Ok; [|by apply read_pipeline_Some].
Qed.

Lemma BaseStep_configure_run step update merge b s :
  steps s !! step = Some b →
  BaseStep_configure step update merge s
  = (with_steps s
       (<[step :=
            BaseStep.mk (BaseStep.source b)
              (update_step_configuration merge (BaseStep.configuration b)
                 update)]>
          (steps s)),
     Ok tt).
Proof.
  intros Hb. unfold BaseStep_configure.
  by erewrite bind_Ok; [|by apply read_step_Some].
Qed.

Lemma StepInvocation_finalize_run invocation b s :
  steps s !! StepInvocation.step invocation = Some b →
  StepInvocation_finalize invocation s = (s, Ok (BaseStep.configuration b)).
Proof.
  intros Hb. unfold StepInvocation_finalize.
  by erewrite bind_Ok; [|by apply read_step_Some].
Qed.

(** Every step of the working copy has a configuration with property
    [P]. *)
Definition steps_have (P : StepConfiguration.t → Prop)
    (invocations : Dict.t StepInvocation.t) (s : State) : Prop :=
  ∀ name invocation, (name, invocation) ∈ invocations →
    ∃ b, steps s !! StepInvocation.step invocation = Some b
         ∧ P (BaseStep.configuration b).

Lemma steps_have_frame P invocations s s' :
  steps s ⊆ steps s' → steps_have P invocations s →
  steps_have P invocations s'.
Proof.
  intros Hsub Hs name inv Hin. destruct (Hs name inv Hin) as (b & Hb & HP).
  exists b. split; [by eapply lookup_weaken | done].
Qed.

Lemma working_frame s0 p0 pipeline invocations c s s' :
  pipelines s' = pipelines s → steps s ⊆ steps s' →
  working s0 p0 pipeline invocations c s →
  working s0 p0 pipeline invocations c s'.
Proof.
  intros Hps Hss ([Hfp Hfs] & Hnew & Hp & Hinv). split_and!; try done.
  - split; [by rewrite Hps | by etrans].
  - by rewrite Hps.
  - eapply Forall2_impl; [exact Hinv|].
    intros o k (Hn & Hk & Hknew & b & Hb & Hsrc). split_and!; try done.
    exists b. split; [by eapply lookup_weaken | done].
Qed.

(** Configuring the step of every invocation in turn: a property that the
    update establishes holds of all steps afterwards, and so does a
    property that the update preserves. *)
Lemma configure_all_steps s0 p0 pipeline invocations c update merge
    (P Q : StepConfiguration.t → Prop) :
  (∀ k, P k → P (update_step_configuration merge k update)) →
  (∀ k, Q (update_step_configuration merge k update)) →
  hoare (λ s, working s0 p0 pipeline invocations c s
              ∧ steps_have P invocations s)
    (forM (Dict.values invocations) (λ invocation,
       BaseStep_configure (StepInvocation.step invocation) update merge))
    (λ _ s, working s0 p0 pipeline invocations c s
            ∧ steps_have P invocations s
            ∧ steps_have Q invocations s)
    (λ _ _, False).
Proof.
  intros HP HQ.
  pose (I := λ (done : list StepInvocation.t) s,
          working s0 p0 pipeline invocations c s
          ∧ steps_have P invocations s
          ∧ ∀ i, i ∈ done →
              ∃ b, steps s !! StepInvocation.step i = Some b
                   ∧ Q (BaseStep.configuration b)).
  eapply hoare_conseq.
  - apply (hoare_forM_prefix I (λ _ _, False) _ (Dict.values invocations) []).
    intros d x r Hd s (Hw & Hp & Hq). simpl in *.
    assert (∃ n, (n, x) ∈ invocations) as [n Hn].
    { assert (x ∈ Dict.values invocations) as Hx
        by (rewrite Hd; apply elem_of_app; right; apply list_elem_of_here).
      apply list_elem_of_fmap in Hx as ([n x'] & -> & Hx). by exists n. }
    destruct (working_step_new _ _ _ _ _ _ _ _ Hw Hn) as [Hnew [b Hb]].
    rewrite (BaseStep_configure_run _ _ _ b s Hb).
    split_and!.
    + apply working_write_step; [done | done |].
      intros b' Hb'. by simplify_eq.
    + intros name inv Hin. destruct (Hp name inv Hin) as (b1 & Hb1 & HP1).
      simpl.
      destruct (decide (StepInvocation.step x = StepInvocation.step inv))
        as [Heq|Hne].
      * rewrite Heq, lookup_insert_eq. eexists. split; [done|]. simpl.
        apply HP. rewrite Heq in Hb. by simplify_eq.
      * rewrite lookup_insert_ne by done. by exists b1.
    + intros i [Hi| ->%list_elem_of_singleton]%elem_of_app; simpl.
      * destruct (Hq i Hi) as (b1 & Hb1 & HQ1).
        destruct (decide (StepInvocation.step x = StepInvocation.step i))
          as [Heq|Hne].
        -- rewrite Heq, lookup_insert_eq. eexists. split; [done|]. apply HQ.
        -- rewrite lookup_insert_ne by done. by exists b1.
      * rewrite lookup_insert_eq. eexists. split; [done|]. apply HQ.
  - intros s [Hw Hp]. split_and!; [done | done |].
    intros i Hi. by apply elem_of_nil in Hi.
  - intros [] s (Hw & Hp & Hq). split_and!; [done | done |].
    intros name inv Hin. apply Hq. simpl.
    apply list_elem_of_fmap. by exists (name, inv).
  - done.
Qed.

(** ** Applying the run configuration *)

Definition run_update (config : PipelineRunConfiguration.t) :
    PipelineConfigurationUpdate.t :=
  PipelineConfigurationUpdate.mk
    (PipelineRunConfiguration.enable_cache config)
    (PipelineRunConfiguration.enable_artifact_metadata config)
    (PipelineRunConfiguration.enable_artifact_visualization config)
    (Some (PipelineRunConfiguration.settings config))
    (Some (PipelineRunConfiguration.extra config)).

(** The first step named in the run configuration that the pipeline does
    not have. *)
Definition first_unknown_step (config : PipelineRunConfiguration.t)
    (invocations : Dict.t StepInvocation.t) : option string :=
  head (filter (λ name, name ∉ Dict.keys invocations)
          (Dict.keys (PipelineRunConfiguration.steps config))).

(** The three booleans of a step configuration have the values that the
    run configuration sets. *)
Definition cache_overridden (config : PipelineRunConfiguration.t)
    (k : StepConfiguration.t) : Prop :=
  ∀ v, PipelineRunConfiguration.enable_cache config = Some v →
       StepConfiguration.enable_cache k = Some v.

Definition metadata_overridden (config : PipelineRunConfiguration.t)
    (k : StepConfiguration.t) : Prop :=
  ∀ v, PipelineRunConfiguration.enable_artifact_metadata config = Some v →
       StepConfiguration.enable_artifact_metadata k = Some v.

Definition visualization_overridden (config : PipelineRunConfiguration.t)
    (k : StepConfiguration.t) : Prop :=
  ∀ v, PipelineRunConfiguration.enable_artifact_visualization config = Some v →
       StepConfiguration.enable_artifact_visualization k = Some v.

Definition overridden (config : PipelineRunConfiguration.t)
    (k : StepConfiguration.t) : Prop :=
  cache_overridden config k
  ∧ metadata_overridden config k
  ∧ visualization_overridden config k.

Lemma working_read s0 p0 pipeline invocations c s :
  working s0 p0 pipeline invocations c s →
  read_pipeline pipeline s
  = (s, Ok (set_pipeline_configuration (set_invocations p0 invocations) c)).
Proof. intros (_ & _ & Hp & _). by apply read_pipeline_Some. Qed.

Lemma working_steps_exist s0 p0 pipeline invocations c s :
  working s0 p0 pipeline invocations c s →
  steps_have (λ _, True) invocations s.
Proof.
  intros Hw name inv Hin.
  destruct (working_step_new _ _ _ _ _ _ _ _ Hw Hin) as [_ [b Hb]].
  by exists b.
Qed.

Section run_configuration.

Context (default_merge : bool).
Context (s0 : State) (p0 : Pipeline.t) (pipeline : loc).
Context (invocations : Dict.t StepInvocation.t).

Lemma apply_step_configurations c config :
  hoare (working s0 p0 pipeline invocations c)
    (forM (PipelineRunConfiguration.steps config) (λ '(step_name, step_config),
       let! p := read_pipeline pipeline in
       if negb (Dict.mem step_name (Pipeline.invocations p))
       then raise (Exn KeyError (NoStepWithName step_name))
       else
         let! invocation :=
           lift (subscript (Pipeline.invocations p) step_name) in
         BaseStep_configure (StepInvocation.step invocation) step_config
           default_merge))
    (λ _ s, working s0 p0 pipeline invocations c s
            ∧ first_unknown_step config invocations = None)
    (λ e s, working s0 p0 pipeline invocations c s
            ∧ ∃ name, first_unknown_step config invocations = Some name
                      ∧ e = Exn KeyError (NoStepWithName name)).
Proof.
  pose (I := λ (done : list (string * StepConfigurationUpdate.t)) s,
          working s0 p0 pipeline invocations c s
          ∧ Forall (λ name, name ∈ Dict.keys invocations) done.*1).
  pose (E := λ e s,
          working s0 p0 pipeline invocations c s
          ∧ ∃ name, first_unknown_step config invocations = Some name
                    ∧ e = Exn KeyError (NoStepWithName name)).
  eapply hoare_conseq.
  - apply (hoare_forM_prefix I E _ (PipelineRunConfiguration.steps config) []).
    intros d [step_name step_config] r Hd s [Hw Hknown]. simpl in *.
    erewrite bind_Ok; [|by eapply working_read]. simpl.
    unfold Dict.mem. case_bool_decide as Hmem; simpl.
    + apply Dict.get_is_Some in Hmem as [inv Hinv].
      erewrite bind_Ok; [|unfold lift, subscript; by rewrite Hinv].
      pose proof (Dict.get_Some_elem _ _ _ Hinv) as Hin.
      destruct (working_step_new _ _ _ _ _ _ _ _ Hw Hin) as [Hnew [b Hb]].
      rewrite (BaseStep_configure_run _ _ _ b s Hb). split.
      * apply working_write_step; [done | done |].
        intros b' Hb'. by simplify_eq.
      * rewrite fmap_app, Forall_app. split; [done|].
        apply Forall_singleton. apply Dict.get_is_Some. by exists inv.
    + split; [done|]. exists step_name. split; [|done].
      unfold first_unknown_step, Dict.keys. rewrite Hd, fmap_app, filter_app.
      rewrite fmap_cons, filter_cons, decide_True by done.
      rewrite filter_none; [done|].
      eapply Forall_impl; [exact Hknown|]. intros x Hx Hnx. done.
  - intros s Hw. split; [done | constructor].
  - intros [] s [Hw Hknown]. split; [done|].
    unfold first_unknown_step. rewrite filter_none; [done|].
    eapply Forall_impl; [exact Hknown|]. intros x Hx Hnx. done.
  - done.
Qed.

(** [_apply_run_configuration] merges the run configuration into the
    configuration of the pipeline, raises [KeyError] for the first step the
    run configuration names that the pipeline does not have, and
    otherwise leaves every step with the booleans that the run
    configuration sets. *)
Lemma apply_run_configuration_spec c config :
  hoare (working s0 p0 pipeline invocations c)
    (Compiler._apply_run_configuration default_merge pipeline config)
    (λ _ s, working s0 p0 pipeline invocations
              (update_pipeline_configuration default_merge c
                 (run_update config)) s
            ∧ first_unknown_step config invocations = None
            ∧ steps_have (overridden config) invocations s)
    (λ e s, working s0 p0 pipeline invocations
              (update_pipeline_configuration default_merge c
                 (run_update config)) s
            ∧ ∃ name, first_unknown_step config invocations = Some name
                      ∧ e = Exn KeyError (NoStepWithName name)).
Proof.
  set (c1 := update_pipeline_configuration default_merge c (run_update config)).
  unfold Compiler._apply_run_configuration.
  eapply hoare_bind.
  { instantiate (1 := λ _, working s0 p0 pipeline invocations c1).
    intros s Hw. destruct Hw as (Hf & Hnew & Hp & Hinv).
    rewrite (Pipeline_configure_run _ _ _ _ s Hp).
    apply (working_write_pipeline s0 p0 pipeline invocations c s c1).
    by split_and!. }
  intros []. eapply hoare_bind; [apply apply_step_configurations|].
  intros []. simpl.
  (* cache *)
  eapply hoare_bind.
  { instantiate (1 := λ _ s,
      (working s0 p0 pipeline invocations c1 s
       ∧ first_unknown_step config invocations = None)
      ∧ steps_have (cache_overridden config) invocations s).
    destruct (PipelineRunConfiguration.enable_cache config) as [v|] eqn:Hv.
    - intros s [Hw Hk]. erewrite bind_Ok; [|by eapply working_read]. simpl.
      pose proof (configure_all_steps s0 p0 pipeline invocations c1
                    (StepConfigurationUpdate.mk (Some v)
                       None None None None None None None None)
                    default_merge (λ _, True) (cache_overridden config)) as H.
      specialize (H (λ _ _, I)).
      assert (∀ k, cache_overridden config
                     (update_step_configuration default_merge k
                        (StepConfigurationUpdate.mk (Some v)
                           None None None None None None None None))) as HQ.
      { intros k v' Hv'. rewrite Hv in Hv'. by simplify_eq. }
      specialize (H HQ s (conj Hw (working_steps_exist _ _ _ _ _ _ Hw))).
      destruct (forM _ _ s) as [s' [[]|e]]; [|done].
      by destruct H as (? & _ & ?).
    - intros s [Hw Hk]. simpl. split; [done|].
      intros name inv Hin.
      destruct (working_steps_exist _ _ _ _ _ _ Hw name inv Hin) as (b & ? & _).
      exists b. split; [done|]. intros v Hv'. by rewrite Hv in Hv'. }
  intros [].
  (* metadata *)
  eapply hoare_bind.
  { instantiate (1 := λ _ s,
      (working s0 p0 pipeline invocations c1 s
       ∧ first_unknown_step config invocations = None)
      ∧ steps_have (λ k, cache_overridden config k
                         ∧ metadata_overridden config k) invocations s).
    destruct (PipelineRunConfiguration.enable_artifact_metadata config)
      as [v|] eqn:Hv.
    - intros s [[Hw Hk] Hc]. erewrite bind_Ok; [|by eapply working_read]. simpl.
      pose proof (configure_all_steps s0 p0 pipeline invocations c1
                    (StepConfigurationUpdate.mk None (Some v)
                       None None None None None None None)
                    default_merge (cache_overridden config)
                    (metadata_overridden config)) as H.
      specialize (H (λ k Hk, Hk)).
      assert (∀ k, metadata_overridden config
                     (update_step_configuration default_merge k
                        (StepConfigurationUpdate.mk None (Some v)
                           None None None None None None None))) as HQ.
      { intros k v' Hv'. rewrite Hv in Hv'. by simplify_eq. }
      specialize (H HQ s (conj Hw Hc)).
      destruct (forM _ _ s) as [s' [[]|e]]; [|done].
      destruct H as (Hw' & Hc' & Hm'). split; [done|].
      intros name inv Hin.
      destruct (Hc' name inv Hin) as (b & Hb & ?).
      destruct (Hm' name inv Hin) as (b' & Hb' & ?). simplify_eq.
      by exists b.
    - intros s [[Hw Hk] Hc]. simpl. split; [done|].
      intros name inv Hin. destruct (Hc name inv Hin) as (b & ? & ?).
      exists b. split; [done|]. split; [done|].
      intros v Hv'. by rewrite Hv in Hv'. }
  intros [].
  (* visualization *)
  destruct (PipelineRunConfiguration.enable_artifact_visualization config)
    as [v|] eqn:Hv.
  - intros s [[Hw Hk] Hc]. erewrite bind_Ok; [|by eapply working_read]. simpl.
    pose proof (configure_all_steps s0 p0 pipeline invocations c1
                  (StepConfigurationUpdate.mk None None (Some v)
                     None None None None None None)
                  default_merge
                  (λ k, cache_overridden config k
                        ∧ metadata_overridden config k)
                  (visualization_overridden config)) as H.
    specialize (H (λ k Hk, Hk)).
    assert (∀ k, visualization_overridden config
                   (update_step_configuration default_merge k
                      (StepConfigurationUpdate.mk None None (Some v)
                         None None None None None None))) as HQ.
    { intros k v' Hv'. unfold visualization_overridden in *.
      rewrite Hv in Hv'. by simplify_eq. }
    specialize (H HQ s (conj Hw Hc)).
    destruct (forM _ _ s) as [s' [[]|e]]; [|done].
    destruct H as (Hw' & Hc' & Hm'). split_and!; [done | done |].
    intros name inv Hin.
    destruct (Hc' name inv Hin) as (b & Hb & ? & ?).
    destruct (Hm' name inv Hin) as (b' & Hb' & ?). simplify_eq.
    by exists b.
  - intros s [[Hw Hk] Hc]. simpl. split_and!; [done | done |].
    intros name inv Hin. destruct (Hc name inv Hin) as (b & ? & ? & ?).
    exists b. split; [done|]. split_and!; [done | done |].
    intros v Hv'. unfold visualization_overridden in *. by rewrite Hv in Hv'.
Qed.

End run_configuration.

(** ** Stack defaults and pipeline settings *)

(** The pipeline settings once the defaults of the stack components have
    been merged in. *)
Definition with_stack_defaults (stack : Stack.t)
    (pipeline_settings : Dict.t BaseSettings.t) : Dict.t BaseSettings.t :=
  foldl (λ pipeline_settings component,
           match StackComponent.settings_class component with
           | None => pipeline_settings
           | Some settings_class =>
               let settings_key :=
                 get_stack_component_setting_key component in
               let default_settings :=
                 Compiler._get_default_settings component settings_class in
               match Dict.get pipeline_settings settings_key with
               | Some existing =>
                   Dict.set pipeline_settings settings_key
                     (update_model default_settings existing)
               | None =>
                   Dict.set pipeline_settings settings_key default_settings
               end
           end)
        pipeline_settings (Dict.values (Stack.components stack)).

Definition set_settings (c : PipelineConfiguration.t)
    (settings : Dict.t BaseSettings.t) : PipelineConfiguration.t :=
  PipelineConfiguration.mk
    (PipelineConfiguration.enable_cache c)
    (PipelineConfiguration.enable_artifact_metadata c)
    (PipelineConfiguration.enable_artifact_visualization c)
    settings
    (PipelineConfiguration.extra c)
    (PipelineConfiguration.failure_hook_source c)
    (PipelineConfiguration.success_hook_source c).

Lemma replace_settings c settings :
  update_pipeline_configuration false c
    (PipelineConfigurationUpdate.mk None None None (Some settings) None)
  = set_settings c settings.
Proof. done. Qed.

Lemma configure_settings_spec s0 p0 pipeline invocations c settings :
  hoare (working s0 p0 pipeline invocations c)
    (Pipeline_configure pipeline
       (PipelineConfigurationUpdate.mk None None None (Some settings) None)
       false)
    (λ _ s, working s0 p0 pipeline invocations (set_settings c settings) s)
    (λ _ _, False).
Proof.
  intros s Hw. pose proof Hw as (Hf & Hnew & Hp & Hinv).
  rewrite (Pipeline_configure_run _ _ _ _ s Hp).
  by apply (working_write_pipeline s0 p0 pipeline invocations c s).
Qed.

Lemma configure_settings_steps pipeline settings s :
  steps (Pipeline_configure pipeline
           (PipelineConfigurationUpdate.mk None None None (Some settings) None)
           false s).1
  = steps s.
Proof.
  unfold Pipeline_configure, bind, read_pipeline.
  by destruct (pipelines s !! pipeline).
Qed.

Lemma apply_stack_default_settings_spec s0 p0 pipeline invocations c stack :
  hoare (working s0 p0 pipeline invocations c)
    (Compiler._apply_stack_default_settings pipeline stack)
    (λ _ s, working s0 p0 pipeline invocations
              (set_settings c
                 (with_stack_defaults stack (PipelineConfiguration.settings c)))
              s)
    (λ _ _, False).
Proof.
  intros s Hw. unfold Compiler._apply_stack_default_settings.
  erewrite bind_Ok; [|by eapply working_read].
  by apply configure_settings_spec.
Qed.

Lemma apply_stack_default_settings_steps pipeline stack s :
  steps (Compiler._apply_stack_default_settings pipeline stack s).1 = steps s.
Proof.
  unfold Compiler._apply_stack_default_settings, bind at 1, read_pipeline.
  destruct (pipelines s !! pipeline); [|done].
  apply configure_settings_steps.
Qed.

(** ** Compiling one invocation *)

Section step_invocation.

Context (key_resolves : Stack.t → string → bool).
Context (list_of_set : gset string → list string).

(** The configuration of a compiled step: the settings, extras and hooks
    passed down by the pipeline replace those of the step, and those of the
    step are then merged back on top. *)
Definition compiled_configuration (k : StepConfiguration.t)
    (pipeline_settings : Dict.t BaseSettings.t)
    (pipeline_extra : Dict.t string)
    (pipeline_failure_hook_source pipeline_success_hook_source : option Source)
    (step_settings : Dict.t BaseSettings.t) : StepConfiguration.t :=
  update_step_configuration true
    (update_step_configuration false k
       (StepConfigurationUpdate.mk None None None None None
          (Some pipeline_settings) (Some pipeline_extra)
          pipeline_failure_hook_source pipeline_success_hook_source))
    (StepConfigurationUpdate.mk None None None None None
       (Some step_settings) (Some (StepConfiguration.extra k))
       (StepConfiguration.failure_hook_source k)
       (StepConfiguration.success_hook_source k)).

(** The spec of an invocation whose step resolves to [source]. *)
Definition step_spec_of (source : Source) (invocation : StepInvocation.t) :
    StepSpec.t :=
  StepSpec.mk source
    (sorted (list_of_set (StepInvocation.upstream_steps invocation)))
    (Dict.of_items
       ((λ '(key, artifact),
           (key, InputSpec.mk (StepArtifact.invocation_id artifact)
                   (StepArtifact.output_name artifact)))
          <$> StepInvocation.input_artifacts invocation))
    (StepInvocation.id invocation).

Lemma get_step_spec_run invocation b s :
  steps s !! StepInvocation.step invocation = Some b →
  Compiler._get_step_spec list_of_set invocation s
  = (s, Ok (step_spec_of (BaseStep.source b) invocation)).
Proof.
  intros Hb. unfold Compiler._get_step_spec.
  by erewrite bind_Ok; [|by apply read_step_Some].
Qed.

(** [_compile_step_invocation] works on a new copy of the step: it
    allocates one object and writes to that object only. *)
Lemma compile_step_invocation_run invocation pipeline_settings pipeline_extra
    stack failure_hook success_hook b s :
  steps s !! StepInvocation.step invocation = Some b →
  Compiler._compile_step_invocation key_resolves list_of_set invocation
    pipeline_settings pipeline_extra stack failure_hook success_hook s
  = let l := fresh (dom (steps s)) in
    let v := validate key_resolves STEP stack []
               (StepConfiguration.settings (BaseStep.configuration b)) in
    match v.2 with
    | Ok step_settings =>
        let k := compiled_configuration (BaseStep.configuration b)
                   pipeline_settings pipeline_extra failure_hook success_hook
                   step_settings in
        (mkState (pipelines s)
           (<[l := BaseStep.mk (BaseStep.source b) k]> (steps s))
           (log s ++ v.1),
         Ok (Step.mk (step_spec_of (BaseStep.source b) invocation) k))
    | Raise e =>
        (mkState (pipelines s) (<[l := b]> (steps s)) (log s ++ v.1),
         Raise e)
    end.
Proof.
  intros Hb. unfold Compiler._compile_step_invocation.
  set (l := fresh (dom (steps s))).
  set (s1 := with_steps s (<[l := b]> (steps s))).
  assert (deepcopy_invocation ∅ invocation s
          = (s1, Ok (<[StepInvocation.step invocation := l]> ∅,
                     set_step invocation l))) as Hcopy.
  { assert (deepcopy_step ∅ (StepInvocation.step invocation) s
            = (s1, Ok (<[StepInvocation.step invocation := l]> ∅, l))) as Hstep.
    { unfold deepcopy_step. rewrite lookup_empty.
      erewrite bind_Ok; [|by apply read_step_Some].
      by erewrite bind_Ok. }
    unfold deepcopy_invocation. by erewrite bind_Ok; [|exact Hstep]. }
  erewrite bind_Ok; [|exact Hcopy]. cbn beta iota.
  assert (steps s1 !! l = Some b) as Hl by (simpl; by rewrite lookup_insert_eq).
  erewrite bind_Ok; [|by apply (get_step_spec_run (set_step invocation l) b)].
  erewrite bind_Ok; [|by apply read_step_Some].
  erewrite bind_filter. cbn beta iota.
  destruct (validate key_resolves STEP stack []
                     (StepConfiguration.settings (BaseStep.configuration b)))
    as [records [step_settings|e]]; simpl; [|done].
  set (s2 := with_log s1 (log s1 ++ records)).
  assert (steps s2 !! l = Some b) as Hl2 by done.
  erewrite bind_Ok; [|by apply (BaseStep_configure_run l _ _ b)].
  erewrite bind_Ok.
  2: { apply BaseStep_configure_run. simpl. by rewrite lookup_insert_eq. }
  erewrite bind_Ok.
  2: { apply StepInvocation_finalize_run. simpl. by rewrite lookup_insert_eq. }
  simpl. unfold ret, with_steps. simpl. rewrite !insert_insert_eq. done.
Qed.

Lemma bind_compile_step {B} invocation pipeline_settings pipeline_extra
    stack failure_hook success_hook (k : Step.t → M B) s b :
  steps s !! StepInvocation.step invocation = Some b →
  bind (Compiler._compile_step_invocation key_resolves list_of_set invocation
          pipeline_settings pipeline_extra stack failure_hook success_hook)
       k s
  = let l := fresh (dom (steps s)) in
    let v := validate key_resolves STEP stack []
               (StepConfiguration.settings (BaseStep.configuration b)) in
    match v.2 with
    | Ok step_settings =>
        let c := compiled_configuration (BaseStep.configuration b)
                   pipeline_settings pipeline_extra failure_hook success_hook
                   step_settings in
        k (Step.mk (step_spec_of (BaseStep.source b) invocation) c)
          (mkState (pipelines s)
             (<[l := BaseStep.mk (BaseStep.source b) c]> (steps s))
             (log s ++ v.1))
    | Raise e =>
        (mkState (pipelines s) (<[l := b]> (steps s)) (log s ++ v.1),
         Raise e)
    end.
Proof.
  intros Hb. unfold bind at 1.
  rewrite (compile_step_invocation_run _ _ _ _ _ _ b s Hb). simpl.
  by destruct (validate key_resolves STEP stack []
                 (StepConfiguration.settings (BaseStep.configuration b))).2.
Qed.

End step_invocation.

(** ** Reading actions *)

Section reading.

Context (list_of_set : gset string → list string).

Lemma verify_upstream_steps_readonly invocation pipeline s :
  (Compiler._verify_upstream_steps invocation pipeline s).1 = s.
Proof.
  unfold Compiler._verify_upstream_steps, bind, read_pipeline.
  destruct (pipelines s !! pipeline); [|done]. by case_decide.
Qed.

Lemma build_dag_readonly pipeline items :
  ∀ acc s,
    (foldM (λ (dag : Dict.t (list string)) '(name, step),
              let! _ := Compiler._verify_upstream_steps step pipeline in
              ret (Dict.set dag name
                     (list_of_set (StepInvocation.upstream_steps step))))
           acc items s).1 = s.
Proof.
  induction items as [|[n i] items IH]; intros acc s; simpl; [done|].
  unfold bind at 1. unfold bind at 1.
  pose proof (verify_upstream_steps_readonly i pipeline s) as Hv.
  destruct (Compiler._verify_upstream_steps i pipeline s) as [s' [[]|e]];
    simpl in *; subst; [apply IH | done].
Qed.

Lemma lookup_invocations_readonly pipeline p s :
  pipelines s !! pipeline = Some p →
  ∀ names,
    match mapM (λ name_in_pipeline,
                  let! p := read_pipeline pipeline in
                  let! invocation :=
                    lift (subscript (Pipeline.invocations p)
                            name_in_pipeline) in
                  ret (name_in_pipeline, invocation))
               names s with
    | (s', Ok sorted) =>
        s' = s
        ∧ Forall (λ ni, Dict.get (Pipeline.invocations p) ni.1 = Some ni.2)
            sorted
    | (s', Raise _) => s' = s
    end.
Proof.
  intros Hp. induction names as [|n names IH]; simpl.
  - split; [done | constructor].
  - unfold bind at 1. unfold bind at 1.
    rewrite (read_pipeline_Some _ _ _ Hp). unfold bind at 1, lift, subscript.
    destruct (Dict.get (Pipeline.invocations p) n) as [i|] eqn:Hi; [|done].
    simpl. unfold bind.
    destruct (mapM _ names s) as [s' [sorted|e]]; [|done].
    destruct IH as [-> Hall]. simpl. split; [done | by constructor].
Qed.

(** [_get_sorted_invocations] reads: the store stays as it is, and what it
    returns are entries of the dictionary of invocations. *)
Lemma get_sorted_invocations_readonly pipeline s :
  match Compiler._get_sorted_invocations list_of_set pipeline s with
  | (s', Ok sorted) =>
      s' = s
      ∧ ∀ p, pipelines s !! pipeline = Some p →
             Forall (λ ni, Dict.get (Pipeline.invocations p) ni.1 = Some ni.2)
               sorted
  | (s', Raise _) => s' = s
  end.
Proof.
  unfold Compiler._get_sorted_invocations, bind at 1, read_pipeline.
  destruct (pipelines s !! pipeline) as [p|] eqn:Hp; [|done].
  unfold bind at 1.
  pose proof (build_dag_readonly pipeline (Pipeline.invocations p) [] s) as Hdag.
  match type of Hdag with (?m).1 = _ =>
    destruct m as [s1 [dag|e]] end; simpl in Hdag; subst s1; [|done].
  unfold bind at 1, lift.
  destruct (topsort.topsorted_layers _ _ _) as [layers|e]; [|done].
  pose proof (lookup_invocations_readonly pipeline p s Hp (concat layers)) as H.
  destruct (mapM _ (concat layers) s) as [s' [sorted|e]]; [|done].
  destruct H as [-> Hall]. split; [done|]. intros p' Hp'. by simplify_eq.
Qed.

Lemma compute_pipeline_spec_run pipeline p step_specs s :
  pipelines s !! pipeline = Some p →
  Compiler._compute_pipeline_spec pipeline step_specs s
  = (s, Ok (if Pipeline.is_base_pipeline p
            then PipelineSpec.mk (Some "0.3") None None step_specs
            else PipelineSpec.mk None (Some (Pipeline.source p))
                   (Some (Pipeline._parameters p)) step_specs)).
Proof.
  intros Hp. unfold Compiler._compute_pipeline_spec.
  erewrite bind_Ok; [|by apply read_pipeline_Some].
  by destruct (Pipeline.is_base_pipeline p).
Qed.

End reading.

(** ** Required stack components *)

(** The one way in which [_ensure_required_stack_components_exist] fails:
    a compiled step names a step operator or an experiment tracker that
    the stack does not have. *)
Definition missing_component (stack : Stack.t) (steps : Dict.t Step.t)
    (e : exn) : Prop :=
  ∃ name step, (name, step) ∈ steps ∧
    ((∃ step_operator available,
        StepConfiguration.step_operator (Step.config step) = Some step_operator
        ∧ (step_operator ∉ available)
        ∧ e = Exn StackValidationError
                (MissingStepOperator name step_operator (Stack.name stack)
                   available))
     ∨ (∃ experiment_tracker available,
          StepConfiguration.experiment_tracker (Step.config step)
          = Some experiment_tracker
          ∧ (experiment_tracker ∉ available)
          ∧ e = Exn StackValidationError
                  (MissingExperimentTracker name experiment_tracker
                     (Stack.name stack) available))).

Lemma ensure_required_stack_components_exist_Raise stack steps e :
  Compiler._ensure_required_stack_components_exist stack steps = Raise e →
  missing_component stack steps e.
Proof.
  unfold Compiler._ensure_required_stack_components_exist.
  set (f := λ (r : res unit) (_ : string * Step.t), _).
  enough (∀ r0, foldl f r0 steps = Raise e →
            r0 = Raise e ∨ missing_component stack steps e) as H.
  { intros Hr. by destruct (H (Ok tt) Hr). }
  induction steps as [|[name step] steps IH]; intros r0; simpl; [by left|].
  intros Hr. destruct (IH _ Hr) as [Hf|(n & st & Hin & Hcause)].
  - destruct r0 as [[]|e0]; [|by left]. right. simpl in Hf.
    exists name, step. split; [apply list_elem_of_here|].
    destruct (StepConfiguration.step_operator (Step.config step))
      as [op|] eqn:Hop; simpl in Hf.
    + destruct (negb (bool_decide (op = ""))) eqn:Hne; simpl in Hf.
      * case_bool_decide as Hav; simpl in Hf.
        -- destruct (StepConfiguration.experiment_tracker (Step.config step))
             as [tr|] eqn:Htr; simpl in Hf; [|done].
           destruct (negb (bool_decide (tr = ""))); simpl in Hf; [|done].
           case_bool_decide as Hav'; simpl in Hf; [done|].
           right. exists tr. eexists. split; [done|]. split; [exact Hav'|].
           by injection Hf as <-.
        -- left. exists op. eexists. split; [done|]. split; [exact Hav|].
           by injection Hf as <-.
      * destruct (StepConfiguration.experiment_tracker (Step.config step))
          as [tr|] eqn:Htr; simpl in Hf; [|done].
        destruct (negb (bool_decide (tr = ""))); simpl in Hf; [|done].
        case_bool_decide as Hav'; simpl in Hf; [done|].
        right. exists tr. eexists. split; [done|]. split; [exact Hav'|].
        by injection Hf as <-.
    + destruct (StepConfiguration.experiment_tracker (Step.config step))
        as [tr|] eqn:Htr; simpl in Hf; [|done].
      destruct (negb (bool_decide (tr = ""))); simpl in Hf; [|done].
      case_bool_decide as Hav'; simpl in Hf; [done|].
      right. exists tr. eexists. split; [done|]. split; [exact Hav'|].
      by injection Hf as <-.
  - right. exists n, st. split; [by apply list_elem_of_further | done].
Qed.

(** ** The working copy and the original *)

(** The invocations of a copy differ from the originals in the locations
    of their steps only. *)
Definition same_entry (original copy : string * StepInvocation.t) : Prop :=
  copy.1 = original.1
  ∧ copy.2 = set_step original.2 (StepInvocation.step copy.2).

Lemma copy_of_same_entry s0 s invocations0 invocations :
  Forall2 (copy_of s0 s) invocations0 invocations →
  Forall2 same_entry invocations0 invocations.
Proof.
  intros H. eapply Forall2_impl; [exact H|]. by intros o c (? & ? & _).
Qed.

Lemma same_entry_keys invocations0 invocations :
  Forall2 same_entry invocations0 invocations →
  Dict.keys invocations = Dict.keys invocations0.
Proof.
  intros Hsame.
  unfold Dict.keys. induction Hsame as [|o c os cs [Hn _] _ IH]; [done|].
  by rewrite !fmap_cons, Hn, IH.
Qed.

Lemma same_entry_get invocations0 invocations name :
  Forall2 same_entry invocations0 invocations →
  Dict.get invocations0 name
  = (λ i, set_step i 1%positive) <$> Dict.get invocations name
  ∨ (∃ i0 i, Dict.get invocations0 name = Some i0
             ∧ Dict.get invocations name = Some i
             ∧ i = set_step i0 (StepInvocation.step i)).
Proof.
  intros Hsame.
  induction Hsame as [|[n0 i0] [n i] os cs [Hn Hi] _ IH]; simpl; [by left|].
  simpl in *. subst n. case_decide; [|done].
  right. by exists i0, i.
Qed.

Lemma same_entry_upstream_of invocations0 invocations name :
  Forall2 same_entry invocations0 invocations →
  upstream_of invocations name = upstream_of invocations0 name.
Proof.
  intros Hsame.
  unfold upstream_of.
  destruct (same_entry_get _ _ name Hsame) as [Hget|(i0 & i & -> & -> & ->)]; [|done].
  rewrite Hget. by destruct (Dict.get invocations name).
Qed.

Lemma same_entry_tc invocations0 invocations a b :
  Forall2 same_entry invocations0 invocations →
  tc (Graph.edge (upstream_of invocations)) a b
  ↔ tc (Graph.edge (upstream_of invocations0)) a b.
Proof.
  intros Hsame.
  split; induction 1 as [x y Hxy | x y z Hxy _ IH].
  - apply tc_once. unfold Graph.edge in *.
    by rewrite <- (same_entry_upstream_of _ _ _ Hsame).
  - eapply tc_l; [|exact IH]. unfold Graph.edge in *.
    by rewrite <- (same_entry_upstream_of _ _ _ Hsame).
  - apply tc_once. unfold Graph.edge in *.
    by rewrite (same_entry_upstream_of _ _ _ Hsame).
  - eapply tc_l; [|exact IH]. unfold Graph.edge in *.
    by rewrite (same_entry_upstream_of _ _ _ Hsame).
Qed.

Lemma same_entry_acyclic invocations0 invocations :
  Forall2 same_entry invocations0 invocations →
  Graph.acyclic (upstream_of invocations)
  ↔ Graph.acyclic (upstream_of invocations0).
Proof.
  intros Hsame.
  unfold Graph.acyclic. split; intros H n Hn; apply (H n);
    by apply (same_entry_tc _ _ _ _ Hsame).
Qed.

Lemma same_entry_has_cycle invocations0 invocations :
  Forall2 same_entry invocations0 invocations →
  Graph.has_cycle (upstream_of invocations)
  ↔ Graph.has_cycle (upstream_of invocations0).
Proof.
  intros Hsame.
  unfold Graph.has_cycle. split; intros [n Hn]; exists n;
    by apply (same_entry_tc _ _ _ _ Hsame).
Qed.

Lemma same_entry_verify_all invocations0 invocations available :
  Forall2 same_entry invocations0 invocations →
  verify_all available invocations = verify_all available invocations0.
Proof.
  intros Hsame.
  induction Hsame as [|[n0 i0] [n i] os cs [Hn Hi] _ IH]; simpl; [done|].
  simpl in *. rewrite Hi. simpl. by rewrite IH.
Qed.

Lemma same_entry_topological invocations0 invocations l :
  Forall2 same_entry invocations0 invocations →
  Graph.topological (upstream_of invocations) l
  ↔ Graph.topological (upstream_of invocations0) l.
Proof.
  intros Hsame.
  unfold Graph.topological. split; intros H l1 n l2 Heq q Hq;
    apply (H l1 n l2 Heq q);
    [by rewrite (same_entry_upstream_of _ _ _ Hsame)
    | by rewrite <- (same_entry_upstream_of _ _ _ Hsame)].
Qed.

Lemma upstream_closed_verify_all invocations :
  upstream_closed invocations
  ↔ verify_all (list_to_set (Dict.keys invocations)) invocations = Ok tt.
Proof. symmetry. apply verify_all_Ok. Qed.

(** * What a compilation does *)

(** The store is well formed at [pipeline]: it holds a pipeline there, the
    keys of its dictionary of invocations are distinct, and the steps of
    its invocations exist. These hold of every Python heap. *)
Definition well_formed (s : State) (pipeline : loc) : Prop :=
  ∃ p, pipelines s !! pipeline = Some p
       ∧ NoDup (Dict.keys (Pipeline.invocations p))
       ∧ ∀ name invocation, (name, invocation) ∈ Pipeline.invocations p →
           is_Some (steps s !! StepInvocation.step invocation).

Section compilation.

Context (key_resolves : Stack.t → string → bool).
Context (default_merge : bool).
Context (list_of_set : gset string → list string).
Context (list_of_set_perm : ∀ X, list_of_set X ≡ₚ elements X).
Context (get_run_environment_dict : Dict.t string).

(** The configuration of the pipeline once the run configuration and the
    defaults of the stack have been merged in. *)
Definition prepared_configuration (p0 : Pipeline.t)
    (config : PipelineRunConfiguration.t) (stack : Stack.t) :
    PipelineConfiguration.t :=
  let c1 :=
    update_pipeline_configuration default_merge (Pipeline.configuration p0)
      (run_update config) in
  set_settings c1
    (with_stack_defaults stack (PipelineConfiguration.settings c1)).

(** The check of the run name that [compile] makes. *)
Definition run_name_check (config : PipelineRunConfiguration.t) : res unit :=
  if truthy (PipelineRunConfiguration.run_name config)
  then Compiler._verify_run_name
         (default "" (PipelineRunConfiguration.run_name config))
  else Ok tt.

(** The names of the invocations in the order in which they are compiled. *)
Definition sorted_step_names (invocations : Dict.t StepInvocation.t) :
    res (list string) :=
  match topsort.topsorted_layers
          (get_parent_nodes list_of_set invocations)
          (get_child_nodes list_of_set invocations)
          (Dict.keys invocations) with
  | Ok layers => Ok (concat layers)
  | Raise e => Raise e
  end.

(** The compiled step [result] comes from the invocation [entry] of the
    working copy: a copy of an invocation of the caller's pipeline, whose
    step has a configuration [k] with the booleans of the run
    configuration and settings that validate on the step level. *)
Definition compiled_from (s0 : State) (p0 : Pipeline.t)
    (config : PipelineRunConfiguration.t) (stack : Stack.t)
    (c : PipelineConfiguration.t) (passdown : Dict.t BaseSettings.t)
    (entry : string * StepInvocation.t) (result : string * Step.t) : Prop :=
  result.1 = entry.1
  ∧ ∃ original source k step_settings,
      (entry.1, original) ∈ Pipeline.invocations p0
      ∧ entry.2 = set_step original (StepInvocation.step entry.2)
      ∧ (∀ b0, steps s0 !! StepInvocation.step original = Some b0 →
               source = BaseStep.source b0)
      ∧ overridden config k
      ∧ (validate key_resolves STEP stack []
           (StepConfiguration.settings k)).2 = Ok step_settings
      ∧ result.2
        = Step.mk (step_spec_of list_of_set source entry.2)
            (compiled_configuration k passdown
               (PipelineConfiguration.extra c)
               (PipelineConfiguration.failure_hook_source c)
               (PipelineConfiguration.success_hook_source c)
               step_settings).

(** What [compile] returns. *)
Definition compile_result (s0 : State) (pipeline : loc) (stack : Stack.t)
    (config : PipelineRunConfiguration.t)
    (result : PipelineDeploymentBaseModel.t * PipelineSpec.t) : Prop :=
  ∃ p0 validated sorted compiled,
    pipelines s0 !! pipeline = Some p0
    ∧ first_unknown_step config (Pipeline.invocations p0) = None
    ∧ run_name_check config = Ok tt
    ∧ (validate key_resolves PIPELINE stack []
         (PipelineConfiguration.settings
            (prepared_configuration p0 config stack))).2 = Ok validated
    ∧ Forall2
        (compiled_from s0 p0 config stack
           (set_settings (prepared_configuration p0 config stack) validated)
           (filter (λ kv, STEP ∈ BaseSettings.LEVEL kv.2) validated))
        sorted compiled
    ∧ (NoDup (Dict.keys (Pipeline.invocations p0)) →
       upstream_closed (Pipeline.invocations p0)
       ∧ sorted_step_names (Pipeline.invocations p0) = Ok sorted.*1)
    ∧ result.1
      = PipelineDeploymentBaseModel.mk
          (if truthy (PipelineRunConfiguration.run_name config)
           then default "" (PipelineRunConfiguration.run_name config)
           else Compiler._get_default_run_name (Pipeline.name p0))
          (set_settings (prepared_configuration p0 config stack) validated)
          (Dict.of_items compiled)
          get_run_environment_dict
    ∧ result.2
      = (let step_specs := Step.spec <$> Dict.values (Dict.of_items compiled) in
         if Pipeline.is_base_pipeline p0
         then PipelineSpec.mk (Some "0.3") None None step_specs
         else PipelineSpec.mk None (Some (Pipeline.source p0))
                (Some (Pipeline._parameters p0)) step_specs).

(** Why [compile] fails: the first check that does not pass, in the order
    in which [compile] makes the checks. *)
Definition compile_failure (p0 : Pipeline.t) (stack : Stack.t)
    (config : PipelineRunConfiguration.t) (e : exn) : Prop :=
  match first_unknown_step config (Pipeline.invocations p0) with
  | Some name => e = Exn KeyError (NoStepWithName name)
  | None =>
      match run_name_check config with
      | Raise e' => e = e'
      | Ok _ =>
          match (validate key_resolves PIPELINE stack []
                   (PipelineConfiguration.settings
                      (prepared_configuration p0 config stack))).2 with
          | Raise e' => e = e'
          | Ok _ =>
              match verify_all
                      (list_to_set (Dict.keys (Pipeline.invocations p0)))
                      (Pipeline.invocations p0) with
              | Raise e' => e = e'
              | Ok _ =>
                  match sorted_step_names (Pipeline.invocations p0) with
                  | Raise e' => e = e'
                  | Ok _ =>
                      (∃ key settings_instance,
                         key_resolves stack key = true
                         ∧ (STEP ∉ BaseSettings.LEVEL settings_instance)
                         ∧ e = Exn TypeError
                                 (UnsupportedLevel settings_instance STEP))
                      ∨ (∃ steps, missing_component stack steps e)
                  end
              end
          end
      end
  end.

Lemma same_entry_dag_of invocations0 invocations :
  Forall2 same_entry invocations0 invocations →
  dag_of list_of_set invocations = dag_of list_of_set invocations0.
Proof.
  unfold dag_of.
  induction 1 as [|[n0 i0] [n i] os cs [Hn Hi] _ IH]; [done|].
  rewrite !fmap_cons, IH. simpl in *. rewrite Hn, Hi. done.
Qed.

Lemma same_entry_sorted_step_names invocations0 invocations :
  Forall2 same_entry invocations0 invocations →
  sorted_step_names invocations = sorted_step_names invocations0.
Proof.
  intros Hsame. unfold sorted_step_names, get_parent_nodes, get_child_nodes.
  by rewrite (same_entry_dag_of _ _ Hsame), (same_entry_keys _ _ Hsame).
Qed.

Lemma same_entry_upstream_closed invocations0 invocations :
  Forall2 same_entry invocations0 invocations →
  upstream_closed invocations ↔ upstream_closed invocations0.
Proof.
  intros Hsame. rewrite !upstream_closed_verify_all.
  by rewrite (same_entry_keys _ _ Hsame), (same_entry_verify_all _ _ _ Hsame).
Qed.

(** The outcome of [_get_sorted_invocations] in terms of the checks. *)
Lemma get_sorted_invocations_outcome pipeline p s :
  pipelines s !! pipeline = Some p →
  NoDup (Dict.keys (Pipeline.invocations p)) →
  match Compiler._get_sorted_invocations list_of_set pipeline s with
  | (_, Ok sorted) =>
      upstream_closed (Pipeline.invocations p)
      ∧ sorted_step_names (Pipeline.invocations p) = Ok sorted.*1
  | (_, Raise e) =>
      match verify_all (list_to_set (Dict.keys (Pipeline.invocations p)))
              (Pipeline.invocations p) with
      | Raise e' => e = e'
      | Ok _ => sorted_step_names (Pipeline.invocations p) = Raise e
      end
  end.
Proof.
  intros Hp Hnd.
  destruct (get_sorted_invocations_run list_of_set pipeline p s Hp Hnd)
    as (r & -> & Hr).
  unfold sorted_step_names.
  destruct (verify_all _ (Pipeline.invocations p)) as [[]|e] eqn:Hv.
  - destruct (topsort.topsorted_layers _ _ _) as [layers|e].
    + destruct Hr as (sorted & -> & Hnames & _). split.
      * by apply upstream_closed_verify_all.
      * by rewrite Hnames.
    + by subst r.
  - by subst r.
Qed.

Lemma elem_of_Forall2_r {A B} (R : A → B → Prop) l k y :
  Forall2 R l k → y ∈ k → ∃ x, x ∈ l ∧ R x y.
Proof.
  intros HR [i Hi]%list_elem_of_lookup.
  destruct (Forall2_lookup_r _ _ _ _ _ HR Hi) as (x & Hx & Hxy).
  exists x. split; [by eapply list_elem_of_lookup_2 | done].
Qed.

(** Compiling the sorted invocations one after the other. *)
Lemma compile_steps_spec s0 p0 pipeline invocations c config stack passdown
    sorted :
  Forall (λ ni, Dict.get invocations ni.1 = Some ni.2) sorted →
  hoare (λ s, working s0 p0 pipeline invocations c s
              ∧ steps_have (overridden config) invocations s)
    (mapM (λ '(name, step),
             let! p := read_pipeline pipeline in
             let! compiled :=
               Compiler._compile_step_invocation key_resolves list_of_set
                 step passdown
                 (PipelineConfiguration.extra (Pipeline.configuration p))
                 stack
                 (PipelineConfiguration.failure_hook_source
                    (Pipeline.configuration p))
                 (PipelineConfiguration.success_hook_source
                    (Pipeline.configuration p)) in
             ret (name, compiled))
          sorted)
    (λ compiled s,
       (working s0 p0 pipeline invocations c s
        ∧ steps_have (overridden config) invocations s)
       ∧ Forall2 (compiled_from s0 p0 config stack c passdown) sorted compiled)
    (λ e s, frame s0 s
            ∧ ∃ key settings_instance,
                key_resolves stack key = true
                ∧ (STEP ∉ BaseSettings.LEVEL settings_instance)
                ∧ e = Exn TypeError (UnsupportedLevel settings_instance STEP)).
Proof.
  intros Hsorted. apply hoare_mapM.
  intros [name inv] Hin s [Hw Hov].
  rewrite Forall_forall in Hsorted.
  pose proof (Dict.get_Some_elem _ _ _ (Hsorted _ Hin)) as Hinv. simpl in Hinv.
  erewrite bind_Ok; [|by eapply working_read]. simpl.
  destruct (Hov name inv Hinv) as (b & Hb & Hk).
  pose proof Hw as (Hf & Hnew & Hp & Hcopies).
  destruct (elem_of_Forall2_r _ _ _ _ Hcopies Hinv)
    as ([n0 i0] & Hin0 & Hn & Hi & Hinew & b' & Hb' & Hsrc).
  simpl in *. subst n0. simplify_eq.
  erewrite bind_compile_step; [|exact Hb]. cbn zeta.
  pose proof (is_fresh (dom (steps s))) as Hfresh.
  assert (steps s ⊆ <[fresh (dom (steps s)) := b]> (steps s)) as Hsub0.
  { apply insert_subseteq. by apply not_elem_of_dom. }
  destruct (validate key_resolves STEP stack []
              (StepConfiguration.settings (BaseStep.configuration b)))
    as [records [step_settings|e]] eqn:Hv; simpl.
  - split; [split|].
    + eapply working_frame; [| |exact Hw]; [done|]. simpl.
      apply insert_subseteq. by apply not_elem_of_dom.
    + eapply steps_have_frame; [|exact Hov]. simpl.
      apply insert_subseteq. by apply not_elem_of_dom.
    + split; [done|]. exists i0, (BaseStep.source b), (BaseStep.configuration b),
        step_settings.
      split_and!; try done. by rewrite Hv.
  - split.
    + destruct Hf as [Hfp Hfs]. split; [done|]. simpl. by etrans.
    + destruct (validate_Raise key_resolves STEP stack
                  (StepConfiguration.settings (BaseStep.configuration b)) e [])
        as (key & inst & _ & Hkey & Hlevel & ->); [by rewrite Hv|].
      by exists key, inst.
Qed.

Lemma bind_run_name_check {B} config (k : unit → M B) s :
  bind (if truthy (PipelineRunConfiguration.run_name config)
        then lift (Compiler._verify_run_name
                     (default "" (PipelineRunConfiguration.run_name config)))
        else ret tt) k s
  = match run_name_check config with
    | Ok _ => k tt s
    | Raise e => (s, Raise e)
    end.
Proof.
  unfold run_name_check.
  destruct (truthy (PipelineRunConfiguration.run_name config)); [|done].
  rewrite bind_lift. by destruct (Compiler._verify_run_name _) as [[]|].
Qed.

(** The outcome of [compile]: the caller's store is part of the final
    store whatever happens; a result is as [compile_result] says; and on a
    well-formed store a failure is the one that [compile_failure] names. *)
Lemma compile_outcome s0 pipeline stack config :
  hoare (λ s, pipelines s = pipelines s0 ∧ steps s = steps s0)
    (Compiler.compile key_resolves default_merge list_of_set
       get_run_environment_dict pipeline stack config)
    (λ r s, frame s0 s ∧ compile_result s0 pipeline stack config r)
    (λ e s, frame s0 s
            ∧ ∀ p0, pipelines s0 !! pipeline = Some p0 →
                NoDup (Dict.keys (Pipeline.invocations p0)) →
                (∀ name invocation,
                   (name, invocation) ∈ Pipeline.invocations p0 →
                   is_Some (steps s0 !! StepInvocation.step invocation)) →
                compile_failure p0 stack config e).
Proof.
  intros s [Hps Hss]. unfold Compiler.compile.
  assert (frame s0 s) as Hfs by (split; [by rewrite Hps | by rewrite Hss]).
  (* the pipeline is read and the compilation is logged *)
  unfold bind at 1, read_pipeline. rewrite Hps.
  destruct (pipelines s0 !! pipeline) as [p0|] eqn:Hp0; simpl;
    [|split; [done | by intros p0 Hp0']].
  rewrite bind_logger.
  (* the deep copy *)
  match goal with |- context [bind (deepcopy_pipeline pipeline) _ ?s1] =>
    pose proof (deepcopy_pipeline_spec s0 pipeline s1 (conj Hps Hss)) as Hcopy;
    destruct (deepcopy_pipeline pipeline s1) as [s2 [pipeline'|e]] eqn:Hrun
  end.
  2: { rewrite (bind_Raise _ _ _ _ _ Hrun). destruct Hcopy as [Hf Hdangling].
       split; [done|]. intros p0' [= <-] _ Hexist. destruct Hdangling.
       by exists p0. }
  rewrite (bind_Ok _ _ _ _ _ Hrun). clear Hrun.
  destruct Hcopy as (p0' & invocations & Hp0' & Hw). simplify_eq.
  pose proof (copy_of_same_entry _ _ _ _ (proj2 (proj2 (proj2 Hw)))) as Hsame.
  (* the run configuration *)
  pose proof (apply_run_configuration_spec default_merge s0 p0 pipeline'
                invocations (Pipeline.configuration p0) config s2 Hw) as Hrc.
  destruct (Compiler._apply_run_configuration default_merge pipeline' config s2)
    as [s3 [[]|e]] eqn:Hrun.
  2: { rewrite (bind_Raise _ _ _ _ _ Hrun).
       destruct Hrc as (Hw3 & name & Hname & ->). split; [apply Hw3|].
       intros p0' [= <-] _ _. unfold compile_failure.
       unfold first_unknown_step in *.
       by rewrite <- (same_entry_keys _ _ Hsame), Hname. }
  rewrite (bind_Ok _ _ _ _ _ Hrun). clear Hrun.
  destruct Hrc as (Hw3 & Hknown & Hov3).
  unfold first_unknown_step in Hknown.
  rewrite (same_entry_keys _ _ Hsame) in Hknown.
  (* the defaults of the stack *)
  pose proof (apply_stack_default_settings_spec s0 p0 pipeline' invocations _
                stack s3 Hw3) as Hsd.
  pose proof (apply_stack_default_settings_steps pipeline' stack s3) as Hsd'.
  destruct (Compiler._apply_stack_default_settings pipeline' stack s3)
    as [s4 [[]|e]] eqn:Hrun; [|done].
  rewrite (bind_Ok _ _ _ _ _ Hrun). clear Hrun. simpl in Hsd'.
  fold (prepared_configuration p0 config stack) in Hsd.
  assert (steps_have (overridden config) invocations s4) as Hov4.
  { eapply steps_have_frame; [|exact Hov3]. by rewrite Hsd'. }
  (* the run name *)
  rewrite bind_run_name_check.
  destruct (run_name_check config) as [[]|e] eqn:Hname.
  2: { simpl. split; [apply Hsd|]. intros p0' [= <-] _ _.
       unfold compile_failure, first_unknown_step. by rewrite Hknown, Hname. }
  (* the settings of the pipeline *)
  erewrite bind_Ok; [|by eapply working_read]. cbn beta.
  rewrite bind_filter.
  repeat match goal with
  | |- context [validate key_resolves PIPELINE stack [] ?x] =>
      progress change x
        with (PipelineConfiguration.settings
                (prepared_configuration p0 config stack))
  end.
  destruct (validate key_resolves PIPELINE stack []
              (PipelineConfiguration.settings
                 (prepared_configuration p0 config stack)))
    as [records [validated|e]] eqn:Hvalid; cbn [fst snd].
  2: { split; [apply Hsd|]. intros p0' [= <-] _ _.
       unfold compile_failure, first_unknown_step.
       by rewrite Hknown, Hname, Hvalid. }
  match goal with |- context [bind (Pipeline_configure _ _ _) _ ?s5] =>
    pose proof (configure_settings_spec s0 p0 pipeline' invocations _
                  validated s5 Hsd) as Hcs;
    pose proof (configure_settings_steps pipeline' validated s5) as Hcs';
    destruct (Pipeline_configure pipeline'
                (PipelineConfigurationUpdate.mk None None None
                   (Some validated) None) false s5)
      as [s6 [[]|e]] eqn:Hrun; [|done]
  end.
  rewrite (bind_Ok _ _ _ _ _ Hrun). clear Hrun. simpl in Hcs'.
  assert (steps_have (overridden config) invocations s6) as Hov6.
  { eapply steps_have_frame; [|exact Hov4]. by rewrite Hcs'. }
  set (c3 := set_settings (prepared_configuration p0 config stack) validated)
    in *.
  (* the invocations are sorted *)
  pose proof (get_sorted_invocations_readonly list_of_set pipeline' s6) as Hro.
  assert (NoDup (Dict.keys (Pipeline.invocations p0)) →
          match Compiler._get_sorted_invocations list_of_set pipeline' s6 with
          | (_, Ok sorted) =>
              upstream_closed (Pipeline.invocations p0)
              ∧ sorted_step_names (Pipeline.invocations p0) = Ok sorted.*1
          | (_, Raise e) =>
              match verify_all
                      (list_to_set (Dict.keys (Pipeline.invocations p0)))
                      (Pipeline.invocations p0) with
              | Raise e' => e = e'
              | Ok _ => sorted_step_names (Pipeline.invocations p0) = Raise e
              end
          end) as Hout.
  { intros Hnd.
    pose proof (get_sorted_invocations_outcome pipeline' _ s6
                  (proj1 (proj2 (proj2 Hcs)))) as Hout.
    cbn [Pipeline.invocations set_pipeline_configuration set_invocations]
      in Hout.
    rewrite (same_entry_keys _ _ Hsame), (same_entry_verify_all _ _ _ Hsame),
      (same_entry_sorted_step_names _ _ Hsame) in Hout.
    specialize (Hout Hnd).
    destruct (Compiler._get_sorted_invocations list_of_set pipeline' s6)
      as [? [?|?]]; [|done].
    by rewrite <- (same_entry_upstream_closed _ _ Hsame). }
  destruct (Compiler._get_sorted_invocations list_of_set pipeline' s6)
    as [s7 [sorted|e]] eqn:Hrun.
  2: { rewrite (bind_Raise _ _ _ _ _ Hrun). subst s7. split; [apply Hcs|].
       intros p0' [= <-] Hnd _. specialize (Hout Hnd).
       unfold compile_failure, first_unknown_step.
       rewrite Hknown, Hname, Hvalid. cbn [fst snd].
       destruct (verify_all _ (Pipeline.invocations p0)) as [[]|e'];
         [by rewrite Hout | done]. }
  rewrite (bind_Ok _ _ _ _ _ Hrun). clear Hrun.
  destruct Hro as [-> Hsorted].
  specialize (Hsorted _ (proj1 (proj2 (proj2 Hcs)))).
  cbn [Pipeline.invocations set_pipeline_configuration set_invocations]
    in Hsorted.
  (* the steps are compiled *)
  pose proof (compile_steps_spec s0 p0 pipeline' invocations c3 config stack
                (filter (λ kv, STEP ∈ BaseSettings.LEVEL kv.2) validated)
                sorted Hsorted s6 (conj Hcs Hov6)) as Hsteps.
  match type of Hsteps with match ?m with _ => _ end =>
    destruct m as [s8 [compiled|e]] eqn:Hrun
  end.
  2: { rewrite (bind_Raise _ _ _ _ _ Hrun).
       destruct Hsteps as (Hf8 & key & inst & Hkey & Hlevel & ->).
       split; [done|].
       intros p0' [= <-] Hnd _. destruct (Hout Hnd) as [Hcl Hnames].
       unfold compile_failure, first_unknown_step.
       rewrite Hknown, Hname, Hvalid. simpl.
       rewrite (proj1 (upstream_closed_verify_all _) Hcl), Hnames.
       left. by exists key, inst. }
  rewrite (bind_Ok _ _ _ _ _ Hrun). clear Hrun.
  destruct Hsteps as [[Hw8 Hov8] Hcompiled].
  (* the stack has what the steps require *)
  rewrite bind_lift.
  destruct (Compiler._ensure_required_stack_components_exist stack
              (Dict.of_items compiled)) as [[]|e] eqn:Hens.
  2: { split; [apply Hw8|]. intros p0' [= <-] Hnd _.
       destruct (Hout Hnd) as [Hcl Hnames].
       unfold compile_failure, first_unknown_step.
       rewrite Hknown, Hname, Hvalid. simpl.
       rewrite (proj1 (upstream_closed_verify_all _) Hcl), Hnames.
       right. exists (Dict.of_items compiled).
       by apply ensure_required_stack_components_exist_Raise. }
  (* the deployment and the spec *)
  erewrite bind_Ok; [|by eapply working_read]. simpl.
  erewrite bind_Ok.
  2: { apply compute_pipeline_spec_run. apply Hw8. }
  rewrite !bind_logger. simpl. split; [apply Hw8|].
  exists p0, validated, sorted, compiled.
  split_and!; try done. by rewrite Hvalid.
Qed.

(** The step spec [spec] comes from the invocation [entry] of the working
    copy. *)
Definition spec_from (s0 : State) (p0 : Pipeline.t)
    (entry : string * StepInvocation.t) (spec : StepSpec.t) : Prop :=
  ∃ original source,
    (entry.1, original) ∈ Pipeline.invocations p0
    ∧ entry.2 = set_step original (StepInvocation.step entry.2)
    ∧ (∀ b0, steps s0 !! StepInvocation.step original = Some b0 →
             source = BaseStep.source b0)
    ∧ spec = step_spec_of list_of_set source entry.2.

Lemma get_step_specs_spec s0 p0 pipeline invocations c sorted :
  Forall (λ ni, Dict.get invocations ni.1 = Some ni.2) sorted →
  hoare (working s0 p0 pipeline invocations c)
    (mapM (λ '(_, invocation), Compiler._get_step_spec list_of_set invocation)
          sorted)
    (λ specs s, working s0 p0 pipeline invocations c s
                ∧ Forall2 (spec_from s0 p0) sorted specs)
    (λ _ _, False).
Proof.
  intros Hsorted. apply hoare_mapM.
  intros [name inv] Hin s Hw.
  rewrite Forall_forall in Hsorted.
  pose proof (Dict.get_Some_elem _ _ _ (Hsorted _ Hin)) as Hinv. simpl in Hinv.
  pose proof Hw as (Hf & Hnew & Hp & Hcopies).
  destruct (elem_of_Forall2_r _ _ _ _ Hcopies Hinv)
    as ([n0 i0] & Hin0 & Hn & Hi & Hinew & b & Hb & Hsrc).
  simpl in *. subst n0.
  rewrite (get_step_spec_run list_of_set inv b s Hb). split; [done|].
  exists i0, (BaseStep.source b). split_and!; done.
Qed.

(** The outcome of [compile_spec]. *)
Lemma compile_spec_outcome s0 pipeline :
  hoare (λ s, pipelines s = pipelines s0 ∧ steps s = steps s0)
    (Compiler.compile_spec list_of_set pipeline)
    (λ spec s,
       frame s0 s
       ∧ ∃ p0 sorted step_specs,
           pipelines s0 !! pipeline = Some p0
           ∧ Forall2 (spec_from s0 p0) sorted step_specs
           ∧ (NoDup (Dict.keys (Pipeline.invocations p0)) →
              upstream_closed (Pipeline.invocations p0)
              ∧ sorted_step_names (Pipeline.invocations p0) = Ok sorted.*1)
           ∧ spec
             = (if Pipeline.is_base_pipeline p0
                then PipelineSpec.mk (Some "0.3") None None step_specs
                else PipelineSpec.mk None (Some (Pipeline.source p0))
                       (Some (Pipeline._parameters p0)) step_specs))
    (λ e s,
       frame s0 s
       ∧ ∀ p0, pipelines s0 !! pipeline = Some p0 →
           NoDup (Dict.keys (Pipeline.invocations p0)) →
           (∀ name invocation,
              (name, invocation) ∈ Pipeline.invocations p0 →
              is_Some (steps s0 !! StepInvocation.step invocation)) →
           match verify_all
                   (list_to_set (Dict.keys (Pipeline.invocations p0)))
                   (Pipeline.invocations p0) with
           | Raise e' => e = e'
           | Ok _ => sorted_step_names (Pipeline.invocations p0) = Raise e
           end).
Proof.
  intros s [Hps Hss]. unfold Compiler.compile_spec.
  assert (frame s0 s) as Hfs by (split; [by rewrite Hps | by rewrite Hss]).
  unfold bind at 1, read_pipeline. rewrite Hps.
  destruct (pipelines s0 !! pipeline) as [p0|] eqn:Hp0; simpl;
    [|split; [done | by intros p0 Hp0']].
  rewrite bind_logger.
  match goal with |- context [bind (deepcopy_pipeline pipeline) _ ?s1] =>
    pose proof (deepcopy_pipeline_spec s0 pipeline s1 (conj Hps Hss)) as Hcopy;
    destruct (deepcopy_pipeline pipeline s1) as [s2 [pipeline'|e]] eqn:Hrun
  end.
  2: { rewrite (bind_Raise _ _ _ _ _ Hrun). destruct Hcopy as [Hf Hdangling].
       split; [done|]. intros p0' [= <-] _ Hexist. destruct Hdangling.
       by exists p0. }
  rewrite (bind_Ok _ _ _ _ _ Hrun). clear Hrun.
  destruct Hcopy as (p0' & invocations & Hp0' & Hw). simplify_eq.
  pose proof (copy_of_same_entry _ _ _ _ (proj2 (proj2 (proj2 Hw)))) as Hsame.
  pose proof (get_sorted_invocations_readonly list_of_set pipeline' s2) as Hro.
  assert (NoDup (Dict.keys (Pipeline.invocations p0)) →
          match Compiler._get_sorted_invocations list_of_set pipeline' s2 with
          | (_, Ok sorted) =>
              upstream_closed (Pipeline.invocations p0)
              ∧ sorted_step_names (Pipeline.invocations p0) = Ok sorted.*1
          | (_, Raise e) =>
              match verify_all
                      (list_to_set (Dict.keys (Pipeline.invocations p0)))
                      (Pipeline.invocations p0) with
              | Raise e' => e = e'
              | Ok _ => sorted_step_names (Pipeline.invocations p0) = Raise e
              end
          end) as Hout.
  { intros Hnd.
    pose proof (get_sorted_invocations_outcome pipeline' _ s2
                  (proj1 (proj2 (proj2 Hw)))) as Hout.
    cbn [Pipeline.invocations set_pipeline_configuration set_invocations]
      in Hout.
    rewrite (same_entry_keys _ _ Hsame), (same_entry_verify_all _ _ _ Hsame),
      (same_entry_sorted_step_names _ _ Hsame) in Hout.
    specialize (Hout Hnd).
    destruct (Compiler._get_sorted_invocations list_of_set pipeline' s2)
      as [? [?|?]]; [|done].
    by rewrite <- (same_entry_upstream_closed _ _ Hsame). }
  destruct (Compiler._get_sorted_invocations list_of_set pipeline' s2)
    as [s3 [sorted|e]] eqn:Hrun.
  2: { rewrite (bind_Raise _ _ _ _ _ Hrun). subst s3. split; [apply Hw|].
       intros p0' [= <-] Hnd _. by apply Hout. }
  rewrite (bind_Ok _ _ _ _ _ Hrun). clear Hrun.
  destruct Hro as [-> Hsorted].
  specialize (Hsorted _ (proj1 (proj2 (proj2 Hw)))).
  cbn [Pipeline.invocations set_pipeline_configuration set_invocations]
    in Hsorted.
  pose proof (get_step_specs_spec s0 p0 pipeline' invocations _ sorted
                Hsorted s2 Hw) as Hspecs.
  match type of Hspecs with match ?m with _ => _ end =>
    destruct m as [s4 [step_specs|e]] eqn:Hrun; [|done]
  end.
  rewrite (bind_Ok _ _ _ _ _ Hrun). clear Hrun.
  destruct Hspecs as [Hw4 Hspecs].
  erewrite bind_Ok.
  2: { apply compute_pipeline_spec_run. apply Hw4. }
  rewrite !bind_logger. simpl. split; [apply Hw4|].
  exists p0, sorted, step_specs. split_and!; done.
Qed.

End compilation.

(** * The check of the run name *)

Lemma verify_run_name_Raise run_name e :
  Compiler._verify_run_name run_name = Raise e →
  e = Exn ValueError (InvalidRunName run_name {[ "date"; "time" ]})
  ∨ ∃ reason, e = Exn ValueError (InvalidFormatString reason).
Proof.
  unfold Compiler._verify_run_name.
  destruct (Formatter.parse run_name) as [items|e'] eqn:Hparse.
  - case_decide; [done|]. intros [= <-]. by left.
  - intros [= <-]. right. by apply (Formatter.parse_Raise run_name).
Qed.

Lemma run_name_check_Raise config e :
  run_name_check config = Raise e →
  ∃ run_name,
    PipelineRunConfiguration.run_name config = Some run_name
    ∧ run_name ≠ ""
    ∧ Compiler._verify_run_name run_name = Raise e.
Proof.
  unfold run_name_check, truthy.
  destruct (PipelineRunConfiguration.run_name config) as [run_name|];
    [|done].
  destruct (decide (run_name = "")) as [->|Hne].
  - by rewrite bool_decide_true.
  - rewrite bool_decide_false by done. simpl. intros Hv. by exists run_name.
Qed.





(** * The enumeration of the sets

    The order in which a set of step names is enumerated shows neither in
    the order of the steps nor in the step specs. *)

Lemma nil_iff {A} (l k : list A) : (∀ x, x ∈ l ↔ x ∈ k) → l = [] ↔ k = [].
Proof.
  intros Hlk. destruct l as [|x l], k as [|y k]; try done.
  - exfalso. apply (elem_of_nil y), Hlk, list_elem_of_here.
  - exfalso. apply (elem_of_nil x), Hlk, list_elem_of_here.
Qed.

Lemma next_layer_ext (parents parents' children children' :
    string → list string) visited layer rest :
  (∀ n x, x ∈ parents n ↔ x ∈ parents' n) →
  (∀ n x, x ∈ children n ↔ x ∈ children' n) →
  topsort.next_layer parents children visited layer rest
  = topsort.next_layer parents' children' visited layer rest.
Proof.
  intros Hparents Hchildren. unfold topsort.next_layer.
  apply list_filter_iff. intros node.
  rewrite !Exists_exists, !Forall_forall. split.
  - intros [(n & Hn & Hc) Hf]. split.
    + exists n. split; [done | by apply Hchildren].
    + intros q Hq. apply Hf. by apply Hparents.
  - intros [(n & Hn & Hc) Hf]. split.
    + exists n. split; [done | by apply Hchildren].
    + intros q Hq. apply Hf. by apply Hparents.
Qed.

Lemma layering_ext (parents parents' children children' :
    string → list string) visited layer rest :
  (∀ n x, x ∈ parents n ↔ x ∈ parents' n) →
  (∀ n x, x ∈ children n ↔ x ∈ children' n) →
  topsort.layering parents children visited layer rest
  = topsort.layering parents' children' visited layer rest.
Proof.
  intros Hparents Hchildren.
  funelim (topsort.layering parents children visited layer rest);
    simp layering; [done|].
  rewrite <- (next_layer_ext parents parents' children children'
                visited (n :: layer) rest Hparents Hchildren).
  f_equal. by apply H.
Qed.

Lemma topsorted_layers_ext (parents parents' children children' :
    string → list string) nodes :
  (∀ n x, x ∈ parents n ↔ x ∈ parents' n) →
  (∀ n x, x ∈ children n ↔ x ∈ children' n) →
  topsort.topsorted_layers parents children nodes
  = topsort.topsorted_layers parents' children' nodes.
Proof.
  intros Hparents Hchildren. unfold topsort.topsorted_layers.
  assert (filter (λ node, parents node = []) nodes
          = filter (λ node, parents' node = []) nodes) as ->.
  { apply list_filter_iff. intros node. apply nil_iff, Hparents. }
  by rewrite (layering_ext parents parents' children children').
Qed.

Lemma children_dag_of list_of_set invocations node :
  (∀ X, list_of_set X ≡ₚ elements X) →
  (filter (λ kv : string * list string, node ∈ kv.2)
          (dag_of list_of_set invocations)).*1
  = (filter (λ ni : string * StepInvocation.t,
               node ∈ StepInvocation.upstream_steps ni.2) invocations).*1.
Proof.
  intros Hperm. unfold dag_of.
  induction invocations as [|[n i] invocations IH]; [done|].
  rewrite fmap_cons. cbn [fst snd]. unfold Dict.t in *.
  destruct (decide (node ∈ StepInvocation.upstream_steps i)) as [Hin|Hout].
  - rewrite !filter_cons_True.
    + by rewrite !fmap_cons, IH.
    + done.
    + simpl. by apply (elem_of_list_of_set list_of_set).
  - rewrite !filter_cons_False.
    + done.
    + done.
    + simpl. intros H. by apply (elem_of_list_of_set list_of_set) in H.
Qed.

Lemma get_child_nodes_ext list_of_set list_of_set' invocations node :
  (∀ X, list_of_set X ≡ₚ elements X) →
  (∀ X, list_of_set' X ≡ₚ elements X) →
  get_child_nodes list_of_set invocations node
  = get_child_nodes list_of_set' invocations node.
Proof.
  intros Hperm Hperm'. unfold get_child_nodes. f_equal. f_equal.
  unfold reverse_dag. rewrite !keys_dag_of.
  apply list_fmap_ext. intros _ n _. f_equal.
  by rewrite !children_dag_of.
Qed.

Lemma sorted_step_names_ext list_of_set list_of_set' invocations :
  (∀ X, list_of_set X ≡ₚ elements X) →
  (∀ X, list_of_set' X ≡ₚ elements X) →
  sorted_step_names list_of_set invocations
  = sorted_step_names list_of_set' invocations.
Proof.
  intros Hperm Hperm'. unfold sorted_step_names.
  rewrite (topsorted_layers_ext
             (get_parent_nodes list_of_set invocations)
             (get_parent_nodes list_of_set' invocations)
             (get_child_nodes list_of_set invocations)
             (get_child_nodes list_of_set' invocations)); [done | |].
  - intros n x. by rewrite !elem_of_get_parent_nodes.
  - intros n x. by rewrite (get_child_nodes_ext list_of_set list_of_set').
Qed.

Lemma step_spec_of_ext list_of_set list_of_set' source invocation :
  (∀ X, list_of_set X ≡ₚ elements X) →
  (∀ X, list_of_set' X ≡ₚ elements X) →
  step_spec_of list_of_set source invocation
  = step_spec_of list_of_set' source invocation.
Proof.
  intros Hperm Hperm'. unfold step_spec_of. f_equal.
  apply sorted_unique. by rewrite Hperm, Hperm'.
Qed.

(** The step spec of the invocation [name] of the pipeline [p]. *)
Definition step_spec_named (list_of_set : gset string → list string)
    (s : State) (p : Pipeline.t) (name : string) : option StepSpec.t :=
  match Dict.get (Pipeline.invocations p) name with
  | Some invocation =>
      match steps s !! StepInvocation.step invocation with
      | Some b => Some (step_spec_of list_of_set (BaseStep.source b) invocation)
      | None => None
      end
  | None => None
  end.

(** * The two entry points as functions of the store *)

Section outcomes.

Context (key_resolves : Stack.t → string → bool).
Context (default_merge : bool).
Context (list_of_set : gset string → list string).
Context (list_of_set_perm : ∀ X, list_of_set X ≡ₚ elements X).
Context (get_run_environment_dict : Dict.t string).

Lemma compile_Ok s pipeline stack config s' r :
  Compiler.compile key_resolves default_merge list_of_set
    get_run_environment_dict pipeline stack config s = (s', Ok r) →
  frame s s'
  ∧ compile_result key_resolves default_merge list_of_set
      get_run_environment_dict s pipeline stack config r.
Proof.
  intros Hrun.
  pose proof (compile_outcome key_resolves default_merge list_of_set
                get_run_environment_dict s pipeline stack config s
                (conj eq_refl eq_refl)) as H.
  by rewrite Hrun in H.
Qed.

Lemma compile_Raise s pipeline stack config s' e :
  Compiler.compile key_resolves default_merge list_of_set
    get_run_environment_dict pipeline stack config s = (s', Raise e) →
  frame s s'
  ∧ ∀ p, pipelines s !! pipeline = Some p →
      NoDup (Dict.keys (Pipeline.invocations p)) →
      (∀ name invocation, (name, invocation) ∈ Pipeline.invocations p →
         is_Some (steps s !! StepInvocation.step invocation)) →
      compile_failure key_resolves default_merge list_of_set p stack config e.
Proof.
  intros Hrun.
  pose proof (compile_outcome key_resolves default_merge list_of_set
                get_run_environment_dict s pipeline stack config s
                (conj eq_refl eq_refl)) as H.
  by rewrite Hrun in H.
Qed.

Lemma compile_frames pipeline stack config s :
  frame s (Compiler.compile key_resolves default_merge list_of_set
             get_run_environment_dict pipeline stack config s).1.
Proof.
  destruct (Compiler.compile _ _ _ _ _ _ _ s) as [s' [r|e]] eqn:Hrun.
  - by destruct (compile_Ok _ _ _ _ _ _ Hrun).
  - by destruct (compile_Raise _ _ _ _ _ _ Hrun).
Qed.

Lemma compile_spec_frames pipeline s :
  frame s (Compiler.compile_spec list_of_set pipeline s).1.
Proof.
  pose proof (compile_spec_outcome list_of_set s pipeline s
                (conj eq_refl eq_refl)) as H.
  destruct (Compiler.compile_spec list_of_set pipeline s) as [s' [r|e]];
    apply H.
Qed.

(** The error of [compile_spec]: that of the first invocation with a
    missing upstream step, else that of the layering. *)
Lemma compile_spec_error pipeline p s e :
  pipelines s !! pipeline = Some p →
  NoDup (Dict.keys (Pipeline.invocations p)) →
  (∀ name invocation, (name, invocation) ∈ Pipeline.invocations p →
     is_Some (steps s !! StepInvocation.step invocation)) →
  (match verify_all (list_to_set (Dict.keys (Pipeline.invocations p)))
           (Pipeline.invocations p) with
   | Raise e' => e = e'
   | Ok _ => sorted_step_names list_of_set (Pipeline.invocations p) = Raise e
   end) →
  (Compiler.compile_spec list_of_set pipeline s).2 = Raise e.
Proof.
  intros Hp Hnd Hsteps He.
  pose proof (compile_spec_outcome list_of_set s pipeline s
                (conj eq_refl eq_refl)) as H.
  destruct (Compiler.compile_spec list_of_set pipeline s) as [s' [r|e']];
    simpl.
  - destruct H as (_ & p' & sorted & specs & Hp' & _ & Hsorted & _).
    simplify_eq. destruct (Hsorted Hnd) as [Hclosed Hnames].
    rewrite (proj1 (upstream_closed_verify_all _) Hclosed) in He. congruence.
  - destruct H as [_ H]. specialize (H p Hp Hnd Hsteps).
    destruct (verify_all _ (Pipeline.invocations p)); congruence.
Qed.

Lemma sorted_step_names_Raise invocations e :
  sorted_step_names list_of_set invocations = Raise e →
  e = Exn RuntimeError CycleDetected.
Proof.
  unfold sorted_step_names, topsort.topsorted_layers. cbn zeta.
  case_decide; [by intros [= <-] | done].
Qed.

Lemma sorted_step_names_cycle invocations :
  NoDup (Dict.keys invocations) →
  Graph.has_cycle (upstream_of invocations) →
  sorted_step_names list_of_set invocations
  = Raise (Exn RuntimeError CycleDetected).
Proof.
  intros Hnd [n Hn]. unfold sorted_step_names.
  rewrite topsort.topsorted_layers_cycle; [done | done | |].
  - apply get_parent_nodes_domain.
  - exists n. by apply tc_get_parent_nodes.
Qed.

Lemma sorted_step_names_Ok invocations names :
  NoDup (Dict.keys invocations) →
  sorted_step_names list_of_set invocations = Ok names →
  names ≡ₚ Dict.keys invocations
  ∧ Graph.topological (upstream_of invocations) names.
Proof.
  intros Hnd. unfold sorted_step_names.
  destruct (topsort.topsorted_layers _ _ _) as [layers|e] eqn:Hl; [|done].
  intros [= <-].
  apply topsort.topsorted_layers_Ok in Hl as [Hperm Htop]; [|done].
  split; [done|]. intros l1 n l2 Heq q Hq.
  apply (Htop l1 n l2 Heq). by apply elem_of_get_parent_nodes.
Qed.

(** ** What a result of [compile] holds *)

Lemma validate_Ok_resolved level stack items validated :
  (validate key_resolves level stack [] items).2 = Ok validated →
  ∀ key, key ∈ Dict.keys validated → key_resolves stack key = true.
Proof.
  intros Hv key Hkey. unfold Dict.keys in Hkey.
  apply list_elem_of_fmap in Hkey as ([k inst] & -> & Hin).
  destruct (validate_Ok key_resolves level stack items [] validated Hv
              k inst Hin) as [Hnil|(_ & Hk & _)]; [|done].
  by apply elem_of_nil in Hnil.
Qed.

(** An entry whose key resolves and whose class does not support the
    level stops the validation, if the entries before it pass. *)
Lemma validate_unsupported level stack key inst before after :
  key_resolves stack key = true →
  level ∉ BaseSettings.LEVEL inst →
  ∀ validated,
    is_Ok (validate key_resolves level stack validated before).2 →
    (validate key_resolves level stack validated
       (before ++ (key, inst) :: after)).2
    = Raise (Exn TypeError (UnsupportedLevel inst level)).
Proof.
  intros Hkey Hlevel.
  induction before as [|[k i] before IH]; intros validated; simpl.
  - intros _. rewrite Hkey. by rewrite decide_False.
  - destruct (key_resolves stack k).
    + case_decide; [apply IH | done].
    + specialize (IH validated).
      destruct (validate key_resolves level stack validated before) as [? r].
      simpl. intros Hr. specialize (IH Hr).
      by destruct (validate key_resolves level stack validated
                     (before ++ (key, inst) :: after)).
Qed.

(** The compiled steps of a result, one for each sorted invocation. *)
Lemma compile_result_steps s pipeline stack config r name step :
  compile_result key_resolves default_merge list_of_set
    get_run_environment_dict s pipeline stack config r →
  (name, step) ∈ PipelineDeploymentBaseModel.step_configurations r.1 →
  ∃ k passdown extra failure_hook success_hook step_settings,
    overridden config k
    ∧ (∀ key, key ∈ Dict.keys passdown → key_resolves stack key = true)
    ∧ (∀ key, key ∈ Dict.keys step_settings →
              key_resolves stack key = true)
    ∧ Step.config step
      = compiled_configuration k passdown extra failure_hook success_hook
          step_settings.
Proof.
  intros (p0 & validated & sorted & compiled & _ & _ & _ & Hvalid & Hsteps
          & _ & -> & _) Hin.
  cbn [PipelineDeploymentBaseModel.step_configurations] in Hin.
  apply Dict.elem_of_of_items in Hin.
  destruct (elem_of_Forall2_r _ _ _ _ Hsteps Hin)
    as (entry & _ & _ & original & source & k & step_settings & _ & _ & _
        & Hov & Hstep & Hresult).
  simpl in Hresult. subst step.
  eexists k, _, _, _, _, step_settings. split_and!; [done | | | done].
  - intros key Hkey. apply (validate_Ok_resolved _ _ _ _ Hvalid).
    unfold Dict.keys in *.
    apply list_elem_of_fmap in Hkey as (kv & -> & Hkv).
    apply list_elem_of_filter in Hkv as [_ Hkv].
    apply list_elem_of_fmap. by exists kv.
  - by apply (validate_Ok_resolved _ _ _ _ Hstep).
Qed.

Lemma compiled_configuration_booleans k passdown extra failure_hook
    success_hook step_settings :
  let c := compiled_configuration k passdown extra failure_hook success_hook
             step_settings in
  StepConfiguration.enable_cache c = StepConfiguration.enable_cache k
  ∧ StepConfiguration.enable_artifact_metadata c
    = StepConfiguration.enable_artifact_metadata k
  ∧ StepConfiguration.enable_artifact_visualization c
    = StepConfiguration.enable_artifact_visualization k.
Proof. done. Qed.

Lemma compiled_configuration_settings k passdown extra failure_hook
    success_hook step_settings key :
  key ∈ Dict.keys
          (StepConfiguration.settings
             (compiled_configuration k passdown extra failure_hook
                success_hook step_settings)) →
  key ∈ Dict.keys passdown ∨ key ∈ Dict.keys step_settings.
Proof.
  unfold compiled_configuration, update_step_configuration.
  cbn [StepConfiguration.settings StepConfigurationUpdate.settings
       merge_settings].
  by rewrite Dict.elem_keys_merge_with.
Qed.

(** The names of the compiled steps are those of the invocations. *)
Lemma compile_result_names s pipeline p stack config r :
  compile_result key_resolves default_merge list_of_set
    get_run_environment_dict s pipeline stack config r →
  pipelines s !! pipeline = Some p →
  NoDup (Dict.keys (Pipeline.invocations p)) →
  Dict.keys (PipelineDeploymentBaseModel.step_configurations r.1)
  ≡ₚ Dict.keys (Pipeline.invocations p).
Proof.
  intros (p0 & validated & sorted & compiled & Hp0 & _ & _ & _ & Hsteps
          & Hsorted & -> & _) Hp Hnd.
  simplify_eq. destruct (Hsorted Hnd) as [_ Hnames].
  apply sorted_step_names_Ok in Hnames as [Hperm _]; [|done].
  assert (compiled.*1 = sorted.*1) as Heq.
  { clear -Hsteps. induction Hsteps as [|x y l k [Hxy _] _ IH]; [done|].
    by rewrite !fmap_cons, IH, Hxy. }
  cbn [PipelineDeploymentBaseModel.step_configurations].
  rewrite Dict.of_items_NoDup.
  - unfold Dict.keys at 1. by rewrite Heq.
  - rewrite Heq, Hperm. done.
Qed.

Lemma compile_returns pipeline stack config s r :
  (Compiler.compile key_resolves default_merge list_of_set
     get_run_environment_dict pipeline stack config s).2 = Ok r →
  compile_result key_resolves default_merge list_of_set
    get_run_environment_dict s pipeline stack config r.
Proof.
  destruct (Compiler.compile _ _ _ _ _ _ _ s) as [s' r'] eqn:Hrun.
  simpl. intros ->. by destruct (compile_Ok _ _ _ _ _ _ Hrun).
Qed.

Lemma compile_raises pipeline p stack config s e :
  pipelines s !! pipeline = Some p →
  NoDup (Dict.keys (Pipeline.invocations p)) →
  (∀ name invocation, (name, invocation) ∈ Pipeline.invocations p →
     is_Some (steps s !! StepInvocation.step invocation)) →
  (Compiler.compile key_resolves default_merge list_of_set
     get_run_environment_dict pipeline stack config s).2 = Raise e →
  compile_failure key_resolves default_merge list_of_set p stack config e.
Proof.
  intros Hp Hnd Hsteps.
  destruct (Compiler.compile _ _ _ _ _ _ _ s) as [s' r'] eqn:Hrun.
  simpl. intros ->. destruct (compile_Raise _ _ _ _ _ _ Hrun) as [_ H].
  by apply H.
Qed.

(** ** The errors of [compile] *)

(** The causes of the failures of [compile], one for each check. *)
Inductive cause (stack : Stack.t) (config : PipelineRunConfiguration.t)
    (p : Pipeline.t) : exn → Prop :=
  | cause_unknown_step name :
      name ∈ Dict.keys (PipelineRunConfiguration.steps config) →
      name ∉ Dict.keys (Pipeline.invocations p) →
      cause stack config p (Exn KeyError (NoStepWithName name))
  | cause_run_name run_name :
      PipelineRunConfiguration.run_name config = Some run_name →
      cause stack config p
        (Exn ValueError (InvalidRunName run_name {[ "date"; "time" ]}))
  | cause_format_string run_name reason :
      PipelineRunConfiguration.run_name config = Some run_name →
      cause stack config p (Exn ValueError (InvalidFormatString reason))
  | cause_level key settings_instance level :
      key_resolves stack key = true →
      level ∉ BaseSettings.LEVEL settings_instance →
      cause stack config p
        (Exn TypeError (UnsupportedLevel settings_instance level))
  | cause_upstream name invocation :
      (name, invocation) ∈ Pipeline.invocations p →
      StepInvocation.upstream_steps invocation
        ∖ list_to_set (Dict.keys (Pipeline.invocations p)) ≠ ∅ →
      cause stack config p
        (Exn RuntimeError
           (InvalidUpstreamSteps
              (StepInvocation.upstream_steps invocation
                 ∖ list_to_set (Dict.keys (Pipeline.invocations p)))
              (list_to_set (Dict.keys (Pipeline.invocations p)))))
  | cause_cycle :
      upstream_closed (Pipeline.invocations p) →
      Graph.has_cycle (upstream_of (Pipeline.invocations p)) →
      cause stack config p (Exn RuntimeError CycleDetected)
  | cause_component steps e :
      missing_component stack steps e →
      cause stack config p e.

Lemma compile_failure_cause p stack config e :
  NoDup (Dict.keys (Pipeline.invocations p)) →
  compile_failure key_resolves default_merge list_of_set p stack config e →
  cause stack config p e.
Proof.
  intros Hnd. unfold compile_failure.
  destruct (first_unknown_step config (Pipeline.invocations p))
    as [name|] eqn:Hknown.
  { intros ->. unfold first_unknown_step in Hknown.
    apply head_Some_elem_of, list_elem_of_filter in Hknown as [? ?].
    by constructor. }
  destruct (run_name_check config) as [[]|e'] eqn:Hname.
  2: { intros ->.
       apply run_name_check_Raise in Hname as (run_name & Hrn & _ & Hv).
       apply verify_run_name_Raise in Hv as [->|[reason ->]].
       - by apply cause_run_name.
       - by apply (cause_format_string _ _ _ run_name). }
  destruct (validate key_resolves PIPELINE stack [] _).2 as [?|e'] eqn:Hvalid.
  2: { intros ->.
       apply validate_Raise in Hvalid as (key & inst & _ & Hkey & Hl & ->).
       by apply (cause_level _ _ _ key). }
  destruct (verify_all _ (Pipeline.invocations p)) as [[]|e'] eqn:Hv.
  2: { intros ->.
       apply verify_all_Raise in Hv as (name & invocation & Hin & Hne & ->).
       by apply (cause_upstream _ _ _ name). }
  destruct (sorted_step_names list_of_set (Pipeline.invocations p))
    as [names|e'] eqn:Hs.
  2: { intros ->. apply upstream_closed_verify_all in Hv.
       pose proof (get_sorted_invocations_closed list_of_set list_of_set_perm
                     1%positive p (mkState {[ 1%positive := p ]} ∅ [])
                     (lookup_singleton_eq _ _) Hnd Hv)
         as [[Hcycle _]|(_ & sorted & Hrun & _)].
       - rewrite (sorted_step_names_Raise _ _ Hs). by constructor.
       - pose proof (get_sorted_invocations_outcome list_of_set 1%positive p
                       (mkState {[ 1%positive := p ]} ∅ [])
                       (lookup_singleton_eq _ _) Hnd) as Hout.
         rewrite Hrun in Hout. destruct Hout as [_ Hout]. congruence. }
  intros [(key & inst & Hkey & Hl & ->)|[steps Hmissing]].
  - by apply (cause_level _ _ _ key).
  - by apply (cause_component _ _ _ steps).
Qed.

(** ** The run name *)




(** ** The specs of a result *)

Lemma compile_result_named s pipeline p stack config r :
  compile_result key_resolves default_merge list_of_set
    get_run_environment_dict s pipeline stack config r →
  pipelines s !! pipeline = Some p →
  NoDup (Dict.keys (Pipeline.invocations p)) →
  (∀ name invocation, (name, invocation) ∈ Pipeline.invocations p →
     is_Some (steps s !! StepInvocation.step invocation)) →
  ∃ names,
    sorted_step_names list_of_set (Pipeline.invocations p) = Ok names
    ∧ Forall2 (λ name result,
                 result.1 = name
                 ∧ step_spec_named list_of_set s p name
                   = Some (Step.spec result.2))
        names (PipelineDeploymentBaseModel.step_configurations r.1)
    ∧ PipelineSpec.steps r.2
      = Step.spec <$> (PipelineDeploymentBaseModel.step_configurations r.1).*2
    ∧ r.2
      = (if Pipeline.is_base_pipeline p
         then PipelineSpec.mk (Some "0.3") None None (PipelineSpec.steps r.2)
         else PipelineSpec.mk None (Some (Pipeline.source p))
                (Some (Pipeline._parameters p)) (PipelineSpec.steps r.2)).
Proof.
  intros (p0 & validated & sorted & compiled & Hp0 & _ & _ & _ & Hsteps
          & Hsorted & Hd & Hspec) Hp Hnd Hexist.
  rewrite Hp in Hp0. injection Hp0 as <-.
  destruct (Hsorted Hnd) as [_ Hnames].
  pose proof (sorted_step_names_Ok _ _ Hnd Hnames) as [Hperm _].
  assert (compiled.*1 = sorted.*1) as Heq.
  { clear -Hsteps. induction Hsteps as [|x y l k [Hxy _] _ IH]; [done|].
    by rewrite !fmap_cons, IH, Hxy. }
  assert (Dict.of_items compiled = compiled) as Hitems.
  { apply Dict.of_items_NoDup. rewrite Heq, Hperm. done. }
  rewrite Hd, Hspec.
  cbn [PipelineDeploymentBaseModel.step_configurations].
  rewrite Hitems. exists sorted.*1. split_and!; [done | | |].
  - apply Forall2_fmap_l. eapply Forall2_impl; [exact Hsteps|].
    intros entry result
      (H1 & original & source & k & ss & Hin & Hset & Hsrc & _ & _ & Hres).
    simpl. split; [done|]. unfold step_spec_named.
    rewrite (Dict.elem_get _ _ _ Hnd Hin).
    destruct (Hexist _ _ Hin) as [b Hb]. rewrite Hb, Hres.
    rewrite (Hsrc b Hb), Hset. done.
  - unfold Dict.values. by destruct (Pipeline.is_base_pipeline p).
  - unfold Dict.values. by destruct (Pipeline.is_base_pipeline p).
Qed.

End outcomes.

(** * The result of [compile] as a function of the caller's objects *)

(** ** The copies keep the sharing of the step objects *)

(** The copies of two step objects are two objects. *)
Definition memo_inj (s : State) (memo : gmap loc loc) : Prop :=
  (∀ l l', memo !! l = Some l' → l' ∈ dom (steps s))
  ∧ ∀ l1 l2 l', memo !! l1 = Some l' → memo !! l2 = Some l' → l1 = l2.

Lemma deepcopy_step_inj memo l :
  hoare (λ s, memo_inj s memo) (deepcopy_step memo l)
    (λ r s, memo_inj s r.1) (λ _ _, True).
Proof.
  intros s [Hdom Hinj]. unfold deepcopy_step.
  destruct (memo !! l) as [l'|] eqn:Hl; simpl; [done|].
  unfold bind, read_step.
  destruct (steps s !! l) as [b|] eqn:Hb; simpl; [|done].
  pose proof (is_fresh (dom (steps s))) as Hfresh.
  split.
  - intros k k'. rewrite lookup_insert. case_decide as Hk.
    + intros [= <-]. simpl. rewrite dom_insert. set_solver.
    + intros Hkk. simpl. rewrite dom_insert. apply elem_of_union_r.
      by apply (Hdom k).
  - intros l1 l2 l'. rewrite !lookup_insert.
    case_decide as H1; case_decide as H2.
    + congruence.
    + intros [= <-] H2'. exfalso. apply Hfresh. by apply (Hdom l2).
    + intros H1' [= <-]. exfalso. apply Hfresh. by apply (Hdom l1).
    + apply Hinj.
Qed.

Lemma deepcopy_invocations_inj invocations :
  ∀ memo,
    hoare (λ s, memo_inj s memo) (deepcopy_invocations memo invocations)
      (λ r s, memo_inj s r.1) (λ _ _, True).
Proof.
  induction invocations as [|[name invocation] rest IH]; intros memo; simpl.
  - intros s Hs. exact Hs.
  - unfold deepcopy_invocation. intros s Hs. unfold bind at 1 2.
    pose proof (deepcopy_step_inj memo (StepInvocation.step invocation) s Hs)
      as H1.
    destruct (deepcopy_step memo (StepInvocation.step invocation) s)
      as [s1 [[memo1 l1]|e]]; [|done]. simpl in H1. simpl. unfold bind.
    pose proof (IH memo1 s1 H1) as H2.
    by destruct (deepcopy_invocations memo1 rest s1)
      as [s2 [[memo2 rest']|e]].
Qed.

(** The memo of a deep copy of a pipeline. *)
Lemma deepcopy_pipeline_memo s0 pipeline :
  hoare (λ s, pipelines s = pipelines s0 ∧ steps s = steps s0)
    (deepcopy_pipeline pipeline)
    (λ pipeline' s, ∃ p0 p' memo,
       pipelines s0 !! pipeline = Some p0
       ∧ pipelines s !! pipeline' = Some p'
       ∧ Forall2 (copied_entry memo) (Pipeline.invocations p0)
           (Pipeline.invocations p')
       ∧ memo_ok s0 s memo
       ∧ memo_inj s memo)
    (λ _ _, True).
Proof.
  intros s [Hps Hss]. unfold deepcopy_pipeline, bind at 1, read_pipeline.
  rewrite Hps.
  destruct (pipelines s0 !! pipeline) as [p0|] eqn:Hp0; simpl; [|done].
  unfold bind.
  assert (frame s0 s ∧ memo_ok s0 s ∅) as Hpre.
  { split; [split; [by rewrite Hps | by rewrite Hss]|].
    intros l l' Hl. by rewrite lookup_empty in Hl. }
  assert (memo_inj s ∅) as Hpre'.
  { split; intros ? ?; [|intros ?]; by rewrite lookup_empty. }
  pose proof (deepcopy_invocations_spec s0 (Pipeline.invocations p0) ∅ s Hpre)
    as Hcopy.
  pose proof (deepcopy_invocations_inj (Pipeline.invocations p0) ∅ s Hpre')
    as Hinj.
  destruct (deepcopy_invocations ∅ (Pipeline.invocations p0) s)
    as [s1 [[memo invocations]|e]]; simpl in *; [|done].
  destruct Hcopy as (Hf & Hm & _ & Hentries).
  exists p0, (set_invocations p0 invocations), memo.
  split_and!; try done. by rewrite lookup_insert_eq.
Qed.

Lemma copied_entry_get memo invocations0 invocations name copy :
  Forall2 (copied_entry memo) invocations0 invocations →
  Dict.get invocations name = Some copy →
  ∃ original,
    Dict.get invocations0 name = Some original
    ∧ memo !! StepInvocation.step original = Some (StepInvocation.step copy)
    ∧ copy = set_step original (StepInvocation.step copy).
Proof.
  induction 1 as [|[n0 o] [n c] os cs (Hn & Hc & Hm) _ IH]; simpl; [done|].
  simpl in *. subst n. case_decide; [|done].
  intros [= <-]. by exists o.
Qed.

Lemma copied_entry_original memo invocations0 invocations original :
  Forall2 (copied_entry memo) invocations0 invocations →
  original ∈ Dict.values invocations0 →
  ∃ copy, copy ∈ Dict.values invocations
          ∧ memo !! StepInvocation.step original
            = Some (StepInvocation.step copy).
Proof.
  intros Hcopies ([n o] & -> & Hin)%list_elem_of_fmap.
  apply list_elem_of_lookup in Hin as [i Hi].
  destruct (Forall2_lookup_l _ _ _ _ _ Hcopies Hi)
    as ([n' c] & Hc & _ & _ & Hm).
  exists c. split; [|done]. apply list_elem_of_fmap. exists (n', c).
  split; [done|]. by apply list_elem_of_lookup_2 in Hc.
Qed.

Lemma copied_entry_copy memo invocations0 invocations copy :
  Forall2 (copied_entry memo) invocations0 invocations →
  copy ∈ Dict.values invocations →
  ∃ original, original ∈ Dict.values invocations0
              ∧ memo !! StepInvocation.step original
                = Some (StepInvocation.step copy).
Proof.
  intros Hcopies ([n c] & -> & Hin)%list_elem_of_fmap.
  apply list_elem_of_lookup in Hin as [i Hi].
  destruct (Forall2_lookup_r _ _ _ _ _ Hcopies Hi)
    as ([n' o] & Ho & _ & _ & Hm).
  exists o. split; [|done]. apply list_elem_of_fmap. exists (n', o).
  split; [done|]. by apply list_elem_of_lookup_2 in Ho.
Qed.

(** ** The configurations of the copied steps *)

(** What an entry of the run configuration does to the configuration of
    the step object [l]: it updates it if the entry names an invocation of
    that step object. *)
Definition step_update (default_merge : bool)
    (invocations0 : Dict.t StepInvocation.t) (l : loc)
    (k : StepConfiguration.t) (entry : string * StepConfigurationUpdate.t) :
    StepConfiguration.t :=
  if decide (StepInvocation.step <$> Dict.get invocations0 entry.1 = Some l)
  then update_step_configuration default_merge k entry.2
  else k.

Definition override (merge : bool) (value : option bool)
    (update : bool → StepConfigurationUpdate.t) (k : StepConfiguration.t) :
    StepConfiguration.t :=
  match value with
  | Some v => update_step_configuration merge k (update v)
  | None => k
  end.

(** The three booleans of the run configuration, forced onto a step. *)
Definition boolean_updates (default_merge : bool)
    (config : PipelineRunConfiguration.t) (k : StepConfiguration.t) :
    StepConfiguration.t :=
  override default_merge
    (PipelineRunConfiguration.enable_artifact_visualization config)
    (λ v, StepConfigurationUpdate.mk None None (Some v)
            None None None None None None)
    (override default_merge
       (PipelineRunConfiguration.enable_artifact_metadata config)
       (λ v, StepConfigurationUpdate.mk None (Some v) None
               None None None None None None)
       (override default_merge
          (PipelineRunConfiguration.enable_cache config)
          (λ v, StepConfigurationUpdate.mk (Some v) None None
                  None None None None None None)
          k)).

(** The configuration of the step object [l] once
    [_apply_run_configuration] has run. *)
Definition run_configured (default_merge : bool)
    (invocations0 : Dict.t StepInvocation.t)
    (config : PipelineRunConfiguration.t) (l : loc)
    (k : StepConfiguration.t) : StepConfiguration.t :=
  boolean_updates default_merge config
    (foldl (step_update default_merge invocations0 l) k
       (PipelineRunConfiguration.steps config)).

Section configured.

Context (default_merge : bool).
Context (s0 : State) (p0 : Pipeline.t) (pipeline : loc).
Context (invocations : Dict.t StepInvocation.t) (memo : gmap loc loc).
Context (copies : Forall2 (copied_entry memo) (Pipeline.invocations p0)
                    invocations).
Context (memo_injective :
  ∀ l1 l2 l', memo !! l1 = Some l' → memo !! l2 = Some l' → l1 = l2).

(** The copy of every step object of the pipeline holds the source of the
    original and the configuration of the original changed by [F]. *)
Definition configured
    (F : loc → StepConfiguration.t → StepConfiguration.t) (s : State) :
    Prop :=
  ∀ l0 l',
    memo !! l0 = Some l' →
    l0 ∈ StepInvocation.step <$> Dict.values (Pipeline.invocations p0) →
    ∃ b0, steps s0 !! l0 = Some b0
          ∧ steps s !! l'
            = Some (BaseStep.mk (BaseStep.source b0)
                      (F l0 (BaseStep.configuration b0))).

Lemma configured_subseteq F s s' :
  steps s ⊆ steps s' → configured F s → configured F s'.
Proof.
  intros Hsub HF l0 l' Hl HD. destruct (HF l0 l' Hl HD) as (b0 & Hb0 & Hb).
  exists b0. split; [done|]. by apply (lookup_weaken _ _ _ _ Hb).
Qed.

Lemma configured_steps F s s' :
  steps s' = steps s → configured F s → configured F s'.
Proof. intros Heq. apply configured_subseteq. by rewrite Heq. Qed.

Lemma configured_ext F G s :
  (∀ l k, F l k = G l k) → configured F s → configured G s.
Proof.
  intros HFG HF l0 l' Hl HD. destruct (HF l0 l' Hl HD) as (b0 & Hb0 & Hb).
  exists b0. split; [done|]. by rewrite <- HFG.
Qed.

Lemma configured_write F s l0 l' b upd :
  configured F s →
  memo !! l0 = Some l' →
  steps s !! l' = Some b →
  configured (λ l k, if decide (l = l0) then upd (F l k) else F l k)
    (with_steps s
       (<[l' := BaseStep.mk (BaseStep.source b)
                  (upd (BaseStep.configuration b))]> (steps s))).
Proof.
  intros HF Hl Hb k0 k' Hk HD.
  destruct (HF k0 k' Hk HD) as (b0 & Hb0 & Hs).
  exists b0. split; [done|]. simpl.
  destruct (decide (k0 = l0)) as [->|Hne].
  - assert (k' = l') as -> by congruence.
    rewrite lookup_insert_eq. rewrite Hb in Hs. by injection Hs as ->.
  - rewrite lookup_insert_ne; [done|]. intros <-. apply Hne.
    by apply (memo_injective _ _ l').
Qed.

(** The entries of the run configuration for the steps. *)
Lemma step_configurations_exact F c config :
  hoare (λ s, working s0 p0 pipeline invocations c s ∧ configured F s)
    (forM (PipelineRunConfiguration.steps config) (λ '(step_name, step_config),
       let! p := read_pipeline pipeline in
       if negb (Dict.mem step_name (Pipeline.invocations p))
       then raise (Exn KeyError (NoStepWithName step_name))
       else
         let! invocation :=
           lift (subscript (Pipeline.invocations p) step_name) in
         BaseStep_configure (StepInvocation.step invocation) step_config
           default_merge))
    (λ _ s, working s0 p0 pipeline invocations c s
            ∧ configured
                (λ l k, foldl (step_update default_merge
                                 (Pipeline.invocations p0) l)
                          (F l k) (PipelineRunConfiguration.steps config))
                s)
    (λ _ _, True).
Proof.
  pose (I := λ (done : list (string * StepConfigurationUpdate.t)) s,
          working s0 p0 pipeline invocations c s
          ∧ configured
              (λ l k, foldl (step_update default_merge
                               (Pipeline.invocations p0) l) (F l k) done)
              s).
  eapply hoare_conseq.
  - apply (hoare_forM_prefix I (λ _ _, True) _
             (PipelineRunConfiguration.steps config) []).
    intros d [step_name step_config] r Hd s [Hw Hc]. simpl in *.
    erewrite bind_Ok; [|by eapply working_read]. simpl.
    unfold Dict.mem. case_bool_decide as Hmem; simpl; [|done].
    apply Dict.get_is_Some in Hmem as [inv Hinv].
    erewrite bind_Ok; [|unfold lift, subscript; by rewrite Hinv].
    pose proof (Dict.get_Some_elem _ _ _ Hinv) as Hin.
    destruct (working_step_new _ _ _ _ _ _ _ _ Hw Hin) as [Hnew [b Hb]].
    rewrite (BaseStep_configure_run _ _ _ b s Hb).
    destruct (copied_entry_get _ _ _ _ _ copies Hinv) as (o & Ho & Hm & _).
    split.
    + apply working_write_step; [done | done |].
      intros b' Hb'. by simplify_eq.
    + pose proof (configured_write _ s (StepInvocation.step o)
                    (StepInvocation.step inv) b
                    (λ k, update_step_configuration default_merge k
                            step_config) Hc Hm Hb) as Hc'.
      eapply configured_ext; [|exact Hc'].
      intros l k. cbn beta. rewrite foldl_app. cbn [foldl].
      generalize (foldl (step_update default_merge (Pipeline.invocations p0) l)
                    (F l k) d).
      intros k'. unfold step_update. cbn [fst snd]. rewrite Ho.
      cbn [fmap option_fmap option_map].
      destruct (decide (l = StepInvocation.step o)) as [Heq|Hne].
      * subst l. by rewrite decide_True.
      * rewrite decide_False; [done|]. intros [= Heq]. by apply Hne.
  - intros s Hs. exact Hs.
  - intros [] s Hs. exact Hs.
  - done.
Qed.

(** An update of every step, one invocation after the other. *)
Lemma all_steps_exact F c update merge :
  (∀ k, update_step_configuration merge
          (update_step_configuration merge k update) update
        = update_step_configuration merge k update) →
  hoare (λ s, working s0 p0 pipeline invocations c s ∧ configured F s)
    (forM (Dict.values invocations) (λ invocation,
       BaseStep_configure (StepInvocation.step invocation) update merge))
    (λ _ s, working s0 p0 pipeline invocations c s
            ∧ configured
                (λ l k, update_step_configuration merge (F l k) update) s)
    (λ _ _, True).
Proof.
  intros Hidem.
  pose (I := λ (done : list StepInvocation.t) s,
          working s0 p0 pipeline invocations c s
          ∧ ∀ l0 l',
              memo !! l0 = Some l' →
              l0 ∈ StepInvocation.step
                     <$> Dict.values (Pipeline.invocations p0) →
              ∃ b0, steps s0 !! l0 = Some b0
                    ∧ steps s !! l'
                      = Some (BaseStep.mk (BaseStep.source b0)
                                (if decide (l' ∈ StepInvocation.step <$> done)
                                 then update_step_configuration merge
                                        (F l0 (BaseStep.configuration b0))
                                        update
                                 else F l0 (BaseStep.configuration b0)))).
  eapply hoare_conseq.
  - apply (hoare_forM_prefix I (λ _ _, True) _ (Dict.values invocations) []).
    intros d x r Hd s [Hw Hc]. simpl in *.
    assert (x ∈ Dict.values invocations) as Hx
      by (rewrite Hd; apply elem_of_app; right; apply list_elem_of_here).
    destruct (copied_entry_copy _ _ _ _ copies Hx) as (o & Ho & Hm).
    assert (StepInvocation.step o
            ∈ StepInvocation.step <$> Dict.values (Pipeline.invocations p0))
      as HD by (apply list_elem_of_fmap; by exists o).
    destruct (Hc _ _ Hm HD) as (b0 & Hb0 & Hb).
    rewrite (BaseStep_configure_run _ _ _ _ s Hb). split.
    + apply list_elem_of_fmap in Hx as ([n x'] & -> & Hx).
      destruct (working_step_new _ _ _ _ _ _ _ _ Hw Hx) as [Hnew _].
      apply working_write_step; [done | done |].
      intros b' Hb'. simpl in *. by simplify_eq.
    + intros l0 l' Hl HlD. destruct (Hc l0 l' Hl HlD) as (b0' & Hb0' & Hb').
      exists b0'. split; [done|]. simpl.
      destruct (decide (l' = StepInvocation.step x)) as [->|Hne].
      * assert (l0 = StepInvocation.step o) as ->
          by (by apply (memo_injective _ _ (StepInvocation.step x))).
        simplify_eq. rewrite lookup_insert_eq. simpl.
        rewrite (decide_True (P := _ ∈ _ <$> (d ++ [x]))).
        2: { rewrite fmap_app. apply elem_of_app. right.
             apply list_elem_of_here. }
        case_decide; [by rewrite Hidem | done].
      * rewrite lookup_insert_ne by done. rewrite Hb'.
        destruct (decide (l' ∈ StepInvocation.step <$> d)) as [Hd'|Hd'].
        -- rewrite decide_True; [done|].
           rewrite fmap_app. apply elem_of_app. by left.
        -- rewrite decide_False; [done|].
           rewrite fmap_app, elem_of_app. intros [?|Hin]; [done|].
           apply list_elem_of_singleton in Hin. done.
  - intros s [Hw Hc]. split; [done|]. intros l0 l' Hl HD.
    destruct (Hc l0 l' Hl HD) as (b0 & Hb0 & Hb). exists b0.
    split; [done|]. rewrite decide_False; [done|].
    intros Hin. by apply elem_of_nil in Hin.
  - intros [] s [Hw Hc]. split; [done|]. intros l0 l' Hl HD.
    destruct (Hc l0 l' Hl HD) as (b0 & Hb0 & Hb). exists b0.
    split; [done|]. simpl in Hb. rewrite decide_True in Hb; [done|].
    apply list_elem_of_fmap in HD as (o & -> & Ho).
    destruct (copied_entry_original _ _ _ _ copies Ho) as (copy & Hcopy & Hm).
    assert (l' = StepInvocation.step copy) as -> by congruence.
    apply list_elem_of_fmap. by exists copy.
  - done.
Qed.

Lemma override_exact F c value update :
  (∀ v k, update_step_configuration default_merge
            (update_step_configuration default_merge k (update v)) (update v)
          = update_step_configuration default_merge k (update v)) →
  hoare (λ s, working s0 p0 pipeline invocations c s ∧ configured F s)
    (match value with
     | Some v =>
         let! p := read_pipeline pipeline in
         forM (Dict.values (Pipeline.invocations p)) (λ invocation,
           BaseStep_configure (StepInvocation.step invocation) (update v)
             default_merge)
     | None => ret tt
     end)
    (λ _ s, working s0 p0 pipeline invocations c s
            ∧ configured
                (λ l k, override default_merge value update (F l k)) s)
    (λ _ _, True).
Proof.
  intros Hidem. destruct value as [v|]; simpl.
  - intros s [Hw Hc]. erewrite bind_Ok; [|by eapply working_read]. simpl.
    by apply (all_steps_exact F c (update v) default_merge (Hidem v)).
  - intros s Hs. exact Hs.
Qed.

(** [_apply_run_configuration] leaves the copy of every step object with
    the configuration that [run_configured] computes. *)
Lemma apply_run_configuration_exact F c config :
  hoare (λ s, working s0 p0 pipeline invocations c s ∧ configured F s)
    (Compiler._apply_run_configuration default_merge pipeline config)
    (λ _ s,
       configured
         (λ l k, boolean_updates default_merge config
                   (foldl (step_update default_merge
                             (Pipeline.invocations p0) l)
                      (F l k) (PipelineRunConfiguration.steps config)))
         s)
    (λ _ _, True).
Proof.
  set (c1 := update_pipeline_configuration default_merge c (run_update config)).
  unfold Compiler._apply_run_configuration.
  eapply hoare_bind.
  { instantiate (1 := λ _ s, working s0 p0 pipeline invocations c1 s
                             ∧ configured F s).
    intros s [Hw Hc]. pose proof Hw as (Hf & Hnew & Hp & Hinv).
    rewrite (Pipeline_configure_run _ _ _ _ s Hp). split.
    - by apply (working_write_pipeline s0 p0 pipeline invocations c s c1).
    - by apply (configured_steps F s). }
  intros []. eapply hoare_bind; [apply step_configurations_exact|].
  intros []. eapply hoare_bind.
  { eapply (override_exact _ c1 (PipelineRunConfiguration.enable_cache config)
             (λ v, StepConfigurationUpdate.mk (Some v) None None
                     None None None None None None)).
    done. }
  intros []. eapply hoare_bind.
  { eapply (override_exact _ c1
             (PipelineRunConfiguration.enable_artifact_metadata config)
             (λ v, StepConfigurationUpdate.mk None (Some v) None
                     None None None None None None)).
    done. }
  intros []. eapply hoare_conseq.
  - eapply (override_exact _ c1
             (PipelineRunConfiguration.enable_artifact_visualization config)
             (λ v, StepConfigurationUpdate.mk None None (Some v)
                     None None None None None None)).
    done.
  - intros s Hs. exact Hs.
  - intros [] s [_ Hc]. exact Hc.
  - done.
Qed.

End configured.

(** ** The compiled steps *)

Fixpoint mapM_res {A B} (f : A → res B) (l : list A) : res (list B) :=
  match l with
  | [] => Ok []
  | x :: l' =>
      match f x with
      | Ok y =>
          match mapM_res f l' with
          | Ok ys => Ok (y :: ys)
          | Raise e => Raise e
          end
      | Raise e => Raise e
      end
  end.

Lemma mapM_res_fmap {A B C} (f : B → res C) (g : A → B) (l : list A) :
  mapM_res f (g <$> l) = mapM_res (λ x, f (g x)) l.
Proof.
  induction l as [|x l IH]; [done|]. rewrite fmap_cons. simpl.
  by rewrite IH.
Qed.

Lemma mapM_res_ext {A B} (f g : A → res B) (l : list A) :
  (∀ x, x ∈ l → f x = g x) → mapM_res f l = mapM_res g l.
Proof.
  induction l as [|x l IH]; intros Hfg; [done|]. simpl.
  rewrite (Hfg x (list_elem_of_here _ _)).
  rewrite IH; [done|]. intros y Hy. by apply Hfg, list_elem_of_further.
Qed.

Lemma hoare_mapM_res {A B} (I : State → Prop) (f : A → M B) (g : A → res B)
    (l : list A) :
  (∀ x, x ∈ l →
     hoare I (f x) (λ y s, I s ∧ g x = Ok y) (λ e _, g x = Raise e)) →
  hoare I (mapM f l) (λ ys s, I s ∧ mapM_res g l = Ok ys)
    (λ e _, mapM_res g l = Raise e).
Proof.
  induction l as [|x l IH]; intros Hf s Hs; simpl.
  - done.
  - unfold bind. pose proof (Hf x (list_elem_of_here _ _) s Hs) as Hx.
    destruct (f x s) as [s1 [y|e]]; [|by rewrite Hx].
    destruct Hx as [HI ->].
    assert (∀ z, z ∈ l →
              hoare I (f z) (λ y s, I s ∧ g z = Ok y) (λ e _, g z = Raise e))
      as Hl by (intros z Hz; by apply Hf, list_elem_of_further).
    pose proof (IH Hl s1 HI) as Hys.
    destruct (mapM f l s1) as [s2 [ys|e]]; simpl.
    + destruct Hys as [HI2 ->]. done.
    + by rewrite Hys.
Qed.

(** The compiled step of the invocation [name], from the caller's
    objects: the step object of the invocation, its configuration as [F]
    leaves it, validated and merged with what the pipeline passes down. *)
Definition compile_named (key_resolves : Stack.t → string → bool)
    (list_of_set : gset string → list string)
    (F : loc → StepConfiguration.t → StepConfiguration.t)
    (s0 : State) (p0 : Pipeline.t) (stack : Stack.t)
    (c : PipelineConfiguration.t) (passdown : Dict.t BaseSettings.t)
    (name : string) : res (string * Step.t) :=
  match Dict.get (Pipeline.invocations p0) name with
  | Some invocation =>
      match steps s0 !! StepInvocation.step invocation with
      | Some b0 =>
          let k := F (StepInvocation.step invocation)
                     (BaseStep.configuration b0) in
          match (validate key_resolves STEP stack []
                   (StepConfiguration.settings k)).2 with
          | Ok step_settings =>
              Ok (name,
                  Step.mk
                    (step_spec_of list_of_set (BaseStep.source b0) invocation)
                    (compiled_configuration k passdown
                       (PipelineConfiguration.extra c)
                       (PipelineConfiguration.failure_hook_source c)
                       (PipelineConfiguration.success_hook_source c)
                       step_settings))
          | Raise e => Raise e
          end
      | None =>
          Raise (Exn SystemError
                   (DanglingReference (StepInvocation.step invocation)))
      end
  | None => Raise (Exn KeyError (NoStepWithName name))
  end.

Section compiled_steps.

Context (key_resolves : Stack.t → string → bool).
Context (list_of_set : gset string → list string).
Context (s0 : State) (p0 : Pipeline.t) (pipeline : loc).
Context (invocations : Dict.t StepInvocation.t) (memo : gmap loc loc).
Context (copies : Forall2 (copied_entry memo) (Pipeline.invocations p0)
                    invocations).

Lemma compile_steps_exact F c stack passdown sorted :
  Forall (λ ni, Dict.get invocations ni.1 = Some ni.2) sorted →
  hoare (λ s, working s0 p0 pipeline invocations c s
              ∧ configured s0 p0 memo F s)
    (mapM (λ '(name, step),
             let! p := read_pipeline pipeline in
             let! compiled :=
               Compiler._compile_step_invocation key_resolves list_of_set
                 step passdown
                 (PipelineConfiguration.extra (Pipeline.configuration p))
                 stack
                 (PipelineConfiguration.failure_hook_source
                    (Pipeline.configuration p))
                 (PipelineConfiguration.success_hook_source
                    (Pipeline.configuration p)) in
             ret (name, compiled))
          sorted)
    (λ compiled s,
       working s0 p0 pipeline invocations c s
       ∧ mapM_res (compile_named key_resolves list_of_set F s0 p0 stack c
                     passdown) sorted.*1 = Ok compiled)
    (λ e _,
       mapM_res (compile_named key_resolves list_of_set F s0 p0 stack c
                   passdown) sorted.*1 = Raise e).
Proof.
  intros Hsorted. rewrite mapM_res_fmap.
  eapply hoare_conseq.
  - apply (hoare_mapM_res
             (λ s, working s0 p0 pipeline invocations c s
                   ∧ configured s0 p0 memo F s)
             _
             (λ x, compile_named key_resolves list_of_set F s0 p0 stack c
                     passdown x.1)).
    intros [name inv] Hin s [Hw Hc].
    rewrite Forall_forall in Hsorted.
    pose proof (Hsorted _ Hin) as Hinv. simpl in Hinv.
    erewrite bind_Ok; [|by eapply working_read]. simpl.
    destruct (copied_entry_get _ _ _ _ _ copies Hinv) as (o & Ho & Hm & Hset).
    assert (StepInvocation.step o
            ∈ StepInvocation.step <$> Dict.values (Pipeline.invocations p0))
      as HD.
    { apply list_elem_of_fmap. exists o. split; [done|].
      apply list_elem_of_fmap. exists (name, o). split; [done|].
      by apply Dict.get_Some_elem. }
    destruct (Hc _ _ Hm HD) as (b0 & Hb0 & Hb).
    erewrite bind_compile_step; [|exact Hb]. cbn zeta.
    pose proof (is_fresh (dom (steps s))) as Hfresh.
    unfold compile_named. cbn beta. cbn [fst]. rewrite Ho, Hb0. cbn zeta.
    cbn [BaseStep.configuration BaseStep.source].
    destruct (validate key_resolves STEP stack []
                (StepConfiguration.settings
                   (F (StepInvocation.step o) (BaseStep.configuration b0))))
      as [records [step_settings|e]] eqn:Hv; simpl; [|done].
    split; [split|].
    + eapply working_frame; [| |exact Hw]; [done|]. simpl.
      apply insert_subseteq. by apply not_elem_of_dom.
    + eapply configured_subseteq; [|exact Hc]. simpl.
      apply insert_subseteq. by apply not_elem_of_dom.
    + rewrite Hset. done.
  - intros s Hs. exact Hs.
  - intros compiled s [[Hw _] H]. by split.
  - intros e s H. exact H.
Qed.

(** What the compilation of the sorted steps leaves in the log: nothing
    is taken from it, and the records of the validation of the settings
    of every step are in it. *)
Lemma compile_steps_logged F c stack passdown sorted :
  Forall (λ ni, Dict.get invocations ni.1 = Some ni.2) sorted →
  ∀ s s' compiled,
    working s0 p0 pipeline invocations c s →
    configured s0 p0 memo F s →
    mapM (λ '(name, step),
            let! p := read_pipeline pipeline in
            let! compiled :=
              Compiler._compile_step_invocation key_resolves list_of_set
                step passdown
                (PipelineConfiguration.extra (Pipeline.configuration p))
                stack
                (PipelineConfiguration.failure_hook_source
                   (Pipeline.configuration p))
                (PipelineConfiguration.success_hook_source
                   (Pipeline.configuration p)) in
            ret (name, compiled))
         sorted s
    = (s', Ok compiled) →
    log s `prefix_of` log s'
    ∧ ∀ name original b0,
        name ∈ sorted.*1 →
        Dict.get (Pipeline.invocations p0) name = Some original →
        steps s0 !! StepInvocation.step original = Some b0 →
        ∀ r,
          r ∈ (validate key_resolves STEP stack []
                 (StepConfiguration.settings
                    (F (StepInvocation.step original)
                       (BaseStep.configuration b0)))).1 →
          r ∈ log s'.
Proof.
  induction 1 as [|[name inv] sorted Hinv _ IH]; intros s s' compiled Hw Hc.
  - intros [= <- <-]. split; [done|]. intros name original b0 Hin.
    by apply elem_of_nil in Hin.
  - cbn [mapM]. cbn [fst snd] in Hinv.
    intros (s1 & [name' step] & Hx & Hrest)%bind_Ok_inv.
    apply bind_Ok_inv in Hrest as (s2 & steps' & Hrest & [= <- <-]).
    erewrite bind_Ok in Hx; [|by eapply working_read]. cbn beta in Hx.
    destruct (copied_entry_get _ _ _ _ _ copies Hinv) as (o & Ho & Hm & Hset).
    assert (StepInvocation.step o
            ∈ StepInvocation.step <$> Dict.values (Pipeline.invocations p0))
      as HD.
    { apply list_elem_of_fmap. exists o. split; [done|].
      apply list_elem_of_fmap. exists (name, o). split; [done|].
      by apply Dict.get_Some_elem. }
    destruct (Hc _ _ Hm HD) as (b0 & Hb0 & Hb).
    erewrite bind_compile_step in Hx; [|exact Hb]. cbn zeta in Hx.
    cbn [BaseStep.configuration BaseStep.source] in Hx.
    pose proof (is_fresh (dom (steps s))) as Hfresh.
    destruct (validate key_resolves STEP stack []
                (StepConfiguration.settings
                   (F (StepInvocation.step o) (BaseStep.configuration b0))))
      as [records [step_settings|e]] eqn:Hv; cbn [fst snd] in Hx; [|done].
    injection Hx as <- <- <-.
    match type of Hrest with mapM _ _ ?s1 = _ =>
      destruct (IH s1 s2 steps') as [Hprefix Hlogged]; [| |exact Hrest|]
    end.
    + eapply working_frame; [| |exact Hw]; [done|]. simpl.
      apply insert_subseteq. by apply not_elem_of_dom.
    + eapply configured_subseteq; [|exact Hc]. simpl.
      apply insert_subseteq. by apply not_elem_of_dom.
    + cbn [log] in Hprefix. split.
      * etrans; [|exact Hprefix]. by apply prefix_app_r.
      * intros n original b Hn Hget Hstep r Hr.
        rewrite fmap_cons in Hn. cbn [fst] in Hn.
        destruct (decide (n = name)) as [->|Hne].
        -- rewrite Ho in Hget. injection Hget as <-.
           rewrite Hb0 in Hstep. injection Hstep as <-.
           rewrite Hv in Hr. cbn [fst] in Hr.
           destruct Hprefix as [more ->]. set_solver.
        -- apply (Hlogged n original b); [set_solver | done..].
Qed.


End compiled_steps.

(** ** The result *)

Section exact.

Context (key_resolves : Stack.t → string → bool).
Context (default_merge : bool).
Context (list_of_set : gset string → list string).
Context (get_run_environment_dict : Dict.t string).

(** What [compile] returns or raises, computed from the pipeline object
    and the step objects of the caller: the checks in the order in which
    [compile] makes them, and then the deployment and the spec. *)
Definition compile_pure (s0 : State) (pipeline : loc) (stack : Stack.t)
    (config : PipelineRunConfiguration.t) :
    res (PipelineDeploymentBaseModel.t * PipelineSpec.t) :=
  match pipelines s0 !! pipeline with
  | None => Raise (Exn SystemError (DanglingReference pipeline))
  | Some p0 =>
  match first_unknown_step config (Pipeline.invocations p0) with
  | Some name => Raise (Exn KeyError (NoStepWithName name))
  | None =>
  match run_name_check config with
  | Raise e => Raise e
  | Ok _ =>
  let prepared := prepared_configuration default_merge p0 config stack in
  match (validate key_resolves PIPELINE stack []
           (PipelineConfiguration.settings prepared)).2 with
  | Raise e => Raise e
  | Ok validated =>
  let c := set_settings prepared validated in
  let passdown := filter (λ kv, STEP ∈ BaseSettings.LEVEL kv.2) validated in
  match verify_all (list_to_set (Dict.keys (Pipeline.invocations p0)))
          (Pipeline.invocations p0) with
  | Raise e => Raise e
  | Ok _ =>
  match sorted_step_names list_of_set (Pipeline.invocations p0) with
  | Raise e => Raise e
  | Ok names =>
  match mapM_res
          (compile_named key_resolves list_of_set
             (run_configured default_merge (Pipeline.invocations p0) config)
             s0 p0 stack c passdown)
          names with
  | Raise e => Raise e
  | Ok compiled =>
  let steps := Dict.of_items compiled in
  match Compiler._ensure_required_stack_components_exist stack steps with
  | Raise e => Raise e
  | Ok _ =>
      Ok (PipelineDeploymentBaseModel.mk
            (if truthy (PipelineRunConfiguration.run_name config)
             then default "" (PipelineRunConfiguration.run_name config)
             else Compiler._get_default_run_name (Pipeline.name p0))
            c steps get_run_environment_dict,
          let step_specs := Step.spec <$> Dict.values steps in
          if Pipeline.is_base_pipeline p0
          then PipelineSpec.mk (Some "0.3") None None step_specs
          else PipelineSpec.mk None (Some (Pipeline.source p0))
                 (Some (Pipeline._parameters p0)) step_specs)
  end end end end end end end end.

(** [compile] computes [compile_pure]. *)
Lemma compile_exact s pipeline stack config :
  well_formed s pipeline →
  (Compiler.compile key_resolves default_merge list_of_set
     get_run_environment_dict pipeline stack config s).2
  = compile_pure s pipeline stack config.
Proof.
  intros (p0 & Hp0 & Hnd & Hexist).
  unfold compile_pure. rewrite Hp0. unfold Compiler.compile.
  (* the pipeline is read and the compilation is logged *)
  unfold bind at 1, read_pipeline. rewrite Hp0. simpl.
  rewrite bind_logger.
  (* the deep copy *)
  match goal with |- context [bind (deepcopy_pipeline pipeline) _ ?s1] =>
    pose proof (deepcopy_pipeline_spec s pipeline s1 (conj eq_refl eq_refl))
      as Hcopy;
    pose proof (deepcopy_pipeline_memo s pipeline s1 (conj eq_refl eq_refl))
      as Hmemo;
    destruct (deepcopy_pipeline pipeline s1) as [s2 [pipeline'|e]] eqn:Hrun
  end.
  2: { destruct Hcopy as [_ Hdangling]. destruct Hdangling. by exists p0. }
  rewrite (bind_Ok _ _ _ _ _ Hrun). clear Hrun.
  destruct Hcopy as (p0' & invocations & Hp0' & Hw). simplify_eq.
  destruct Hmemo as (p0' & p' & memo & Hp0' & Hp' & Hcopies & Hmemo & Hinj).
  simplify_eq.
  rewrite (proj1 (proj2 (proj2 Hw))) in Hp'. injection Hp' as <-.
  cbn [Pipeline.invocations set_pipeline_configuration set_invocations]
    in Hcopies.
  pose proof (copy_of_same_entry _ _ _ _ (proj2 (proj2 (proj2 Hw)))) as Hsame.
  assert (configured s p0 memo (λ _ k, k) s2) as Hc2.
  { intros l0 l' Hl HD.
    apply list_elem_of_fmap in HD as (o & -> & Ho).
    apply list_elem_of_fmap in Ho as ([n o'] & -> & Ho).
    destruct (Hexist _ _ Ho) as [b0 Hb0]. exists b0. split; [done|].
    destruct (Hmemo _ _ Hl) as (_ & b & Hb & Hbb0).
    rewrite Hb, (Hbb0 b0 Hb0). by destruct b0. }
  (* the run configuration *)
  pose proof (apply_run_configuration_spec default_merge s p0 pipeline'
                invocations (Pipeline.configuration p0) config s2 Hw) as Hrc.
  pose proof (apply_run_configuration_exact default_merge s p0 pipeline'
                invocations memo Hcopies (proj2 Hinj) (λ _ k, k)
                (Pipeline.configuration p0) config s2 (conj Hw Hc2)) as Hrc'.
  destruct (Compiler._apply_run_configuration default_merge pipeline' config s2)
    as [s3 [[]|e]] eqn:Hrun.
  2: { rewrite (bind_Raise _ _ _ _ _ Hrun).
       destruct Hrc as (Hw3 & name & Hname & ->).
       unfold first_unknown_step in *.
       by rewrite <- (same_entry_keys _ _ Hsame), Hname. }
  rewrite (bind_Ok _ _ _ _ _ Hrun). clear Hrun.
  destruct Hrc as (Hw3 & Hknown & _).
  unfold first_unknown_step in Hknown.
  rewrite (same_entry_keys _ _ Hsame) in Hknown.
  fold (first_unknown_step config (Pipeline.invocations p0)) in Hknown.
  rewrite Hknown.
  change (configured s p0 memo
            (run_configured default_merge (Pipeline.invocations p0) config)
            s3) in Hrc'.
  (* the defaults of the stack *)
  pose proof (apply_stack_default_settings_spec s p0 pipeline' invocations _
                stack s3 Hw3) as Hsd.
  pose proof (apply_stack_default_settings_steps pipeline' stack s3) as Hsd'.
  destruct (Compiler._apply_stack_default_settings pipeline' stack s3)
    as [s4 [[]|e]] eqn:Hrun; [|done].
  rewrite (bind_Ok _ _ _ _ _ Hrun). clear Hrun. simpl in Hsd'.
  fold (prepared_configuration default_merge p0 config stack) in Hsd.
  pose proof (configured_steps _ _ _ _ _ _ Hsd' Hrc') as Hc4.
  (* the run name *)
  rewrite bind_run_name_check.
  destruct (run_name_check config) as [[]|e] eqn:Hname; [|done].
  (* the settings of the pipeline *)
  erewrite bind_Ok; [|by eapply working_read]. cbn beta. cbn zeta.
  rewrite bind_filter.
  repeat match goal with
  | |- context [validate key_resolves PIPELINE stack [] ?x] =>
      progress change x
        with (PipelineConfiguration.settings
                (prepared_configuration default_merge p0 config stack))
  end.
  destruct (validate key_resolves PIPELINE stack []
              (PipelineConfiguration.settings
                 (prepared_configuration default_merge p0 config stack)))
    as [records [validated|e]] eqn:Hvalid; cbn [fst snd]; [|done].
  match goal with |- context [bind (Pipeline_configure _ _ _) _ ?s5] =>
    pose proof (configure_settings_spec s p0 pipeline' invocations _
                  validated s5 Hsd) as Hcs;
    pose proof (configure_settings_steps pipeline' validated s5) as Hcs';
    destruct (Pipeline_configure pipeline'
                (PipelineConfigurationUpdate.mk None None None
                   (Some validated) None) false s5)
      as [s6 [[]|e]] eqn:Hrun; [|done]
  end.
  rewrite (bind_Ok _ _ _ _ _ Hrun). clear Hrun. simpl in Hcs'.
  pose proof (configured_steps _ _ _ _ _ _ Hcs' Hc4) as Hc6.
  set (c3 := set_settings
               (prepared_configuration default_merge p0 config stack)
               validated) in *.
  (* the invocations are sorted *)
  pose proof (get_sorted_invocations_readonly list_of_set pipeline' s6) as Hro.
  pose proof (get_sorted_invocations_outcome list_of_set pipeline' _ s6
                (proj1 (proj2 (proj2 Hcs))) ) as Hout.
  cbn [Pipeline.invocations set_pipeline_configuration set_invocations]
    in Hout.
  rewrite (same_entry_keys _ _ Hsame), (same_entry_verify_all _ _ _ Hsame),
    (same_entry_sorted_step_names _ _ _ Hsame) in Hout.
  specialize (Hout Hnd).
  destruct (Compiler._get_sorted_invocations list_of_set pipeline' s6)
    as [s7 [sorted|e]] eqn:Hrun.
  2: { rewrite (bind_Raise _ _ _ _ _ Hrun). cbn [snd].
       destruct (verify_all _ (Pipeline.invocations p0)) as [[]|e'];
         [by rewrite Hout | by subst]. }
  rewrite (bind_Ok _ _ _ _ _ Hrun). clear Hrun.
  destruct Hro as [-> Hsorted].
  specialize (Hsorted _ (proj1 (proj2 (proj2 Hcs)))).
  cbn [Pipeline.invocations set_pipeline_configuration set_invocations]
    in Hsorted.
  destruct Hout as [Hclosed Hnames].
  apply (same_entry_upstream_closed _ _ Hsame) in Hclosed.
  rewrite (proj1 (upstream_closed_verify_all _) Hclosed), Hnames.
  (* the steps are compiled *)
  pose proof (compile_steps_exact key_resolves list_of_set s p0 pipeline'
                invocations memo Hcopies
                (run_configured default_merge (Pipeline.invocations p0)
                   config)
                c3 stack
                (filter (λ kv, STEP ∈ BaseSettings.LEVEL kv.2) validated)
                sorted Hsorted s6 (conj Hcs Hc6)) as Hsteps.
  match type of Hsteps with match ?m with _ => _ end =>
    destruct m as [s8 [compiled|e]] eqn:Hrun
  end.
  2: { rewrite (bind_Raise _ _ _ _ _ Hrun). cbn [snd]. by rewrite Hsteps. }
  rewrite (bind_Ok _ _ _ _ _ Hrun). clear Hrun.
  destruct Hsteps as [Hw8 ->].
  (* the stack has what the steps require *)
  rewrite bind_lift.
  destruct (Compiler._ensure_required_stack_components_exist stack
              (Dict.of_items compiled)) as [[]|e] eqn:Hens; [|done].
  (* the deployment and the spec *)
  erewrite bind_Ok; [|by eapply working_read]. simpl.
  erewrite bind_Ok.
  2: { apply compute_pipeline_spec_run. apply Hw8. }
  rewrite !bind_logger. simpl. done.
Qed.

(** The log that [compile] leaves when it returns: the records of the
    validation of the settings of the pipeline, and those of the
    validation of the settings of every step. *)
Lemma compile_logged s pipeline stack config p0 :
  (∀ X, list_of_set X ≡ₚ elements X) →
  well_formed s pipeline →
  pipelines s !! pipeline = Some p0 →
  is_Ok (Compiler.compile key_resolves default_merge list_of_set
           get_run_environment_dict pipeline stack config s).2 →
  (∀ r,
     r ∈ (validate key_resolves PIPELINE stack []
            (PipelineConfiguration.settings
               (prepared_configuration default_merge p0 config stack))).1 →
     r ∈ log (Compiler.compile key_resolves default_merge list_of_set
                get_run_environment_dict pipeline stack config s).1)
  ∧ ∀ name invocation b,
      Dict.get (Pipeline.invocations p0) name = Some invocation →
      steps s !! StepInvocation.step invocation = Some b →
      ∀ r,
        r ∈ (validate key_resolves STEP stack []
               (StepConfiguration.settings
                  (run_configured default_merge (Pipeline.invocations p0)
                     config (StepInvocation.step invocation)
                     (BaseStep.configuration b)))).1 →
        r ∈ log (Compiler.compile key_resolves default_merge list_of_set
                   get_run_environment_dict pipeline stack config s).1.
Proof.
  intros Hperm (p0' & Hp0' & Hnd & Hexist) Hp0.
  rewrite Hp0 in Hp0'. injection Hp0' as <-.
  set (logged := λ out : State * res (PipelineDeploymentBaseModel.t
                                      * PipelineSpec.t),
         (∀ r,
            r ∈ (validate key_resolves PIPELINE stack []
                   (PipelineConfiguration.settings
                      (prepared_configuration default_merge p0 config
                         stack))).1 →
            r ∈ log out.1)
         ∧ ∀ name invocation b,
             Dict.get (Pipeline.invocations p0) name = Some invocation →
             steps s !! StepInvocation.step invocation = Some b →
             ∀ r,
               r ∈ (validate key_resolves STEP stack []
                      (StepConfiguration.settings
                         (run_configured default_merge
                            (Pipeline.invocations p0) config
                            (StepInvocation.step invocation)
                            (BaseStep.configuration b)))).1 →
               r ∈ log out.1).
  enough (∀ out,
            Compiler.compile key_resolves default_merge list_of_set
              get_run_environment_dict pipeline stack config s = out →
            is_Ok out.2 → logged out) as Hall.
  { intros Hok. exact (Hall _ eq_refl Hok). }
  intros out. unfold Compiler.compile.
  (* the pipeline is read and the compilation is logged *)
  unfold bind at 1, read_pipeline. rewrite Hp0. simpl.
  rewrite bind_logger.
  (* the deep copy *)
  match goal with |- context [bind (deepcopy_pipeline pipeline) _ ?s1] =>
    pose proof (deepcopy_pipeline_spec s pipeline s1 (conj eq_refl eq_refl))
      as Hcopy;
    pose proof (deepcopy_pipeline_memo s pipeline s1 (conj eq_refl eq_refl))
      as Hmemo;
    destruct (deepcopy_pipeline pipeline s1) as [s2 [pipeline'|e]] eqn:Hrun
  end.
  2: { destruct Hcopy as [_ Hdangling]. destruct Hdangling. by exists p0. }
  rewrite (bind_Ok _ _ _ _ _ Hrun). clear Hrun.
  destruct Hcopy as (p0' & invocations & Hp0' & Hw). simplify_eq.
  destruct Hmemo as (p0' & p' & memo & Hp0' & Hp' & Hcopies & Hmemo & Hinj).
  simplify_eq.
  rewrite (proj1 (proj2 (proj2 Hw))) in Hp'. injection Hp' as <-.
  cbn [Pipeline.invocations set_pipeline_configuration set_invocations]
    in Hcopies.
  pose proof (copy_of_same_entry _ _ _ _ (proj2 (proj2 (proj2 Hw)))) as Hsame.
  assert (configured s p0 memo (λ _ k, k) s2) as Hc2.
  { intros l0 l' Hl HD.
    apply list_elem_of_fmap in HD as (o & -> & Ho).
    apply list_elem_of_fmap in Ho as ([n o'] & -> & Ho).
    destruct (Hexist _ _ Ho) as [b0 Hb0]. exists b0. split; [done|].
    destruct (Hmemo _ _ Hl) as (_ & b & Hb & Hbb0).
    rewrite Hb, (Hbb0 b0 Hb0). by destruct b0. }
  (* the run configuration *)
  pose proof (apply_run_configuration_spec default_merge s p0 pipeline'
                invocations (Pipeline.configuration p0) config s2 Hw) as Hrc.
  pose proof (apply_run_configuration_exact default_merge s p0 pipeline'
                invocations memo Hcopies (proj2 Hinj) (λ _ k, k)
                (Pipeline.configuration p0) config s2 (conj Hw Hc2)) as Hrc'.
  destruct (Compiler._apply_run_configuration default_merge pipeline' config s2)
    as [s3 [[]|e]] eqn:Hrun.
  2: { rewrite (bind_Raise _ _ _ _ _ Hrun). by intros <- []. }
  rewrite (bind_Ok _ _ _ _ _ Hrun). clear Hrun.
  destruct Hrc as (Hw3 & Hknown & _).
  change (configured s p0 memo
            (run_configured default_merge (Pipeline.invocations p0) config)
            s3) in Hrc'.
  (* the defaults of the stack *)
  pose proof (apply_stack_default_settings_spec s p0 pipeline' invocations _
                stack s3 Hw3) as Hsd.
  pose proof (apply_stack_default_settings_steps pipeline' stack s3) as Hsd'.
  destruct (Compiler._apply_stack_default_settings pipeline' stack s3)
    as [s4 [[]|e]] eqn:Hrun; [|done].
  rewrite (bind_Ok _ _ _ _ _ Hrun). clear Hrun. simpl in Hsd'.
  fold (prepared_configuration default_merge p0 config stack) in Hsd.
  pose proof (configured_steps _ _ _ _ _ _ Hsd' Hrc') as Hc4.
  (* the run name *)
  rewrite bind_run_name_check.
  destruct (run_name_check config) as [[]|e] eqn:Hname; [|by intros <- []].
  (* the settings of the pipeline *)
  erewrite bind_Ok; [|by eapply working_read]. cbn beta. cbn zeta.
  rewrite bind_filter.
  repeat match goal with
  | |- context [validate key_resolves PIPELINE stack [] ?x] =>
      progress change x
        with (PipelineConfiguration.settings
                (prepared_configuration default_merge p0 config stack))
  end.
  destruct (validate key_resolves PIPELINE stack []
              (PipelineConfiguration.settings
                 (prepared_configuration default_merge p0 config stack)))
    as [records [validated|e]] eqn:Hvalid; cbn [fst snd];
    [|by intros <- []].
  match goal with |- context [bind (Pipeline_configure _ _ _) _ ?s5] =>
    pose proof (configure_settings_spec s p0 pipeline' invocations _
                  validated s5 Hsd) as Hcs;
    pose proof (configure_settings_steps pipeline' validated s5) as Hcs';
    pose proof (Pipeline_configure_run pipeline'
                  (PipelineConfigurationUpdate.mk None None None
                     (Some validated) None) false _ s5
                  (proj1 (proj2 (proj2 Hsd)))) as Hlog;
    destruct (Pipeline_configure pipeline'
                (PipelineConfigurationUpdate.mk None None None
                   (Some validated) None) false s5)
      as [s6 [[]|e]] eqn:Hrun; [|done]
  end.
  rewrite (bind_Ok _ _ _ _ _ Hrun). clear Hrun. simpl in Hcs'.
  injection Hlog as Hlog. apply (f_equal log) in Hlog.
  cbn [log with_log with_pipelines] in Hlog.
  pose proof (configured_steps _ _ _ _ _ _ Hcs' Hc4) as Hc6.
  set (c3 := set_settings
               (prepared_configuration default_merge p0 config stack)
               validated) in *.
  (* the invocations are sorted *)
  pose proof (get_sorted_invocations_readonly list_of_set pipeline' s6) as Hro.
  pose proof (get_sorted_invocations_outcome list_of_set pipeline' _ s6
                (proj1 (proj2 (proj2 Hcs))) ) as Hout.
  cbn [Pipeline.invocations set_pipeline_configuration set_invocations]
    in Hout.
  rewrite (same_entry_keys _ _ Hsame), (same_entry_verify_all _ _ _ Hsame),
    (same_entry_sorted_step_names _ _ _ Hsame) in Hout.
  specialize (Hout Hnd).
  destruct (Compiler._get_sorted_invocations list_of_set pipeline' s6)
    as [s7 [sorted|e]] eqn:Hrun.
  2: { rewrite (bind_Raise _ _ _ _ _ Hrun). by intros <- []. }
  rewrite (bind_Ok _ _ _ _ _ Hrun). clear Hrun.
  destruct Hro as [-> Hsorted].
  specialize (Hsorted _ (proj1 (proj2 (proj2 Hcs)))).
  cbn [Pipeline.invocations set_pipeline_configuration set_invocations]
    in Hsorted.
  destruct Hout as [Hclosed Hnames].
  (* the steps are compiled *)
  pose proof (compile_steps_logged key_resolves list_of_set s p0 pipeline'
                invocations memo Hcopies
                (run_configured default_merge (Pipeline.invocations p0)
                   config)
                c3 stack
                (filter (λ kv, STEP ∈ BaseSettings.LEVEL kv.2) validated)
                sorted Hsorted s6) as Hsteps.
  pose proof (compile_steps_exact key_resolves list_of_set s p0 pipeline'
                invocations memo Hcopies
                (run_configured default_merge (Pipeline.invocations p0)
                   config)
                c3 stack
                (filter (λ kv, STEP ∈ BaseSettings.LEVEL kv.2) validated)
                sorted Hsorted s6 (conj Hcs Hc6)) as Hexact.
  match type of Hexact with match ?m with _ => _ end =>
    destruct m as [s8 [compiled|e]] eqn:Hrun
  end.
  2: { rewrite (bind_Raise _ _ _ _ _ Hrun). by intros <- []. }
  rewrite (bind_Ok _ _ _ _ _ Hrun).
  destruct Hexact as [Hw8 _].
  destruct (Hsteps s8 compiled Hcs Hc6 eq_refl) as [Hprefix Hlogged].
  clear Hrun Hsteps.
  (* the stack has what the steps require *)
  rewrite bind_lift.
  destruct (Compiler._ensure_required_stack_components_exist stack
              (Dict.of_items compiled)) as [[]|e] eqn:Hens;
    [|by intros <- []].
  (* the deployment and the spec *)
  erewrite bind_Ok; [|by eapply working_read]. simpl.
  erewrite bind_Ok.
  2: { apply compute_pipeline_spec_run. apply Hw8. }
  rewrite !bind_logger. intros <- _. unfold logged. unfold ret. cbn [fst log].
  pose proof (sorted_step_names_Ok list_of_set Hperm _ _ Hnd Hnames)
    as [Hall _].
  split.
  - intros r Hr. rewrite !elem_of_app. do 2 left.
    destruct Hprefix as [more ->]. rewrite Hlog. set_solver.
  - intros name invocation b Hget Hb r Hr.
    rewrite !elem_of_app. do 2 left.
    apply (Hlogged name invocation b); [|done..].
    rewrite Hall. apply list_elem_of_fmap. exists (name, invocation).
    split; [done|]. by apply Dict.get_Some_elem.
Qed.


End exact.

(** The result is the same in a store that holds more objects, and it
    is the same however the sets of step names are enumerated. *)
Lemma compile_pure_invariant key_resolves default_merge
    (list_of_set list_of_set' : gset string → list string)
    get_run_environment_dict s s' pipeline stack config :
  (∀ X, list_of_set X ≡ₚ elements X) →
  (∀ X, list_of_set' X ≡ₚ elements X) →
  well_formed s pipeline →
  frame s s' →
  compile_pure key_resolves default_merge list_of_set'
    get_run_environment_dict s' pipeline stack config
  = compile_pure key_resolves default_merge list_of_set
      get_run_environment_dict s pipeline stack config.
Proof.
  intros Hperm Hperm' (p0 & Hp0 & Hnd & Hexist) [Hfp Hfs].
  unfold compile_pure. rewrite Hp0, (lookup_weaken _ _ _ _ Hp0 Hfp).
  destruct (first_unknown_step config (Pipeline.invocations p0)); [done|].
  destruct (run_name_check config); [|done]. cbn zeta.
  destruct (validate key_resolves PIPELINE stack [] _).2 as [validated|];
    [|done].
  destruct (verify_all _ (Pipeline.invocations p0)); [|done].
  rewrite (sorted_step_names_ext list_of_set' list_of_set) by done.
  destruct (sorted_step_names list_of_set (Pipeline.invocations p0))
    as [names|]; [|done].
  rewrite (mapM_res_ext
             (compile_named key_resolves list_of_set'
                (run_configured default_merge (Pipeline.invocations p0)
                   config)
                s' p0 stack
                (set_settings
                   (prepared_configuration default_merge p0 config stack)
                   validated)
                (filter (λ kv, STEP ∈ BaseSettings.LEVEL kv.2) validated))
             (compile_named key_resolves list_of_set
                (run_configured default_merge (Pipeline.invocations p0)
                   config)
                s p0 stack
                (set_settings
                   (prepared_configuration default_merge p0 config stack)
                   validated)
                (filter (λ kv, STEP ∈ BaseSettings.LEVEL kv.2) validated))
             names); [done|].
  intros name _. unfold compile_named.
  destruct (Dict.get (Pipeline.invocations p0) name) as [i|] eqn:Hget;
    [|done].
  destruct (Hexist name i (Dict.get_Some_elem _ _ _ Hget)) as [b0 Hb0].
  rewrite Hb0, (lookup_weaken _ _ _ _ Hb0 Hfs).
  by rewrite (step_spec_of_ext list_of_set' list_of_set).
Qed.

Lemma well_formed_frame s s' pipeline :
  well_formed s pipeline → frame s s' → well_formed s' pipeline.
Proof.
  intros (p0 & Hp0 & Hnd & Hexist) [Hfp Hfs]. exists p0. split_and!.
  - by apply (lookup_weaken _ _ _ _ Hp0).
  - done.
  - intros name invocation Hin. destruct (Hexist name invocation Hin) as [b Hb].
    exists b. by apply (lookup_weaken _ _ _ _ Hb).
Qed.

(** * Settings under a key that does not resolve

    Entries of a settings dictionary whose key the stack does not resolve
    are skipped by the validation. What follows compares a compilation
    with the compilation of the same objects after the entries under such
    a key have been taken out, and follows the log of a compilation. *)

(** ** Merged and filtered dictionaries *)

Lemma get_merge_with {V} (f : V → V → V) (d upd : Dict.t V) k :
  NoDup (Dict.keys upd) →
  Dict.get (Dict.merge_with f d upd) k
  = match Dict.get upd k with
    | Some new =>
        Some (match Dict.get d k with Some old => f old new | None => new end)
    | None => Dict.get d k
    end.
Proof.
  unfold Dict.merge_with, Dict.keys. revert d.
  induction upd as [|[k0 v0] upd IH]; intros d Hnd; [done|].
  rewrite fmap_cons in Hnd. apply NoDup_cons in Hnd as [Hk0 Hnd].
  cbn [foldl fst snd]. rewrite (IH _ Hnd). cbn [Dict.get].
  destruct (decide (k0 = k)) as [->|Hne].
  - assert (Dict.get upd k = None) as -> by (by apply Dict.get_None).
    destruct (Dict.get d k); rewrite Dict.get_set; by rewrite decide_True.
  - destruct (Dict.get d k0); rewrite Dict.get_set;
      by rewrite decide_False.
Qed.

Lemma NoDup_keys_merge_with {V} (f : V → V → V) (d upd : Dict.t V) :
  NoDup (Dict.keys d) → NoDup (Dict.keys (Dict.merge_with f d upd)).
Proof.
  unfold Dict.merge_with. revert d.
  induction upd as [|[k0 v0] upd IH]; intros d Hnd; [done|].
  cbn [foldl fst snd]. apply IH.
  destruct (Dict.get d k0); by apply Dict.NoDup_keys_set.
Qed.

Lemma get_filter {V} (P : string * V → Prop) `{∀ x, Decision (P x)}
    (d : Dict.t V) k v :
  Dict.get d k = Some v → P (k, v) → Dict.get (filter P d) k = Some v.
Proof.
  unfold Dict.t in *. induction d as [|[k' v'] d IH]; [done|].
  cbn [Dict.get]. case_decide as Hk.
  - intros [= ->] HP. subst k'. rewrite filter_cons_True by done.
    cbn [Dict.get]. by rewrite decide_True.
  - intros Hget HP. rewrite filter_cons. case_decide; [|by apply IH].
    cbn [Dict.get]. rewrite decide_False by done. by apply IH.
Qed.

Lemma mapM_res_elem {A B} (f : A → res B) (l : list A) ys y :
  mapM_res f l = Ok ys → y ∈ ys → ∃ x, x ∈ l ∧ f x = Ok y.
Proof.
  revert ys. induction l as [|x l IH]; intros ys; cbn [mapM_res].
  - intros [= <-] Hy. by apply elem_of_nil in Hy.
  - destruct (f x) as [y'|] eqn:Hx; [|done].
    destruct (mapM_res f l) as [ys'|]; [|done].
    intros [= <-] [->|Hy]%elem_of_cons.
    + exists x. split; [apply list_elem_of_here | done].
    + destruct (IH ys' eq_refl Hy) as (x' & Hin & Hx').
      exists x'. split; [by apply list_elem_of_further | done].
Qed.

Lemma validate_NoDup (key_resolves : Stack.t → string → bool) level stack
    items :
  ∀ validated validated',
    NoDup (Dict.keys validated) →
    (validate key_resolves level stack validated items).2 = Ok validated' →
    NoDup (Dict.keys validated').
Proof.
  induction items as [|[k i] items IH]; intros validated validated' Hnd;
    cbn [validate].
  - by intros [= <-].
  - destruct (key_resolves stack k).
    + case_decide; [|done]. apply IH. by apply Dict.NoDup_keys_set.
    + specialize (IH validated validated' Hnd).
      by destruct (validate key_resolves level stack validated items).
Qed.

(** What the loop of [_apply_stack_default_settings] does with one
    component. *)
Definition with_component_defaults
    (pipeline_settings : Dict.t BaseSettings.t)
    (component : StackComponent.t) : Dict.t BaseSettings.t :=
  match StackComponent.settings_class component with
  | None => pipeline_settings
  | Some settings_class =>
      let settings_key := get_stack_component_setting_key component in
      let default_settings :=
        Compiler._get_default_settings component settings_class in
      match Dict.get pipeline_settings settings_key with
      | Some existing =>
          Dict.set pipeline_settings settings_key
            (update_model default_settings existing)
      | None => Dict.set pipeline_settings settings_key default_settings
      end
  end.

Lemma with_stack_defaults_fold stack pipeline_settings :
  with_stack_defaults stack pipeline_settings
  = foldl with_component_defaults pipeline_settings
      (Dict.values (Stack.components stack)).
Proof. done. Qed.

Lemma with_component_defaults_get settings component key :
  Dict.get (with_component_defaults settings component) key
  = match StackComponent.settings_class component with
    | Some settings_class =>
        if decide (get_stack_component_setting_key component = key)
        then Some (match Dict.get settings key with
                   | Some existing =>
                       update_model
                         (Compiler._get_default_settings component
                            settings_class)
                         existing
                   | None =>
                       Compiler._get_default_settings component
                         settings_class
                   end)
        else Dict.get settings key
    | None => Dict.get settings key
    end.
Proof.
  unfold with_component_defaults.
  destruct (StackComponent.settings_class component) as [cls|]; [|done].
  cbn zeta.
  destruct (Dict.get settings (get_stack_component_setting_key component))
    eqn:Hget; rewrite Dict.get_set; case_decide; subst; by rewrite ?Hget.
Qed.

Lemma get_filter_None {V} (P : string * V → Prop) `{∀ x, Decision (P x)}
    (d : Dict.t V) k :
  Dict.get d k = None → Dict.get (filter P d) k = None.
Proof.
  rewrite !Dict.get_None. unfold Dict.keys. intros Hk Hin. apply Hk.
  apply list_elem_of_fmap in Hin as (kv & -> & Hin).
  apply list_elem_of_filter in Hin as [_ Hin].
  apply list_elem_of_fmap. by exists kv.
Qed.

(** The dictionary without the entries under [key]. *)
Definition without_key {V} (key : string) (d : Dict.t V) : Dict.t V :=
  filter (λ kv, kv.1 ≠ key) d.

Lemma get_without_key {V} key (d : Dict.t V) k :
  k ≠ key → Dict.get (without_key key d) k = Dict.get d k.
Proof.
  intros Hk. unfold without_key, Dict.t in *.
  induction d as [|[k' v'] d IH]; [done|].
  rewrite filter_cons. cbn [fst Dict.get].
  destruct (decide (k' = k)) as [->|Hne].
  - rewrite decide_True by done. cbn [Dict.get]. by rewrite decide_True.
  - case_decide; [|done]. cbn [Dict.get]. by rewrite decide_False.
Qed.

Lemma without_key_set {V} key (d : Dict.t V) k v :
  k ≠ key →
  without_key key (Dict.set d k v) = Dict.set (without_key key d) k v.
Proof.
  intros Hk. unfold without_key, Dict.t in *.
  induction d as [|[k' v'] d IH]; cbn [Dict.set].
  - by rewrite filter_cons_True.
  - destruct (decide (k' = k)) as [->|Hne].
    + rewrite !filter_cons_True by done. cbn [Dict.set].
      by rewrite decide_True.
    + rewrite !filter_cons. cbn [fst]. case_decide; [|done].
      cbn [Dict.set]. rewrite decide_False by done. by rewrite IH.
Qed.

Lemma without_key_set_key {V} key (d : Dict.t V) v :
  without_key key (Dict.set d key v) = without_key key d.
Proof.
  unfold without_key, Dict.t in *.
  induction d as [|[k' v'] d IH]; cbn [Dict.set].
  - by rewrite filter_cons_False by (simpl; auto).
  - destruct (decide (k' = key)) as [->|Hne].
    + by rewrite !filter_cons_False by (simpl; auto).
    + rewrite !filter_cons_True by done. by rewrite IH.
Qed.

Lemma without_key_merge_with {V} key (f : V → V → V) (d upd : Dict.t V) :
  without_key key (Dict.merge_with f d upd)
  = Dict.merge_with f (without_key key d) (without_key key upd).
Proof.
  unfold Dict.merge_with. revert d.
  induction upd as [|[k v] upd IH]; intros d; [done|].
  cbn [foldl fst snd]. rewrite IH.
  destruct (decide (k = key)) as [->|Hne].
  - unfold without_key at 4. unfold Dict.t in *.
    rewrite filter_cons_False by (simpl; auto).
    by destruct (Dict.get d key); rewrite without_key_set_key.
  - unfold without_key at 4. unfold Dict.t in *.
    rewrite filter_cons_True by done. cbn [foldl fst snd].
    rewrite (get_without_key key d k Hne).
    by destruct (Dict.get d k); rewrite without_key_set.
Qed.

Lemma without_key_merge_settings key merge old update :
  without_key key (merge_settings merge old update)
  = merge_settings merge (without_key key old) (without_key key <$> update).
Proof.
  destruct update as [new|]; [|done]. destruct merge; [|done].
  apply without_key_merge_with.
Qed.

Lemma without_key_with_stack_defaults key stack settings settings' :
  without_key key settings = without_key key settings' →
  without_key key (with_stack_defaults stack settings)
  = without_key key (with_stack_defaults stack settings').
Proof.
  rewrite !with_stack_defaults_fold.
  generalize (Dict.values (Stack.components stack)) as components.
  intros components. revert settings settings'.
  induction components as [|c components IH]; intros d d' Heq; [done|].
  cbn [foldl]. apply IH. unfold with_component_defaults.
  destruct (StackComponent.settings_class c) as [cls|]; [|done].
  cbn zeta.
  destruct (decide (get_stack_component_setting_key c = key)) as [Hk|Hk].
  - rewrite Hk.
    destruct (Dict.get d key), (Dict.get d' key);
      by rewrite !without_key_set_key.
  - rewrite <- (get_without_key key d _ Hk), <- (get_without_key key d' _ Hk).
    rewrite Heq.
    destruct (Dict.get (without_key key d')
                (get_stack_component_setting_key c));
      by rewrite !without_key_set, Heq.
Qed.

Lemma without_key_idemp {V} key (d : Dict.t V) :
  without_key key (without_key key d) = without_key key d.
Proof.
  unfold without_key, Dict.t in *. induction d as [|[k v] d IH]; [done|].
  rewrite filter_cons. case_decide; [|done].
  rewrite filter_cons_True by done. by rewrite IH.
Qed.

Lemma NoDup_with_stack_defaults stack settings :
  NoDup (Dict.keys settings) →
  NoDup (Dict.keys (with_stack_defaults stack settings)).
Proof.
  rewrite with_stack_defaults_fold.
  generalize (Dict.values (Stack.components stack)) as components.
  intros components. revert settings.
  induction components as [|c components IH]; intros d Hnd; [done|].
  cbn [foldl]. apply IH. unfold with_component_defaults.
  destruct (StackComponent.settings_class c); [|done]. cbn zeta.
  destruct (Dict.get d _); by apply Dict.NoDup_keys_set.
Qed.

(** ** The validation and the keys that do not resolve *)

Section unresolved.

Context (key_resolves : Stack.t → string → bool).

(** The outcome of the validation is that of the settings without the
    entries under a key that does not resolve. *)
Lemma validate_without_key level stack key items :
  key_resolves stack key = false →
  ∀ validated,
    (validate key_resolves level stack validated items).2
    = (validate key_resolves level stack validated
         (without_key key items)).2.
Proof.
  intros Hkey. unfold without_key, Dict.t in *.
  induction items as [|[k i] items IH]; intros validated; [done|].
  rewrite filter_cons. cbn [fst]. case_decide as Hk.
  - cbn [validate]. destruct (key_resolves stack k).
    + case_decide; [apply IH | done].
    + specialize (IH validated).
      destruct (validate key_resolves level stack validated items).
      by destruct (validate key_resolves level stack validated
                     (filter _ items)).
  - subst k. cbn [validate]. rewrite Hkey.
    specialize (IH validated).
    by destruct (validate key_resolves level stack validated items).
Qed.

(** What a validation that passes returns: the entries whose key
    resolves. *)
Lemma validate_Ok_exact level stack items :
  ∀ validated validated',
    NoDup (Dict.keys (validated ++ items)) →
    (validate key_resolves level stack validated items).2 = Ok validated' →
    validated'
    = validated ++ filter (λ kv, key_resolves stack kv.1 = true) items.
Proof.
  unfold Dict.keys, Dict.t.
  induction items as [|[k i] items IH]; intros validated validated' Hnd.
  - cbn [validate snd]. intros [= <-]. by rewrite app_nil_r.
  - cbn [validate]. destruct (key_resolves stack k) eqn:Hk.
    + case_decide; [|done]. intros Hv.
      rewrite Dict.set_fresh in Hv.
      2: { unfold Dict.keys. rewrite fmap_app, fmap_cons in Hnd.
           apply NoDup_app in Hnd as (_ & Hnd & _).
           intros Hin. apply (Hnd k Hin). apply list_elem_of_here. }
      apply IH in Hv; [|by rewrite <- app_assoc].
      rewrite filter_cons_True by done. by rewrite Hv, <- app_assoc.
    + intros Hv. rewrite filter_cons_False by (simpl; congruence).
      apply IH.
      * rewrite fmap_app, fmap_cons in Hnd. rewrite fmap_app.
        apply NoDup_app in Hnd as (H1 & H2 & H3).
        apply NoDup_cons in H3 as [_ H3].
        apply NoDup_app. split_and!; [done | | done].
        intros x Hx Hin. apply (H2 x Hx). by apply list_elem_of_further.
      * by destruct (validate key_resolves level stack validated items).
Qed.

(** A validation that passes has logged the notice of every key that
    does not resolve. *)
Lemma validate_Ok_logged level stack key items :
  key_resolves stack key = false →
  key ∈ Dict.keys items →
  ∀ validated,
    is_Ok (validate key_resolves level stack validated items).2 →
    Info_not_including_settings key
    ∈ (validate key_resolves level stack validated items).1.
Proof.
  intros Hkey. unfold Dict.keys, Dict.t.
  induction items as [|[k i] items IH]; intros Hin validated;
    [by apply elem_of_nil in Hin|].
  rewrite fmap_cons in Hin. cbn [fst] in Hin. cbn [validate].
  destruct (decide (k = key)) as [->|Hne].
  - rewrite Hkey.
    destruct (validate key_resolves level stack validated items).
    intros _. apply list_elem_of_here.
  - apply elem_of_cons in Hin as [?|Hin]; [done|].
    destruct (key_resolves stack k).
    + case_decide; [by apply IH | done].
    + specialize (IH Hin validated).
      destruct (validate key_resolves level stack validated items).
      intros Hok. apply list_elem_of_further. by apply IH.
Qed.

Lemma validate_get level stack items validated key :
  NoDup (Dict.keys items) →
  (validate key_resolves level stack [] items).2 = Ok validated →
  key_resolves stack key = true →
  Dict.get validated key = Dict.get items key.
Proof.
  intros Hnd Hv Hkey.
  rewrite (validate_Ok_exact level stack items [] validated Hnd Hv).
  rewrite app_nil_l.
  destruct (Dict.get items key) as [inst|] eqn:Hget.
  - by apply (get_filter (λ kv, key_resolves stack kv.1 = true)).
  - by apply get_filter_None.
Qed.

End unresolved.

(** ** A store without the settings under a key *)

Definition step_configuration_without (key : string)
    (k : StepConfiguration.t) : StepConfiguration.t :=
  StepConfiguration.mk
    (StepConfiguration.enable_cache k)
    (StepConfiguration.enable_artifact_metadata k)
    (StepConfiguration.enable_artifact_visualization k)
    (StepConfiguration.step_operator k)
    (StepConfiguration.experiment_tracker k)
    (without_key key (StepConfiguration.settings k))
    (StepConfiguration.extra k)
    (StepConfiguration.failure_hook_source k)
    (StepConfiguration.success_hook_source k).

Definition step_update_without (key : string)
    (u : StepConfigurationUpdate.t) : StepConfigurationUpdate.t :=
  StepConfigurationUpdate.mk
    (StepConfigurationUpdate.enable_cache u)
    (StepConfigurationUpdate.enable_artifact_metadata u)
    (StepConfigurationUpdate.enable_artifact_visualization u)
    (StepConfigurationUpdate.step_operator u)
    (StepConfigurationUpdate.experiment_tracker u)
    (without_key key <$> StepConfigurationUpdate.settings u)
    (StepConfigurationUpdate.extra u)
    (StepConfigurationUpdate.failure_hook_source u)
    (StepConfigurationUpdate.success_hook_source u).

Definition step_without (key : string) (b : BaseStep.t) : BaseStep.t :=
  BaseStep.mk (BaseStep.source b)
    (step_configuration_without key (BaseStep.configuration b)).

Definition pipeline_without (key : string) (p : Pipeline.t) : Pipeline.t :=
  set_pipeline_configuration p
    (set_settings (Pipeline.configuration p)
       (without_key key
          (PipelineConfiguration.settings (Pipeline.configuration p)))).

(** The run configuration without the settings under [key], those of the
    pipeline and those of the entries for single steps. *)
Definition run_configuration_without (key : string)
    (config : PipelineRunConfiguration.t) : PipelineRunConfiguration.t :=
  PipelineRunConfiguration.mk
    (PipelineRunConfiguration.run_name config)
    (PipelineRunConfiguration.enable_cache config)
    (PipelineRunConfiguration.enable_artifact_metadata config)
    (PipelineRunConfiguration.enable_artifact_visualization config)
    ((λ entry, (entry.1, step_update_without key entry.2))
       <$> PipelineRunConfiguration.steps config)
    (without_key key (PipelineRunConfiguration.settings config))
    (PipelineRunConfiguration.extra config).

(** The store in which no pipeline and no step has settings under
    [key]. *)
Definition store_without (key : string) (s : State) : State :=
  mkState (pipeline_without key <$> pipelines s)
    (step_without key <$> steps s) (log s).

Lemma well_formed_without key s pipeline :
  well_formed s pipeline → well_formed (store_without key s) pipeline.
Proof.
  intros (p & Hp & Hnd & Hexist). exists (pipeline_without key p).
  split_and!.
  - cbn [store_without pipelines]. by rewrite lookup_fmap, Hp.
  - done.
  - intros name invocation Hin. destruct (Hexist name invocation Hin) as [b Hb].
    exists (step_without key b). cbn [store_without steps].
    by rewrite lookup_fmap, Hb.
Qed.

Lemma update_step_configuration_without key merge k u :
  update_step_configuration merge (step_configuration_without key k)
    (step_update_without key u)
  = step_configuration_without key (update_step_configuration merge k u).
Proof.
  unfold update_step_configuration, step_configuration_without.
  cbn [StepConfiguration.enable_cache
       StepConfiguration.enable_artifact_metadata
       StepConfiguration.enable_artifact_visualization
       StepConfiguration.step_operator StepConfiguration.experiment_tracker
       StepConfiguration.settings StepConfiguration.extra
       StepConfiguration.failure_hook_source
       StepConfiguration.success_hook_source step_update_without
       StepConfigurationUpdate.enable_cache
       StepConfigurationUpdate.enable_artifact_metadata
       StepConfigurationUpdate.enable_artifact_visualization
       StepConfigurationUpdate.step_operator
       StepConfigurationUpdate.experiment_tracker
       StepConfigurationUpdate.settings StepConfigurationUpdate.extra
       StepConfigurationUpdate.failure_hook_source
       StepConfigurationUpdate.success_hook_source].
  by rewrite without_key_merge_settings.
Qed.

Lemma boolean_updates_without key default_merge config k :
  boolean_updates default_merge (run_configuration_without key config)
    (step_configuration_without key k)
  = step_configuration_without key (boolean_updates default_merge config k).
Proof.
  unfold boolean_updates, override.
  cbn [run_configuration_without PipelineRunConfiguration.enable_cache
       PipelineRunConfiguration.enable_artifact_metadata
       PipelineRunConfiguration.enable_artifact_visualization].
  by destruct (PipelineRunConfiguration.enable_cache config),
    (PipelineRunConfiguration.enable_artifact_metadata config),
    (PipelineRunConfiguration.enable_artifact_visualization config).
Qed.

Lemma run_configured_without key default_merge invocations config l k :
  run_configured default_merge invocations
    (run_configuration_without key config) l
    (step_configuration_without key k)
  = step_configuration_without key
      (run_configured default_merge invocations config l k).
Proof.
  unfold run_configured. rewrite <- boolean_updates_without. f_equal.
  cbn [run_configuration_without PipelineRunConfiguration.steps].
  generalize (PipelineRunConfiguration.steps config) as entries.
  intros entries. revert k.
  induction entries as [|[n u] entries IH]; intros k; [done|].
  rewrite fmap_cons. cbn [foldl]. rewrite <- IH. f_equal.
  unfold step_update. cbn [fst snd]. case_decide; [|done].
  apply update_step_configuration_without.
Qed.

Lemma first_unknown_step_without key config invocations :
  first_unknown_step (run_configuration_without key config) invocations
  = first_unknown_step config invocations.
Proof.
  unfold first_unknown_step. do 2 f_equal.
  cbn [run_configuration_without PipelineRunConfiguration.steps].
  unfold Dict.keys. rewrite <- list_fmap_compose.
  apply list_fmap_ext. by intros i [n u] _.
Qed.

Section without.

Context (key_resolves : Stack.t → string → bool).
Context (default_merge : bool).
Context (list_of_set : gset string → list string).
Context (get_run_environment_dict : Dict.t string).

Lemma prepared_configuration_without key p config stack validated :
  set_settings
    (prepared_configuration default_merge (pipeline_without key p)
       (run_configuration_without key config) stack)
    validated
  = set_settings (prepared_configuration default_merge p config stack)
      validated.
Proof. done. Qed.

Lemma prepared_settings_without key p config stack :
  without_key key
    (PipelineConfiguration.settings
       (prepared_configuration default_merge (pipeline_without key p)
          (run_configuration_without key config) stack))
  = without_key key
      (PipelineConfiguration.settings
         (prepared_configuration default_merge p config stack)).
Proof.
  unfold prepared_configuration.
  cbn [set_settings PipelineConfiguration.settings
       update_pipeline_configuration run_update
       PipelineConfigurationUpdate.settings pipeline_without
       set_pipeline_configuration Pipeline.configuration
       run_configuration_without PipelineRunConfiguration.settings].
  apply without_key_with_stack_defaults.
  rewrite !without_key_merge_settings.
  cbn [fmap option_fmap option_map]. by rewrite !without_key_idemp.
Qed.

(** The outcome of a compilation is that of the compilation without the
    settings under a key that does not resolve. *)
Lemma compile_pure_without key s pipeline stack config :
  key_resolves stack key = false →
  compile_pure key_resolves default_merge list_of_set
    get_run_environment_dict (store_without key s) pipeline stack
    (run_configuration_without key config)
  = compile_pure key_resolves default_merge list_of_set
      get_run_environment_dict s pipeline stack config.
Proof.
  intros Hkey. unfold compile_pure.
  cbn [store_without pipelines]. rewrite lookup_fmap.
  destruct (pipelines s !! pipeline) as [p|]; [|done]. cbn [fmap option_fmap option_map].
  change (Pipeline.invocations (pipeline_without key p))
    with (Pipeline.invocations p).
  rewrite first_unknown_step_without.
  destruct (first_unknown_step config (Pipeline.invocations p)); [done|].
  change (run_name_check (run_configuration_without key config))
    with (run_name_check config).
  destruct (run_name_check config); [|done]. cbn zeta.
  rewrite (validate_without_key key_resolves PIPELINE stack key
             (PipelineConfiguration.settings
                (prepared_configuration default_merge
                   (pipeline_without key p)
                   (run_configuration_without key config) stack)) Hkey []).
  rewrite prepared_settings_without.
  rewrite <- (validate_without_key key_resolves PIPELINE stack key
                (PipelineConfiguration.settings
                   (prepared_configuration default_merge p config stack))
                Hkey []).
  destruct (validate key_resolves PIPELINE stack [] _).2 as [validated|];
    [|done].
  rewrite prepared_configuration_without.
  destruct (verify_all _ (Pipeline.invocations p)); [|done].
  destruct (sorted_step_names list_of_set (Pipeline.invocations p))
    as [names|]; [|done].
  rewrite (mapM_res_ext
             (compile_named key_resolves list_of_set
                (run_configured default_merge (Pipeline.invocations p)
                   (run_configuration_without key config))
                (store_without key s) (pipeline_without key p) stack
                (set_settings
                   (prepared_configuration default_merge p config stack)
                   validated)
                (filter (λ kv, STEP ∈ BaseSettings.LEVEL kv.2) validated))
             (compile_named key_resolves list_of_set
                (run_configured default_merge (Pipeline.invocations p)
                   config)
                s p stack
                (set_settings
                   (prepared_configuration default_merge p config stack)
                   validated)
                (filter (λ kv, STEP ∈ BaseSettings.LEVEL kv.2) validated))
             names); [done|].
  intros name _. unfold compile_named.
  change (Pipeline.invocations (pipeline_without key p))
    with (Pipeline.invocations p).
  destruct (Dict.get (Pipeline.invocations p) name) as [i|]; [|done].
  cbn [store_without steps]. rewrite lookup_fmap.
  destruct (steps s !! StepInvocation.step i) as [b|]; [|done].
  cbn [fmap option_fmap option_map]. cbn zeta.
  cbn [step_without BaseStep.configuration BaseStep.source].
  rewrite run_configured_without.
  cbn [step_configuration_without StepConfiguration.settings].
  rewrite <- (validate_without_key key_resolves STEP stack key _ Hkey []).
  by destruct (validate key_resolves STEP stack [] _).2.
Qed.

End without.

(** * The checks that [compile] makes before it sorts the invocations *)

(** The first invocation with a missing upstream step is the one that
    [_get_sorted_invocations] reports. *)
Lemma verify_all_Raise_first available_steps items e :
  verify_all available_steps items = Raise e →
  ∃ before name invocation after,
    items = before ++ (name, invocation) :: after
    ∧ (∀ n i, (n, i) ∈ before →
         StepInvocation.upstream_steps i ⊆ available_steps)
    ∧ StepInvocation.upstream_steps invocation ∖ available_steps ≠ ∅
    ∧ e = Exn RuntimeError
            (InvalidUpstreamSteps
               (StepInvocation.upstream_steps invocation ∖ available_steps)
               available_steps).
Proof.
  induction items as [|[n i] rest IH]; cbn [verify_all]; [done|].
  cbn zeta. case_decide as Hd.
  - intros (before & name & inv & after & -> & Hbefore & H)%IH.
    exists ((n, i) :: before), name, inv, after.
    split_and!; [done | | apply H..].
    intros n' i' [[= -> ->]|Hin]%elem_of_cons; [set_solver|].
    by apply (Hbefore n' i').
  - intros [= <-]. exists [], n, i, rest. split_and!; [done | | done..].
    intros n' i' Hin. by apply elem_of_nil in Hin.
Qed.

Section before_sorting.

Context (key_resolves : Stack.t → string → bool).
Context (default_merge : bool).
Context (list_of_set : gset string → list string).
Context (get_run_environment_dict : Dict.t string).

(** The error of the first of the checks that come before the sorting
    and that fails, if one does: a step of the run configuration that the
    pipeline does not have (in [_apply_run_configuration]), the run name
    (in [_verify_run_name]), and the levels of the settings of the
    pipeline (in [_filter_and_validate_settings]). *)
Definition failure_before_sorting (stack : Stack.t) (p : Pipeline.t)
    (config : PipelineRunConfiguration.t) : option exn :=
  match first_unknown_step config (Pipeline.invocations p) with
  | Some name => Some (Exn KeyError (NoStepWithName name))
  | None =>
      match run_name_check config with
      | Raise e => Some e
      | Ok _ =>
          match (validate key_resolves PIPELINE stack []
                   (PipelineConfiguration.settings
                      (prepared_configuration default_merge p config
                         stack))).2 with
          | Raise e => Some e
          | Ok _ => None
          end
      end
  end.

(** When the upstream steps or the layering of the invocations fail,
    [compile] raises the error of the first check that fails. *)
Lemma compile_graph_failure pipeline p stack config s e :
  pipelines s !! pipeline = Some p →
  NoDup (Dict.keys (Pipeline.invocations p)) →
  (∀ name invocation, (name, invocation) ∈ Pipeline.invocations p →
     is_Some (steps s !! StepInvocation.step invocation)) →
  (match verify_all (list_to_set (Dict.keys (Pipeline.invocations p)))
           (Pipeline.invocations p) with
   | Raise e' => e = e'
   | Ok _ => sorted_step_names list_of_set (Pipeline.invocations p) = Raise e
   end) →
  (Compiler.compile key_resolves default_merge list_of_set
     get_run_environment_dict pipeline stack config s).2
  = Raise (default e (failure_before_sorting stack p config)).
Proof.
  intros Hp Hnd Hsteps He.
  rewrite compile_exact by (by exists p).
  unfold compile_pure, failure_before_sorting. rewrite Hp.
  destruct (first_unknown_step config (Pipeline.invocations p)); [done|].
  destruct (run_name_check config); [|done]. cbn zeta.
  destruct (validate key_resolves PIPELINE stack [] _).2; [|done].
  cbn [default from_option]. 
  destruct (verify_all _ (Pipeline.invocations p)); [|by subst].
  by rewrite He.
Qed.

End before_sorting.


(** * What [compile] does with the settings *)

Lemma mapM_res_Raise {A B} (f : A → res B) (l : list A) e :
  mapM_res f l = Raise e → ∃ x, x ∈ l ∧ f x = Raise e.
Proof.
  induction l as [|x l IH]; cbn [mapM_res]; [done|].
  destruct (f x) as [y|e'] eqn:Hx.
  - destruct (mapM_res f l) as [ys|e'']; [done|]. intros [= ->].
    destruct (IH eq_refl) as (x' & Hin & Hx').
    exists x'. split; [by apply list_elem_of_further | done].
  - intros [= ->]. exists x. split; [apply list_elem_of_here | done].
Qed.

Lemma keys_with_stack_defaults stack settings k :
  k ∈ Dict.keys settings →
  k ∈ Dict.keys (with_stack_defaults stack settings).
Proof.
  rewrite with_stack_defaults_fold.
  generalize (Dict.values (Stack.components stack)) as components.
  intros components. revert settings.
  induction components as [|c components IH]; intros d Hk; [done|].
  cbn [foldl]. apply IH. unfold with_component_defaults.
  destruct (StackComponent.settings_class c); [|done]. cbn zeta.
  destruct (Dict.get d _); rewrite Dict.elem_keys_set; by right.
Qed.

Section compiled_settings.

Context (key_resolves : Stack.t → string → bool).
Context (default_merge : bool).
Context (list_of_set : gset string → list string).
Context (list_of_set_perm : ∀ X, list_of_set X ≡ₚ elements X).
Context (get_run_environment_dict : Dict.t string).

(** The settings of the run configuration are among the settings that
    [compile] validates for the pipeline. *)
Lemma keys_prepared p config stack k :
  k ∈ Dict.keys (PipelineRunConfiguration.settings config) →
  k ∈ Dict.keys
        (PipelineConfiguration.settings
           (prepared_configuration default_merge p config stack)).
Proof.
  intros Hk. unfold prepared_configuration.
  cbn [set_settings PipelineConfiguration.settings
       update_pipeline_configuration run_update
       PipelineConfigurationUpdate.settings merge_settings].
  apply keys_with_stack_defaults.
  destruct default_merge; [|done]. apply Dict.elem_keys_merge_with. by right.
Qed.

(** When [compile] raises for a level, it does so for an entry of the
    settings that it validates, those of the pipeline or those of a step,
    and the key of the entry resolves. *)
Lemma compile_level_error s pipeline p stack config inst level :
  well_formed s pipeline →
  pipelines s !! pipeline = Some p →
  (Compiler.compile key_resolves default_merge list_of_set
     get_run_environment_dict pipeline stack config s).2
  = Raise (Exn TypeError (UnsupportedLevel inst level)) →
  ∃ key,
    key_resolves stack key = true
    ∧ (level ∉ BaseSettings.LEVEL inst)
    ∧ ((level = PIPELINE
        ∧ (key, inst)
          ∈ PipelineConfiguration.settings
              (prepared_configuration default_merge p config stack))
       ∨ (level = STEP
          ∧ ∃ name invocation b,
              (name, invocation) ∈ Pipeline.invocations p
              ∧ steps s !! StepInvocation.step invocation = Some b
              ∧ (key, inst)
                ∈ StepConfiguration.settings
                    (run_configured default_merge (Pipeline.invocations p)
                       config (StepInvocation.step invocation)
                       (BaseStep.configuration b)))).
Proof.
  intros Hwf Hp. rewrite compile_exact by done.
  unfold compile_pure. rewrite Hp.
  destruct (first_unknown_step config (Pipeline.invocations p)); [done|].
  destruct (run_name_check config) as [[]|e] eqn:Hname.
  2: { intros [= ->].
       apply run_name_check_Raise in Hname as (run_name & _ & _ & Hv).
       by apply verify_run_name_Raise in Hv as [?|[reason ?]]. }
  cbn zeta.
  destruct (validate key_resolves PIPELINE stack [] _).2
    as [validated|e] eqn:Hvalid.
  2: { intros [= ->].
       apply validate_Raise in Hvalid as (key & i & Hin & Hkey & Hl & [= -> ->]).
       exists key. split_and!; [done..|]. left. by split. }
  destruct (verify_all _ (Pipeline.invocations p)) as [[]|e] eqn:Hv.
  2: { intros [= ->].
       by apply verify_all_Raise in Hv as (name & invocation & _ & _ & ?). }
  destruct (sorted_step_names list_of_set (Pipeline.invocations p))
    as [names|e] eqn:Hs.
  2: { intros [= ->]. by apply sorted_step_names_Raise in Hs. }
  destruct (mapM_res _ names) as [compiled|e] eqn:Hsteps.
  2: { intros [= ->].
       apply mapM_res_Raise in Hsteps as (name & _ & Hnamed).
       unfold compile_named in Hnamed.
       destruct (Dict.get (Pipeline.invocations p) name)
         as [invocation|] eqn:Hget; [|done].
       destruct (steps s !! StepInvocation.step invocation)
         as [b|] eqn:Hb; [|done].
       cbn zeta in Hnamed.
       destruct (validate key_resolves STEP stack [] _).2
         as [step_settings|e] eqn:Hstep; [done|].
       injection Hnamed as ->.
       apply validate_Raise in Hstep as (key & i & Hin & Hkey & Hl & [= -> ->]).
       exists key. split_and!; [done..|]. right. split; [done|].
       exists name, invocation, b. split_and!; [|done..].
       by apply Dict.get_Some_elem. }
  cbn zeta.
  destruct (Compiler._ensure_required_stack_components_exist stack _)
    as [[]|e] eqn:Hens; [done|].
  intros [= ->].
  apply ensure_required_stack_components_exist_Raise in Hens
    as (n & st & _ & [(? & ? & _ & _ & [=])|(? & ? & _ & _ & [=])]).
Qed.

(** The settings of the pipeline in a deployment: the entries of the
    settings that [compile] validates whose keys resolve, in their
    order. *)
Lemma compile_pipeline_settings s pipeline p stack config deployment spec :
  well_formed s pipeline →
  pipelines s !! pipeline = Some p →
  (Compiler.compile key_resolves default_merge list_of_set
     get_run_environment_dict pipeline stack config s).2
  = Ok (deployment, spec) →
  NoDup (Dict.keys
           (PipelineConfiguration.settings
              (prepared_configuration default_merge p config stack))) →
  PipelineConfiguration.settings
    (PipelineDeploymentBaseModel.pipeline_configuration deployment)
  = filter (λ kv, key_resolves stack kv.1 = true)
      (PipelineConfiguration.settings
         (prepared_configuration default_merge p config stack)).
Proof.
  intros Hwf Hp. rewrite compile_exact by done.
  unfold compile_pure. rewrite Hp.
  destruct (first_unknown_step config (Pipeline.invocations p)); [done|].
  destruct (run_name_check config); [|done]. cbn zeta.
  destruct (validate key_resolves PIPELINE stack [] _).2
    as [validated|] eqn:Hvalid; [|done].
  destruct (verify_all _ (Pipeline.invocations p)); [|done].
  destruct (sorted_step_names list_of_set (Pipeline.invocations p));
    [|done].
  destruct (mapM_res _ _); [|done]. cbn zeta.
  destruct (Compiler._ensure_required_stack_components_exist stack _);
    [|done].
  intros [= <- _] Hnd.
  cbn [PipelineDeploymentBaseModel.pipeline_configuration set_settings
       PipelineConfiguration.settings].
  by apply (validate_Ok_exact key_resolves PIPELINE stack _ [] validated).
Qed.

(** The settings of a compiled step: those that the pipeline passes down,
    which are the settings of the deployment's pipeline whose class
    supports the step level, updated key by key with the validated
    settings of the step as the run configuration leaves them. *)
Lemma compile_step_settings s pipeline p stack config deployment spec name
    step :
  well_formed s pipeline →
  pipelines s !! pipeline = Some p →
  (Compiler.compile key_resolves default_merge list_of_set
     get_run_environment_dict pipeline stack config s).2
  = Ok (deployment, spec) →
  (name, step) ∈ PipelineDeploymentBaseModel.step_configurations deployment →
  ∃ invocation b step_settings,
    Dict.get (Pipeline.invocations p) name = Some invocation
    ∧ steps s !! StepInvocation.step invocation = Some b
    ∧ (validate key_resolves STEP stack []
         (StepConfiguration.settings
            (run_configured default_merge (Pipeline.invocations p) config
               (StepInvocation.step invocation)
               (BaseStep.configuration b)))).2
      = Ok step_settings
    ∧ StepConfiguration.settings (Step.config step)
      = Dict.merge_with update_model
          (filter (λ kv, STEP ∈ BaseSettings.LEVEL kv.2)
             (PipelineConfiguration.settings
                (PipelineDeploymentBaseModel.pipeline_configuration
                   deployment)))
          step_settings.
Proof.
  intros Hwf Hp. rewrite compile_exact by done.
  unfold compile_pure. rewrite Hp.
  destruct (first_unknown_step config (Pipeline.invocations p)); [done|].
  destruct (run_name_check config); [|done]. cbn zeta.
  destruct (validate key_resolves PIPELINE stack [] _).2
    as [validated|] eqn:Hvalid; [|done].
  destruct (verify_all _ (Pipeline.invocations p)); [|done].
  destruct (sorted_step_names list_of_set (Pipeline.invocations p))
    as [names|]; [|done].
  destruct (mapM_res _ names) as [compiled|] eqn:Hsteps; [|done]. cbn zeta.
  destruct (Compiler._ensure_required_stack_components_exist stack _);
    [|done].
  intros [= <- _].
  cbn [PipelineDeploymentBaseModel.pipeline_configuration set_settings
       PipelineConfiguration.settings
       PipelineDeploymentBaseModel.step_configurations].
  intros Hin%Dict.elem_of_of_items.
  destruct (mapM_res_elem _ _ _ _ Hsteps Hin) as (n & _ & Hnamed).
  unfold compile_named in Hnamed.
  destruct (Dict.get (Pipeline.invocations p) n)
    as [invocation|] eqn:Hget; [|done].
  destruct (steps s !! StepInvocation.step invocation)
    as [b|] eqn:Hb; [|done].
  cbn zeta in Hnamed.
  destruct (validate key_resolves STEP stack [] _).2
    as [step_settings|] eqn:Hstep; [|done].
  injection Hnamed as -> <-.
  by exists invocation, b, step_settings.
Qed.

Lemma mapM_res_Ok_all {A B} (f : A → res B) (l : list A) ys :
  mapM_res f l = Ok ys → ∀ x, x ∈ l → is_Ok (f x).
Proof.
  revert ys. induction l as [|x l IH]; intros ys; cbn [mapM_res].
  - intros _ x Hx. by apply elem_of_nil in Hx.
  - destruct (f x) as [y|] eqn:Hx; [|done].
    destruct (mapM_res f l) as [ys'|]; [|done].
    intros _ x' [->|Hin]%elem_of_cons; [by rewrite Hx|].
    by apply (IH ys').
Qed.

(** When [compile] returns, the validation of the settings of the
    pipeline and that of the settings of every step have passed. *)
Lemma compile_validates s pipeline p stack config :
  well_formed s pipeline →
  pipelines s !! pipeline = Some p →
  is_Ok (Compiler.compile key_resolves default_merge list_of_set
           get_run_environment_dict pipeline stack config s).2 →
  is_Ok (validate key_resolves PIPELINE stack []
           (PipelineConfiguration.settings
              (prepared_configuration default_merge p config stack))).2
  ∧ ∀ name invocation b,
      Dict.get (Pipeline.invocations p) name = Some invocation →
      steps s !! StepInvocation.step invocation = Some b →
      is_Ok (validate key_resolves STEP stack []
               (StepConfiguration.settings
                  (run_configured default_merge (Pipeline.invocations p)
                     config (StepInvocation.step invocation)
                     (BaseStep.configuration b)))).2.
Proof.
  intros Hwf Hp. rewrite compile_exact by done.
  destruct Hwf as (p' & Hp' & Hnd & _).
  rewrite Hp in Hp'. injection Hp' as <-.
  unfold compile_pure. rewrite Hp.
  destruct (first_unknown_step config (Pipeline.invocations p)); [done|].
  destruct (run_name_check config); [|done]. cbn zeta.
  destruct (validate key_resolves PIPELINE stack [] _).2
    as [validated|] eqn:Hvalid; [|done].
  destruct (verify_all _ (Pipeline.invocations p)); [|done].
  destruct (sorted_step_names list_of_set (Pipeline.invocations p))
    as [names|] eqn:Hnames; [|done].
  destruct (mapM_res _ names) as [compiled|] eqn:Hsteps; [|done].
  intros _. split; [done|]. intros name invocation b Hget Hb.
  pose proof (sorted_step_names_Ok list_of_set list_of_set_perm _ _ Hnd
                Hnames) as [Hall _].
  assert (name ∈ names) as Hin.
  { rewrite Hall. apply list_elem_of_fmap. exists (name, invocation).
    split; [done|]. by apply Dict.get_Some_elem. }
  pose proof (mapM_res_Ok_all _ _ _ Hsteps name Hin) as Hnamed.
  unfold compile_named in Hnamed. rewrite Hget, Hb in Hnamed.
  cbn zeta in Hnamed.
  by destruct (validate key_resolves STEP stack [] _).2.
Qed.

(** When [compile] returns, it has logged the notice for every key that
    does not resolve, of the settings of the pipeline and of the settings
    of the steps. *)
Lemma compile_logs_notice s pipeline p stack config key :
  well_formed s pipeline →
  pipelines s !! pipeline = Some p →
  is_Ok (Compiler.compile key_resolves default_merge list_of_set
           get_run_environment_dict pipeline stack config s).2 →
  key_resolves stack key = false →
  (key ∈ Dict.keys
           (PipelineConfiguration.settings
              (prepared_configuration default_merge p config stack)) →
   Info_not_including_settings key
   ∈ log (Compiler.compile key_resolves default_merge list_of_set
            get_run_environment_dict pipeline stack config s).1)
  ∧ ∀ name invocation b,
      (name, invocation) ∈ Pipeline.invocations p →
      steps s !! StepInvocation.step invocation = Some b →
      key ∈ Dict.keys
              (StepConfiguration.settings
                 (run_configured default_merge (Pipeline.invocations p)
                    config (StepInvocation.step invocation)
                    (BaseStep.configuration b))) →
      Info_not_including_settings key
      ∈ log (Compiler.compile key_resolves default_merge list_of_set
               get_run_environment_dict pipeline stack config s).1.
Proof.
  intros Hwf Hp Hok Hkey.
  destruct (compile_validates s pipeline p stack config Hwf Hp Hok)
    as [Hvalid Hsteps].
  destruct (compile_logged key_resolves default_merge list_of_set
              get_run_environment_dict s pipeline stack config p
              list_of_set_perm Hwf Hp Hok) as [Hlog Hlogs].
  destruct Hwf as (p' & Hp' & Hnd & _).
  rewrite Hp in Hp'. injection Hp' as <-.
  split.
  - intros Hin. apply Hlog.
    by apply (validate_Ok_logged key_resolves PIPELINE stack key).
  - intros name invocation b Hinv Hb Hin.
    pose proof (Dict.elem_get _ _ _ Hnd Hinv) as Hget.
    apply (Hlogs name invocation b Hget Hb).
    apply (validate_Ok_logged key_resolves STEP stack key); [done..|].
    by apply (Hsteps name invocation b).
Qed.

(** The outcome of [compile] is that of [compile] without the settings
    under a key that does not resolve. *)
Lemma compile_without s pipeline stack config key :
  well_formed s pipeline →
  key_resolves stack key = false →
  (Compiler.compile key_resolves default_merge list_of_set
     get_run_environment_dict pipeline stack config s).2
  = (Compiler.compile key_resolves default_merge list_of_set
       get_run_environment_dict pipeline stack
       (run_configuration_without key config) (store_without key s)).2.
Proof.
  intros Hwf Hkey.
  rewrite !compile_exact by (done || by apply well_formed_without).
  symmetry. by apply compile_pure_without.
Qed.


End compiled_settings.


(** * The kinds of failures

    Section 7 of the specification tells graph errors, configuration
    errors and infrastructure errors apart. A caller tells them apart by
    the class of the exception. *)

Inductive error_kind : Type :=
  | GraphError
  | ConfigurationError
  | InfrastructureError.

Definition kind_of_exception (cls : exn_class) : option error_kind :=
  match cls with
  | RuntimeError => Some GraphError
  | KeyError | TypeError | ValueError => Some ConfigurationError
  | StackValidationError => Some InfrastructureError
  | SystemError => None
  end.

(** * A pipeline used to exercise the theorems

    Two invocations [load] and [train] of two step objects; [train] runs
    after [load] and consumes its output. *)

Module Example.

Definition settings_docker : BaseSettings.t :=
  BaseSettings.mk [STEP; PIPELINE] [("image", "python")].

Definition configuration_load : StepConfiguration.t :=
  StepConfiguration.mk (Some true) None None None None
    [("docker", settings_docker)] [] None None.

Definition configuration_train : StepConfiguration.t :=
  StepConfiguration.mk None None None None None [] [] None None.

Definition pipeline_configuration : PipelineConfiguration.t :=
  PipelineConfiguration.mk None None None [] [] None None.

Definition load : StepInvocation.t :=
  StepInvocation.mk "load" 1%positive ∅ [].

Definition train : StepInvocation.t :=
  StepInvocation.mk "train" 2%positive {[ "load" ]}
    [("data", StepArtifact.mk "load" "output")].

Definition pipeline : Pipeline.t :=
  Pipeline.mk "training" pipeline_configuration
    [("train", train); ("load", load)] false "pipelines.training" [].

Definition store : State :=
  mkState {[ 1%positive := pipeline ]}
    {[ 1%positive := BaseStep.mk "steps.load" configuration_load;
       2%positive := BaseStep.mk "steps.train" configuration_train ]}
    [].

Definition stack : Stack.t :=
  Stack.mk "default"
    [("orchestrator",
      StackComponent.mk "default" "orchestrator" "local" None
        (StackComponentConfig.mk [] [] []))]
    None None.

Definition run_configuration : PipelineRunConfiguration.t :=
  PipelineRunConfiguration.mk None (Some false) None None [] [] [].

(** The stack resolves the general key ["docker"] only. *)
Definition key_resolves (stack : Stack.t) (key : string) : bool :=
  bool_decide (key = "docker").

Lemma list_of_set_perm (X : gset string) : elements X ≡ₚ elements X.
Proof. reflexivity. Defined.

Lemma pipeline_NoDup : NoDup (Dict.keys (Pipeline.invocations pipeline)).
Proof. apply (bool_decide_unpack _). vm_compute. exact I. Defined.

Lemma upstream_of_domain invocations n :
  upstream_of invocations n ≠ [] → n ∈ Dict.keys invocations.
Proof.
  unfold upstream_of. intros Hne. apply Dict.get_is_Some.
  by destruct (Dict.get invocations n).
Qed.

Lemma pipeline_acyclic :
  Graph.acyclic (upstream_of (Pipeline.invocations pipeline)).
Proof.
  apply (topsort.acyclic_by_order _ (λ _, [])
           (Dict.keys (Pipeline.invocations pipeline)) ["load"; "train"]).
  - apply upstream_of_domain.
  - vm_compute. reflexivity.
  - vm_compute. reflexivity.
Defined.

Lemma steps_exist (s : State) (invocations : Dict.t StepInvocation.t) :
  Forall (λ ni, is_Some (steps s !! StepInvocation.step ni.2)) invocations →
  ∀ name invocation, (name, invocation) ∈ invocations →
    is_Some (steps s !! StepInvocation.step invocation).
Proof.
  intros Hall name invocation Hin.
  exact (proj1 (Forall_forall _ _) Hall (name, invocation) Hin).
Defined.

Lemma store_steps_exist :
  ∀ name invocation, (name, invocation) ∈ Pipeline.invocations pipeline →
    is_Some (steps store !! StepInvocation.step invocation).
Proof.
  apply steps_exist. apply (bool_decide_unpack _). vm_compute. exact I.
Defined.

Lemma store_well_formed : well_formed store 1%positive.
Proof.
  exists pipeline. split; [reflexivity|].
  split; [exact pipeline_NoDup | exact store_steps_exist].
Defined.

(** The two invocations waiting for each other. *)
Definition load_after_train : StepInvocation.t :=
  StepInvocation.mk "load" 1%positive {[ "train" ]} [].

Definition cyclic_pipeline : Pipeline.t :=
  Pipeline.mk "training" pipeline_configuration
    [("train", train); ("load", load_after_train)]
    false "pipelines.training" [].

Definition cyclic_store : State :=
  mkState {[ 1%positive := cyclic_pipeline ]} (steps store) [].

Lemma cyclic_NoDup : NoDup (Dict.keys (Pipeline.invocations cyclic_pipeline)).
Proof. apply (bool_decide_unpack _). vm_compute. exact I. Defined.

Lemma cyclic_steps_exist :
  ∀ name invocation,
    (name, invocation) ∈ Pipeline.invocations cyclic_pipeline →
    is_Some (steps cyclic_store !! StepInvocation.step invocation).
Proof.
  apply steps_exist. apply (bool_decide_unpack _). vm_compute. exact I.
Defined.

Lemma cyclic_closed : upstream_closed (Pipeline.invocations cyclic_pipeline).
Proof. apply upstream_closed_verify_all. vm_compute. reflexivity. Defined.

Lemma cyclic_has_cycle :
  Graph.has_cycle (upstream_of (Pipeline.invocations cyclic_pipeline)).
Proof.
  exists "load". apply tc_l with "train"; [|apply tc_once];
    unfold Graph.edge; apply (bool_decide_unpack _); vm_compute; exact I.
Defined.

(** [train] alone: its upstream step [load] is not in the pipeline. *)
Definition dangling_pipeline : Pipeline.t :=
  Pipeline.mk "training" pipeline_configuration
    [("train", train)] false "pipelines.training" [].

Definition dangling_store : State :=
  mkState {[ 1%positive := dangling_pipeline ]} (steps store) [].

Lemma dangling_NoDup :
  NoDup (Dict.keys (Pipeline.invocations dangling_pipeline)).
Proof. apply (bool_decide_unpack _). vm_compute. exact I. Defined.

Lemma dangling_steps_exist :
  ∀ name invocation,
    (name, invocation) ∈ Pipeline.invocations dangling_pipeline →
    is_Some (steps dangling_store !! StepInvocation.step invocation).
Proof.
  apply steps_exist. apply (bool_decide_unpack _). vm_compute. exact I.
Defined.

Lemma dangling_not_closed :
  ¬ upstream_closed (Pipeline.invocations dangling_pipeline).
Proof.
  intros Hclosed. apply upstream_closed_verify_all in Hclosed.
  vm_compute in Hclosed. discriminate Hclosed.
Defined.

(** A run configuration that configures a step which the pipeline does not
    have. *)
Definition ghost_configuration : PipelineRunConfiguration.t :=
  PipelineRunConfiguration.mk None None None None
    [("ghost", StepConfigurationUpdate.empty)] [] [].

(** Settings for a component that the stack does not have, of a class
    that supports the pipeline level only, on the step [load]. *)
Definition settings_kubernetes : BaseSettings.t :=
  BaseSettings.mk [PIPELINE] [("namespace", "zenml")].

Definition configuration_load_kubernetes : StepConfiguration.t :=
  StepConfiguration.mk (Some true) None None None None
    [("docker", settings_docker); ("kubernetes", settings_kubernetes)]
    [] None None.

Definition kubernetes_store : State :=
  mkState (pipelines store)
    {[ 1%positive := BaseStep.mk "steps.load" configuration_load_kubernetes;
       2%positive := BaseStep.mk "steps.train" configuration_train ]}
    [].

(** Run names: one with a placeholder that is not allowed, one that is
    not a format string. *)
Definition user_configuration : PipelineRunConfiguration.t :=
  PipelineRunConfiguration.mk (Some "run-{date}-{user}") None None None
    [] [] [].


(** Three invocations of which two wait for steps that the pipeline does
    not have: [train] for [clean], and after it [evaluate] for [test]. *)
Definition train_after_clean : StepInvocation.t :=
  StepInvocation.mk "train" 2%positive {[ "load"; "clean" ]}
    [("data", StepArtifact.mk "load" "output")].

Definition evaluate_after_test : StepInvocation.t :=
  StepInvocation.mk "evaluate" 1%positive {[ "train"; "test" ]} [].

Definition unfinished_pipeline : Pipeline.t :=
  Pipeline.mk "training" pipeline_configuration
    [("load", load); ("train", train_after_clean);
     ("evaluate", evaluate_after_test)]
    false "pipelines.training" [].

Definition unfinished_store : State :=
  mkState {[ 1%positive := unfinished_pipeline ]} (steps store) [].

Lemma unfinished_NoDup :
  NoDup (Dict.keys (Pipeline.invocations unfinished_pipeline)).
Proof. apply (bool_decide_unpack _). vm_compute. exact I. Defined.

Lemma unfinished_steps_exist :
  ∀ name invocation,
    (name, invocation) ∈ Pipeline.invocations unfinished_pipeline →
    is_Some (steps unfinished_store !! StepInvocation.step invocation).
Proof.
  apply steps_exist. apply (bool_decide_unpack _). vm_compute. exact I.
Defined.

Lemma unfinished_not_closed :
  ¬ upstream_closed (Pipeline.invocations unfinished_pipeline).
Proof.
  intros Hclosed. apply upstream_closed_verify_all in Hclosed.
  vm_compute in Hclosed. discriminate Hclosed.
Defined.


(** Settings for a step operator of the flavor [sagemaker], which the
    stack does not have: on the step [load], and in a run
    configuration. *)
Definition settings_sagemaker : BaseSettings.t :=
  BaseSettings.mk [STEP; PIPELINE] [("instance_type", "ml.m5.large")].

Definition configuration_load_sagemaker : StepConfiguration.t :=
  StepConfiguration.mk (Some true) None None None None
    [("docker", settings_docker);
     ("step_operator.sagemaker", settings_sagemaker)]
    [] None None.

Definition sagemaker_store : State :=
  mkState (pipelines store)
    {[ 1%positive := BaseStep.mk "steps.load" configuration_load_sagemaker;
       2%positive := BaseStep.mk "steps.train" configuration_train ]}
    [].

Definition sagemaker_configuration : PipelineRunConfiguration.t :=
  PipelineRunConfiguration.mk None (Some false) None None []
    [("step_operator.sagemaker", settings_sagemaker);
     ("docker", settings_docker)]
    [].

Lemma sagemaker_store_well_formed : well_formed sagemaker_store 1%positive.
Proof.
  exists pipeline. split; [reflexivity|].
  split; [exact pipeline_NoDup|].
  apply steps_exist. apply (bool_decide_unpack _). vm_compute. exact I.
Defined.


End Example.

(** * The claims of the specification *)

Section claims.

Context (key_resolves : Stack.t → string → bool).
Context (default_merge : bool).
Context (list_of_set : gset string → list string).
Context (list_of_set_perm : ∀ X, list_of_set X ≡ₚ elements X).
Context (get_run_environment_dict : Dict.t string).

(** C1: on a pipeline whose dependency graph is acyclic,
    [_get_sorted_invocations] changes nothing in the store and, unless an
    upstream step is missing (then it raises the error of
    [_verify_upstream_steps]), returns every invocation of the pipeline
    exactly once, each strictly after all the invocations named in its
    [upstream_steps]. *)
Theorem sorted_invocations_topological pipeline p s :
  pipelines s !! pipeline = Some p →
  NoDup (Dict.keys (Pipeline.invocations p)) →
  Graph.acyclic (upstream_of (Pipeline.invocations p)) →
  match Compiler._get_sorted_invocations list_of_set pipeline s with
  | (s', Ok sorted) =>
      s' = s
      ∧ sorted ≡ₚ Pipeline.invocations p
      ∧ ∀ before name invocation after,
          sorted = before ++ (name, invocation) :: after →
          ∀ upstream,
            upstream ∈ StepInvocation.upstream_steps invocation →
            upstream ∈ before.*1
  | (s', Raise e) =>
      s' = s
      ∧ ¬ upstream_closed (Pipeline.invocations p)
      ∧ ∃ invalid available,
          invalid ≠ ∅
          ∧ e = Exn RuntimeError (InvalidUpstreamSteps invalid available)
  end.
Proof.
  intros Hp Hnd Hacyc.
  destruct (verify_all (list_to_set (Dict.keys (Pipeline.invocations p)))
              (Pipeline.invocations p)) as [[]|e] eqn:Hv.
  - pose proof (proj1 (verify_all_Ok _ _) Hv) as Hclosed.
    destruct (get_sorted_invocations_closed list_of_set list_of_set_perm
                pipeline p s Hp Hnd Hclosed)
      as [[[n Hn] _] | (_ & sorted & -> & Hperm & Htop)].
    { by destruct (Hacyc n). }
    split_and!; [done | done |].
    intros before name invocation after -> upstream Hup.
    apply (Htop before.*1 name after.*1).
    + by rewrite fmap_app, fmap_cons.
    + unfold upstream_of.
      assert ((name, invocation) ∈ Pipeline.invocations p) as Hin.
      { rewrite <- Hperm. apply elem_of_app. right. apply list_elem_of_here. }
      rewrite (Dict.elem_get _ _ _ Hnd Hin). by apply elem_of_elements.
  - destruct (get_sorted_invocations_run list_of_set pipeline p s Hp Hnd)
      as (r & -> & Hr).
    rewrite Hv in Hr. subst r.
    apply verify_all_Raise in Hv as (name & invocation & Hin & Hne & ->).
    split_and!; [done | | by eauto].
    intros Hclosed. apply Hne. specialize (Hclosed name invocation Hin).
    set_solver.
Qed.

(** C2 (amended): on a pipeline whose upstream steps all exist and whose
    dependency graph has a cycle, [_get_sorted_invocations] returns, with
    the store as it was, and raises the error of the layering instead of a
    list of invocations; [compile_spec] raises that error; [compile]
    returns no result either: it raises the error of the first check that
    fails before the sorting (a step of the run configuration that the
    pipeline does not have, the run name, the level of a setting of the
    pipeline), and the error of the layering when none of them fails. *)
Theorem cycle_is_fatal pipeline p stack config s :
  pipelines s !! pipeline = Some p →
  NoDup (Dict.keys (Pipeline.invocations p)) →
  (∀ name invocation, (name, invocation) ∈ Pipeline.invocations p →
     is_Some (steps s !! StepInvocation.step invocation)) →
  upstream_closed (Pipeline.invocations p) →
  Graph.has_cycle (upstream_of (Pipeline.invocations p)) →
  Compiler._get_sorted_invocations list_of_set pipeline s
  = (s, Raise (Exn RuntimeError CycleDetected))
  ∧ (Compiler.compile_spec list_of_set pipeline s).2
    = Raise (Exn RuntimeError CycleDetected)
  ∧ (Compiler.compile key_resolves default_merge list_of_set
       get_run_environment_dict pipeline stack config s).2
    = Raise
        (match first_unknown_step config (Pipeline.invocations p) with
         | Some name => Exn KeyError (NoStepWithName name)
         | None =>
             match run_name_check config with
             | Raise e => e
             | Ok _ =>
                 match (validate key_resolves PIPELINE stack []
                          (PipelineConfiguration.settings
                             (prepared_configuration default_merge p config
                                stack))).2 with
                 | Raise e => e
                 | Ok _ => Exn RuntimeError CycleDetected
                 end
             end
         end).
Proof.
  intros Hp Hnd Hsteps Hclosed Hcycle.
  assert (match verify_all (list_to_set (Dict.keys (Pipeline.invocations p)))
                  (Pipeline.invocations p) with
          | Raise e' => Exn RuntimeError CycleDetected = e'
          | Ok _ => sorted_step_names list_of_set (Pipeline.invocations p)
                    = Raise (Exn RuntimeError CycleDetected)
          end) as He.
  { rewrite (proj1 (upstream_closed_verify_all _) Hclosed).
    by apply sorted_step_names_cycle. }
  split_and!.
  - destruct (get_sorted_invocations_closed list_of_set list_of_set_perm
                pipeline p s Hp Hnd Hclosed) as [[_ Hrun]|[Hacyclic _]];
      [done|].
    destruct Hcycle as [n Hn]. by destruct (Hacyclic n).
  - by apply (compile_spec_error list_of_set pipeline p).
  - rewrite (compile_graph_failure key_resolves default_merge list_of_set
               get_run_environment_dict pipeline p stack config s _
               Hp Hnd Hsteps He).
    unfold failure_before_sorting.
    destruct (first_unknown_step config (Pipeline.invocations p)); [done|].
    destruct (run_name_check config); [|done].
    by destruct (validate key_resolves PIPELINE stack [] _).2.
Qed.

(** C3 (amended): on a pipeline with an invocation whose [upstream_steps]
    name a step that is not a key of the invocations, take the first such
    invocation in the order of the pipeline: all invocations before it
    have their upstream steps among the keys. [compile_spec] raises a
    RuntimeError that carries the missing names of that invocation, a
    set that is not empty, and the names that exist; [compile] returns no
    result either: it raises the error of the first check that fails
    before the sorting (a step of the run configuration that the pipeline
    does not have, the run name, the level of a setting of the pipeline),
    and that RuntimeError when none of them fails. *)
Theorem unknown_upstream_is_fatal pipeline p stack config s :
  pipelines s !! pipeline = Some p →
  NoDup (Dict.keys (Pipeline.invocations p)) →
  (∀ name invocation, (name, invocation) ∈ Pipeline.invocations p →
     is_Some (steps s !! StepInvocation.step invocation)) →
  ¬ upstream_closed (Pipeline.invocations p) →
  ∃ before name invocation after (available missing : gset string),
    Pipeline.invocations p = before ++ (name, invocation) :: after
    ∧ (∀ n i, (n, i) ∈ before →
         StepInvocation.upstream_steps i ⊆ available)
    ∧ available = list_to_set (Dict.keys (Pipeline.invocations p))
    ∧ missing = StepInvocation.upstream_steps invocation ∖ available
    ∧ missing ≠ ∅
    ∧ (Compiler.compile_spec list_of_set pipeline s).2
      = Raise (Exn RuntimeError (InvalidUpstreamSteps missing available))
    ∧ (Compiler.compile key_resolves default_merge list_of_set
         get_run_environment_dict pipeline stack config s).2
      = Raise
          (match first_unknown_step config (Pipeline.invocations p) with
           | Some unknown => Exn KeyError (NoStepWithName unknown)
           | None =>
               match run_name_check config with
               | Raise e => e
               | Ok _ =>
                   match (validate key_resolves PIPELINE stack []
                            (PipelineConfiguration.settings
                               (prepared_configuration default_merge p
                                  config stack))).2 with
                   | Raise e => e
                   | Ok _ =>
                       Exn RuntimeError
                         (InvalidUpstreamSteps missing available)
                   end
               end
           end).
Proof.
  intros Hp Hnd Hsteps Hopen.
  destruct (verify_all (list_to_set (Dict.keys (Pipeline.invocations p)))
              (Pipeline.invocations p)) as [[]|e] eqn:Hv.
  { destruct Hopen. by apply upstream_closed_verify_all. }
  pose proof (verify_all_Raise_first _ _ _ Hv)
    as (before & name & invocation & after & Hitems & Hbefore & Hmissing
        & ->).
  exists before, name, invocation, after,
    (list_to_set (Dict.keys (Pipeline.invocations p))),
    (StepInvocation.upstream_steps invocation
       ∖ list_to_set (Dict.keys (Pipeline.invocations p))).
  split_and!; try done.
  - apply (compile_spec_error list_of_set pipeline p); try done.
    by rewrite Hv.
  - rewrite (compile_graph_failure key_resolves default_merge list_of_set
               get_run_environment_dict pipeline p stack config s
               (Exn RuntimeError
                  (InvalidUpstreamSteps
                     (StepInvocation.upstream_steps invocation
                        ∖ list_to_set (Dict.keys (Pipeline.invocations p)))
                     (list_to_set (Dict.keys (Pipeline.invocations p)))))
               Hp Hnd Hsteps).
    + unfold failure_before_sorting.
      destruct (first_unknown_step config (Pipeline.invocations p));
        [done|].
      destruct (run_name_check config); [|done].
      by destruct (validate key_resolves PIPELINE stack [] _).2.
    + by rewrite Hv.
Qed.

(** C6: whatever the pipeline, the stack and the run configuration, and
    whether the call returns or raises, every pipeline object and every
    step object of the store in which [compile] or [compile_spec] is called
    is in the store that the call leaves, with the value it had: the
    pipeline with its configuration and invocations, and the steps of the
    invocations with their configurations. The calls write to the copies
    that they allocate and to the log only. *)
Theorem caller_objects_unchanged pipeline stack config s :
  frame s (Compiler.compile key_resolves default_merge list_of_set
             get_run_environment_dict pipeline stack config s).1
  ∧ frame s (Compiler.compile_spec list_of_set pipeline s).1.
Proof. split; [apply compile_frames | apply compile_spec_frames]. Qed.

(** C4: in every deployment that [compile] returns, each of the three
    booleans that the run configuration sets has, in the configuration of
    every compiled step, the value of the run configuration, whatever the
    step or the pipeline had set; and the compiled steps are the
    invocations of the pipeline, none left out. *)
Theorem run_level_booleans_override pipeline stack config s deployment spec :
  (Compiler.compile key_resolves default_merge list_of_set
     get_run_environment_dict pipeline stack config s).2
  = Ok (deployment, spec) →
  (∀ name step,
     (name, step) ∈ PipelineDeploymentBaseModel.step_configurations deployment →
     (∀ v, PipelineRunConfiguration.enable_cache config = Some v →
           StepConfiguration.enable_cache (Step.config step) = Some v)
     ∧ (∀ v, PipelineRunConfiguration.enable_artifact_metadata config = Some v →
             StepConfiguration.enable_artifact_metadata (Step.config step)
             = Some v)
     ∧ (∀ v, PipelineRunConfiguration.enable_artifact_visualization config
             = Some v →
             StepConfiguration.enable_artifact_visualization (Step.config step)
             = Some v))
  ∧ (∀ p, pipelines s !! pipeline = Some p →
          NoDup (Dict.keys (Pipeline.invocations p)) →
          Dict.keys (PipelineDeploymentBaseModel.step_configurations deployment)
          ≡ₚ Dict.keys (Pipeline.invocations p)).
Proof.
  intros Hrun. apply compile_returns in Hrun. split.
  - intros name step Hin.
    destruct (compile_result_steps _ _ _ _ _ _ _ _ _ _ _ Hrun Hin)
      as (k & passdown & extra & fh & sh & step_settings
          & (Hcache & Hmeta & Hvis) & _ & _ & ->).
    destruct (compiled_configuration_booleans k passdown extra fh sh
                step_settings) as (-> & -> & ->).
    done.
  - intros p Hp Hnd.
    exact (compile_result_names key_resolves default_merge list_of_set
             list_of_set_perm get_run_environment_dict s pipeline p stack
             config (deployment, spec) Hrun Hp Hnd).
Qed.

(** C5: a settings entry whose key does not resolve against the stack
    has no part in the outcome of [_filter_and_validate_settings], on the
    pipeline level and on the step level: the outcome is that of the
    settings without the entry, the key is not among the validated
    settings, and the notice is logged once the loop reaches the entry.
    So for [compile]. Its outcome, a result or an error, is the one that
    it has when the settings under the key are taken away from the
    pipeline, from the steps and from the run configuration. In a
    deployment that it returns the key is neither among the settings of
    the pipeline nor among the merged settings of any step, and the
    settings of the pipeline are the other entries, those whose keys
    resolve; and in the store that it leaves the notice for the key is in
    the log, when the key is among the settings of the run configuration
    or of the pipeline as configured for the run, and when it is among
    the settings of a step as configured for the run. And when [compile]
    raises for a settings level, it does so for an entry, of the pipeline
    or of a step, with another key, one that resolves. *)
Theorem unresolved_settings_are_dropped stack key inst :
  key_resolves stack key = false →
  (∀ level before after s,
     (Compiler._filter_and_validate_settings key_resolves
        (before ++ (key, inst) :: after) level stack s).2
     = (Compiler._filter_and_validate_settings key_resolves
          (before ++ after) level stack s).2
     ∧ (∀ validated,
          (Compiler._filter_and_validate_settings key_resolves
             (before ++ (key, inst) :: after) level stack s).2 = Ok validated →
          key ∉ Dict.keys validated)
     ∧ (is_Ok (Compiler._filter_and_validate_settings key_resolves
                 before level stack s).2 →
        Info_not_including_settings key
        ∈ log (Compiler._filter_and_validate_settings key_resolves
                 (before ++ (key, inst) :: after) level stack s).1))
  ∧ (∀ pipeline config s,
       well_formed s pipeline →
       (Compiler.compile key_resolves default_merge list_of_set
          get_run_environment_dict pipeline stack config s).2
       = (Compiler.compile key_resolves default_merge list_of_set
            get_run_environment_dict pipeline stack
            (run_configuration_without key config)
            (store_without key s)).2)
  ∧ (∀ pipeline config s deployment spec,
       (Compiler.compile key_resolves default_merge list_of_set
          get_run_environment_dict pipeline stack config s).2
       = Ok (deployment, spec) →
       (key ∉ Dict.keys
                (PipelineConfiguration.settings
                   (PipelineDeploymentBaseModel.pipeline_configuration
                      deployment)))
       ∧ (∀ name step,
            (name, step)
            ∈ PipelineDeploymentBaseModel.step_configurations deployment →
            key ∉ Dict.keys (StepConfiguration.settings (Step.config step)))
       ∧ ∀ p,
           well_formed s pipeline →
           pipelines s !! pipeline = Some p →
           (NoDup (Dict.keys
                     (PipelineConfiguration.settings
                        (prepared_configuration default_merge p config
                           stack))) →
            PipelineConfiguration.settings
              (PipelineDeploymentBaseModel.pipeline_configuration
                 deployment)
            = filter (λ kv, key_resolves stack kv.1 = true)
                (PipelineConfiguration.settings
                   (prepared_configuration default_merge p config stack)))
           ∧ (key ∈ Dict.keys (PipelineRunConfiguration.settings config)
              ∨ key ∈ Dict.keys
                        (PipelineConfiguration.settings
                           (prepared_configuration default_merge p config
                              stack)) →
              Info_not_including_settings key
              ∈ log (Compiler.compile key_resolves default_merge
                       list_of_set get_run_environment_dict pipeline stack
                       config s).1)
           ∧ ∀ name invocation b,
               (name, invocation) ∈ Pipeline.invocations p →
               steps s !! StepInvocation.step invocation = Some b →
               key ∈ Dict.keys
                       (StepConfiguration.settings
                          (run_configured default_merge
                             (Pipeline.invocations p) config
                             (StepInvocation.step invocation)
                             (BaseStep.configuration b))) →
               Info_not_including_settings key
               ∈ log (Compiler.compile key_resolves default_merge
                        list_of_set get_run_environment_dict pipeline stack
                        config s).1)
  ∧ (∀ pipeline config s settings_instance level,
       well_formed s pipeline →
       (Compiler.compile key_resolves default_merge list_of_set
          get_run_environment_dict pipeline stack config s).2
       = Raise (Exn TypeError (UnsupportedLevel settings_instance level)) →
       ∃ p key',
         pipelines s !! pipeline = Some p
         ∧ key' ≠ key
         ∧ key_resolves stack key' = true
         ∧ (level ∉ BaseSettings.LEVEL settings_instance)
         ∧ ((level = PIPELINE
             ∧ (key', settings_instance)
               ∈ PipelineConfiguration.settings
                   (prepared_configuration default_merge p config stack))
            ∨ (level = STEP
               ∧ ∃ name invocation b,
                   (name, invocation) ∈ Pipeline.invocations p
                   ∧ steps s !! StepInvocation.step invocation = Some b
                   ∧ (key', settings_instance)
                     ∈ StepConfiguration.settings
                         (run_configured default_merge
                            (Pipeline.invocations p) config
                            (StepInvocation.step invocation)
                            (BaseStep.configuration b))))).
Proof.
  intros Hkey. split_and!.
  - intros level before after s.
    rewrite !filter_and_validate_settings_run. cbn [fst snd log with_log].
    split_and!.
    + by apply validate_unresolved.
    + intros validated Hv Hin.
      pose proof (validate_Ok_resolved key_resolves _ _ _ _ Hv key Hin).
      congruence.
    + intros Hok. apply elem_of_app. right.
      by apply validate_unresolved_logged.
  - intros pipeline config s Hwf.
    by apply (compile_without key_resolves default_merge list_of_set
                get_run_environment_dict).
  - intros pipeline config s deployment spec Hrun.
    pose proof (compile_returns _ _ _ _ _ _ _ _ _ Hrun) as Hresult.
    split_and!.
    + destruct Hresult as (p0 & validated & sorted & compiled & _ & _ & _
                           & Hvalid & _ & _ & Hd & _).
      simpl in Hd. subst deployment. simpl. intros Hin.
      pose proof (validate_Ok_resolved key_resolves _ _ _ _ Hvalid key Hin).
      congruence.
    + intros name step Hin.
      destruct (compile_result_steps _ _ _ _ _ _ _ _ _ _ _ Hresult Hin)
        as (k & passdown & extra & fh & sh & step_settings
            & _ & Hpass & Hstep & ->).
      intros [H|H]%compiled_configuration_settings;
        [apply Hpass in H | apply Hstep in H]; congruence.
    + intros p Hwf Hp.
      assert (is_Ok (Compiler.compile key_resolves default_merge
                       list_of_set get_run_environment_dict pipeline stack
                       config s).2) as Hok by (by rewrite Hrun).
      destruct (compile_logs_notice key_resolves default_merge list_of_set
                  list_of_set_perm get_run_environment_dict s pipeline p
                  stack config key Hwf Hp Hok Hkey) as [Hlog Hlogs].
      split_and!.
      * by apply (compile_pipeline_settings key_resolves default_merge
                    list_of_set get_run_environment_dict s pipeline p stack
                    config deployment spec).
      * intros [Hin|Hin]; apply Hlog; [|done].
        by apply keys_prepared.
      * exact Hlogs.
  - intros pipeline config s settings_instance level Hwf Hrun.
    pose proof Hwf as (p & Hp & _). exists p.
    destruct (compile_level_error key_resolves default_merge list_of_set
                get_run_environment_dict s pipeline p stack config
                settings_instance level Hwf Hp Hrun)
      as (key' & Hkey' & Hlevel & Hentry).
    exists key'. split_and!; [done | congruence | done..].
Qed.

(** C10: [_filter_and_validate_settings] resolves the key of an entry
    before it looks at the levels that the class of the entry supports.
    For an entry whose class does not support the level, met after entries
    that pass: if its key does not resolve, the entry is skipped with a
    notice and the outcome is that of the settings without it; if its key
    resolves, the TypeError of the level is raised. And whenever the
    function raises, it raises that TypeError for an entry whose key
    resolves. *)
Theorem key_resolution_precedes_level_check level stack key inst before after
    s :
  level ∉ BaseSettings.LEVEL inst →
  is_Ok (Compiler._filter_and_validate_settings key_resolves before level
           stack s).2 →
  (key_resolves stack key = false →
   (Compiler._filter_and_validate_settings key_resolves
      (before ++ (key, inst) :: after) level stack s).2
   = (Compiler._filter_and_validate_settings key_resolves
        (before ++ after) level stack s).2
   ∧ Info_not_including_settings key
     ∈ log (Compiler._filter_and_validate_settings key_resolves
              (before ++ (key, inst) :: after) level stack s).1)
  ∧ (key_resolves stack key = true →
     (Compiler._filter_and_validate_settings key_resolves
        (before ++ (key, inst) :: after) level stack s).2
     = Raise (Exn TypeError (UnsupportedLevel inst level)))
  ∧ (∀ e,
       (Compiler._filter_and_validate_settings key_resolves
          (before ++ (key, inst) :: after) level stack s).2 = Raise e →
       ∃ key' inst',
         (key', inst') ∈ before ++ (key, inst) :: after
         ∧ key_resolves stack key' = true
         ∧ (level ∉ BaseSettings.LEVEL inst')
         ∧ e = Exn TypeError (UnsupportedLevel inst' level)).
Proof.
  rewrite !filter_and_validate_settings_run. cbn [fst snd log with_log].
  intros Hlevel Hbefore. split_and!.
  - intros Hkey. split.
    + by apply validate_unresolved.
    + apply elem_of_app. right. by apply validate_unresolved_logged.
  - intros Hkey. by apply validate_unsupported.
  - intros e He. by apply validate_Raise in He.
Qed.


(** C9: every exception that [compile] raises has a class that tells its
    kind: RuntimeError for the errors of the graph, a missing upstream
    step or a cycle; KeyError, ValueError and TypeError for those of the
    configuration, a step named in the run configuration that does not
    exist, an invalid run name, settings on a level that their class does
    not support; StackValidationError for a step operator or an
    experiment tracker that the stack does not have. The exception
    carries what went wrong. *)
Theorem failures_are_typed pipeline stack config s e :
  well_formed s pipeline →
  (Compiler.compile key_resolves default_merge list_of_set
     get_run_environment_dict pipeline stack config s).2 = Raise e →
  ∃ p kind,
    pipelines s !! pipeline = Some p
    ∧ kind_of_exception (exn_cls e) = Some kind
    ∧ match kind with
      | GraphError =>
          (∃ name invocation,
             (name, invocation) ∈ Pipeline.invocations p
             ∧ StepInvocation.upstream_steps invocation
                 ∖ list_to_set (Dict.keys (Pipeline.invocations p)) ≠ ∅
             ∧ e = Exn RuntimeError
                     (InvalidUpstreamSteps
                        (StepInvocation.upstream_steps invocation
                           ∖ list_to_set (Dict.keys (Pipeline.invocations p)))
                        (list_to_set (Dict.keys (Pipeline.invocations p)))))
          ∨ (upstream_closed (Pipeline.invocations p)
             ∧ Graph.has_cycle (upstream_of (Pipeline.invocations p))
             ∧ e = Exn RuntimeError CycleDetected)
      | ConfigurationError =>
          (∃ name,
             name ∈ Dict.keys (PipelineRunConfiguration.steps config)
             ∧ (name ∉ Dict.keys (Pipeline.invocations p))
             ∧ e = Exn KeyError (NoStepWithName name))
          ∨ (∃ run_name,
               PipelineRunConfiguration.run_name config = Some run_name
               ∧ (e = Exn ValueError
                        (InvalidRunName run_name {[ "date"; "time" ]})
                  ∨ ∃ reason, e = Exn ValueError (InvalidFormatString reason)))
          ∨ (∃ key settings_instance level,
               key_resolves stack key = true
               ∧ (level ∉ BaseSettings.LEVEL settings_instance)
               ∧ e = Exn TypeError (UnsupportedLevel settings_instance level))
      | InfrastructureError =>
          ∃ step_name component available,
            (component ∉ available)
            ∧ (e = Exn StackValidationError
                     (MissingStepOperator step_name component
                        (Stack.name stack) available)
               ∨ e = Exn StackValidationError
                       (MissingExperimentTracker step_name component
                          (Stack.name stack) available))
      end.
Proof.
  intros (p & Hp & Hnd & Hsteps) Hrun. exists p.
  pose proof (compile_raises _ _ _ _ _ _ _ _ _ _ Hp Hnd Hsteps Hrun) as H.
  apply (compile_failure_cause key_resolves default_merge list_of_set
           list_of_set_perm _ _ _ _ Hnd) in H.
  destruct H as [name Hin Hout | run_name Hrn | run_name reason Hrn
                | key inst level Hkey Hlevel | name invocation Hin Hne
                | Hclosed Hcycle | steps e Hm].
  - exists ConfigurationError. split_and!; [done | done |]. left. eauto.
  - exists ConfigurationError. split_and!; [done | done |].
    right. left. eauto.
  - exists ConfigurationError. split_and!; [done | done |].
    right. left. exists run_name. eauto.
  - exists ConfigurationError. split_and!; [done | done |].
    right. right. eauto 10.
  - exists GraphError. split_and!; [done | done |]. left. eauto.
  - exists GraphError. split_and!; [done | done |]. right. eauto.
  - destruct Hm as (n & st & _ & [(op & av & _ & Hav & ->)
                                  |(tr & av & _ & Hav & ->)]);
      exists InfrastructureError; (split_and!; [done | done |]);
      eauto 10.
Qed.

(** C7: [compile] is called twice on the same pipeline, stack and run
    configuration, the second time in the store that the first call has
    left, and the two calls may enumerate the sets of step names in
    different orders. The second call returns what the first returns, the
    deployment and the pipeline spec with its step specs in the same
    order, or raises what the first raises. In the spec that is returned
    the upstream steps of every step are sorted, and the step specs of
    the pipeline spec are those of the steps of the deployment. *)
Theorem compile_is_deterministic (list_of_set' : gset string → list string)
    pipeline stack config s :
  (∀ X, list_of_set' X ≡ₚ elements X) →
  well_formed s pipeline →
  (Compiler.compile key_resolves default_merge list_of_set'
     get_run_environment_dict pipeline stack config
     (Compiler.compile key_resolves default_merge list_of_set
        get_run_environment_dict pipeline stack config s).1).2
  = (Compiler.compile key_resolves default_merge list_of_set
       get_run_environment_dict pipeline stack config s).2
  ∧ ∀ deployment spec,
      (Compiler.compile key_resolves default_merge list_of_set
         get_run_environment_dict pipeline stack config s).2
      = Ok (deployment, spec) →
      Forall (λ step_spec, Sorted str_le (StepSpec.upstream_steps step_spec))
        (PipelineSpec.steps spec)
      ∧ PipelineSpec.steps spec
        = Step.spec
            <$> Dict.values
                  (PipelineDeploymentBaseModel.step_configurations deployment).
Proof.
  intros Hperm' Hwf.
  pose proof (compile_frames key_resolves default_merge list_of_set
                get_run_environment_dict pipeline stack config s) as Hframe.
  split.
  - rewrite (compile_exact _ _ _ _ _ _ _ _
               (well_formed_frame _ _ _ Hwf Hframe)).
    rewrite (compile_exact _ _ _ _ _ _ _ _ Hwf).
    by apply compile_pure_invariant.
  - intros deployment spec Hrun. apply compile_returns in Hrun.
    destruct Hwf as (p & Hp & Hnd & Hexist).
    destruct (compile_result_named key_resolves default_merge list_of_set
                list_of_set_perm get_run_environment_dict s pipeline p stack
                config (deployment, spec) Hrun Hp Hnd Hexist)
      as (names & Hnames & Hsteps & Hspecs & Hspec).
    cbn [fst snd] in *. split; [|done].
    rewrite Hspecs. apply Forall_fmap, Forall_fmap.
    clear -Hsteps. induction Hsteps as [|name y l k [_ Hy] _ IH];
      constructor; [|done].
    simpl. unfold step_spec_named in Hy.
    destruct (Dict.get (Pipeline.invocations p) name) as [i|]; [|done].
    destruct (steps s !! StepInvocation.step i) as [b|]; [|done].
    injection Hy as <-. apply sorted_Sorted.
Qed.

End claims.

(** * The theorems at work on the example *)

Lemma sorted_invocations_topological_witness :
  match Compiler._get_sorted_invocations elements 1%positive Example.store with
  | (s', Ok sorted) =>
      s' = Example.store
      ∧ sorted ≡ₚ Pipeline.invocations Example.pipeline
      ∧ ∀ before name invocation after,
          sorted = before ++ (name, invocation) :: after →
          ∀ upstream,
            upstream ∈ StepInvocation.upstream_steps invocation →
            upstream ∈ before.*1
  | (s', Raise e) =>
      s' = Example.store
      ∧ ¬ upstream_closed (Pipeline.invocations Example.pipeline)
      ∧ ∃ invalid available,
          invalid ≠ ∅
          ∧ e = Exn RuntimeError (InvalidUpstreamSteps invalid available)
  end.
Proof.
  apply (sorted_invocations_topological elements Example.list_of_set_perm
           1%positive Example.pipeline).
  - reflexivity.
  - exact Example.pipeline_NoDup.
  - exact Example.pipeline_acyclic.
Defined.

Lemma cycle_is_fatal_witness :
  Compiler._get_sorted_invocations elements 1%positive Example.cyclic_store
  = (Example.cyclic_store, Raise (Exn RuntimeError CycleDetected))
  ∧ (Compiler.compile_spec elements 1%positive Example.cyclic_store).2
    = Raise (Exn RuntimeError CycleDetected)
  ∧ (Compiler.compile Example.key_resolves true elements [] 1%positive
       Example.stack Example.run_configuration Example.cyclic_store).2
    = Raise (Exn RuntimeError CycleDetected)
  ∧ (Compiler.compile Example.key_resolves true elements [] 1%positive
       Example.stack Example.ghost_configuration Example.cyclic_store).2
    = Raise (Exn KeyError (NoStepWithName "ghost")).
Proof.
  destruct (cycle_is_fatal Example.key_resolves true elements
              Example.list_of_set_perm [] 1%positive Example.cyclic_pipeline
              Example.stack Example.run_configuration Example.cyclic_store)
    as (Hsorted & Hspec & Hrun).
  - reflexivity.
  - exact Example.cyclic_NoDup.
  - exact Example.cyclic_steps_exist.
  - exact Example.cyclic_closed.
  - exact Example.cyclic_has_cycle.
  - destruct (cycle_is_fatal Example.key_resolves true elements
                Example.list_of_set_perm [] 1%positive
                Example.cyclic_pipeline Example.stack
                Example.ghost_configuration Example.cyclic_store)
      as (_ & _ & Hghost).
    + reflexivity.
    + exact Example.cyclic_NoDup.
    + exact Example.cyclic_steps_exist.
    + exact Example.cyclic_closed.
    + exact Example.cyclic_has_cycle.
    + split; [exact Hsorted|]. split; [exact Hspec|].
      split; [exact Hrun | exact Hghost].
Defined.

(** [compile] on a pipeline whose two invocations wait for each other:
    with a run configuration that names a step which the pipeline does
    not have it raises the KeyError of the run configuration, and with a
    run name that has a placeholder which is not allowed it raises the
    ValueError of the run name; neither is the error of the layering, and
    neither has the class of a graph error. *)
Lemma cycle_counterexample :
  upstream_closed (Pipeline.invocations Example.cyclic_pipeline)
  ∧ Graph.has_cycle (upstream_of (Pipeline.invocations Example.cyclic_pipeline))
  ∧ (Compiler.compile Example.key_resolves true elements [] 1%positive
       Example.stack Example.ghost_configuration Example.cyclic_store).2
    = Raise (Exn KeyError (NoStepWithName "ghost"))
  ∧ (∃ payload,
       (Compiler.compile Example.key_resolves true elements [] 1%positive
          Example.stack Example.user_configuration Example.cyclic_store).2
       = Raise (Exn ValueError payload))
  ∧ (∀ config,
       config = Example.ghost_configuration
       ∨ config = Example.user_configuration →
       ∃ e,
         (Compiler.compile Example.key_resolves true elements [] 1%positive
            Example.stack config Example.cyclic_store).2 = Raise e
         ∧ e ≠ Exn RuntimeError CycleDetected
         ∧ kind_of_exception (exn_cls e) ≠ Some GraphError).
Proof.
  assert ((Compiler.compile Example.key_resolves true elements [] 1%positive
             Example.stack Example.ghost_configuration
             Example.cyclic_store).2
          = Raise (Exn KeyError (NoStepWithName "ghost"))) as Hghost
    by (vm_compute; reflexivity).
  assert (∃ payload,
            (Compiler.compile Example.key_resolves true elements []
               1%positive Example.stack Example.user_configuration
               Example.cyclic_store).2
            = Raise (Exn ValueError payload)) as [payload Huser]
    by (eexists; vm_compute; reflexivity).
  split; [exact Example.cyclic_closed|].
  split; [exact Example.cyclic_has_cycle|].
  split; [exact Hghost|]. split; [by exists payload|].
  intros config [-> | ->]; eexists; (split; [eassumption|]);
    split; discriminate.
Qed.

(** [compile] on a pipeline with a missing upstream step and a run
    configuration that names a step which the pipeline does not have:
    the KeyError of the run configuration comes first. *)
Lemma unknown_upstream_counterexample :
  ¬ upstream_closed (Pipeline.invocations Example.dangling_pipeline)
  ∧ (Compiler.compile Example.key_resolves true elements [] 1%positive
       Example.stack Example.ghost_configuration Example.dangling_store).2
    = Raise (Exn KeyError (NoStepWithName "ghost"))
  ∧ ∀ missing available,
      (Compiler.compile Example.key_resolves true elements [] 1%positive
         Example.stack Example.ghost_configuration Example.dangling_store).2
      ≠ Raise (Exn RuntimeError (InvalidUpstreamSteps missing available)).
Proof.
  assert ((Compiler.compile Example.key_resolves true elements [] 1%positive
             Example.stack Example.ghost_configuration
             Example.dangling_store).2
          = Raise (Exn KeyError (NoStepWithName "ghost"))) as Hrun
    by (vm_compute; reflexivity).
  split; [exact Example.dangling_not_closed|]. split; [exact Hrun|].
  intros missing available. rewrite Hrun. discriminate.
Qed.

(** Of the two invocations with a missing upstream step, [train] comes
    first: the error names [clean], the step that [train] waits for; the
    invocation [load] before it has no missing upstream step. With a run
    configuration that names a step which the pipeline does not have,
    [compile] raises the KeyError of the run configuration instead. *)
Lemma unknown_upstream_is_fatal_witness :
  ∃ (available missing : gset string),
    available
    = list_to_set (Dict.keys (Pipeline.invocations Example.unfinished_pipeline))
    ∧ missing
      = StepInvocation.upstream_steps Example.train_after_clean ∖ available
    ∧ "clean" ∈ missing
    ∧ ("test" ∉ missing)
    ∧ (Compiler.compile_spec elements 1%positive Example.unfinished_store).2
      = Raise (Exn RuntimeError (InvalidUpstreamSteps missing available))
    ∧ (Compiler.compile Example.key_resolves true elements [] 1%positive
         Example.stack Example.run_configuration Example.unfinished_store).2
      = Raise (Exn RuntimeError (InvalidUpstreamSteps missing available))
    ∧ (Compiler.compile Example.key_resolves true elements [] 1%positive
         Example.stack Example.ghost_configuration
         Example.unfinished_store).2
      = Raise (Exn KeyError (NoStepWithName "ghost")).
Proof.
  destruct (unknown_upstream_is_fatal Example.key_resolves true elements []
              1%positive Example.unfinished_pipeline Example.stack
              Example.run_configuration Example.unfinished_store)
    as (before & name & invocation & after & available & missing & Hitems
        & Hbefore & Havailable & Hmissing & Hne & Hspec & Hrun).
  - reflexivity.
  - exact Example.unfinished_NoDup.
  - exact Example.unfinished_steps_exist.
  - exact Example.unfinished_not_closed.
  - destruct (unknown_upstream_is_fatal Example.key_resolves true elements []
                1%positive Example.unfinished_pipeline Example.stack
                Example.ghost_configuration Example.unfinished_store)
      as (before' & name' & invocation' & after' & available' & missing'
          & _ & _ & _ & _ & _ & _ & Hghost).
    + reflexivity.
    + exact Example.unfinished_NoDup.
    + exact Example.unfinished_steps_exist.
    + exact Example.unfinished_not_closed.
    + assert (invocation = Example.train_after_clean) as ->.
      { cbn [Example.unfinished_pipeline Pipeline.invocations] in Hitems.
        destruct before as [|first [|second [|third before]]];
          cbn [app] in Hitems.
        - injection Hitems as <- <- <-. subst missing. destruct Hne.
          cbn [Example.load StepInvocation.upstream_steps].
          apply set_eq. intros x. rewrite elem_of_difference.
          split; [intros [Hx _]; exact Hx|].
          intros Hx. exfalso. exact (proj1 (elem_of_empty x) Hx).
        - injection Hitems as _ _ <- _. reflexivity.
        - injection Hitems as _ <- _. exfalso.
          assert ("clean" ∈ available) as Hclean.
          { apply (Hbefore "train" Example.train_after_clean).
            - apply list_elem_of_further, list_elem_of_here.
            - cbn [Example.train_after_clean StepInvocation.upstream_steps].
              apply elem_of_union. right. apply elem_of_singleton.
              reflexivity. }
          subst available.
          apply elem_of_list_to_set in Hclean.
          revert Hclean. apply (bool_decide_unpack _). vm_compute. exact I.
        - injection Hitems as _ _ _ Hnil. destruct before; discriminate Hnil. }
      exists available, missing. subst available missing.
      split; [reflexivity|]. split; [reflexivity|].
      split.
      { apply elem_of_difference. split.
        - cbn [Example.train_after_clean StepInvocation.upstream_steps].
          apply elem_of_union. right. apply elem_of_singleton. reflexivity.
        - rewrite elem_of_list_to_set.
          apply (bool_decide_unpack _). vm_compute. exact I. }
      split.
      { intros [Htest _]%elem_of_difference. revert Htest.
        cbn [Example.train_after_clean StepInvocation.upstream_steps].
        rewrite elem_of_union, !elem_of_singleton.
        intros [Htest|Htest]; discriminate Htest. }
      split; [exact Hspec|]. split; [exact Hrun | exact Hghost].
Defined.

(** The step [load] has [enable_cache = True]; the run configuration has
    [enable_cache = False]. *)
Lemma run_level_booleans_override_witness :
  ∃ deployment spec,
    (Compiler.compile Example.key_resolves true elements [] 1%positive
       Example.stack Example.run_configuration Example.store).2
    = Ok (deployment, spec)
    ∧ Dict.get (PipelineDeploymentBaseModel.step_configurations deployment)
        "load"
      = Some (Step.mk
                (StepSpec.mk "steps.load" [] [] "load")
                (StepConfiguration.mk (Some false) None None None None
                   [("docker", Example.settings_docker)] [] None None))
    ∧ (∀ name step,
         (name, step)
         ∈ PipelineDeploymentBaseModel.step_configurations deployment →
         (∀ v, PipelineRunConfiguration.enable_cache Example.run_configuration
               = Some v →
               StepConfiguration.enable_cache (Step.config step) = Some v)
         ∧ (∀ v, PipelineRunConfiguration.enable_artifact_metadata
                   Example.run_configuration = Some v →
                 StepConfiguration.enable_artifact_metadata (Step.config step)
                 = Some v)
         ∧ (∀ v, PipelineRunConfiguration.enable_artifact_visualization
                   Example.run_configuration = Some v →
                 StepConfiguration.enable_artifact_visualization
                   (Step.config step) = Some v))
    ∧ (∀ p, pipelines Example.store !! 1%positive = Some p →
            NoDup (Dict.keys (Pipeline.invocations p)) →
            Dict.keys
              (PipelineDeploymentBaseModel.step_configurations deployment)
            ≡ₚ Dict.keys (Pipeline.invocations p)).
Proof.
  eexists _, _. split; [vm_compute; reflexivity|].
  split; [vm_compute; reflexivity|].
  eapply (run_level_booleans_override Example.key_resolves true elements
            Example.list_of_set_perm [] 1%positive Example.stack
            Example.run_configuration Example.store).
  vm_compute. reflexivity.
Defined.

(** The step [load] and the run configuration carry settings under the
    key [step_operator.sagemaker], which the stack does not resolve:
    [compile] returns what it returns without them, a deployment whose
    pipeline has the settings under [docker] only, and leaves the notice
    in the log; so it does when the step alone carries them. *)
Lemma unresolved_settings_are_dropped_witness :
  ∃ deployment spec,
    (Compiler.compile Example.key_resolves true elements [] 1%positive
       Example.stack Example.sagemaker_configuration
       Example.sagemaker_store).2
    = Ok (deployment, spec)
    ∧ (Compiler.compile Example.key_resolves true elements [] 1%positive
         Example.stack
         (run_configuration_without "step_operator.sagemaker"
            Example.sagemaker_configuration)
         (store_without "step_operator.sagemaker"
            Example.sagemaker_store)).2
      = Ok (deployment, spec)
    ∧ PipelineConfiguration.settings
        (PipelineDeploymentBaseModel.pipeline_configuration deployment)
      = [("docker", Example.settings_docker)]
    ∧ (∀ name step,
         (name, step)
         ∈ PipelineDeploymentBaseModel.step_configurations deployment →
         "step_operator.sagemaker"
         ∉ Dict.keys (StepConfiguration.settings (Step.config step)))
    ∧ Info_not_including_settings "step_operator.sagemaker"
      ∈ log (Compiler.compile Example.key_resolves true elements []
               1%positive Example.stack Example.sagemaker_configuration
               Example.sagemaker_store).1
    ∧ Info_not_including_settings "step_operator.sagemaker"
      ∈ log (Compiler.compile Example.key_resolves true elements []
               1%positive Example.stack Example.run_configuration
               Example.sagemaker_store).1.
Proof.
  destruct (unresolved_settings_are_dropped Example.key_resolves true
              elements Example.list_of_set_perm [] Example.stack
              "step_operator.sagemaker" Example.settings_sagemaker)
    as (_ & Hsame & Hreturned & _); [reflexivity|].
  pose proof (Hsame 1%positive Example.sagemaker_configuration
                Example.sagemaker_store Example.sagemaker_store_well_formed)
    as Hwithout.
  destruct (Compiler.compile Example.key_resolves true elements []
              1%positive Example.stack Example.sagemaker_configuration
              Example.sagemaker_store).2
    as [[deployment spec]|e] eqn:Hrun; [|vm_compute in Hrun; discriminate Hrun].
  destruct (Compiler.compile Example.key_resolves true elements []
              1%positive Example.stack Example.run_configuration
              Example.sagemaker_store).2
    as [[deployment' spec']|e] eqn:Hrun';
    [|vm_compute in Hrun'; discriminate Hrun'].
  destruct (Hreturned 1%positive Example.sagemaker_configuration
              Example.sagemaker_store deployment spec Hrun)
    as (_ & Hsteps & Hformed).
  destruct (Hformed Example.pipeline) as (Hexact & Hlog & _).
  { exact Example.sagemaker_store_well_formed. }
  { reflexivity. }
  destruct (Hreturned 1%positive Example.run_configuration
              Example.sagemaker_store deployment' spec' Hrun')
    as (_ & _ & Hformed').
  destruct (Hformed' Example.pipeline) as (_ & _ & Hlogs).
  { exact Example.sagemaker_store_well_formed. }
  { reflexivity. }
  exists deployment, spec.
  split; [reflexivity|]. split; [symmetry; exact Hwithout|].
  split.
  { rewrite Hexact; [vm_compute; reflexivity|].
    apply (bool_decide_unpack _). vm_compute. exact I. }
  split; [exact Hsteps|]. split.
  - apply Hlog. left. apply (bool_decide_unpack _). vm_compute. exact I.
  - apply (Hlogs "load" Example.load
             (BaseStep.mk "steps.load" Example.configuration_load_sagemaker)).
    + apply list_elem_of_further, list_elem_of_here.
    + reflexivity.
    + apply (bool_decide_unpack _). vm_compute. exact I.
Defined.

(** The settings under [kubernetes] support the pipeline level only and
    stand on a step; the key does not resolve. *)
Lemma key_resolution_precedes_level_check_witness :
  (Compiler._filter_and_validate_settings Example.key_resolves
     ([("docker", Example.settings_docker)]
      ++ [("kubernetes", Example.settings_kubernetes)])
     STEP Example.stack Example.store).2
  = Ok [("docker", Example.settings_docker)]
  ∧ Info_not_including_settings "kubernetes"
    ∈ log (Compiler._filter_and_validate_settings Example.key_resolves
             ([("docker", Example.settings_docker)]
              ++ [("kubernetes", Example.settings_kubernetes)])
             STEP Example.stack Example.store).1.
Proof.
  destruct (key_resolution_precedes_level_check Example.key_resolves
              STEP Example.stack "kubernetes" Example.settings_kubernetes
              [("docker", Example.settings_docker)] [] Example.store)
    as [Hskip _].
  - vm_compute. intros Hin. inversion Hin as [|? ? ? Hin']. inversion Hin'.
  - vm_compute. exact I.
  - destruct (Hskip eq_refl) as [Hresult Hlog]. split; [|exact Hlog].
    rewrite Hresult. vm_compute. reflexivity.
Defined.



Lemma failures_are_typed_witness :
  ∃ p kind,
    pipelines Example.store !! 1%positive = Some p
    ∧ kind_of_exception KeyError = Some kind
    ∧ kind = ConfigurationError.
Proof.
  destruct (failures_are_typed Example.key_resolves true elements
              Example.list_of_set_perm [] 1%positive Example.stack
              Example.ghost_configuration Example.store
              (Exn KeyError (NoStepWithName "ghost")))
    as (p & kind & Hp & Hkind & _).
  - exact Example.store_well_formed.
  - vm_compute. reflexivity.
  - exists p, kind. split; [exact Hp|]. split; [exact Hkind|].
    simpl in Hkind. by injection Hkind as <-.
Defined.

(** Two calls on the example, the second enumerating the sets of step
    names backwards. *)
Lemma compile_is_deterministic_witness :
  (Compiler.compile Example.key_resolves true (reverse ∘ elements) []
     1%positive Example.stack Example.run_configuration
     (Compiler.compile Example.key_resolves true elements [] 1%positive
        Example.stack Example.run_configuration Example.store).1).2
  = (Compiler.compile Example.key_resolves true elements [] 1%positive
       Example.stack Example.run_configuration Example.store).2
  ∧ ∀ deployment spec,
      (Compiler.compile Example.key_resolves true elements [] 1%positive
         Example.stack Example.run_configuration Example.store).2
      = Ok (deployment, spec) →
      Forall (λ step_spec, Sorted str_le (StepSpec.upstream_steps step_spec))
        (PipelineSpec.steps spec)
      ∧ PipelineSpec.steps spec
        = Step.spec
            <$> Dict.values
                  (PipelineDeploymentBaseModel.step_configurations deployment).
Proof.
  apply (compile_is_deterministic Example.key_resolves true elements
           Example.list_of_set_perm [] (reverse ∘ elements) 1%positive
           Example.stack Example.run_configuration Example.store).
  - intros X. apply reverse_Permutation.
  - exact Example.store_well_formed.
Defined.

(** * Further properties of the compiler

    Properties of the functions of the compiler, each read off its code:
    what the helpers of [compile] return, raise and leave alone, and how
    the two entry points relate. *)

(** ** Merged dictionaries *)

Lemma elem_keys_of_items {V} (items : list (string * V)) k :
  k ∈ Dict.keys (Dict.of_items items) ↔ k ∈ items.*1.
Proof.
  unfold Dict.of_items.
  enough (∀ acc, k ∈ Dict.keys (foldl (λ d kv, Dict.set d kv.1 kv.2) acc items)
                 ↔ k ∈ Dict.keys acc ∨ k ∈ items.*1) as H.
  { rewrite H. split; [|by right]. intros [Hnil|?]; [|done].
    by apply elem_of_nil in Hnil. }
  induction items as [|[k0 v0] items IH]; intros acc; cbn [foldl fst snd].
  - rewrite fmap_nil, elem_of_nil. naive_solver.
  - rewrite IH, Dict.elem_keys_set, fmap_cons, elem_of_cons. naive_solver.
Qed.

(** ** The stack components that the steps require *)

(** The names that [_ensure_required_stack_components_exist] accepts for a
    component of the stack: the name of the component if the stack has
    one. *)
Definition available_components (component : option StackComponent.t) :
    gset string :=
  match component with
  | Some component => {[ StackComponent.name component ]}
  | None => ∅
  end.

(** A step that names a component asks for the one that the stack has;
    [None] and the empty name ask for nothing. *)
Definition requirement_met (component : option StackComponent.t)
    (required : option string) : Prop :=
  ∀ name, required = Some name → name ≠ "" →
          name ∈ available_components component.

(** What the loop of [_ensure_required_stack_components_exist] does with
    one step. *)
Definition check_required_components (stack : Stack.t)
    (entry : string * Step.t) : res unit :=
  let step_operator :=
    StepConfiguration.step_operator (Step.config entry.2) in
  if truthy step_operator
     && negb (bool_decide (default "" step_operator
                             ∈ available_components
                                 (Stack.step_operator stack)))
  then Raise (Exn StackValidationError
                (MissingStepOperator entry.1 (default "" step_operator)
                   (Stack.name stack)
                   (available_components (Stack.step_operator stack))))
  else
    let experiment_tracker :=
      StepConfiguration.experiment_tracker (Step.config entry.2) in
    if truthy experiment_tracker
       && negb (bool_decide (default "" experiment_tracker
                               ∈ available_components
                                   (Stack.experiment_tracker stack)))
    then Raise (Exn StackValidationError
                  (MissingExperimentTracker entry.1
                     (default "" experiment_tracker) (Stack.name stack)
                     (available_components (Stack.experiment_tracker stack))))
    else Ok tt.

Lemma ensure_required_stack_components_exist_cons stack entry steps :
  Compiler._ensure_required_stack_components_exist stack (entry :: steps)
  = match check_required_components stack entry with
    | Ok _ => Compiler._ensure_required_stack_components_exist stack steps
    | Raise e => Raise e
    end.
Proof.
  unfold Compiler._ensure_required_stack_components_exist.
  set (f := λ (r : res unit) (_ : string * Step.t), _).
  assert (∀ e l, foldl f (Raise e) l = Raise e) as Hstuck.
  { intros e l. induction l as [|[n st] l IH]; [done | exact IH]. }
  cbn [foldl].
  assert (f (Ok tt) entry = check_required_components stack entry) as ->.
  { destruct entry as [name step]. unfold f, check_required_components.
    unfold available_components. cbn [fst snd].
    repeat match goal with |- context [if ?b then _ else _] =>
      destruct b end; done. }
  destruct (check_required_components stack entry) as [[]|e]; [done|].
  apply Hstuck.
Qed.

Lemma truthy_Some (o : option string) :
  truthy o = true ↔ ∃ name, o = Some name ∧ name ≠ "".
Proof.
  destruct o as [name|]; simpl.
  - rewrite negb_true_iff, bool_decide_eq_false. naive_solver.
  - naive_solver.
Qed.

Lemma requirement_met_check component required :
  requirement_met component required
  ↔ truthy required
    && negb (bool_decide (default "" required
                            ∈ available_components component)) = false.
Proof.
  unfold requirement_met. rewrite andb_false_iff, negb_false_iff.
  rewrite bool_decide_eq_true. split.
  - intros H. destruct (truthy required) eqn:Ht; [|by left]. right.
    apply truthy_Some in Ht as (name & -> & Hne). by apply H.
  - intros [Ht|Hin] name -> Hne; [|done].
    assert (truthy (Some name) = true) as Ht'
      by (apply (proj2 (truthy_Some _)); by exists name).
    congruence.
Qed.

Lemma check_required_components_Ok stack entry :
  check_required_components stack entry = Ok tt
  ↔ requirement_met (Stack.step_operator stack)
      (StepConfiguration.step_operator (Step.config entry.2))
    ∧ requirement_met (Stack.experiment_tracker stack)
        (StepConfiguration.experiment_tracker (Step.config entry.2)).
Proof.
  rewrite !requirement_met_check. unfold check_required_components.
  cbn zeta.
  destruct (truthy (StepConfiguration.step_operator _) && _);
    destruct (truthy (StepConfiguration.experiment_tracker _) && _);
    naive_solver.
Qed.

Lemma ensure_required_stack_components_exist_Ok stack steps :
  Compiler._ensure_required_stack_components_exist stack steps = Ok tt
  ↔ Forall (λ entry, check_required_components stack entry = Ok tt) steps.
Proof.
  induction steps as [|entry steps IH].
  - split; [constructor | done].
  - rewrite ensure_required_stack_components_exist_cons, Forall_cons.
    destruct (check_required_components stack entry) as [[]|e].
    + rewrite IH. naive_solver.
    + naive_solver.
Qed.

(** X1: [_ensure_required_stack_components_exist] passes exactly when
    every step that names a step operator names the step operator of the
    stack and every step that names an experiment tracker names the
    experiment tracker of the stack; a step that names none, or the empty
    name, asks for nothing. *)
Theorem required_components_exist_iff stack steps :
  Compiler._ensure_required_stack_components_exist stack steps = Ok tt
  ↔ ∀ name step, (name, step) ∈ steps →
      requirement_met (Stack.step_operator stack)
        (StepConfiguration.step_operator (Step.config step))
      ∧ requirement_met (Stack.experiment_tracker stack)
          (StepConfiguration.experiment_tracker (Step.config step)).
Proof.
  rewrite ensure_required_stack_components_exist_Ok, Forall_forall. split.
  - intros H name step Hin.
    by apply (check_required_components_Ok stack (name, step)), H.
  - intros H [name step] Hin.
    by apply check_required_components_Ok, (H name).
Qed.

Lemma ensure_required_stack_components_exist_app stack before after :
  Compiler._ensure_required_stack_components_exist stack (before ++ after)
  = match Compiler._ensure_required_stack_components_exist stack before with
    | Ok _ => Compiler._ensure_required_stack_components_exist stack after
    | Raise e => Raise e
    end.
Proof.
  induction before as [|entry before IH]; [done|].
  rewrite <- app_comm_cons.
  rewrite !ensure_required_stack_components_exist_cons.
  by destruct (check_required_components stack entry).
Qed.

(** X2: [_ensure_required_stack_components_exist] reports the first step,
    in the order of the dictionary, that asks for a component which the
    stack does not have, whatever the steps after it ask for. The
    StackValidationError names the step, the component asked for, the
    stack and the components that the stack has; the step operator is
    checked before the experiment tracker. *)
Theorem first_missing_component_is_reported stack before name step after :
  Compiler._ensure_required_stack_components_exist stack before = Ok tt →
  (∀ step_operator,
     StepConfiguration.step_operator (Step.config step) = Some step_operator →
     step_operator ≠ "" →
     step_operator ∉ available_components (Stack.step_operator stack) →
     Compiler._ensure_required_stack_components_exist stack
       (before ++ (name, step) :: after)
     = Raise (Exn StackValidationError
                (MissingStepOperator name step_operator (Stack.name stack)
                   (available_components (Stack.step_operator stack)))))
  ∧ (∀ experiment_tracker,
       requirement_met (Stack.step_operator stack)
         (StepConfiguration.step_operator (Step.config step)) →
       StepConfiguration.experiment_tracker (Step.config step)
       = Some experiment_tracker →
       experiment_tracker ≠ "" →
       experiment_tracker
       ∉ available_components (Stack.experiment_tracker stack) →
       Compiler._ensure_required_stack_components_exist stack
         (before ++ (name, step) :: after)
       = Raise (Exn StackValidationError
                  (MissingExperimentTracker name experiment_tracker
                     (Stack.name stack)
                     (available_components
                        (Stack.experiment_tracker stack))))).
Proof.
  intros Hbefore.
  rewrite ensure_required_stack_components_exist_app, Hbefore.
  rewrite ensure_required_stack_components_exist_cons.
  unfold check_required_components. cbn [fst snd]. split.
  - intros op Hop Hne Hav. rewrite Hop. cbn [default].
    assert (truthy (Some op) = true) as ->
      by (apply (proj2 (truthy_Some _)); by exists op).
    by rewrite bool_decide_false.
  - intros tr Hmet Htr Hne Hav.
    apply requirement_met_check in Hmet. rewrite Hmet, Htr. cbn [default].
    assert (truthy (Some tr) = true) as ->
      by (apply (proj2 (truthy_Some _)); by exists tr).
    by rewrite bool_decide_false.
Qed.

(** ** The settings that pass the validation *)

Lemma validate_resolved (key_resolves : Stack.t → string → bool) level stack
    items :
  ∀ validated,
    NoDup (Dict.keys (validated ++ items)) →
    (∀ key inst, (key, inst) ∈ items → key_resolves stack key = true →
                 level ∈ BaseSettings.LEVEL inst) →
    validate key_resolves level stack validated items
    = (Info_not_including_settings
         <$> filter (λ key, key_resolves stack key = false) (Dict.keys items),
       Ok (validated
           ++ filter (λ kv, key_resolves stack kv.1 = true) items)).
Proof.
  unfold Dict.keys, Dict.t.
  induction items as [|[k i] items IH]; intros validated Hnd Hlevel.
  - simpl. by rewrite app_nil_r.
  - assert (∀ key inst, (key, inst) ∈ items →
              key_resolves stack key = true →
              level ∈ BaseSettings.LEVEL inst) as Hrest.
    { intros key inst Hin. apply Hlevel. by apply list_elem_of_further. }
    cbn [validate]. rewrite fmap_cons. cbn [fst].
    destruct (key_resolves stack k) eqn:Hk.
    + rewrite decide_True
        by (apply (Hlevel k i); [apply list_elem_of_here | done]).
      rewrite Dict.set_fresh.
      2: { unfold Dict.keys. rewrite fmap_app, fmap_cons in Hnd.
           apply NoDup_app in Hnd as (_ & Hnd & _).
           intros Hin. apply (Hnd k Hin). apply list_elem_of_here. }
      rewrite IH; [|by rewrite <- app_assoc | done].
      rewrite filter_cons_False by (simpl; congruence).
      rewrite (filter_cons_True (λ kv, key_resolves stack kv.1 = true))
        by done.
      by rewrite <- app_assoc.
    + rewrite IH; [| |done].
      2: { rewrite fmap_app, fmap_cons in Hnd. rewrite fmap_app.
           apply NoDup_app in Hnd as (H1 & H2 & H3).
           apply NoDup_cons in H3 as [_ H3].
           apply NoDup_app. split_and!; [done | | done].
           intros x Hx Hin. apply (H2 x Hx). by apply list_elem_of_further. }
      rewrite filter_cons_True by done.
      rewrite (filter_cons_False (λ kv, key_resolves stack kv.1 = true))
        by (simpl; congruence).
      done.
Qed.

(** X3: on settings with distinct keys in which every entry whose key
    resolves supports the level, [_filter_and_validate_settings] returns
    the entries whose key resolves, in the order of the settings and with
    their values, logs one notice for every other key, in that order, and
    changes nothing else in the store. *)
Theorem validated_settings_are_the_resolved_entries
    (key_resolves : Stack.t → string → bool) settings level stack s :
  NoDup (Dict.keys settings) →
  (∀ key inst, (key, inst) ∈ settings → key_resolves stack key = true →
               level ∈ BaseSettings.LEVEL inst) →
  Compiler._filter_and_validate_settings key_resolves settings level stack s
  = (mkState (pipelines s) (steps s)
       (log s
        ++ (Info_not_including_settings
              <$> filter (λ key, key_resolves stack key = false)
                    (Dict.keys settings))),
     Ok (filter (λ kv, key_resolves stack kv.1 = true) settings)).
Proof.
  intros Hnd Hlevel. rewrite filter_and_validate_settings_run.
  by rewrite (validate_resolved key_resolves level stack settings []).
Qed.

(** ** The spec of a step *)

(** X4: for an invocation whose step object exists, [_get_step_spec]
    returns a spec and leaves the store as it is. The spec has the source
    of the step object and the id of the invocation; its upstream steps
    are the upstream steps of the invocation, each once and in ascending
    order, however the set is enumerated; its inputs have the keys of the
    input artifacts, and each input names the invocation and the output
    of an artifact under its key. *)
Theorem step_spec_of_an_invocation (list_of_set : gset string → list string)
    invocation b s :
  (∀ X, list_of_set X ≡ₚ elements X) →
  steps s !! StepInvocation.step invocation = Some b →
  ∃ spec,
    Compiler._get_step_spec list_of_set invocation s = (s, Ok spec)
    ∧ StepSpec.source spec = BaseStep.source b
    ∧ StepSpec.pipeline_parameter_name spec = StepInvocation.id invocation
    ∧ Sorted str_le (StepSpec.upstream_steps spec)
    ∧ NoDup (StepSpec.upstream_steps spec)
    ∧ (∀ name, name ∈ StepSpec.upstream_steps spec
               ↔ name ∈ StepInvocation.upstream_steps invocation)
    ∧ (∀ key, key ∈ Dict.keys (StepSpec.inputs spec)
              ↔ key ∈ Dict.keys (StepInvocation.input_artifacts invocation))
    ∧ (∀ key input,
         Dict.get (StepSpec.inputs spec) key = Some input →
         ∃ artifact,
           (key, artifact) ∈ StepInvocation.input_artifacts invocation
           ∧ input = InputSpec.mk (StepArtifact.invocation_id artifact)
                       (StepArtifact.output_name artifact)).
Proof.
  intros Hperm Hb.
  exists (step_spec_of list_of_set (BaseStep.source b) invocation).
  split; [by apply get_step_spec_run|].
  unfold step_spec_of.
  cbn [StepSpec.source StepSpec.pipeline_parameter_name
       StepSpec.upstream_steps StepSpec.inputs].
  split_and!; [done | done | apply sorted_Sorted | | | |].
  - rewrite sorted_Permutation, Hperm. apply NoDup_elements.
  - intros name. rewrite sorted_Permutation, Hperm. apply elem_of_elements.
  - intros key. rewrite elem_keys_of_items.
    rewrite <- list_fmap_compose. unfold Dict.keys.
    assert (∀ l : Dict.t StepArtifact.t,
              (fst ∘ (λ '(key, artifact),
                        (key, InputSpec.mk
                                (StepArtifact.invocation_id artifact)
                                (StepArtifact.output_name artifact)))) <$> l
              = l.*1) as ->; [|done].
    intros l. apply list_fmap_ext. by intros _ [k a] _.
  - intros key input Hget.
    apply Dict.get_Some_elem, Dict.elem_of_of_items in Hget.
    apply list_elem_of_fmap in Hget as ([k a] & [= -> ->] & Hin).
    by exists a.
Qed.

(** ** Compiling one invocation *)

(** X5: [_compile_step_invocation] writes to a copy. Whether it returns
    or raises, the pipelines are as they were, every step object that
    existed is as it was, and the log has grown at its end only. If the
    step object of the invocation exists, the one object that is new
    holds the source of that step object; if it does not exist, nothing
    in the store has changed. *)
Theorem compile_step_invocation_writes_a_copy
    (key_resolves : Stack.t → string → bool)
    (list_of_set : gset string → list string) invocation pipeline_settings
    pipeline_extra stack failure_hook success_hook s :
  let r :=
    Compiler._compile_step_invocation key_resolves list_of_set invocation
      pipeline_settings pipeline_extra stack failure_hook success_hook s in
  pipelines r.1 = pipelines s
  ∧ steps s ⊆ steps r.1
  ∧ log s `prefix_of` log r.1
  ∧ match steps s !! StepInvocation.step invocation with
    | Some b =>
        ∃ l b', (l ∉ dom (steps s))
                ∧ steps r.1 = <[l := b']> (steps s)
                ∧ BaseStep.source b' = BaseStep.source b
    | None =>
        r = (s, Raise (Exn SystemError
                         (DanglingReference (StepInvocation.step invocation))))
    end.
Proof.
  cbn zeta.
  destruct (steps s !! StepInvocation.step invocation) as [b|] eqn:Hb.
  - rewrite (compile_step_invocation_run key_resolves list_of_set invocation
               pipeline_settings pipeline_extra stack failure_hook
               success_hook b s Hb).
    cbn zeta.
    pose proof (is_fresh (dom (steps s))) as Hfresh.
    destruct (validate key_resolves STEP stack []
                (StepConfiguration.settings (BaseStep.configuration b)))
      as [records [step_settings|e]]; cbn [fst snd pipelines steps log].
    + split_and!; [done | | by eexists | ].
      * apply insert_subseteq. by apply not_elem_of_dom.
      * by eexists _, _.
    + split_and!; [done | | by eexists | ].
      * apply insert_subseteq. by apply not_elem_of_dom.
      * by eexists _, _.
  - assert (Compiler._compile_step_invocation key_resolves list_of_set
              invocation pipeline_settings pipeline_extra stack failure_hook
              success_hook s
            = (s, Raise (Exn SystemError
                           (DanglingReference
                              (StepInvocation.step invocation))))) as ->.
    { unfold Compiler._compile_step_invocation, deepcopy_invocation,
        deepcopy_step.
      rewrite lookup_empty. unfold bind, read_step. by rewrite Hb. }
    done.
Qed.

Lemma or_else_None {A} (o : option A) : or_else o None = o.
Proof. by destruct o. Qed.

(** X6: in the configuration of a step that [_compile_step_invocation]
    returns, what the step sets wins over what the pipeline passes down.
    A hook is that of the step if the step has one and else that of the
    pipeline; an extra is that of the step if the step has the key and
    else that of the pipeline; settings under a key are the validated
    settings of the step merged onto those passed down under that key, or
    the ones of the two that exist. The booleans, the step operator and
    the experiment tracker are those of the step. The keys of the extras
    of the step are distinct, as those of a dictionary are. *)
Theorem step_values_win_over_pipeline_values
    (key_resolves : Stack.t → string → bool)
    (list_of_set : gset string → list string) invocation pipeline_settings
    pipeline_extra stack failure_hook success_hook s s' b step :
  steps s !! StepInvocation.step invocation = Some b →
  NoDup (Dict.keys (StepConfiguration.extra (BaseStep.configuration b))) →
  Compiler._compile_step_invocation key_resolves list_of_set invocation
    pipeline_settings pipeline_extra stack failure_hook success_hook s
  = (s', Ok step) →
  let own := BaseStep.configuration b in
  let compiled := Step.config step in
  StepConfiguration.failure_hook_source compiled
  = or_else (StepConfiguration.failure_hook_source own) failure_hook
  ∧ StepConfiguration.success_hook_source compiled
    = or_else (StepConfiguration.success_hook_source own) success_hook
  ∧ (∀ key, Dict.get (StepConfiguration.extra compiled) key
            = or_else (Dict.get (StepConfiguration.extra own) key)
                (Dict.get pipeline_extra key))
  ∧ (∃ step_settings,
       (Compiler._filter_and_validate_settings key_resolves
          (StepConfiguration.settings own) STEP stack s).2 = Ok step_settings
       ∧ ∀ key,
           Dict.get (StepConfiguration.settings compiled) key
           = match Dict.get step_settings key with
             | Some of_step =>
                 Some (match Dict.get pipeline_settings key with
                       | Some passed_down => update_model passed_down of_step
                       | None => of_step
                       end)
             | None => Dict.get pipeline_settings key
             end)
  ∧ StepConfiguration.enable_cache compiled
    = StepConfiguration.enable_cache own
  ∧ StepConfiguration.enable_artifact_metadata compiled
    = StepConfiguration.enable_artifact_metadata own
  ∧ StepConfiguration.enable_artifact_visualization compiled
    = StepConfiguration.enable_artifact_visualization own
  ∧ StepConfiguration.step_operator compiled
    = StepConfiguration.step_operator own
  ∧ StepConfiguration.experiment_tracker compiled
    = StepConfiguration.experiment_tracker own.
Proof.
  intros Hb Hnd.
  rewrite (compile_step_invocation_run key_resolves list_of_set invocation
             pipeline_settings pipeline_extra stack failure_hook
             success_hook b s Hb).
  cbn zeta. rewrite filter_and_validate_settings_run. cbn [snd].
  destruct (validate key_resolves STEP stack []
              (StepConfiguration.settings (BaseStep.configuration b)))
    as [records [step_settings|e]] eqn:Hv; cbn [fst snd]; [|done].
  intros [= _ <-]. cbn [Step.config].
  unfold compiled_configuration, update_step_configuration.
  cbn [StepConfiguration.failure_hook_source
       StepConfiguration.success_hook_source StepConfiguration.extra
       StepConfiguration.settings StepConfiguration.enable_cache
       StepConfiguration.enable_artifact_metadata
       StepConfiguration.enable_artifact_visualization
       StepConfiguration.step_operator StepConfiguration.experiment_tracker
       StepConfigurationUpdate.failure_hook_source
       StepConfigurationUpdate.success_hook_source
       StepConfigurationUpdate.extra StepConfigurationUpdate.settings
       StepConfigurationUpdate.enable_cache
       StepConfigurationUpdate.enable_artifact_metadata
       StepConfigurationUpdate.enable_artifact_visualization
       StepConfigurationUpdate.step_operator
       StepConfigurationUpdate.experiment_tracker
       merge_settings merge_extra or_else].
  split_and!; try done.
  - destruct (StepConfiguration.failure_hook_source _); [done|].
    by destruct failure_hook.
  - destruct (StepConfiguration.success_hook_source _); [done|].
    by destruct success_hook.
  - intros key. rewrite get_merge_with by done.
    destruct (Dict.get (StepConfiguration.extra _) key); [|done].
    by destruct (Dict.get pipeline_extra key).
  - exists step_settings. split; [done|]. intros key.
    apply get_merge_with.
    apply (validate_NoDup key_resolves STEP stack
             (StepConfiguration.settings (BaseStep.configuration b)) []
             step_settings);
      [apply NoDup_nil_2 | by rewrite Hv].
Qed.

(** ** The default settings of the stack components *)

Lemma apply_stack_default_settings_run pipeline stack p s :
  pipelines s !! pipeline = Some p →
  Compiler._apply_stack_default_settings pipeline stack s
  = (mkState
       (<[pipeline :=
            set_pipeline_configuration p
              (set_settings (Pipeline.configuration p)
                 (with_stack_defaults stack
                    (PipelineConfiguration.settings
                       (Pipeline.configuration p))))]>
          (pipelines s))
       (steps s) (log s),
     Ok tt).
Proof.
  intros Hp. unfold Compiler._apply_stack_default_settings.
  erewrite bind_Ok; [|by apply read_pipeline_Some].
  by rewrite (Pipeline_configure_run _ _ _ p s Hp).
Qed.

Lemma with_defaults_other components key :
  ∀ settings,
    (∀ component, component ∈ components →
       is_Some (StackComponent.settings_class component) →
       get_stack_component_setting_key component ≠ key) →
    Dict.get (foldl with_component_defaults settings components) key
    = Dict.get settings key.
Proof.
  induction components as [|c components IH]; intros settings Hother;
    [done|].
  cbn [foldl]. rewrite IH.
  - rewrite with_component_defaults_get.
    destruct (StackComponent.settings_class c) as [cls|] eqn:Hcls; [|done].
    rewrite decide_False; [done|].
    apply Hother; [apply list_elem_of_here | by rewrite Hcls].
  - intros c' Hin. apply Hother. by apply list_elem_of_further.
Qed.

Lemma with_defaults_keys components key :
  ∀ settings,
    key ∈ Dict.keys (foldl with_component_defaults settings components)
    ↔ key ∈ Dict.keys settings
      ∨ ∃ component,
          component ∈ components
          ∧ is_Some (StackComponent.settings_class component)
          ∧ get_stack_component_setting_key component = key.
Proof.
  induction components as [|c components IH]; intros settings.
  - cbn [foldl]. split; [by left|]. intros [?|(c & Hin & _)]; [done|].
    by apply elem_of_nil in Hin.
  - cbn [foldl]. rewrite IH. rewrite <- !Dict.get_is_Some.
    rewrite with_component_defaults_get. split.
    + intros [Hkey|(c' & Hin & Hcls & Hk)].
      * destruct (StackComponent.settings_class c) as [cls|] eqn:Hcls;
          [|by left].
        case_decide as Hk; [|by left].
        right. exists c. split; [apply list_elem_of_here|].
        split; [by rewrite Hcls | done].
      * right. exists c'. split; [by apply list_elem_of_further | done].
    + intros [Hkey|(c' & [->|Hin]%elem_of_cons & Hcls & Hk)].
      * left. destruct (StackComponent.settings_class c); [|done].
        by case_decide.
      * left. destruct Hcls as [cls ->]. by rewrite decide_True.
      * right. by exists c'.
Qed.

(** X7: [_apply_stack_default_settings] writes to the settings of the
    pipeline and to nothing else. Afterwards the settings hold the key of
    every stack component that has a settings class and the keys they
    had, and no others; settings under a key that is not the key of such
    a component are as they were. *)
Theorem stack_defaults_are_added pipeline stack p s :
  pipelines s !! pipeline = Some p →
  ∃ settings,
    Compiler._apply_stack_default_settings pipeline stack s
    = (mkState
         (<[pipeline :=
              set_pipeline_configuration p
                (set_settings (Pipeline.configuration p) settings)]>
            (pipelines s))
         (steps s) (log s),
       Ok tt)
    ∧ (∀ key,
         key ∈ Dict.keys settings
         ↔ key ∈ Dict.keys
                   (PipelineConfiguration.settings (Pipeline.configuration p))
           ∨ ∃ component,
               component ∈ Dict.values (Stack.components stack)
               ∧ is_Some (StackComponent.settings_class component)
               ∧ get_stack_component_setting_key component = key)
    ∧ (∀ key,
         (∀ component,
            component ∈ Dict.values (Stack.components stack) →
            is_Some (StackComponent.settings_class component) →
            get_stack_component_setting_key component ≠ key) →
         Dict.get settings key
         = Dict.get
             (PipelineConfiguration.settings (Pipeline.configuration p))
             key).
Proof.
  intros Hp.
  exists (with_stack_defaults stack
            (PipelineConfiguration.settings (Pipeline.configuration p))).
  split; [by apply apply_stack_default_settings_run|].
  rewrite with_stack_defaults_fold. split.
  - intros key. apply with_defaults_keys.
  - intros key. apply with_defaults_other.
Qed.

Lemma with_defaults_exact before component after settings_class settings :
  StackComponent.settings_class component = Some settings_class →
  (∀ other, other ∈ before ++ after →
     is_Some (StackComponent.settings_class other) →
     get_stack_component_setting_key other
     ≠ get_stack_component_setting_key component) →
  Dict.get
    (foldl with_component_defaults settings (before ++ component :: after))
    (get_stack_component_setting_key component)
  = Some (match Dict.get settings
                  (get_stack_component_setting_key component) with
          | Some existing =>
              update_model
                (Compiler._get_default_settings component settings_class)
                existing
          | None => Compiler._get_default_settings component settings_class
          end).
Proof.
  intros Hcls Hother. rewrite foldl_app. cbn [foldl].
  rewrite with_defaults_other.
  2: { intros c Hin. apply Hother. apply elem_of_app. by right. }
  rewrite with_component_defaults_get, Hcls, decide_True by done.
  rewrite with_defaults_other; [done|].
  intros c Hin. apply Hother. apply elem_of_app. by left.
Qed.

(** X8: for a stack component with a settings class whose key no other
    such component of the stack has, [_apply_stack_default_settings]
    leaves under that key the default settings of the component
    ([_get_default_settings]) if the pipeline had none under the key, and
    else the defaults updated with the settings of the pipeline: a field
    that the pipeline sets keeps the value of the pipeline, any other
    field has the default. The defaults hold fields of the settings class
    only, and of those the ones that were set on the configuration of the
    component to a value that is not the default of the class. The fields
    of the settings of the pipeline are distinct, as the keys of a
    dictionary are. *)
Theorem pipeline_settings_win_over_stack_defaults pipeline stack p s before
    component after settings_class :
  pipelines s !! pipeline = Some p →
  Dict.values (Stack.components stack) = before ++ component :: after →
  StackComponent.settings_class component = Some settings_class →
  (∀ other, other ∈ before ++ after →
     is_Some (StackComponent.settings_class other) →
     get_stack_component_setting_key other
     ≠ get_stack_component_setting_key component) →
  let key := get_stack_component_setting_key component in
  let defaults := Compiler._get_default_settings component settings_class in
  let old := PipelineConfiguration.settings (Pipeline.configuration p) in
  ∃ p' inst,
    pipelines (Compiler._apply_stack_default_settings pipeline stack s).1
      !! pipeline = Some p'
    ∧ Dict.get (PipelineConfiguration.settings (Pipeline.configuration p'))
        key = Some inst
    ∧ (Dict.get old key = None → inst = defaults)
    ∧ (∀ existing,
         Dict.get old key = Some existing →
         NoDup (Dict.keys (BaseSettings.values existing)) →
         ∀ field,
           Dict.get (BaseSettings.values inst) field
           = or_else (Dict.get (BaseSettings.values existing) field)
               (Dict.get (BaseSettings.values defaults) field))
    ∧ (∀ field value,
         (field, value) ∈ BaseSettings.values defaults →
         field ∈ SettingsClass.__fields__ settings_class
         ∧ field ∈ StackComponentConfig.fields_set
                     (StackComponent.config component)
         ∧ (field, value)
           ∈ StackComponentConfig.values (StackComponent.config component)
         ∧ Dict.get
             (StackComponentConfig.defaults (StackComponent.config component))
             field ≠ Some value).
Proof.
  intros Hp Hcomponents Hcls Hother. cbn zeta.
  rewrite (apply_stack_default_settings_run pipeline stack p s Hp).
  cbn [fst pipelines].
  eexists _, _. split; [apply lookup_insert_eq|].
  cbn [set_pipeline_configuration Pipeline.configuration set_settings
       PipelineConfiguration.settings].
  rewrite with_stack_defaults_fold, Hcomponents.
  split; [by apply with_defaults_exact|]. split_and!.
  - by intros ->.
  - intros existing -> Hnd field.
    unfold update_model. cbn [BaseSettings.values].
    rewrite get_merge_with by done.
    destruct (Dict.get (BaseSettings.values existing) field); [|done].
    cbn [or_else].
    by destruct (Dict.get
                   (BaseSettings.values
                      (Compiler._get_default_settings component
                         settings_class)) field).
  - intros field value Hin.
    unfold Compiler._get_default_settings, config_dict in Hin.
    cbn [BaseSettings.values] in Hin.
    apply list_elem_of_filter in Hin as [(H1 & H2 & H3) Hin]. done.
Qed.

(** ** The order of the compiled steps *)

Lemma Forall2_names {A} (P : string → string * A → Prop) names
    (results : list (string * A)) :
  Forall2 (λ name result, result.1 = name ∧ P name result) names results →
  names = results.*1.
Proof.
  induction 1 as [|name result names results [Hname _] _ IH]; [done|].
  by rewrite fmap_cons, Hname, IH.
Qed.

(** X9: the steps of a deployment that [compile] returns on a
    well-formed store stand in an order in which they can run: no name
    occurs twice, and every upstream step that the spec of a step lists is
    the name of a step that stands before it. *)
Theorem deployment_steps_follow_their_upstream_steps
    (key_resolves : Stack.t → string → bool) (default_merge : bool)
    (list_of_set : gset string → list string)
    (get_run_environment_dict : Dict.t string) pipeline stack config s
    deployment spec :
  (∀ X, list_of_set X ≡ₚ elements X) →
  well_formed s pipeline →
  (Compiler.compile key_resolves default_merge list_of_set
     get_run_environment_dict pipeline stack config s).2
  = Ok (deployment, spec) →
  NoDup (Dict.keys (PipelineDeploymentBaseModel.step_configurations deployment))
  ∧ ∀ before name step after,
      PipelineDeploymentBaseModel.step_configurations deployment
      = before ++ (name, step) :: after →
      ∀ upstream,
        upstream ∈ StepSpec.upstream_steps (Step.spec step) →
        upstream ∈ Dict.keys before.
Proof.
  intros Hperm (p & Hp & Hnd & Hexist) Hrun.
  apply compile_returns in Hrun.
  destruct (compile_result_named key_resolves default_merge list_of_set
              Hperm get_run_environment_dict s pipeline p stack config
              (deployment, spec) Hrun Hp Hnd Hexist)
    as (names & Hnames & Hall & _).
  cbn [fst] in Hall.
  destruct (sorted_step_names_Ok list_of_set Hperm _ _ Hnd Hnames)
    as [Hkeys Htop].
  pose proof (Forall2_names _ _ _ Hall) as Heq.
  split.
  - unfold Dict.keys at 1. rewrite <- Heq, Hkeys. done.
  - intros before name step after Hsteps upstream Hup.
    rewrite Hsteps in Hall, Heq.
    apply Forall2_app_inv_r in Hall as (n1 & n2 & _ & Hall & _).
    apply Forall2_cons_inv_r in Hall as (n & n2' & [Hn Hspec] & _ & _).
    cbn [fst snd] in Hn, Hspec. subst n.
    rewrite fmap_app, fmap_cons in Heq. cbn [fst] in Heq.
    apply (Htop before.*1 name after.*1 Heq).
    unfold step_spec_named in Hspec. unfold upstream_of.
    destruct (Dict.get (Pipeline.invocations p) name) as [inv|]; [|done].
    destruct (steps s !! StepInvocation.step inv) as [b|]; [|done].
    injection Hspec as Hspec. rewrite <- Hspec in Hup.
    cbn [step_spec_of StepSpec.upstream_steps] in Hup.
    rewrite sorted_Permutation, Hperm in Hup. exact Hup.
Qed.

(** ** The spec of a pipeline *)

(** What [compile_spec] returns or raises, computed from the pipeline
    object and the step objects of the caller. *)
Definition compile_spec_pure (list_of_set : gset string → list string)
    (s : State) (pipeline : loc) : res PipelineSpec.t :=
  match pipelines s !! pipeline with
  | None => Raise (Exn SystemError (DanglingReference pipeline))
  | Some p =>
  match verify_all (list_to_set (Dict.keys (Pipeline.invocations p)))
          (Pipeline.invocations p) with
  | Raise e => Raise e
  | Ok _ =>
  match sorted_step_names list_of_set (Pipeline.invocations p) with
  | Raise e => Raise e
  | Ok names =>
      let step_specs := omap (step_spec_named list_of_set s p) names in
      Ok (if Pipeline.is_base_pipeline p
          then PipelineSpec.mk (Some "0.3") None None step_specs
          else PipelineSpec.mk None (Some (Pipeline.source p))
                 (Some (Pipeline._parameters p)) step_specs)
  end end end.

Lemma omap_Forall2 {A B} (f : A → option B) l k :
  Forall2 (λ x y, f x = Some y) l k → omap f l = k.
Proof.
  induction 1 as [|x y l k Hxy _ IH]; [done|].
  csimpl. by rewrite Hxy, IH.
Qed.

Lemma spec_from_named (list_of_set : gset string → list string) s p entry
    spec :
  NoDup (Dict.keys (Pipeline.invocations p)) →
  (∀ name invocation, (name, invocation) ∈ Pipeline.invocations p →
     is_Some (steps s !! StepInvocation.step invocation)) →
  spec_from list_of_set s p entry spec →
  step_spec_named list_of_set s p entry.1 = Some spec.
Proof.
  intros Hnd Hexist (original & source & Hin & Hset & Hsource & ->).
  unfold step_spec_named. rewrite (Dict.elem_get _ _ _ Hnd Hin).
  destruct (Hexist _ _ Hin) as [b Hb]. rewrite Hb, (Hsource b Hb), Hset.
  done.
Qed.

(** [compile_spec] computes [compile_spec_pure]. *)
Lemma compile_spec_exact (list_of_set : gset string → list string) s
    pipeline :
  well_formed s pipeline →
  (Compiler.compile_spec list_of_set pipeline s).2
  = compile_spec_pure list_of_set s pipeline.
Proof.
  intros (p & Hp & Hnd & Hexist). unfold compile_spec_pure. rewrite Hp.
  pose proof (compile_spec_outcome list_of_set s pipeline s
                (conj eq_refl eq_refl)) as H.
  destruct (Compiler.compile_spec list_of_set pipeline s) as [s' [spec|e]];
    cbn [snd].
  - destruct H as (_ & p0 & sorted & step_specs & Hp0 & Hfrom & Hsorted & ->).
    rewrite Hp in Hp0. injection Hp0 as <-.
    destruct (Hsorted Hnd) as [Hclosed Hnames].
    rewrite (proj1 (upstream_closed_verify_all _) Hclosed), Hnames.
    cbn zeta.
    assert (omap (step_spec_named list_of_set s p) sorted.*1 = step_specs)
      as ->; [|done].
    apply omap_Forall2, Forall2_fmap_l.
    eapply Forall2_impl; [exact Hfrom|].
    intros entry spec. by apply spec_from_named.
  - destruct H as [_ H]. specialize (H p Hp Hnd Hexist).
    destruct (verify_all _ (Pipeline.invocations p)); [|by subst].
    by rewrite H.
Qed.

Lemma step_spec_named_ext list_of_set list_of_set' s p name :
  (∀ X, list_of_set X ≡ₚ elements X) →
  (∀ X, list_of_set' X ≡ₚ elements X) →
  step_spec_named list_of_set s p name = step_spec_named list_of_set' s p name.
Proof.
  intros Hperm Hperm'. unfold step_spec_named.
  destruct (Dict.get (Pipeline.invocations p) name) as [inv|]; [|done].
  destruct (steps s !! StepInvocation.step inv) as [b|]; [|done].
  by rewrite (step_spec_of_ext list_of_set list_of_set').
Qed.

Lemma compile_spec_pure_ext list_of_set list_of_set' s pipeline :
  (∀ X, list_of_set X ≡ₚ elements X) →
  (∀ X, list_of_set' X ≡ₚ elements X) →
  compile_spec_pure list_of_set s pipeline
  = compile_spec_pure list_of_set' s pipeline.
Proof.
  intros Hperm Hperm'. unfold compile_spec_pure.
  destruct (pipelines s !! pipeline) as [p|]; [|done].
  destruct (verify_all _ (Pipeline.invocations p)); [|done].
  rewrite (sorted_step_names_ext list_of_set list_of_set' _ Hperm Hperm').
  destruct (sorted_step_names list_of_set' (Pipeline.invocations p))
    as [names|]; [|done].
  cbn zeta.
  assert (omap (step_spec_named list_of_set s p) names
          = omap (step_spec_named list_of_set' s p) names) as ->; [|done].
  induction names as [|n names IH]; [done|]. csimpl.
  by rewrite IH, (step_spec_named_ext list_of_set list_of_set').
Qed.

(** X10: on a well-formed store, the spec that [compile] returns beside
    the deployment is the spec that [compile_spec] returns for the same
    pipeline: the run
    configuration and the stack have no part in it, and neither has the
    order in which the two calls enumerate the sets of step names. *)
Theorem compile_spec_agrees_with_compile
    (key_resolves : Stack.t → string → bool) (default_merge : bool)
    (list_of_set list_of_set' : gset string → list string)
    (get_run_environment_dict : Dict.t string) pipeline stack config s
    deployment spec :
  (∀ X, list_of_set X ≡ₚ elements X) →
  (∀ X, list_of_set' X ≡ₚ elements X) →
  well_formed s pipeline →
  (Compiler.compile key_resolves default_merge list_of_set
     get_run_environment_dict pipeline stack config s).2
  = Ok (deployment, spec) →
  (Compiler.compile_spec list_of_set' pipeline s).2 = Ok spec.
Proof.
  intros Hperm Hperm' Hwf Hrun.
  rewrite (compile_spec_exact list_of_set' s pipeline Hwf).
  rewrite <- (compile_spec_pure_ext list_of_set list_of_set' s pipeline
                Hperm Hperm').
  destruct Hwf as (p & Hp & Hnd & Hexist).
  apply compile_returns in Hrun.
  destruct (compile_result_named key_resolves default_merge list_of_set
              Hperm get_run_environment_dict s pipeline p stack config
              (deployment, spec) Hrun Hp Hnd Hexist)
    as (names & Hnames & Hall & Hsteps & Hspec).
  destruct Hrun
    as (p0 & validated & sorted & compiled & Hp0 & _ & _ & _ & _ & Hsorted
        & _).
  rewrite Hp in Hp0. injection Hp0 as Hp0. subst p0.
  destruct (Hsorted Hnd) as [Hclosed _].
  unfold compile_spec_pure.
  rewrite Hp, (proj1 (upstream_closed_verify_all _) Hclosed), Hnames.
  cbn zeta. cbn [fst snd] in Hall, Hsteps, Hspec.
  assert (omap (step_spec_named list_of_set s p) names
          = PipelineSpec.steps spec) as ->; [|by rewrite <- Hspec].
  rewrite Hsteps. apply omap_Forall2.
  rewrite <- list_fmap_compose. apply Forall2_fmap_r.
  eapply Forall2_impl; [exact Hall|]. by intros name result [_ H].
Qed.

Lemma sorted_step_names_acyclic (list_of_set : gset string → list string)
    invocations :
  (∀ X, list_of_set X ≡ₚ elements X) →
  NoDup (Dict.keys invocations) →
  upstream_closed invocations →
  is_Ok (sorted_step_names list_of_set invocations)
  ↔ Graph.acyclic (upstream_of invocations).
Proof.
  intros Hperm Hnd Hclosed. split.
  - destruct (sorted_step_names list_of_set invocations) as [names|e] eqn:Hs;
      [|done].
    intros _.
    destruct (sorted_step_names_Ok list_of_set Hperm _ _ Hnd Hs)
      as [Hkeys Htop].
    apply (Graph.topological_acyclic _ names Htop).
    intros n Hn. rewrite Hkeys. unfold upstream_of in Hn.
    apply Dict.get_is_Some. by destruct (Dict.get invocations n).
  - intros Hacyclic. unfold sorted_step_names.
    destruct (topsort.topsorted_layers _ _ _) as [layers|e] eqn:Hl; [done|].
    apply topsort.topsorted_layers_Raise in Hl as [_ [n Hn]]; [|done| |].
    + destruct (Hacyclic n). by apply (tc_get_parent_nodes list_of_set Hperm).
    + intros n q. by apply upstream_closed_parents.
    + intros n q. by apply get_child_nodes_reverses.
Qed.

(** X11: on a store that is well formed at the pipeline, [compile_spec]
    returns a spec exactly when every upstream step of every invocation
    is an invocation of the pipeline and no invocation reaches itself
    along upstream steps. *)
Theorem compile_spec_succeeds_iff (list_of_set : gset string → list string)
    pipeline p s :
  (∀ X, list_of_set X ≡ₚ elements X) →
  well_formed s pipeline →
  pipelines s !! pipeline = Some p →
  is_Ok (Compiler.compile_spec list_of_set pipeline s).2
  ↔ upstream_closed (Pipeline.invocations p)
    ∧ Graph.acyclic (upstream_of (Pipeline.invocations p)).
Proof.
  intros Hperm Hwf Hp.
  rewrite (compile_spec_exact list_of_set s pipeline Hwf).
  destruct Hwf as (p' & Hp' & Hnd & _).
  rewrite Hp in Hp'. injection Hp' as Hp'. subst p'.
  unfold compile_spec_pure. rewrite Hp.
  rewrite upstream_closed_verify_all.
  destruct (verify_all _ (Pipeline.invocations p)) as [[]|e] eqn:Hv.
  - apply upstream_closed_verify_all in Hv.
    rewrite <- (sorted_step_names_acyclic list_of_set _ Hperm Hnd Hv).
    destruct (sorted_step_names list_of_set (Pipeline.invocations p));
      naive_solver.
  - naive_solver.
Qed.

(** X12: a spec that [compile_spec] returns on a well-formed store lists
    the invocations of the pipeline, each once and after the invocations
    it names as upstream
    steps; the spec of an invocation is built from the invocation and
    from the source of its step object. The spec of a legacy pipeline has
    the version ["0.3"] and neither source nor parameters; any other spec
    has the source and the parameters of the pipeline and no version. *)
Theorem compile_spec_lists_every_invocation
    (list_of_set : gset string → list string) pipeline p s spec :
  (∀ X, list_of_set X ≡ₚ elements X) →
  well_formed s pipeline →
  pipelines s !! pipeline = Some p →
  (Compiler.compile_spec list_of_set pipeline s).2 = Ok spec →
  (∃ names,
     names ≡ₚ Dict.keys (Pipeline.invocations p)
     ∧ Graph.topological (upstream_of (Pipeline.invocations p)) names
     ∧ Forall2
         (λ name step_spec,
            ∃ invocation b,
              Dict.get (Pipeline.invocations p) name = Some invocation
              ∧ steps s !! StepInvocation.step invocation = Some b
              ∧ step_spec
                = StepSpec.mk (BaseStep.source b)
                    (sorted (elements
                               (StepInvocation.upstream_steps invocation)))
                    (Dict.of_items
                       ((λ '(key, artifact),
                           (key, InputSpec.mk
                                   (StepArtifact.invocation_id artifact)
                                   (StepArtifact.output_name artifact)))
                          <$> StepInvocation.input_artifacts invocation))
                    (StepInvocation.id invocation))
         names (PipelineSpec.steps spec))
  ∧ (PipelineSpec.version spec, PipelineSpec.source spec,
     PipelineSpec.parameters spec)
    = (if Pipeline.is_base_pipeline p
       then (Some "0.3", None, None)
       else (None, Some (Pipeline.source p),
             Some (Pipeline._parameters p))).
Proof.
  intros Hperm Hwf Hp.
  rewrite (compile_spec_exact list_of_set s pipeline Hwf).
  destruct Hwf as (p' & Hp' & Hnd & Hexist).
  rewrite Hp in Hp'. injection Hp' as Hp'. subst p'.
  unfold compile_spec_pure. rewrite Hp.
  destruct (verify_all _ (Pipeline.invocations p)) as [[]|e]; [|done].
  destruct (sorted_step_names list_of_set (Pipeline.invocations p))
    as [names|e] eqn:Hs; [|done].
  cbn zeta. intros [= <-].
  destruct (sorted_step_names_Ok list_of_set Hperm _ _ Hnd Hs)
    as [Hkeys Htop].
  split; [|by destruct (Pipeline.is_base_pipeline p)].
  exists names. split_and!; [done | done |].
  assert (PipelineSpec.steps
            (if Pipeline.is_base_pipeline p
             then PipelineSpec.mk (Some "0.3") None None
                    (omap (step_spec_named list_of_set s p) names)
             else PipelineSpec.mk None (Some (Pipeline.source p))
                    (Some (Pipeline._parameters p))
                    (omap (step_spec_named list_of_set s p) names))
          = omap (step_spec_named list_of_set s p) names) as ->
    by (by destruct (Pipeline.is_base_pipeline p)).
  assert (Forall (λ name, name ∈ Dict.keys (Pipeline.invocations p)) names)
    as Hall.
  { apply Forall_forall. intros name Hin. by rewrite <- Hkeys. }
  clear Hs Hkeys Htop.
  induction Hall as [|name names Hname _ IH]; [constructor|].
  apply Dict.get_is_Some in Hname as [inv Hinv].
  destruct (Hexist name inv (Dict.get_Some_elem _ _ _ Hinv)) as [b Hb].
  csimpl. unfold step_spec_named at 1. rewrite Hinv, Hb.
  constructor; [|exact IH].
  exists inv, b. split_and!; [done | done |].
  unfold step_spec_of. f_equal. apply sorted_unique, Hperm.
Qed.

(** ** The run configuration *)

(** X13: on a well-formed store, a run configuration that configures a
    step which the pipeline does not have makes [compile] raise the
    KeyError of the first such
    step, in the order of the run configuration, whatever else is wrong
    with the run name, the settings, the upstream steps or the stack. *)
Theorem unknown_step_of_the_run_configuration
    (key_resolves : Stack.t → string → bool) (default_merge : bool)
    (list_of_set : gset string → list string)
    (get_run_environment_dict : Dict.t string) pipeline p stack config s
    before name update after :
  well_formed s pipeline →
  pipelines s !! pipeline = Some p →
  PipelineRunConfiguration.steps config = before ++ (name, update) :: after →
  (∀ known, known ∈ Dict.keys before →
            known ∈ Dict.keys (Pipeline.invocations p)) →
  name ∉ Dict.keys (Pipeline.invocations p) →
  (Compiler.compile key_resolves default_merge list_of_set
     get_run_environment_dict pipeline stack config s).2
  = Raise (Exn KeyError (NoStepWithName name)).
Proof.
  intros Hwf Hp Hsteps Hknown Hname.
  rewrite (compile_exact key_resolves default_merge list_of_set
             get_run_environment_dict s pipeline stack config Hwf).
  unfold compile_pure. rewrite Hp.
  assert (first_unknown_step config (Pipeline.invocations p) = Some name)
    as ->; [|done].
  unfold first_unknown_step. rewrite Hsteps.
  unfold Dict.keys, Dict.t in *.
  rewrite fmap_app, fmap_cons, filter_app.
  rewrite filter_none.
  - by rewrite filter_cons_True.
  - apply Forall_forall. intros known Hin Hnot. by apply Hnot, Hknown.
Qed.

(** X14: the configuration of the pipeline in a deployment that
    [compile] returns has, for each of the three booleans, the value of
    the run configuration if the run configuration sets it and else the
    value of the pipeline; the hooks are those of the pipeline; the extras
    are those of the run configuration, merged onto or put in the place
    of those of the pipeline as the default of [configure] says. *)
Theorem run_configuration_reaches_the_pipeline_configuration
    (key_resolves : Stack.t → string → bool) (default_merge : bool)
    (list_of_set : gset string → list string)
    (get_run_environment_dict : Dict.t string) pipeline p stack config s
    deployment spec :
  pipelines s !! pipeline = Some p →
  (Compiler.compile key_resolves default_merge list_of_set
     get_run_environment_dict pipeline stack config s).2
  = Ok (deployment, spec) →
  let own := Pipeline.configuration p in
  let compiled :=
    PipelineDeploymentBaseModel.pipeline_configuration deployment in
  PipelineConfiguration.enable_cache compiled
  = or_else (PipelineRunConfiguration.enable_cache config)
      (PipelineConfiguration.enable_cache own)
  ∧ PipelineConfiguration.enable_artifact_metadata compiled
    = or_else (PipelineRunConfiguration.enable_artifact_metadata config)
        (PipelineConfiguration.enable_artifact_metadata own)
  ∧ PipelineConfiguration.enable_artifact_visualization compiled
    = or_else (PipelineRunConfiguration.enable_artifact_visualization config)
        (PipelineConfiguration.enable_artifact_visualization own)
  ∧ PipelineConfiguration.failure_hook_source compiled
    = PipelineConfiguration.failure_hook_source own
  ∧ PipelineConfiguration.success_hook_source compiled
    = PipelineConfiguration.success_hook_source own
  ∧ PipelineConfiguration.extra compiled
    = (if default_merge
       then Dict.merge_with (λ _ value, value)
              (PipelineConfiguration.extra own)
              (PipelineRunConfiguration.extra config)
       else PipelineRunConfiguration.extra config)
  ∧ PipelineDeploymentBaseModel.client_environment deployment
    = get_run_environment_dict.
Proof.
  intros Hp Hrun. apply compile_returns in Hrun.
  destruct Hrun
    as (p0 & validated & sorted & compiled & Hp0 & _ & _ & _ & _ & _ & Hd
        & _).
  rewrite Hp in Hp0. injection Hp0 as Hp0. subst p0.
  cbn [fst] in Hd. subst deployment. cbn zeta.
  by cbn [PipelineDeploymentBaseModel.pipeline_configuration
          PipelineDeploymentBaseModel.client_environment].
Qed.

(** ** The settings of a deployment *)

Lemma Forall_set {V} (Q : V → Prop) (d : Dict.t V) k v :
  Forall (λ kv, Q kv.2) d → Q v → Forall (λ kv, Q kv.2) (Dict.set d k v).
Proof.
  intros Hd Hv. apply Forall_forall. intros x Hx.
  apply Dict.elem_of_set in Hx as [Hx | ->]; [|done].
  by apply (proj1 (Forall_forall _ _) Hd).
Qed.

Lemma Forall_merge_with {V} (Q : V → Prop) (f : V → V → V)
    (d upd : Dict.t V) :
  (∀ old new, Q old → Q new → Q (f old new)) →
  Forall (λ kv, Q kv.2) d → Forall (λ kv, Q kv.2) upd →
  Forall (λ kv, Q kv.2) (Dict.merge_with f d upd).
Proof.
  intros Hf Hd Hupd. unfold Dict.merge_with. revert d Hd.
  induction Hupd as [|[k v] upd Hv _ IH]; intros d Hd; [done|].
  cbn [foldl fst snd]. apply IH.
  destruct (Dict.get d k) as [old|] eqn:Hold; apply Forall_set; try done.
  apply Hf; [|done]. apply Dict.get_Some_elem in Hold.
  by apply (proj1 (Forall_forall _ _) Hd (k, old)).
Qed.

(** X15: in a deployment that [compile] returns, settings of the pipeline
    whose class supports the step level are passed down to every step:
    the step has settings under the same key, which are those of the
    pipeline, updated with the settings of the step under that key if
    the step has any. The settings of the step are those of the step
    object of the invocation of that name, as the run configuration
    leaves them: when they have an entry under the key, the compiled
    settings are those of the pipeline updated with that entry, and
    otherwise they are those of the pipeline. *)
Theorem pipeline_settings_are_passed_down
    (key_resolves : Stack.t → string → bool) (default_merge : bool)
    (list_of_set : gset string → list string)
    (get_run_environment_dict : Dict.t string) pipeline stack config s
    deployment spec :
  (Compiler.compile key_resolves default_merge list_of_set
     get_run_environment_dict pipeline stack config s).2
  = Ok (deployment, spec) →
  ∀ key of_pipeline,
    Dict.get
      (PipelineConfiguration.settings
         (PipelineDeploymentBaseModel.pipeline_configuration deployment))
      key = Some of_pipeline →
    STEP ∈ BaseSettings.LEVEL of_pipeline →
    ∀ name step,
      (name, step)
      ∈ PipelineDeploymentBaseModel.step_configurations deployment →
      ∃ compiled,
        Dict.get (StepConfiguration.settings (Step.config step)) key
        = Some compiled
        ∧ (compiled = of_pipeline
           ∨ ∃ of_step, compiled = update_model of_pipeline of_step)
        ∧ ∀ p,
            well_formed s pipeline →
            pipelines s !! pipeline = Some p →
            ∃ invocation b,
              Dict.get (Pipeline.invocations p) name = Some invocation
              ∧ steps s !! StepInvocation.step invocation = Some b
              ∧ (NoDup (Dict.keys
                          (StepConfiguration.settings
                             (run_configured default_merge
                                (Pipeline.invocations p) config
                                (StepInvocation.step invocation)
                                (BaseStep.configuration b)))) →
                 compiled
                 = match Dict.get
                           (StepConfiguration.settings
                              (run_configured default_merge
                                 (Pipeline.invocations p) config
                                 (StepInvocation.step invocation)
                                 (BaseStep.configuration b)))
                           key with
                   | Some of_step => update_model of_pipeline of_step
                   | None => of_pipeline
                   end).
Proof.
  intros Hrun key of_pipeline Hget Hlevel name step Hin.
  assert (key_resolves stack key = true) as Hkey.
  { pose proof Hrun as Hresult. apply compile_returns in Hresult.
    destruct Hresult
      as (p0 & validated & sorted & compiled & _ & _ & _ & Hvalid & _ & _
          & Hd & _).
    cbn [fst] in Hd. subst deployment.
    cbn [PipelineDeploymentBaseModel.pipeline_configuration set_settings
         PipelineConfiguration.settings] in Hget.
    apply (validate_Ok_resolved key_resolves _ _ _ _ Hvalid).
    apply Dict.get_is_Some. by rewrite Hget. }
  assert (∃ compiled,
            Dict.get (StepConfiguration.settings (Step.config step)) key
            = Some compiled
            ∧ (compiled = of_pipeline
               ∨ ∃ of_step, compiled = update_model of_pipeline of_step))
    as (compiled & Hcompiled & Hshape).
  { pose proof Hrun as Hresult. apply compile_returns in Hresult.
    destruct Hresult
      as (p0 & validated & sorted & compiled & _ & _ & _ & _ & Hsteps & _
          & Hd & _).
    cbn [fst] in Hd. subst deployment.
    cbn [PipelineDeploymentBaseModel.pipeline_configuration
         PipelineDeploymentBaseModel.step_configurations set_settings
         PipelineConfiguration.settings] in Hget, Hin.
    apply Dict.elem_of_of_items in Hin.
    destruct (elem_of_Forall2_r _ _ _ _ Hsteps Hin)
      as (entry & _ & _ & original & source & k & step_settings & _ & _ & _
          & _ & Hvalid & Hresult).
    cbn [snd] in Hresult. subst step. cbn [Step.config].
    unfold compiled_configuration, update_step_configuration.
    cbn [StepConfiguration.settings StepConfigurationUpdate.settings
         merge_settings].
    rewrite get_merge_with.
    2: { apply (validate_NoDup key_resolves STEP stack
                  (StepConfiguration.settings k) [] step_settings);
           [apply NoDup_nil_2 | done]. }
    rewrite (get_filter (λ kv, STEP ∈ BaseSettings.LEVEL kv.2) validated key
               of_pipeline Hget Hlevel).
    destruct (Dict.get step_settings key) as [of_step|]; eexists;
      (split; [done|]); [right; by eexists | by left]. }
  exists compiled. split_and!; [done..|].
  intros p Hwf Hp.
  destruct (compile_step_settings key_resolves default_merge list_of_set
              get_run_environment_dict s pipeline p stack config deployment
              spec name step Hwf Hp Hrun Hin)
    as (invocation & b & step_settings & Hinv & Hb & Hvalid & Hsettings).
  exists invocation, b. split_and!; [done..|]. intros Hnd.
  rewrite Hsettings, get_merge_with in Hcompiled.
  2: { apply (validate_NoDup key_resolves STEP stack
                (StepConfiguration.settings
                   (run_configured default_merge (Pipeline.invocations p)
                      config (StepInvocation.step invocation)
                      (BaseStep.configuration b)))
                [] step_settings);
         [apply NoDup_nil_2 | exact Hvalid]. }
  rewrite (get_filter (λ kv, STEP ∈ BaseSettings.LEVEL kv.2)
             (PipelineConfiguration.settings
                (PipelineDeploymentBaseModel.pipeline_configuration
                   deployment))
             key of_pipeline Hget Hlevel) in Hcompiled.
  rewrite (validate_get key_resolves STEP stack
             (StepConfiguration.settings
                (run_configured default_merge (Pipeline.invocations p)
                   config (StepInvocation.step invocation)
                   (BaseStep.configuration b)))
             step_settings key Hnd Hvalid Hkey) in Hcompiled.
  destruct (Dict.get
              (StepConfiguration.settings
                 (run_configured default_merge (Pipeline.invocations p)
                    config (StepInvocation.step invocation)
                    (BaseStep.configuration b)))
              key); congruence.
Qed.

(** X16: in a deployment that [compile] returns, every settings object
    stands on a level that its class supports and under a key that
    resolves: those of the pipeline support the pipeline level, those of
    every step the step level. *)
Theorem deployment_settings_support_their_level
    (key_resolves : Stack.t → string → bool) (default_merge : bool)
    (list_of_set : gset string → list string)
    (get_run_environment_dict : Dict.t string) pipeline stack config s
    deployment spec :
  (Compiler.compile key_resolves default_merge list_of_set
     get_run_environment_dict pipeline stack config s).2
  = Ok (deployment, spec) →
  (∀ key inst,
     (key, inst)
     ∈ PipelineConfiguration.settings
         (PipelineDeploymentBaseModel.pipeline_configuration deployment) →
     PIPELINE ∈ BaseSettings.LEVEL inst ∧ key_resolves stack key = true)
  ∧ (∀ name step key inst,
       (name, step)
       ∈ PipelineDeploymentBaseModel.step_configurations deployment →
       (key, inst) ∈ StepConfiguration.settings (Step.config step) →
       STEP ∈ BaseSettings.LEVEL inst ∧ key_resolves stack key = true).
Proof.
  intros Hrun. apply compile_returns in Hrun.
  destruct Hrun
    as (p0 & validated & sorted & compiled & _ & _ & _ & Hvalidated & Hsteps
        & _ & Hd & _).
  cbn [fst] in Hd. subst deployment.
  cbn [PipelineDeploymentBaseModel.pipeline_configuration
       PipelineDeploymentBaseModel.step_configurations set_settings
       PipelineConfiguration.settings].
  assert (∀ level items validated',
            (validate key_resolves level stack [] items).2 = Ok validated' →
            ∀ key inst, (key, inst) ∈ validated' →
              level ∈ BaseSettings.LEVEL inst
              ∧ key_resolves stack key = true) as Hok.
  { intros level items validated' Hv key inst Hin.
    destruct (validate_Ok key_resolves level stack items [] validated' Hv
                key inst Hin) as [Hnil|(_ & ? & ?)]; [|done].
    by apply elem_of_nil in Hnil. }
  split; [by apply (Hok PIPELINE _ validated Hvalidated)|].
  intros name step key inst Hin Hinst.
  apply Dict.elem_of_of_items in Hin.
  destruct (elem_of_Forall2_r _ _ _ _ Hsteps Hin)
    as (entry & _ & _ & original & source & k & step_settings & _ & _ & _
        & _ & Hvalid & Hresult).
  cbn [snd] in Hresult. subst step. cbn [Step.config] in Hinst.
  unfold compiled_configuration, update_step_configuration in Hinst.
  cbn [StepConfiguration.settings StepConfigurationUpdate.settings
       merge_settings] in Hinst.
  split.
  - enough (Forall (λ kv : string * BaseSettings.t,
                      STEP ∈ BaseSettings.LEVEL kv.2)
              (Dict.merge_with update_model
                 (filter (λ kv, STEP ∈ BaseSettings.LEVEL kv.2) validated)
                 step_settings)) as Hall
      by exact (proj1 (Forall_forall _ _) Hall (key, inst) Hinst).
    apply (Forall_merge_with (λ inst, STEP ∈ BaseSettings.LEVEL inst)).
    + by intros old new Hold _.
    + apply Forall_forall. intros [k' i'] Hin'.
      by apply list_elem_of_filter in Hin' as [? _].
    + apply Forall_forall. intros [k' i'] Hin'.
      by apply (Hok STEP _ step_settings Hvalid k' i').
  - assert (key ∈ Dict.keys (Dict.merge_with update_model
                               (filter (λ kv, STEP ∈ BaseSettings.LEVEL kv.2)
                                  validated) step_settings)) as Hkey.
    { apply list_elem_of_fmap. by exists (key, inst). }
    apply Dict.elem_keys_merge_with in Hkey as [Hkey|Hkey];
      apply list_elem_of_fmap in Hkey as ([k' i'] & -> & Hin').
    + apply list_elem_of_filter in Hin' as [_ Hin'].
      by apply (Hok PIPELINE _ validated Hvalidated k' i').
    + by apply (Hok STEP _ step_settings Hvalid k' i').
Qed.

(** ** Run names without braces *)

(** The string holds neither [{] nor [}]. *)
Definition brace_free (s : string) : Prop :=
  Forall (λ c, c ≠ Formatter.open_brace ∧ c ≠ Formatter.close_brace)
    (list_ascii_of_string s).

Lemma append_cons x (s rest : string) :
  String x s +:+ rest = String x (s +:+ rest).
Proof. reflexivity. Qed.

Lemma append_snoc (literal : string) c rest :
  Formatter.snoc literal c +:+ rest = literal +:+ String c rest.
Proof.
  unfold Formatter.snoc. induction literal as [|x literal IH]; [done|].
  by rewrite !append_cons, IH.
Qed.

Lemma append_empty (s : string) : s +:+ "" = s.
Proof.
  induction s as [|x s IH]; [done|]. by rewrite append_cons, IH.
Qed.

(** Text without braces is literal text. *)
Lemma scan_literal text :
  brace_free text →
  ∀ literal rest,
    Formatter.scan (Formatter.Literal literal) (text +:+ rest)
    = Formatter.scan (Formatter.Literal (literal +:+ text)) rest.
Proof.
  unfold brace_free.
  induction text as [|c text IH]; intros Hfree literal rest.
  - by rewrite append_empty.
  - cbn [list_ascii_of_string] in Hfree.
    apply Forall_cons in Hfree as [[Hopen Hclose] Hfree].
    rewrite append_cons. cbn [Formatter.scan].
    rewrite !decide_False by done.
    by rewrite (IH Hfree), append_snoc.
Qed.

Lemma parse_literal text :
  brace_free text →
  Formatter.parse text
  = Ok (if decide (text = "") then [] else [(text, None)]).
Proof.
  intros Hfree. unfold Formatter.parse.
  rewrite <- (append_empty text) at 1.
  rewrite (scan_literal text Hfree "" "").
  change ("" +:+ text) with text. cbn [Formatter.scan].
  by destruct text.
Qed.

(** X17: a run name that holds no brace holds no placeholder, and
    [_verify_run_name] accepts it. *)
Theorem run_names_without_braces_are_valid run_name :
  brace_free run_name → Compiler._verify_run_name run_name = Ok tt.
Proof.
  intros Hfree. unfold Compiler._verify_run_name.
  rewrite (parse_literal run_name Hfree).
  rewrite decide_True; [done|].
  destruct (decide (run_name = "")); cbn; set_solver.
Qed.

Lemma parse_default_run_name pipeline_name :
  brace_free pipeline_name →
  Formatter.parse (Compiler._get_default_run_name pipeline_name)
  = Ok [(pipeline_name +:+ "-", Some "date"); ("-", Some "time")].
Proof.
  intros Hfree. unfold Formatter.parse, Compiler._get_default_run_name.
  rewrite (scan_literal pipeline_name Hfree "" "-{date}-{time}").
  change ("" +:+ pipeline_name) with pipeline_name. reflexivity.
Qed.

Lemma verify_default_run_name pipeline_name :
  brace_free pipeline_name →
  Compiler._verify_run_name (Compiler._get_default_run_name pipeline_name)
  = Ok tt.
Proof.
  intros Hfree. unfold Compiler._verify_run_name.
  rewrite (parse_default_run_name pipeline_name Hfree).
  rewrite decide_True; [done|]. cbn. set_solver.
Qed.

(** X18: the run name template of a deployment that [compile] returns
    passes [_verify_run_name], provided the name of the pipeline holds no
    brace: a run name that was supplied has passed the check, and the
    default that [_get_default_run_name] builds from the name of the
    pipeline holds the placeholders [date] and [time] only. *)
Theorem deployment_run_name_is_valid
    (key_resolves : Stack.t → string → bool) (default_merge : bool)
    (list_of_set : gset string → list string)
    (get_run_environment_dict : Dict.t string) pipeline p stack config s
    deployment spec :
  pipelines s !! pipeline = Some p →
  brace_free (Pipeline.name p) →
  (Compiler.compile key_resolves default_merge list_of_set
     get_run_environment_dict pipeline stack config s).2
  = Ok (deployment, spec) →
  Compiler._verify_run_name
    (PipelineDeploymentBaseModel.run_name_template deployment)
  = Ok tt
  ∧ (PipelineRunConfiguration.run_name config = None →
     PipelineDeploymentBaseModel.run_name_template deployment
     = Compiler._get_default_run_name (Pipeline.name p)).
Proof.
  intros Hp Hfree Hrun. apply compile_returns in Hrun.
  destruct Hrun
    as (p0 & validated & sorted & compiled & Hp0 & _ & Hname & _ & _ & _ & Hd
        & _).
  rewrite Hp in Hp0. injection Hp0 as Hp0. subst p0.
  cbn [fst] in Hd. subst deployment.
  cbn [PipelineDeploymentBaseModel.run_name_template].
  unfold run_name_check in Hname. split.
  - destruct (truthy (PipelineRunConfiguration.run_name config));
      [done | by apply verify_default_run_name].
  - by intros ->.
Qed.

(** ** The entries of the run configuration for single steps *)

Lemma foldl_step_update_other default_merge invocations l entries :
  ∀ k,
    (∀ other other_invocation,
       other ∈ Dict.keys entries →
       Dict.get invocations other = Some other_invocation →
       StepInvocation.step other_invocation ≠ l) →
    foldl (step_update default_merge invocations l) k entries = k.
Proof.
  induction entries as [|[n u] entries IH]; intros k Hother; [done|].
  cbn [foldl]. unfold step_update at 2. cbn [fst snd].
  rewrite decide_False.
  - apply IH. intros other oi Hin. apply Hother.
    by apply list_elem_of_further.
  - destruct (Dict.get invocations n) as [oi|] eqn:Hoi; [|done].
    cbn. intros [= Heq]. by apply (Hother n oi (list_elem_of_here _ _)).
Qed.

Lemma boolean_updates_fields default_merge config k :
  let k' := boolean_updates default_merge config k in
  StepConfiguration.enable_cache k'
  = or_else (PipelineRunConfiguration.enable_cache config)
      (StepConfiguration.enable_cache k)
  ∧ StepConfiguration.enable_artifact_metadata k'
    = or_else (PipelineRunConfiguration.enable_artifact_metadata config)
        (StepConfiguration.enable_artifact_metadata k)
  ∧ StepConfiguration.enable_artifact_visualization k'
    = or_else (PipelineRunConfiguration.enable_artifact_visualization config)
        (StepConfiguration.enable_artifact_visualization k)
  ∧ StepConfiguration.step_operator k' = StepConfiguration.step_operator k
  ∧ StepConfiguration.experiment_tracker k'
    = StepConfiguration.experiment_tracker k
  ∧ StepConfiguration.failure_hook_source k'
    = StepConfiguration.failure_hook_source k
  ∧ StepConfiguration.success_hook_source k'
    = StepConfiguration.success_hook_source k.
Proof.
  unfold boolean_updates, override.
  by destruct (PipelineRunConfiguration.enable_cache config),
    (PipelineRunConfiguration.enable_artifact_metadata config),
    (PipelineRunConfiguration.enable_artifact_visualization config).
Qed.

Lemma run_configured_entry default_merge invocations config before name
    update after invocation k :
  PipelineRunConfiguration.steps config = before ++ (name, update) :: after →
  Dict.get invocations name = Some invocation →
  (∀ other other_invocation,
     other ∈ Dict.keys (before ++ after) →
     Dict.get invocations other = Some other_invocation →
     StepInvocation.step other_invocation ≠ StepInvocation.step invocation) →
  run_configured default_merge invocations config
    (StepInvocation.step invocation) k
  = boolean_updates default_merge config
      (update_step_configuration default_merge k update).
Proof.
  intros Hsteps Hinv Hother.
  unfold run_configured. rewrite Hsteps, foldl_app. cbn [foldl].
  rewrite (foldl_step_update_other default_merge invocations
             (StepInvocation.step invocation) before).
  2: { intros other oi Hin. apply Hother. unfold Dict.keys.
       rewrite fmap_app, elem_of_app. by left. }
  rewrite (foldl_step_update_other default_merge invocations
             (StepInvocation.step invocation) after).
  2: { intros other oi Hin. apply Hother. unfold Dict.keys.
       rewrite fmap_app, elem_of_app. by right. }
  unfold step_update. cbn [fst snd]. rewrite Hinv.
  by rewrite decide_True.
Qed.

(** X19: an entry of the run configuration for a step reaches the
    compiled step. If the entry is the only one that configures the step
    object of the invocation, then in the deployment that [compile]
    returns on a well-formed store the step operator and the experiment tracker of the step are
    those of the entry if the entry sets them and else those of the step;
    each of the three booleans is that of the run configuration if set,
    else that of the entry if set, else that of the step; and a hook is
    that of the entry, else that of the step, else that of the
    pipeline. *)
Theorem step_entry_of_the_run_configuration
    (key_resolves : Stack.t → string → bool) (default_merge : bool)
    (list_of_set : gset string → list string)
    (get_run_environment_dict : Dict.t string) pipeline p stack config s
    deployment spec before name update after invocation b step :
  well_formed s pipeline →
  pipelines s !! pipeline = Some p →
  (Compiler.compile key_resolves default_merge list_of_set
     get_run_environment_dict pipeline stack config s).2
  = Ok (deployment, spec) →
  PipelineRunConfiguration.steps config = before ++ (name, update) :: after →
  Dict.get (Pipeline.invocations p) name = Some invocation →
  steps s !! StepInvocation.step invocation = Some b →
  (∀ other other_invocation,
     other ∈ Dict.keys (before ++ after) →
     Dict.get (Pipeline.invocations p) other = Some other_invocation →
     StepInvocation.step other_invocation ≠ StepInvocation.step invocation) →
  Dict.get (PipelineDeploymentBaseModel.step_configurations deployment) name
  = Some step →
  let own := BaseStep.configuration b in
  let compiled := Step.config step in
  StepConfiguration.step_operator compiled
  = or_else (StepConfigurationUpdate.step_operator update)
      (StepConfiguration.step_operator own)
  ∧ StepConfiguration.experiment_tracker compiled
    = or_else (StepConfigurationUpdate.experiment_tracker update)
        (StepConfiguration.experiment_tracker own)
  ∧ StepConfiguration.enable_cache compiled
    = or_else (PipelineRunConfiguration.enable_cache config)
        (or_else (StepConfigurationUpdate.enable_cache update)
           (StepConfiguration.enable_cache own))
  ∧ StepConfiguration.enable_artifact_metadata compiled
    = or_else (PipelineRunConfiguration.enable_artifact_metadata config)
        (or_else (StepConfigurationUpdate.enable_artifact_metadata update)
           (StepConfiguration.enable_artifact_metadata own))
  ∧ StepConfiguration.enable_artifact_visualization compiled
    = or_else (PipelineRunConfiguration.enable_artifact_visualization config)
        (or_else
           (StepConfigurationUpdate.enable_artifact_visualization update)
           (StepConfiguration.enable_artifact_visualization own))
  ∧ StepConfiguration.failure_hook_source compiled
    = or_else
        (or_else (StepConfigurationUpdate.failure_hook_source update)
           (StepConfiguration.failure_hook_source own))
        (PipelineConfiguration.failure_hook_source (Pipeline.configuration p))
  ∧ StepConfiguration.success_hook_source compiled
    = or_else
        (or_else (StepConfigurationUpdate.success_hook_source update)
           (StepConfiguration.success_hook_source own))
        (PipelineConfiguration.success_hook_source (Pipeline.configuration p)).
Proof.
  intros Hwf Hp Hrun Hsteps Hinv Hb Hother Hstep.
  rewrite (compile_exact key_resolves default_merge list_of_set
             get_run_environment_dict s pipeline stack config Hwf) in Hrun.
  unfold compile_pure in Hrun. rewrite Hp in Hrun.
  destruct (first_unknown_step config (Pipeline.invocations p)); [done|].
  destruct (run_name_check config); [|done].
  destruct (validate key_resolves PIPELINE stack [] _).2 as [validated|];
    [|done].
  cbn zeta in Hrun.
  destruct (verify_all _ (Pipeline.invocations p)); [|done].
  destruct (sorted_step_names list_of_set (Pipeline.invocations p))
    as [names|]; [|done].
  destruct (mapM_res _ names) as [compiled|] eqn:Hcompiled; [|done].
  destruct (Compiler._ensure_required_stack_components_exist stack _);
    [|done].
  injection Hrun as Hd _. subst deployment.
  cbn [PipelineDeploymentBaseModel.step_configurations] in Hstep.
  apply Dict.get_Some_elem, Dict.elem_of_of_items in Hstep.
  destruct (mapM_res_elem _ _ _ _ Hcompiled Hstep) as (n & _ & Hn).
  unfold compile_named in Hn.
  destruct (Dict.get (Pipeline.invocations p) n) as [inv|] eqn:Hget;
    [|done].
  destruct (steps s !! StepInvocation.step inv) as [b0|] eqn:Hb0; [|done].
  cbn zeta in Hn.
  destruct (validate key_resolves STEP stack [] _).2 as [step_settings|];
    [|done].
  injection Hn as Hn Hresult. subst n.
  rewrite Hinv in Hget. injection Hget as Hget. subst inv.
  rewrite Hb in Hb0. injection Hb0 as Hb0. subst b0.
  subst step. cbn zeta. cbn [Step.config].
  rewrite (run_configured_entry default_merge (Pipeline.invocations p) config
             before name update after invocation (BaseStep.configuration b)
             Hsteps Hinv Hother).
  destruct (boolean_updates_fields default_merge config
              (update_step_configuration default_merge
                 (BaseStep.configuration b) update))
    as (H1 & H2 & H3 & H4 & H5 & H6 & H7).
  cbn zeta in H1, H2, H3, H4, H5, H6, H7.
  unfold compiled_configuration.
  cbn [update_step_configuration StepConfiguration.step_operator
       StepConfiguration.experiment_tracker StepConfiguration.enable_cache
       StepConfiguration.enable_artifact_metadata
       StepConfiguration.enable_artifact_visualization
       StepConfiguration.failure_hook_source
       StepConfiguration.success_hook_source
       StepConfigurationUpdate.step_operator
       StepConfigurationUpdate.experiment_tracker
       StepConfigurationUpdate.enable_cache
       StepConfigurationUpdate.enable_artifact_metadata
       StepConfigurationUpdate.enable_artifact_visualization
       StepConfigurationUpdate.failure_hook_source
       StepConfigurationUpdate.success_hook_source or_else
       set_settings PipelineConfiguration.failure_hook_source
       PipelineConfiguration.success_hook_source] in *.
  rewrite H1, H2, H3, H4, H5, H6, H7.
  split_and!; try done.
  - destruct (StepConfigurationUpdate.failure_hook_source update); [done|].
    destruct (StepConfiguration.failure_hook_source
                (BaseStep.configuration b)); [done|].
    unfold prepared_configuration.
    by destruct (PipelineConfiguration.failure_hook_source _).
  - destruct (StepConfigurationUpdate.success_hook_source update); [done|].
    destruct (StepConfiguration.success_hook_source
                (BaseStep.configuration b)); [done|].
    unfold prepared_configuration.
    by destruct (PipelineConfiguration.success_hook_source _).
Qed.

(** ** The components that a deployment asks for *)

(** X20: a deployment that [compile] returns on a well-formed store asks
    for components that the stack has: a step of the deployment that names a step operator names
    the step operator of the stack, and one that names an experiment
    tracker names the experiment tracker of the stack. *)
Theorem deployment_components_exist
    (key_resolves : Stack.t → string → bool) (default_merge : bool)
    (list_of_set : gset string → list string)
    (get_run_environment_dict : Dict.t string) pipeline stack config s
    deployment spec :
  well_formed s pipeline →
  (Compiler.compile key_resolves default_merge list_of_set
     get_run_environment_dict pipeline stack config s).2
  = Ok (deployment, spec) →
  ∀ name step,
    (name, step)
    ∈ PipelineDeploymentBaseModel.step_configurations deployment →
    requirement_met (Stack.step_operator stack)
      (StepConfiguration.step_operator (Step.config step))
    ∧ requirement_met (Stack.experiment_tracker stack)
        (StepConfiguration.experiment_tracker (Step.config step)).
Proof.
  intros Hwf Hrun.
  rewrite (compile_exact key_resolves default_merge list_of_set
             get_run_environment_dict s pipeline stack config Hwf) in Hrun.
  unfold compile_pure in Hrun.
  destruct (pipelines s !! pipeline) as [p|]; [|done].
  destruct (first_unknown_step config (Pipeline.invocations p)); [done|].
  destruct (run_name_check config); [|done].
  destruct (validate key_resolves PIPELINE stack [] _).2 as [validated|];
    [|done].
  cbn zeta in Hrun.
  destruct (verify_all _ (Pipeline.invocations p)); [|done].
  destruct (sorted_step_names list_of_set (Pipeline.invocations p))
    as [names|]; [|done].
  destruct (mapM_res _ names) as [compiled|]; [|done].
  destruct (Compiler._ensure_required_stack_components_exist stack
              (Dict.of_items compiled)) as [[]|] eqn:Hensure; [|done].
  injection Hrun as Hd _. subst deployment.
  cbn [PipelineDeploymentBaseModel.step_configurations].
  apply ensure_required_stack_components_exist_Ok in Hensure.
  intros name step Hin.
  apply (check_required_components_Ok stack (name, step)).
  by apply (proj1 (Forall_forall _ _) Hensure).
Qed.

(** * The further properties at work

    The pipeline of the example on a stack with a step operator: the
    step operator has a settings class, the step [train] runs on it and
    overrides one of its settings, and the run configuration has an entry
    for [train]. *)

Module Cloud.

Definition vertex_settings : SettingsClass.t :=
  SettingsClass.mk ["region"; "machine"] [STEP; PIPELINE].

Definition vertex : StackComponent.t :=
  StackComponent.mk "vertex" "step_operator" "vertex" (Some vertex_settings)
    (StackComponentConfig.mk
       [("region", "europe"); ("machine", "n2"); ("project", "zenml")]
       ["region"; "machine"; "project"]
       [("machine", "n1")]).

Definition orchestrator : StackComponent.t :=
  StackComponent.mk "default" "orchestrator" "local" None
    (StackComponentConfig.mk [] [] []).

Definition stack : Stack.t :=
  Stack.mk "cloud"
    [("orchestrator", orchestrator); ("step_operator", vertex)]
    (Some vertex) None.

Definition key_resolves (stack : Stack.t) (key : string) : bool :=
  bool_decide (key ∈ ["docker"; "step_operator.vertex"]).

Definition settings_train : BaseSettings.t :=
  BaseSettings.mk [STEP; PIPELINE] [("machine", "a2")].

Definition configuration_train : StepConfiguration.t :=
  StepConfiguration.mk None None None (Some "vertex") None
    [("step_operator.vertex", settings_train)]
    [("team", "research")] None None.

Definition settings_pipeline : BaseSettings.t :=
  BaseSettings.mk [STEP; PIPELINE] [("region", "asia")].

Definition pipeline_configuration : PipelineConfiguration.t :=
  PipelineConfiguration.mk (Some true) None None
    [("step_operator.vertex", settings_pipeline)]
    [("team", "platform"); ("owner", "ml")]
    (Some "hooks.alert") None.

Definition pipeline : Pipeline.t :=
  Pipeline.mk "training" pipeline_configuration
    [("train", Example.train); ("load", Example.load)]
    false "pipelines.training" [].

Definition step_train : BaseStep.t :=
  BaseStep.mk "steps.train" configuration_train.

Definition store : State :=
  mkState {[ 1%positive := pipeline ]}
    {[ 1%positive := BaseStep.mk "steps.load" Example.configuration_load;
       2%positive := step_train ]}
    [].

Definition update_train : StepConfigurationUpdate.t :=
  StepConfigurationUpdate.mk (Some false) None None None None None None
    (Some "hooks.retry") None.

Definition run_configuration : PipelineRunConfiguration.t :=
  PipelineRunConfiguration.mk None None (Some false) None
    [("train", update_train)] [] [].

(** A run configuration with more than one fault: a run name that is
    not a format string and an entry for a step that does not exist. *)
Definition broken_configuration : PipelineRunConfiguration.t :=
  PipelineRunConfiguration.mk (Some "run-}") None None None
    [("train", update_train); ("ghost", StepConfigurationUpdate.empty)]
    [] [].

(** Compiled steps as [_ensure_required_stack_components_exist] gets
    them. *)
Definition compiled_load : Step.t :=
  Step.mk (StepSpec.mk "steps.load" [] [] "load") Example.configuration_load.

Definition compiled_train : Step.t :=
  Step.mk (StepSpec.mk "steps.train" ["load"] [] "train") configuration_train.

Lemma cloud_store_well_formed : well_formed store 1%positive.
Proof.
  exists pipeline. split; [reflexivity|].
  split; [exact Example.pipeline_NoDup|].
  apply Example.steps_exist. apply (bool_decide_unpack _). vm_compute.
  exact I.
Defined.

End Cloud.

(** The stack of the example has no step operator; [train] asks for
    one. *)
Lemma first_missing_component_is_reported_witness :
  Compiler._ensure_required_stack_components_exist Example.stack
    ([("load", Cloud.compiled_load)] ++ [("train", Cloud.compiled_train)])
  = Raise (Exn StackValidationError
             (MissingStepOperator "train" "vertex" "default" ∅)).
Proof.
  destruct (first_missing_component_is_reported Example.stack
              [("load", Cloud.compiled_load)] "train" Cloud.compiled_train [])
    as [Hoperator _].
  - vm_compute. reflexivity.
  - apply (Hoperator "vertex").
    + reflexivity.
    + discriminate.
    + apply not_elem_of_empty.
Defined.

(** Of the two settings of [load] the stack resolves [docker] only. *)
Lemma validated_settings_are_the_resolved_entries_witness :
  Compiler._filter_and_validate_settings Example.key_resolves
    [("docker", Example.settings_docker);
     ("kubernetes", Example.settings_kubernetes)]
    STEP Example.stack Example.store
  = (mkState (pipelines Example.store) (steps Example.store)
       [Info_not_including_settings "kubernetes"],
     Ok [("docker", Example.settings_docker)]).
Proof.
  apply (validated_settings_are_the_resolved_entries Example.key_resolves
           [("docker", Example.settings_docker);
            ("kubernetes", Example.settings_kubernetes)]
           STEP Example.stack Example.store).
  - apply (bool_decide_unpack _). vm_compute. exact I.
  - intros key inst Hin Hresolves.
    apply elem_of_cons in Hin as [[= -> ->]|Hin];
      [apply list_elem_of_here|].
    apply elem_of_cons in Hin as [[= -> ->]|Hin];
      [discriminate Hresolves | by apply elem_of_nil in Hin].
Defined.

Lemma step_spec_of_an_invocation_witness :
  ∃ spec,
    Compiler._get_step_spec (reverse ∘ elements) Example.train Example.store
    = (Example.store, Ok spec)
    ∧ StepSpec.source spec = "steps.train"
    ∧ StepSpec.pipeline_parameter_name spec = "train"
    ∧ Sorted str_le (StepSpec.upstream_steps spec)
    ∧ NoDup (StepSpec.upstream_steps spec)
    ∧ (∀ name, name ∈ StepSpec.upstream_steps spec
               ↔ name ∈ StepInvocation.upstream_steps Example.train)
    ∧ (∀ key, key ∈ Dict.keys (StepSpec.inputs spec)
              ↔ key ∈ Dict.keys (StepInvocation.input_artifacts Example.train))
    ∧ (∀ key input,
         Dict.get (StepSpec.inputs spec) key = Some input →
         ∃ artifact,
           (key, artifact) ∈ StepInvocation.input_artifacts Example.train
           ∧ input = InputSpec.mk (StepArtifact.invocation_id artifact)
                       (StepArtifact.output_name artifact)).
Proof.
  apply (step_spec_of_an_invocation (reverse ∘ elements) Example.train
           (BaseStep.mk "steps.train" Example.configuration_train)
           Example.store).
  - intros X. apply reverse_Permutation.
  - reflexivity.
Defined.

(** [train] sets the machine of the step operator and its own team; the
    pipeline passes down the region, a team, an owner and a failure
    hook. *)
Lemma step_values_win_over_pipeline_values_witness :
  ∃ s' step,
    Compiler._compile_step_invocation Cloud.key_resolves elements
      Example.train
      [("step_operator.vertex", Cloud.settings_pipeline)]
      [("team", "platform"); ("owner", "ml")]
      Cloud.stack (Some "hooks.alert") None Cloud.store
    = (s', Ok step)
    ∧ StepConfiguration.failure_hook_source (Step.config step)
      = Some "hooks.alert"
    ∧ Dict.get (StepConfiguration.extra (Step.config step)) "team"
      = Some "research"
    ∧ Dict.get (StepConfiguration.extra (Step.config step)) "owner"
      = Some "ml"
    ∧ StepConfiguration.step_operator (Step.config step) = Some "vertex".
Proof.
  destruct (Compiler._compile_step_invocation Cloud.key_resolves elements
              Example.train
              [("step_operator.vertex", Cloud.settings_pipeline)]
              [("team", "platform"); ("owner", "ml")]
              Cloud.stack (Some "hooks.alert") None Cloud.store)
    as [s' [step|e]] eqn:Hrun; [|vm_compute in Hrun; discriminate Hrun].
  exists s', step. split; [reflexivity|].
  destruct (step_values_win_over_pipeline_values Cloud.key_resolves elements
              Example.train
              [("step_operator.vertex", Cloud.settings_pipeline)]
              [("team", "platform"); ("owner", "ml")]
              Cloud.stack (Some "hooks.alert") None Cloud.store s'
              Cloud.step_train step)
    as (Hfailure & _ & Hextra & _ & _ & _ & _ & Hoperator & _).
  - reflexivity.
  - apply (bool_decide_unpack _). vm_compute. exact I.
  - exact Hrun.
  - rewrite Hfailure, !Hextra, Hoperator. vm_compute. done.
Defined.

(** The step operator of the stack has a settings class; the orchestrator
    has none. *)
Lemma stack_defaults_are_added_witness :
  ∃ settings,
    Compiler._apply_stack_default_settings 1%positive Cloud.stack Cloud.store
    = (mkState
         (<[1%positive :=
              set_pipeline_configuration Cloud.pipeline
                (set_settings Cloud.pipeline_configuration settings)]>
            (pipelines Cloud.store))
         (steps Cloud.store) (log Cloud.store),
       Ok tt)
    ∧ "step_operator.vertex" ∈ Dict.keys settings
    ∧ Dict.get settings "docker" = None.
Proof.
  destruct (stack_defaults_are_added 1%positive Cloud.stack Cloud.pipeline
              Cloud.store)
    as (settings & Hrun & Hkeys & Hother); [reflexivity|].
  exists settings. split; [exact Hrun|]. split.
  - apply Hkeys. right. exists Cloud.vertex. split_and!.
    + apply list_elem_of_further, list_elem_of_here.
    + by eexists.
    + reflexivity.
  - rewrite (Hother "docker"); [reflexivity|].
    intros component Hin Hclass.
    apply elem_of_cons in Hin as [->|Hin];
      [by destruct Hclass|].
    apply elem_of_cons in Hin as [->|Hin];
      [discriminate | by apply elem_of_nil in Hin].
Defined.

(** The pipeline sets the region of the step operator; the machine is
    the default of the stack component. *)
Lemma pipeline_settings_win_over_stack_defaults_witness :
  ∃ p' inst,
    pipelines
      (Compiler._apply_stack_default_settings 1%positive Cloud.stack
         Cloud.store).1 !! 1%positive = Some p'
    ∧ Dict.get (PipelineConfiguration.settings (Pipeline.configuration p'))
        "step_operator.vertex" = Some inst
    ∧ Dict.get (BaseSettings.values inst) "region" = Some "asia"
    ∧ Dict.get (BaseSettings.values inst) "machine" = Some "n2"
    ∧ Dict.get (BaseSettings.values inst) "project" = None.
Proof.
  destruct (pipeline_settings_win_over_stack_defaults 1%positive Cloud.stack
              Cloud.pipeline Cloud.store [Cloud.orchestrator] Cloud.vertex []
              Cloud.vertex_settings)
    as (p' & inst & Hp' & Hinst & _ & Hfields & _).
  - reflexivity.
  - reflexivity.
  - reflexivity.
  - intros other Hin Hclass.
    apply elem_of_cons in Hin as [->|Hin];
      [by destruct Hclass | by apply elem_of_nil in Hin].
  - exists p', inst. split; [exact Hp'|]. split; [exact Hinst|].
    rewrite !(Hfields Cloud.settings_pipeline eq_refl
                ltac:(apply (bool_decide_unpack _); vm_compute; exact I)).
    vm_compute. done.
Defined.

(** [train] is defined before [load] and stands after it in the
    deployment. *)
Lemma deployment_steps_follow_their_upstream_steps_witness :
  ∃ deployment spec,
    (Compiler.compile Cloud.key_resolves true elements [] 1%positive
       Cloud.stack Cloud.run_configuration Cloud.store).2
    = Ok (deployment, spec)
    ∧ Dict.keys (Pipeline.invocations Cloud.pipeline) = ["train"; "load"]
    ∧ NoDup (Dict.keys
               (PipelineDeploymentBaseModel.step_configurations deployment))
    ∧ ∀ before name step after,
        PipelineDeploymentBaseModel.step_configurations deployment
        = before ++ (name, step) :: after →
        ∀ upstream,
          upstream ∈ StepSpec.upstream_steps (Step.spec step) →
          upstream ∈ Dict.keys before.
Proof.
  destruct (Compiler.compile Cloud.key_resolves true elements [] 1%positive
              Cloud.stack Cloud.run_configuration Cloud.store).2
    as [[deployment spec]|e] eqn:Hrun; [|vm_compute in Hrun; discriminate Hrun].
  exists deployment, spec. split; [reflexivity|]. split; [reflexivity|].
  exact (deployment_steps_follow_their_upstream_steps Cloud.key_resolves true
           elements [] 1%positive Cloud.stack Cloud.run_configuration
           Cloud.store deployment spec Example.list_of_set_perm
           Cloud.cloud_store_well_formed Hrun).
Defined.

(** [compile_spec] enumerates the sets of step names backwards. *)
Lemma compile_spec_agrees_with_compile_witness :
  ∃ deployment spec,
    (Compiler.compile Cloud.key_resolves true elements [] 1%positive
       Cloud.stack Cloud.run_configuration Cloud.store).2
    = Ok (deployment, spec)
    ∧ (Compiler.compile_spec (reverse ∘ elements) 1%positive Cloud.store).2
      = Ok spec.
Proof.
  destruct (Compiler.compile Cloud.key_resolves true elements [] 1%positive
              Cloud.stack Cloud.run_configuration Cloud.store).2
    as [[deployment spec]|e] eqn:Hrun; [|vm_compute in Hrun; discriminate Hrun].
  exists deployment, spec. split; [reflexivity|].
  apply (compile_spec_agrees_with_compile Cloud.key_resolves true elements
           (reverse ∘ elements) [] 1%positive Cloud.stack
           Cloud.run_configuration Cloud.store deployment spec).
  - exact Example.list_of_set_perm.
  - intros X. apply reverse_Permutation.
  - exact Cloud.cloud_store_well_formed.
  - exact Hrun.
Defined.

(** The two pipelines of the example: one that can run, one with two
    invocations that wait for each other. *)
Lemma compile_spec_succeeds_iff_witness :
  is_Ok (Compiler.compile_spec elements 1%positive Example.store).2
  ∧ ¬ is_Ok (Compiler.compile_spec elements 1%positive Example.cyclic_store).2.
Proof.
  split.
  - apply (compile_spec_succeeds_iff elements 1%positive Example.pipeline
             Example.store Example.list_of_set_perm Example.store_well_formed
             eq_refl).
    split; [|exact Example.pipeline_acyclic].
    apply upstream_closed_verify_all. vm_compute. reflexivity.
  - vm_compute. auto.
Defined.

Lemma compile_spec_lists_every_invocation_witness :
  ∃ spec,
    (Compiler.compile_spec elements 1%positive Example.store).2 = Ok spec
    ∧ (PipelineSpec.version spec, PipelineSpec.source spec,
       PipelineSpec.parameters spec)
      = (None, Some "pipelines.training", Some []).
Proof.
  destruct (Compiler.compile_spec elements 1%positive Example.store).2
    as [spec|e] eqn:Hrun; [|vm_compute in Hrun; discriminate Hrun].
  exists spec. split; [reflexivity|].
  exact (proj2 (compile_spec_lists_every_invocation elements 1%positive
                  Example.pipeline Example.store spec
                  Example.list_of_set_perm Example.store_well_formed
                  eq_refl Hrun)).
Defined.

(** The run name of the run configuration is not a format string either;
    the KeyError of the step [ghost] is what [compile] raises. *)
Lemma unknown_step_of_the_run_configuration_witness :
  (Compiler.compile Cloud.key_resolves true elements [] 1%positive
     Cloud.stack Cloud.broken_configuration Cloud.store).2
  = Raise (Exn KeyError (NoStepWithName "ghost")).
Proof.
  apply (unknown_step_of_the_run_configuration Cloud.key_resolves true
           elements [] 1%positive Cloud.pipeline Cloud.stack
           Cloud.broken_configuration Cloud.store
           [("train", Cloud.update_train)] "ghost"
           StepConfigurationUpdate.empty []).
  - exact Cloud.cloud_store_well_formed.
  - reflexivity.
  - reflexivity.
  - intros known Hin.
    apply elem_of_cons in Hin as [->|Hin];
      [apply list_elem_of_here | by apply elem_of_nil in Hin].
  - apply (bool_decide_unpack _). vm_compute. exact I.
Defined.

(** The pipeline enables the cache; the run configuration disables the
    artifact metadata. *)
Lemma run_configuration_reaches_the_pipeline_configuration_witness :
  ∃ deployment spec,
    (Compiler.compile Cloud.key_resolves true elements [] 1%positive
       Cloud.stack Cloud.run_configuration Cloud.store).2
    = Ok (deployment, spec)
    ∧ PipelineConfiguration.enable_cache
        (PipelineDeploymentBaseModel.pipeline_configuration deployment)
      = Some true
    ∧ PipelineConfiguration.enable_artifact_metadata
        (PipelineDeploymentBaseModel.pipeline_configuration deployment)
      = Some false
    ∧ PipelineConfiguration.failure_hook_source
        (PipelineDeploymentBaseModel.pipeline_configuration deployment)
      = Some "hooks.alert".
Proof.
  destruct (Compiler.compile Cloud.key_resolves true elements [] 1%positive
              Cloud.stack Cloud.run_configuration Cloud.store).2
    as [[deployment spec]|e] eqn:Hrun; [|vm_compute in Hrun; discriminate Hrun].
  exists deployment, spec. split; [reflexivity|].
  destruct (run_configuration_reaches_the_pipeline_configuration
              Cloud.key_resolves true elements [] 1%positive Cloud.pipeline
              Cloud.stack Cloud.run_configuration Cloud.store deployment spec)
    as (Hcache & Hmetadata & _ & Hfailure & _).
  - reflexivity.
  - exact Hrun.
  - rewrite Hcache, Hmetadata, Hfailure. split_and!; reflexivity.
Defined.

(** The settings of the step operator stand on the pipeline; [load] has
    none of its own and gets those of the pipeline, [train] has the
    machine of its own and gets those of the pipeline updated with it. *)
Lemma pipeline_settings_are_passed_down_witness :
  ∃ deployment spec step_load step_train,
    (Compiler.compile Cloud.key_resolves true elements [] 1%positive
       Cloud.stack Cloud.run_configuration Cloud.store).2
    = Ok (deployment, spec)
    ∧ Dict.get (PipelineDeploymentBaseModel.step_configurations deployment)
        "load" = Some step_load
    ∧ Dict.get (PipelineDeploymentBaseModel.step_configurations deployment)
        "train" = Some step_train
    ∧ Dict.get (StepConfiguration.settings (Step.config step_load))
        "step_operator.vertex"
      = Some (BaseSettings.mk [STEP; PIPELINE]
                [("region", "asia"); ("machine", "n2")])
    ∧ Dict.get (StepConfiguration.settings (Step.config step_train))
        "step_operator.vertex"
      = Some (update_model
                (BaseSettings.mk [STEP; PIPELINE]
                   [("region", "asia"); ("machine", "n2")])
                Cloud.settings_train).
Proof.
  destruct (Compiler.compile Cloud.key_resolves true elements [] 1%positive
              Cloud.stack Cloud.run_configuration Cloud.store).2
    as [[deployment spec]|e] eqn:Hrun; [|vm_compute in Hrun; discriminate Hrun].
  destruct (Dict.get
              (PipelineDeploymentBaseModel.step_configurations deployment)
              "load") as [step_load|] eqn:Hload.
  2: { vm_compute in Hrun. injection Hrun as <- _. discriminate Hload. }
  destruct (Dict.get
              (PipelineDeploymentBaseModel.step_configurations deployment)
              "train") as [step_train|] eqn:Htrain.
  2: { vm_compute in Hrun. injection Hrun as <- _. discriminate Htrain. }
  exists deployment, spec, step_load, step_train.
  split; [reflexivity|]. split; [exact Hload|]. split; [exact Htrain|].
  pose proof (pipeline_settings_are_passed_down Cloud.key_resolves true
                elements [] 1%positive Cloud.stack Cloud.run_configuration
                Cloud.store deployment spec Hrun "step_operator.vertex"
                (BaseSettings.mk [STEP; PIPELINE]
                   [("region", "asia"); ("machine", "n2")]))
    as Hdown.
  assert (Dict.get
            (PipelineConfiguration.settings
               (PipelineDeploymentBaseModel.pipeline_configuration
                  deployment))
            "step_operator.vertex"
          = Some (BaseSettings.mk [STEP; PIPELINE]
                    [("region", "asia"); ("machine", "n2")])) as Hget.
  { vm_compute in Hrun. injection Hrun as <- _. reflexivity. }
  specialize (Hdown Hget (list_elem_of_here _ _)).
  split.
  - destruct (Hdown "load" step_load (Dict.get_Some_elem _ _ _ Hload))
      as (compiled & Hcompiled & _ & Hsource).
    destruct (Hsource Cloud.pipeline)
      as (invocation & b & Hinvocation & Hb & Hcompiled').
    { exact Cloud.cloud_store_well_formed. }
    { reflexivity. }
    vm_compute in Hinvocation. injection Hinvocation as <-.
    vm_compute in Hb. injection Hb as <-.
    rewrite Hcompiled, Hcompiled'; [vm_compute; reflexivity|].
    apply (bool_decide_unpack _). vm_compute. exact I.
  - destruct (Hdown "train" step_train (Dict.get_Some_elem _ _ _ Htrain))
      as (compiled & Hcompiled & _ & Hsource).
    destruct (Hsource Cloud.pipeline)
      as (invocation & b & Hinvocation & Hb & Hcompiled').
    { exact Cloud.cloud_store_well_formed. }
    { reflexivity. }
    vm_compute in Hinvocation. injection Hinvocation as <-.
    vm_compute in Hb. injection Hb as <-.
    rewrite Hcompiled, Hcompiled'; [vm_compute; reflexivity|].
    apply (bool_decide_unpack _). vm_compute. exact I.
Defined.

Lemma deployment_settings_support_their_level_witness :
  ∃ deployment spec,
    (Compiler.compile Cloud.key_resolves true elements [] 1%positive
       Cloud.stack Cloud.run_configuration Cloud.store).2
    = Ok (deployment, spec)
    ∧ (∀ key inst,
         (key, inst)
         ∈ PipelineConfiguration.settings
             (PipelineDeploymentBaseModel.pipeline_configuration deployment) →
         PIPELINE ∈ BaseSettings.LEVEL inst
         ∧ Cloud.key_resolves Cloud.stack key = true)
    ∧ (∀ name step key inst,
         (name, step)
         ∈ PipelineDeploymentBaseModel.step_configurations deployment →
         (key, inst) ∈ StepConfiguration.settings (Step.config step) →
         STEP ∈ BaseSettings.LEVEL inst
         ∧ Cloud.key_resolves Cloud.stack key = true).
Proof.
  destruct (Compiler.compile Cloud.key_resolves true elements [] 1%positive
              Cloud.stack Cloud.run_configuration Cloud.store).2
    as [[deployment spec]|e] eqn:Hrun; [|vm_compute in Hrun; discriminate Hrun].
  exists deployment, spec. split; [reflexivity|].
  exact (deployment_settings_support_their_level Cloud.key_resolves true
           elements [] 1%positive Cloud.stack Cloud.run_configuration
           Cloud.store deployment spec Hrun).
Defined.

Lemma run_names_without_braces_are_valid_witness :
  Compiler._verify_run_name "nightly-run" = Ok tt.
Proof.
  apply (run_names_without_braces_are_valid "nightly-run").
  apply (bool_decide_unpack _). vm_compute. exact I.
Defined.

(** The run configuration has no run name. *)
Lemma deployment_run_name_is_valid_witness :
  ∃ deployment spec,
    (Compiler.compile Cloud.key_resolves true elements [] 1%positive
       Cloud.stack Cloud.run_configuration Cloud.store).2
    = Ok (deployment, spec)
    ∧ Compiler._verify_run_name
        (PipelineDeploymentBaseModel.run_name_template deployment)
      = Ok tt
    ∧ PipelineDeploymentBaseModel.run_name_template deployment
      = "training-{date}-{time}".
Proof.
  destruct (Compiler.compile Cloud.key_resolves true elements [] 1%positive
              Cloud.stack Cloud.run_configuration Cloud.store).2
    as [[deployment spec]|e] eqn:Hrun; [|vm_compute in Hrun; discriminate Hrun].
  exists deployment, spec. split; [reflexivity|].
  destruct (deployment_run_name_is_valid Cloud.key_resolves true elements []
              1%positive Cloud.pipeline Cloud.stack Cloud.run_configuration
              Cloud.store deployment spec)
    as [Hvalid Htemplate].
  - reflexivity.
  - apply (bool_decide_unpack _). vm_compute. exact I.
  - exact Hrun.
  - split; [exact Hvalid|]. rewrite Htemplate; reflexivity.
Defined.

(** The entry for [train] disables its cache and sets a failure hook;
    the run configuration disables the artifact metadata. *)
Lemma step_entry_of_the_run_configuration_witness :
  ∃ deployment spec step,
    (Compiler.compile Cloud.key_resolves true elements [] 1%positive
       Cloud.stack Cloud.run_configuration Cloud.store).2
    = Ok (deployment, spec)
    ∧ Dict.get (PipelineDeploymentBaseModel.step_configurations deployment)
        "train" = Some step
    ∧ StepConfiguration.step_operator (Step.config step) = Some "vertex"
    ∧ StepConfiguration.enable_cache (Step.config step) = Some false
    ∧ StepConfiguration.enable_artifact_metadata (Step.config step)
      = Some false
    ∧ StepConfiguration.failure_hook_source (Step.config step)
      = Some "hooks.retry".
Proof.
  destruct (Compiler.compile Cloud.key_resolves true elements [] 1%positive
              Cloud.stack Cloud.run_configuration Cloud.store).2
    as [[deployment spec]|e] eqn:Hrun; [|vm_compute in Hrun; discriminate Hrun].
  destruct (Dict.get
              (PipelineDeploymentBaseModel.step_configurations deployment)
              "train") as [step|] eqn:Hstep.
  2: { vm_compute in Hrun. injection Hrun as <- _. discriminate Hstep. }
  exists deployment, spec, step. split; [reflexivity|].
  split; [exact Hstep|].
  destruct (step_entry_of_the_run_configuration Cloud.key_resolves true
              elements [] 1%positive Cloud.pipeline Cloud.stack
              Cloud.run_configuration Cloud.store deployment spec []
              "train" Cloud.update_train [] Example.train Cloud.step_train
              step)
    as (Hoperator & _ & Hcache & Hmetadata & _ & Hfailure & _).
  - exact Cloud.cloud_store_well_formed.
  - reflexivity.
  - exact Hrun.
  - reflexivity.
  - reflexivity.
  - reflexivity.
  - intros other other_invocation Hin. exfalso.
    exact (proj1 (elem_of_nil other) Hin).
  - exact Hstep.
  - rewrite Hoperator, Hcache, Hmetadata, Hfailure. split_and!; reflexivity.
Defined.

(** [train] asks for the step operator of the stack. *)
Lemma deployment_components_exist_witness :
  ∃ deployment spec,
    (Compiler.compile Cloud.key_resolves true elements [] 1%positive
       Cloud.stack Cloud.run_configuration Cloud.store).2
    = Ok (deployment, spec)
    ∧ ∀ name step,
        (name, step)
        ∈ PipelineDeploymentBaseModel.step_configurations deployment →
        requirement_met (Stack.step_operator Cloud.stack)
          (StepConfiguration.step_operator (Step.config step))
        ∧ requirement_met (Stack.experiment_tracker Cloud.stack)
            (StepConfiguration.experiment_tracker (Step.config step)).
Proof.
  destruct (Compiler.compile Cloud.key_resolves true elements [] 1%positive
              Cloud.stack Cloud.run_configuration Cloud.store).2
    as [[deployment spec]|e] eqn:Hrun; [|vm_compute in Hrun; discriminate Hrun].
  exists deployment, spec. split; [reflexivity|].
  exact (deployment_components_exist Cloud.key_resolves true elements []
           1%positive Cloud.stack Cloud.run_configuration Cloud.store
           deployment spec Cloud.cloud_store_well_formed Hrun).
Defined.
